(** * Mind map: tree store, undo history, layout and viewport

    A shallow embedding of [script.js] (class [MindMapApp]).

    Conventions of the embedding.
    - Node objects live in a heap (a list indexed by location); the JS [Map]
      [this.nodes] is an insertion-ordered association list from id to
      location.  A history snapshot made by [new Map(this.nodes)] copies the
      association list and shares the node objects, exactly as in the source.
    - JS numbers are modelled by exact rationals ([Q]) for coordinates and
      scales and by [Z] for levels and the id counter; rounding of doubles is
      not modelled.
    - DOM rendering is reduced to the list of [data-node-id]s of the node
      elements, which is what [getNodeElement] and [querySelector('.node')]
      observe, to the textareas that [startEditing] puts into them, and to
      the positions given to the elements and to the connection lines.
      Timers and logging are not modelled; of [localStorage] only the data
      object that is written and the value that is read back are.
    - Strings are UTF-8 byte strings.  An id is a string that can stand
      between the double quotes of the selector of [getNodeElement] (no
      double quote, backslash or line break, as in every id that
      [generateId] makes), and a colour is a string that can be part of a
      class name (no white space, as the colours of the menu).
    - A call that throws ends the listener that made it and leaves the
      state it has reached; the other listeners of the event still run.
      What the user types, where the focus is and when a textarea loses it
      are given with the events. *)

From Stdlib Require Import ZArith QArith Qminmax Qabs Lqa Lia.
From stdpp Require Import base option list strings pretty gmap.

Local Open Scope Z_scope.

(** ** Node objects and the heap *)

(** Locations are indices into the heap. *)
Abbreviation loc := nat (only parsing).

Module Node.
Record t := mk {
  id : string;
  text : string;
  level : Z;
  parent : option string;
  children : list string;
  x : Q;
  y : Q;
  color : option string
}.

Definition set_text (v : string) (n : t) : t :=
  mk (id n) v (level n) (parent n) (children n) (x n) (y n) (color n).
Definition set_children (v : list string) (n : t) : t :=
  mk (id n) (text n) (level n) (parent n) v (x n) (y n) (color n).
Definition set_x (v : Q) (n : t) : t :=
  mk (id n) (text n) (level n) (parent n) (children n) v (y n) (color n).
Definition set_y (v : Q) (n : t) : t :=
  mk (id n) (text n) (level n) (parent n) (children n) (x n) v (color n).
Definition set_color (v : option string) (n : t) : t :=
  mk (id n) (text n) (level n) (parent n) (children n) (x n) (y n) v.

(** The fields other than the coordinates. *)
Definition shape (n : t) : string * string * Z * option string * list string * option string :=
  (id n, text n, level n, parent n, children n, color n).

Definition dummy : t := mk "" "" 0 None [] 0%Q 0%Q None.
End Node.

#[global] Instance node_inhabited : Inhabited Node.t := populate Node.dummy.

Abbreviation heap := (list Node.t) (only parsing).

(** [obj.field = v] on the object at location [l]. *)
Definition store (f : Node.t → Node.t) (l : loc) (h : heap) : heap := alter f l h.

(** ** The JS [Map] from ids to node objects *)

Abbreviation jsmap := (list (string * loc)) (only parsing).

Fixpoint Map_get (k : string) (m : jsmap) : option loc :=
  match m with
  | [] => None
  | (k', v) :: m' => if decide (k' = k) then Some v else Map_get k m'
  end.

(** [set] on an existing key keeps the key's position. *)
Fixpoint Map_set {V : Type} (k : string) (v : V) (m : list (string * V)) : list (string * V) :=
  match m with
  | [] => [(k, v)]
  | (k', v') :: m' =>
      if decide (k' = k) then (k, v) :: m' else (k', v') :: Map_set k v m'
  end.

Definition Map_delete (k : string) (m : jsmap) : jsmap :=
  filter (λ e, e.1 ≠ k) m.

Definition Map_has (k : string) (m : jsmap) : bool :=
  bool_decide (is_Some (Map_get k m)).

Definition Map_keys (m : jsmap) : list string := m.*1.
Definition Map_values (m : jsmap) : list loc := m.*2.

(** [new Map(entries)] *)
Definition Map_from {V : Type} (entries : list (string * V)) : list (string * V) :=
  foldl (λ m e, Map_set e.1 e.2 m) [] entries.

(** JS truthiness of a value that is [null] or a string. *)
Definition truthy (v : option string) : bool :=
  match v with
  | Some s => negb (String.eqb s "")
  | None => false
  end.

(** ** Numbers *)

Definition Qltb (a b : Q) : bool := negb (Qle_bool b a).
Definition Qgtb (a b : Q) : bool := Qltb b a.
Definition ofnat (n : nat) : Q := inject_Z (Z.of_nat n).

(** [array.forEach((item, index) => ...)] threading a state. *)
Fixpoint forEach_from {A St : Type} (f : A → nat → St → St) (l : list A) (i : nat) (s : St) : St :=
  match l with
  | [] => s
  | a :: l' => forEach_from f l' (S i) (f a i s)
  end.

Definition forEachI {A St : Type} (f : A → nat → St → St) (l : list A) (s : St) : St :=
  forEach_from f l 0%nat s.

Definition forEach {A St : Type} (f : A → St → St) (l : list A) (s : St) : St :=
  foldl (λ s a, f a s) s l.

(** [forEach] whose body may fail to return (recursion without a bound). *)
Fixpoint forEachM {A St : Type} (f : A → St → option St) (l : list A) (s : St) : option St :=
  match l with
  | [] => Some s
  | a :: l' => match f a s with Some s' => forEachM f l' s' | None => None end
  end.

Definition Map_get_opt (k : option string) (m : jsmap) : option loc :=
  k ≫= λ k', Map_get k' m.

(** [ids.map(id => this.nodes.get(id)).filter(Boolean)] *)
Definition lookup_all (ids : list string) (m : jsmap) : list loc :=
  omap (λ k, Map_get k m) ids.

(** [Math.max(...l)] and [Math.min(...l)]; both call sites have checked that
    the array is not empty (the empty case, an infinity in JS, is not used). *)
Definition Math_max (l : list Q) : Q :=
  match l with [] => 0%Q | a :: l' => foldl Qmax a l' end.
Definition Math_min (l : list Q) : Q :=
  match l with [] => 0%Q | a :: l' => foldl Qmin a l' end.

(** ** Layout, phase A: directional placement *)

Section Layout.
Variable nodes : jsmap.

Definition layoutRootChildren (children : list loc) (h : heap) : heap :=
  let baseDistance := 320%Q in
  let minVerticalSpacing := 120%Q in
  let nodeHeight := 60%Q in
  let verticalSpacing := Qmax minVerticalSpacing (nodeHeight + 40) in
  let '(rightNodes, leftNodes) :=
    forEachI (λ child index '(r, l),
                if Nat.even index then (r ++ [child], l) else (r, l ++ [child]))
             children ([], []) in
  let h := forEachI (λ child index h,
             let h := store (Node.set_x baseDistance) child h in
             store (Node.set_y ((ofnat index - (ofnat (length rightNodes) - 1) / 2)
                                * verticalSpacing)) child h)
             rightNodes h in
  forEachI (λ child index h,
     let h := store (Node.set_x (- baseDistance)) child h in
     store (Node.set_y ((ofnat index - (ofnat (length leftNodes) - 1) / 2)
                        * verticalSpacing)) child h)
     leftNodes h.

(** The siblings of [parentNode]: the grandparent's children other than it. *)
Definition siblings_of (grandParent parentNode : loc) (h : heap) : list loc :=
  filter (λ l, Node.id (h !!! l) ≠ Node.id (h !!! parentNode))
         (lookup_all (Node.children (h !!! grandParent)) nodes).

Definition calculateRequiredSpace (parentNode : loc) (childrenCount : nat) (h : heap) : Q :=
  if negb (truthy (Node.parent (h !!! parentNode))) then 200%Q else
  match Map_get_opt (Node.parent (h !!! parentNode)) nodes with
  | None => 200%Q
  | Some grandParent =>
      let siblings := siblings_of grandParent parentNode h in
      let maxSiblingChildrenCount :=
        forEach (λ sibling mx,
                   if (mx <? length (Node.children (h !!! sibling)))%nat
                   then length (Node.children (h !!! sibling)) else mx)
                siblings 0%nat in
      let baseSpacing := 120%Q in
      let additionalSpacing := (ofnat (Nat.max maxSiblingChildrenCount childrenCount) * 20)%Q in
      (baseSpacing + additionalSpacing)%Q
  end.

Definition adjustForSiblingConflicts (parentNode : loc) (children : list loc)
    (siblingNode : loc) (siblingChildren : list loc) (h : heap) : heap :=
  let minGap := 80%Q in
  let parentAboveSibling := Qltb (Node.y (h !!! parentNode)) (Node.y (h !!! siblingNode)) in
  if parentAboveSibling then
    let maxChildY := Math_max (map (λ c, Node.y (h !!! c)) children) in
    let minSiblingChildY := Math_min (map (λ c, Node.y (h !!! c)) siblingChildren) in
    if Qgtb (maxChildY + minGap) minSiblingChildY then
      let adjustment := ((maxChildY + minGap) - minSiblingChildY)%Q in
      forEach (λ child h, store (λ n, Node.set_y (Node.y n - adjustment / 2) n) child h)
              children h
    else h
  else
    let minChildY := Math_min (map (λ c, Node.y (h !!! c)) children) in
    let maxSiblingChildY := Math_max (map (λ c, Node.y (h !!! c)) siblingChildren) in
    if Qltb (minChildY - minGap) maxSiblingChildY then
      let adjustment := (maxSiblingChildY + minGap - minChildY)%Q in
      forEach (λ child h, store (λ n, Node.set_y (Node.y n + adjustment / 2) n) child h)
              children h
    else h.

Definition avoidIntersections (parentNode : loc) (children : list loc) (h : heap) : heap :=
  if negb (truthy (Node.parent (h !!! parentNode))) || (length children =? 0)%nat then h else
  match Map_get_opt (Node.parent (h !!! parentNode)) nodes with
  | None => h
  | Some grandParent =>
      let siblings := siblings_of grandParent parentNode h in
      forEach (λ sibling h,
                 let siblingChildren := lookup_all (Node.children (h !!! sibling)) nodes in
                 if (length siblingChildren =? 0)%nat then h
                 else adjustForSiblingConflicts parentNode children sibling siblingChildren h)
              siblings h
  end.

(** [direction] of [layoutBranchChildrenNoIntersection]. *)
Definition branch_direction (parentNode : loc) (h : heap) : Q :=
  if truthy (Node.parent (h !!! parentNode)) then
    match Map_get_opt (Node.parent (h !!! parentNode)) nodes with
    | Some grandParent =>
        if Qgtb (Node.x (h !!! parentNode)) (Node.x (h !!! grandParent)) then 1%Q else (-1)%Q
    | None => 1%Q
    end
  else 1%Q.

Definition layoutBranchChildrenNoIntersection (parentNode : loc) (children : list loc)
    (h : heap) : heap :=
  let baseDistance := 280%Q in
  let minVerticalSpacing := 120%Q in
  let direction := branch_direction parentNode h in
  let requiredSpace := calculateRequiredSpace parentNode (length children) h in
  let verticalSpacing :=
    Qmax minVerticalSpacing (requiredSpace / ofnat (Nat.max (length children - 1) 1)) in
  let totalHeight := ((ofnat (length children) - 1) * verticalSpacing)%Q in
  let startY := (Node.y (h !!! parentNode) - totalHeight / 2)%Q in
  let h := forEachI (λ child index h,
             let h := store (Node.set_x (Node.x (h !!! parentNode) + baseDistance * direction))
                            child h in
             store (Node.set_y (startY + ofnat index * verticalSpacing)) child h)
             children h in
  avoidIntersections parentNode children h.

(** The recursion follows the children lists; [None] stands for a recursion
    that does not return (a cycle among the children). *)
Fixpoint layoutChildrenMindMeisterStyle (fuel : nat) (parentNode : loc) (h : heap) : option heap :=
  match fuel with
  | O => None
  | S fuel' =>
      let children := lookup_all (Node.children (h !!! parentNode)) nodes in
      if (length children =? 0)%nat then Some h else
      let h := if Node.level (h !!! parentNode) =? 0
               then layoutRootChildren children h
               else layoutBranchChildrenNoIntersection parentNode children h in
      forEachM (layoutChildrenMindMeisterStyle fuel') children h
  end.

End Layout.

(** ** Layout, phase B: overlap resolution *)

Record dimensions := { width : Q; height : Q; minGapX : Q; minGapY : Q }.

(** [firstNode] is the bounding rectangle (width, height) of the first
    element of class [node], when there is one. *)
Definition getActualNodeDimensions (firstNode : option (Q * Q)) : dimensions :=
  let '(nodeWidth, nodeHeight) :=
    match firstNode with
    | Some (w, hh) => (Qmax w 140, Qmax hh 50)
    | None => (140%Q, 50%Q)
    end in
  {| width := nodeWidth; height := nodeHeight; minGapX := 30; minGapY := 25 |}.

Inductive strategy := ParentChild | Siblings | DistantLevels | General.

Definition determineAdjustmentStrategy (nodeA nodeB : Node.t) : strategy :=
  if bool_decide (Node.parent nodeA = Some (Node.id nodeB))
     || bool_decide (Node.parent nodeB = Some (Node.id nodeA)) then ParentChild
  else if bool_decide (Node.parent nodeA = Node.parent nodeB) && truthy (Node.parent nodeA)
  then Siblings
  else if Z.abs (Node.level nodeA - Node.level nodeB) >? 1 then DistantLevels
  else General.

Definition adjustParentChildOverlap (nodeA nodeB : loc) (requiredDistance : Q) (h : heap) : heap :=
  let isAParent := Node.level (h !!! nodeA) <? Node.level (h !!! nodeB) in
  let parent := if isAParent then nodeA else nodeB in
  let child := if isAParent then nodeB else nodeA in
  let direction := if Qgtb (Node.y (h !!! child)) (Node.y (h !!! parent)) then 1%Q else (-1)%Q in
  store (Node.set_y (Node.y (h !!! parent) + direction * requiredDistance * (3 # 2))) child h.

Definition adjustSiblingOverlap (nodeA nodeB : loc) (requiredDistance : Q) (h : heap) : heap :=
  let midY := ((Node.y (h !!! nodeA) + Node.y (h !!! nodeB)) / 2)%Q in
  let adjustment := (requiredDistance / 2)%Q in
  if Qltb (Node.y (h !!! nodeA)) (Node.y (h !!! nodeB)) then
    store (Node.set_y (midY + adjustment)) nodeB (store (Node.set_y (midY - adjustment)) nodeA h)
  else
    store (Node.set_y (midY - adjustment)) nodeB (store (Node.set_y (midY + adjustment)) nodeA h).

Definition adjustDistantLevelOverlap (nodeA nodeB : loc) (requiredDistance : Q) (h : heap) : heap :=
  let deeperNode := if Node.level (h !!! nodeA) >? Node.level (h !!! nodeB) then nodeA else nodeB in
  let direction := if Qgtb (Node.y (h !!! deeperNode)) 0 then 1%Q else (-1)%Q in
  store (λ n, Node.set_y (Node.y n + direction * requiredDistance) n) deeperNode h.

Definition adjustGeneralOverlap (nodeA nodeB : loc) (requiredDistance : Q) (h : heap) : heap :=
  let currentDistance := Qabs (Node.y (h !!! nodeA) - Node.y (h !!! nodeB)) in
  let adjustment := ((requiredDistance - currentDistance) / 2 + 5)%Q in
  if Qltb (Node.y (h !!! nodeA)) (Node.y (h !!! nodeB)) then
    store (λ n, Node.set_y (Node.y n + adjustment) n) nodeB
          (store (λ n, Node.set_y (Node.y n - adjustment) n) nodeA h)
  else
    store (λ n, Node.set_y (Node.y n - adjustment) n) nodeB
          (store (λ n, Node.set_y (Node.y n + adjustment) n) nodeA h).

Definition applyOverlapAdjustment (nodeA nodeB : loc) (dims : dimensions) (st : strategy)
    (h : heap) : heap :=
  let requiredDistanceY := (height dims + minGapY dims + 10)%Q in
  match st with
  | ParentChild => adjustParentChildOverlap nodeA nodeB requiredDistanceY h
  | Siblings => adjustSiblingOverlap nodeA nodeB requiredDistanceY h
  | DistantLevels => adjustDistantLevelOverlap nodeA nodeB requiredDistanceY h
  | General => adjustGeneralOverlap nodeA nodeB requiredDistanceY h
  end.

(** The bounding-box test shared by the resolver and the final validation. *)
Definition overlaps (nodeA nodeB : Node.t) (dims : dimensions) : bool :=
  let dx := Qabs (Node.x nodeA - Node.x nodeB) in
  let dy := Qabs (Node.y nodeA - Node.y nodeB) in
  let requiredDistanceX := (width dims / 2 + minGapX dims)%Q in
  let requiredDistanceY := (height dims + minGapY dims)%Q in
  Qltb dx requiredDistanceX && Qltb dy requiredDistanceY.

Definition resolveNodePairOverlap (nodeA nodeB : loc) (dims : dimensions) (h : heap)
    : heap * bool :=
  if overlaps (h !!! nodeA) (h !!! nodeB) dims then
    let adjustmentStrategy := determineAdjustmentStrategy (h !!! nodeA) (h !!! nodeB) in
    (applyOverlapAdjustment nodeA nodeB dims adjustmentStrategy h, true)
  else (h, false).

(** One pass of the nested loops [for i; for j = i + 1]. *)
Definition resolve_row (a : loc) (rest : list loc) (dims : dimensions) (st : heap * bool)
    : heap * bool :=
  forEach (λ b '(h, hasOverlap),
             let '(h', r) := resolveNodePairOverlap a b dims h in
             (h', if r then true else hasOverlap))
          rest st.

Fixpoint resolve_pass (l : list loc) (dims : dimensions) (st : heap * bool) : heap * bool :=
  match l with
  | [] => st
  | a :: rest => resolve_pass rest dims (resolve_row a rest dims st)
  end.

(** [while (iteration < maxIterations)], leaving early after a pass
    without overlap. *)
Fixpoint resolve_loop (maxIterations : nat) (l : list loc) (dims : dimensions) (h : heap) : heap :=
  match maxIterations with
  | O => h
  | S n =>
      let '(h', hasOverlap) := resolve_pass l dims (h, false) in
      if hasOverlap then resolve_loop n l dims h' else h'
  end.

Definition resolveOverlapsInLevel (l : list loc) (dims : dimensions) (h : heap) : heap :=
  resolve_loop 15 l dims h.

(** [nodesByLevel]: a [Map] from level to the nodes of that level. *)
Fixpoint level_push (lv : Z) (l : loc) (g : list (Z * list loc)) : list (Z * list loc) :=
  match g with
  | [] => [(lv, [l])]
  | (lv', ls) :: g' =>
      if decide (lv' = lv) then (lv', ls ++ [l]) :: g' else (lv', ls) :: level_push lv l g'
  end.

Definition resolveOverlapsByLevel (nodes : jsmap) (dims : dimensions) (h : heap) : heap :=
  let nodesByLevel :=
    forEach (λ l g, level_push (Node.level (h !!! l)) l g) (Map_values nodes) [] in
  forEach (λ '(_, levelNodes) h,
             if (1 <? length levelNodes)%nat then resolveOverlapsInLevel levelNodes dims h
             else h)
          nodesByLevel h.

Definition resolveGlobalOverlaps (nodes : jsmap) (dims : dimensions) (h : heap) : heap :=
  resolve_loop 20 (Map_values nodes) dims h.

Fixpoint count_overlaps (l : list loc) (dims : dimensions) (h : heap) : nat :=
  match l with
  | [] => 0
  | a :: rest =>
      length (filter (λ b, overlaps (h !!! a) (h !!! b) dims = true) rest)
      + count_overlaps rest dims h
  end%nat.

Definition validateNoOverlaps (nodes : jsmap) (dims : dimensions) (h : heap) : bool :=
  (count_overlaps (Map_values nodes) dims h =? 0)%nat.

Definition performComprehensiveOverlapResolution (nodes : jsmap) (firstNode : option (Q * Q))
    (h : heap) : heap :=
  let actualNodeDimensions := getActualNodeDimensions firstNode in
  let h := resolveOverlapsByLevel nodes actualNodeDimensions h in
  resolveGlobalOverlaps nodes actualNodeDimensions h.

(** Phase A as [updateLayout] runs it: the root is pinned at the origin and
    the placement recurses from it.  The recursion is given one more step
    than there are nodes, which every run without a cycle among the children
    stays within. *)
Definition directional_placement (nodes : jsmap) (rootNode : loc) (h : heap) : option heap :=
  let h := store (Node.set_x 0) rootNode h in
  let h := store (Node.set_y 0) rootNode h in
  layoutChildrenMindMeisterStyle nodes (S (length nodes)) rootNode h.

Definition find_root (nodes : jsmap) (h : heap) : option loc :=
  find (λ l, Node.level (h !!! l) =? 0) (Map_values nodes).

(** [updateLayout] on the node objects. *)
Definition layout (nodes : jsmap) (firstNode : option (Q * Q)) (h : heap) : option heap :=
  match find_root nodes h with
  | None => Some h
  | Some rootNode =>
      h ← directional_placement nodes rootNode h;
      Some (performComprehensiveOverlapResolution nodes firstNode h)
  end.

(** ** The application state *)

Record Viewport := { vp_x : Q; vp_y : Q; vp_scale : Q }.

(** A history entry: [nodes] is a copy of the [Map] (ids to the same node
    objects), next to the counter and the selection.  The [timestamp] field
    is never read and is left out. *)
Record HistoryEntry := {
  saved_nodes : jsmap;
  saved_nodeCounter : Z;
  saved_selectedNode : option string
}.

(** The fields of the class that the methods read or write, and the node
    elements of the page: [elements] lists their [data-node-id]s in document
    order, and [inputs] gives, for the id of an element that holds a
    textarea, the node object that the listeners of the textarea hold.  A
    textarea is only ever put into the first element that carries an id,
    the one that [getNodeElement] finds. *)
Record MindMapApp := {
  objects : heap;
  nodes : jsmap;
  selectedNode : option string;
  editingNode : option string;
  nodeCounter : Z;
  history : list HistoryEntry;
  viewport : Viewport;
  elements : list string;
  inputs : jsmap
}.

Definition maxHistorySize : nat := 50.

Definition with_objects (h : heap) (s : MindMapApp) : MindMapApp :=
  {| objects := h; nodes := nodes s; selectedNode := selectedNode s;
     editingNode := editingNode s; nodeCounter := nodeCounter s; history := history s;
     viewport := viewport s; elements := elements s; inputs := inputs s |}.
Definition with_nodes (m : jsmap) (s : MindMapApp) : MindMapApp :=
  {| objects := objects s; nodes := m; selectedNode := selectedNode s;
     editingNode := editingNode s; nodeCounter := nodeCounter s; history := history s;
     viewport := viewport s; elements := elements s; inputs := inputs s |}.
Definition with_selectedNode (v : option string) (s : MindMapApp) : MindMapApp :=
  {| objects := objects s; nodes := nodes s; selectedNode := v;
     editingNode := editingNode s; nodeCounter := nodeCounter s; history := history s;
     viewport := viewport s; elements := elements s; inputs := inputs s |}.
Definition with_editingNode (v : option string) (s : MindMapApp) : MindMapApp :=
  {| objects := objects s; nodes := nodes s; selectedNode := selectedNode s;
     editingNode := v; nodeCounter := nodeCounter s; history := history s;
     viewport := viewport s; elements := elements s; inputs := inputs s |}.
Definition with_nodeCounter (v : Z) (s : MindMapApp) : MindMapApp :=
  {| objects := objects s; nodes := nodes s; selectedNode := selectedNode s;
     editingNode := editingNode s; nodeCounter := v; history := history s;
     viewport := viewport s; elements := elements s; inputs := inputs s |}.
Definition with_history (v : list HistoryEntry) (s : MindMapApp) : MindMapApp :=
  {| objects := objects s; nodes := nodes s; selectedNode := selectedNode s;
     editingNode := editingNode s; nodeCounter := nodeCounter s; history := v;
     viewport := viewport s; elements := elements s; inputs := inputs s |}.
Definition with_viewport (v : Viewport) (s : MindMapApp) : MindMapApp :=
  {| objects := objects s; nodes := nodes s; selectedNode := selectedNode s;
     editingNode := editingNode s; nodeCounter := nodeCounter s; history := history s;
     viewport := v; elements := elements s; inputs := inputs s |}.
Definition with_elements (v : list string) (s : MindMapApp) : MindMapApp :=
  {| objects := objects s; nodes := nodes s; selectedNode := selectedNode s;
     editingNode := editingNode s; nodeCounter := nodeCounter s; history := history s;
     viewport := viewport s; elements := v; inputs := inputs s |}.
Definition with_inputs (v : jsmap) (s : MindMapApp) : MindMapApp :=
  {| objects := objects s; nodes := nodes s; selectedNode := selectedNode s;
     editingNode := editingNode s; nodeCounter := nodeCounter s; history := history s;
     viewport := viewport s; elements := elements s; inputs := v |}.

(** The state built by the constructor, before [init]. *)
Definition new_app : MindMapApp :=
  {| objects := []; nodes := []; selectedNode := None; editingNode := None;
     nodeCounter := 0; history := [];
     viewport := {| vp_x := 0; vp_y := 0; vp_scale := 1 |}; elements := []; inputs := [] |}.

(** How a call ends: it returns, or it throws an exception.  Either way the
    state that the call has reached stays. *)
Inductive completion :=
  | Normal (s : MindMapApp)
  | Throw (s : MindMapApp).

Definition state_of (c : completion) : MindMapApp :=
  match c with
  | Normal s => s
  | Throw s => s
  end.

Coercion state_of : completion >-> MindMapApp.

(** [this.nodes.get(id)] followed by a read of the object. *)
Definition node_at (s : MindMapApp) (k : string) : option Node.t :=
  l ← Map_get k (nodes s); objects s !! l.

(** ** Ids, elements, selection *)

Definition id_of (counter : Z) : string := "node-" +:+ pretty counter.

Definition generateId (s : MindMapApp) : string * MindMapApp :=
  (id_of (nodeCounter s + 1), with_nodeCounter (nodeCounter s + 1) s).

Definition getNodeElement (nodeId : string) (s : MindMapApp) : bool :=
  bool_decide (nodeId ∈ elements s).

(** [element.querySelector('.node-input')] on the element that
    [getNodeElement] finds. *)
Definition nodeInput (nodeId : string) (s : MindMapApp) : option loc :=
  if getNodeElement nodeId s then Map_get nodeId (inputs s) else None.

Definition createNodeElement (nodeData : Node.t) (s : MindMapApp) : MindMapApp :=
  with_elements (elements s ++ [Node.id nodeData]) s.

Definition selectNode (nodeId : option string) (s : MindMapApp) : MindMapApp :=
  with_selectedNode nodeId s.

(** [new X]: the fresh object gets the next location. *)
Definition alloc (n : Node.t) (s : MindMapApp) : loc * MindMapApp :=
  (length (objects s), with_objects (objects s ++ [n]) s).

Definition createRootNode (s : MindMapApp) : MindMapApp :=
  let '(newId, s) := generateId s in
  let rootData := Node.mk newId "メインアイデア" 0 None [] 0 0 None in
  let '(l, s) := alloc rootData s in
  let s := with_nodes (Map_set newId l (nodes s)) s in
  let s := createNodeElement rootData s in
  selectNode (Some newId) s.

(** ** History *)

(** [new Map(this.nodes)] has the entries of [this.nodes], in the same order
    and with the same node objects as values. *)
Definition snapshot (s : MindMapApp) : HistoryEntry :=
  {| saved_nodes := nodes s; saved_nodeCounter := nodeCounter s;
     saved_selectedNode := selectedNode s |}.

(** [history.push(e)] followed by [history.shift()] when the stack has
    grown beyond its bound. *)
Definition push_bounded (history : list HistoryEntry) (e : HistoryEntry) : list HistoryEntry :=
  let history := history ++ [e] in
  if (maxHistorySize <? length history)%nat then tail history else history.

Definition saveToHistory (s : MindMapApp) : MindMapApp :=
  let currentState := snapshot s in
  with_history (push_bounded (history s) currentState) s.

(** [firstRect]: the measured size of the first node element. *)
Definition updateLayout (firstRect : Q * Q) (s : MindMapApp) : option MindMapApp :=
  let firstNode := match elements s with [] => None | _ => Some firstRect end in
  h ← layout (nodes s) firstNode (objects s);
  Some (with_objects h s).

(** The part of [undo] before the layout: the popped entry replaces the
    map, the counter and the selection, and the elements are rebuilt (an
    open textarea goes with its element; [editingNode] stays as it is). *)
Definition restore (previousState : HistoryEntry) (s : MindMapApp) : MindMapApp :=
  let s := with_history (removelast (history s)) s in
  let s := with_inputs [] (with_elements [] s) in
  let s := with_nodes (saved_nodes previousState) s in
  let s := with_nodeCounter (saved_nodeCounter previousState) s in
  let s := with_selectedNode None s in
  let s := forEach (λ l s, createNodeElement (objects s !!! l) s) (Map_values (nodes s)) s in
  if truthy (saved_selectedNode previousState)
     && bool_decide (is_Some (Map_get_opt (saved_selectedNode previousState) (nodes s)))
  then selectNode (saved_selectedNode previousState) s else s.

Definition undo (firstRect : Q * Q) (s : MindMapApp) : option MindMapApp :=
  match last (history s) with
  | None => Some s
  | Some previousState => updateLayout firstRect (restore previousState s)
  end.

(** ** Commands on the tree *)

Definition addChildNode (s : MindMapApp) : MindMapApp :=
  match Map_get_opt (selectedNode s) (nodes s) with
  | None => s
  | Some parentNode =>
      let s := saveToHistory s in
      let '(newId, s) := generateId s in
      let p := objects s !!! parentNode in
      let newNodeData :=
        Node.mk newId "ノード" (Node.level p + 1) (Some (Node.id p)) []
                (Node.x p) (Node.y p) (Some "white") in
      let '(l, s) := alloc newNodeData s in
      let s := with_nodes (Map_set newId l (nodes s)) s in
      let s := with_objects
                 (store (λ n, Node.set_children (Node.children n ++ [newId]) n)
                        parentNode (objects s)) s in
      let s := createNodeElement newNodeData s in
      selectNode (Some newId) s
  end.

Definition addSiblingNode (s : MindMapApp) : MindMapApp :=
  match Map_get_opt (selectedNode s) (nodes s) with
  | None => s
  | Some currentNode =>
      let c := objects s !!! currentNode in
      if Node.level c =? 0 then s else
      match Map_get_opt (Node.parent c) (nodes s) with
      | None => s
      | Some parentNode =>
          let s := saveToHistory s in
          let '(newId, s) := generateId s in
          let newNodeData :=
            Node.mk newId "ノード" (Node.level c) (Some (Node.id (objects s !!! parentNode))) []
                    (Node.x c) (Node.y c) (Some "white") in
          let '(l, s) := alloc newNodeData s in
          let s := with_nodes (Map_set newId l (nodes s)) s in
          let s := with_objects
                     (store (λ n, Node.set_children (Node.children n ++ [newId]) n)
                            parentNode (objects s)) s in
          let s := createNodeElement newNodeData s in
          selectNode (Some newId) s
      end
  end.

(** [element.remove()] on the first element carrying the id; a textarea in
    it goes with it. *)
Fixpoint remove_element (nodeId : string) (els : list string) : list string :=
  match els with
  | [] => []
  | e :: els' => if decide (e = nodeId) then els' else e :: remove_element nodeId els'
  end.

(** [deleteNode]: the recursion follows the children array held by the node
    when the call starts; [None] stands for a recursion that does not
    return.  The [parent] field is never assigned after creation, so the
    value read at the start is the one the later statements see. *)
Fixpoint deleteNode_rec (fuel : nat) (nodeId : string) (s : MindMapApp) : option MindMapApp :=
  match fuel with
  | O => None
  | S fuel' =>
      match Map_get nodeId (nodes s) with
      | None => Some s
      | Some l =>
          let nodeData := objects s !!! l in
          if Node.level nodeData =? 0 then Some s else
          let s := saveToHistory s in
          s ← forEachM (deleteNode_rec fuel') (Node.children nodeData) s;
          let s :=
            if truthy (Node.parent nodeData) then
              match Map_get_opt (Node.parent nodeData) (nodes s) with
              | Some parentNode =>
                  with_objects
                    (store (λ n, Node.set_children
                                   (filter (λ i, i ≠ nodeId) (Node.children n)) n)
                           parentNode (objects s)) s
              | None => s
              end
            else s in
          let s := with_inputs (Map_delete nodeId (inputs s))
                     (with_elements (remove_element nodeId (elements s)) s) in
          let s := with_nodes (Map_delete nodeId (nodes s)) s in
          let s := if bool_decide (selectedNode s = Some nodeId)
                   then selectNode (Node.parent nodeData) s else s in
          Some s
      end
  end.

(** A run without a cycle among the children nests at most as deep as there
    are nodes in the map. *)
Definition deleteNode (nodeId : string) (s : MindMapApp) : option MindMapApp :=
  deleteNode_rec (S (length (nodes s))) nodeId s.

Definition changeNodeColor (nodeId : option string) (color : string) (s : MindMapApp)
    : MindMapApp :=
  match nodeId with
  | None => s
  | Some k =>
      if negb (truthy nodeId) then s else
      let s := saveToHistory s in
      match Map_get k (nodes s) with
      | Some nodeData =>
          if getNodeElement k s
          then with_objects (store (Node.set_color (Some color)) nodeData (objects s)) s
          else s
      | None => s
      end
  end.

(** [stopEditing]; [value] is [input.value.trim()], read when the element
    of the edited node holds a textarea.  When that element is missing,
    [element.querySelector] throws before anything is changed.
    [element.textContent = nodeData.text] takes the textarea out of the
    element. *)
Definition stopEditing (value : string) (s : MindMapApp) : completion :=
  match editingNode s with
  | None => Normal s
  | Some editing =>
      if negb (truthy (Some editing)) then Normal s else
      let nodeData := Map_get editing (nodes s) in
      if negb (getNodeElement editing s) then Throw s else
      let input := nodeInput editing s in
      let s :=
        match input, nodeData with
        | Some _, Some nodeData =>
            let s := with_objects
                       (store (Node.set_text (if String.eqb value "" then "ノード" else value))
                              nodeData (objects s)) s in
            with_inputs (Map_delete editing (inputs s)) s
        | _, _ => s
        end in
      Normal (with_editingNode None s)
  end.

(** [startEditing]; [pending] is the trimmed content of the textarea that
    the [stopEditing] of the first line reads.  A new textarea replaces the
    content of the element; its listeners hold [nodeData]. *)
Definition startEditing (nodeId : string) (pending : string) (s : MindMapApp) : completion :=
  match (if truthy (editingNode s) then stopEditing pending s else Normal s) with
  | Throw s => Throw s
  | Normal s =>
      let s := with_editingNode (Some nodeId) s in
      match getNodeElement nodeId s, Map_get nodeId (nodes s) with
      | true, Some nodeData => Normal (with_inputs (Map_set nodeId nodeData (inputs s)) s)
      | _, _ => Normal s
      end
  end.

(** The drag handler: the node object captured by the handler is moved. *)
Definition dragNode (nodeData : loc) (startNodeX startNodeY deltaX deltaY : Q) (s : MindMapApp)
    : MindMapApp :=
  let sc := vp_scale (viewport s) in
  with_objects
    (store (Node.set_y (startNodeY + deltaY / sc)) nodeData
       (store (Node.set_x (startNodeX + deltaX / sc)) nodeData (objects s))) s.

(** ** Persistence: loading the stored blob *)

(** The data object of [saveToDatabase], and what [JSON.parse] makes of its
    serialization: the entries of the node map with freshly parsed node
    objects, and the optional counter and viewport. *)
Record Blob := {
  blob_nodes : list (string * Node.t);
  blob_nodeCounter : option Z;
  blob_viewport : option Viewport
}.

(** What [localStorage.getItem] and [JSON.parse] deliver: no item; a text
    that [JSON.parse] rejects; a value that makes [data.nodes] or
    [new Map(data.nodes)] throw ([null], or [nodes] that are not a list of
    entries); or the entries, each with a node object or with [null] (or
    nothing) in its place, next to the optional counter and viewport.
    Absent [nodes] are an empty list of entries. *)
Inductive Stored :=
  | NoItem
  | Unparsable
  | NotEntries
  | Entries (entries : list (string * option Node.t)) (nodeCounter : option Z)
            (viewport : option Viewport).

(** The stored value that is read back from a data object. *)
Definition Parsed (data : Blob) : Stored :=
  Entries (map (λ e, (e.1, Some e.2)) (blob_nodes data))
          (blob_nodeCounter data) (blob_viewport data).

(** The parsed node objects are new objects: the i-th of them gets the i-th
    location after those in use. *)
Fixpoint load_locs (base : nat) (entries : list (string * option Node.t))
    : list (string * option loc) :=
  match entries with
  | [] => []
  | (k, Some _) :: entries' => (k, Some base) :: load_locs (S base) entries'
  | (k, None) :: entries' => (k, None) :: load_locs base entries'
  end.

(** How [loadFromDatabase] ends: with [true]; with [false] and the state it
    leaves; or with [false] after [this.nodes], [nodeCounter] and [viewport]
    have been replaced, when [createNodeElement] throws on a [null] node of
    the new map.  A map that holds [null] is not a state of this
    development. *)
Inductive loaded :=
  | Loaded (s : MindMapApp)
  | NotLoaded (s : MindMapApp)
  | NullNode.


Definition loadFromDatabase (stored : Stored) (s : MindMapApp) : loaded :=
  match stored with
  | NoItem => NotLoaded s
  | Unparsable => NotLoaded s
  | NotEntries => NotLoaded s
  | Entries entries nodeCounter viewport =>
      let m := Map_from (load_locs (length (objects s)) entries) in
      match mapM (λ e : string * option loc, l ← e.2; Some (e.1, l)) m with
      | None => NullNode
      | Some m =>
          let s := with_objects (objects s ++ omap snd entries) s in
          let s := with_nodes m s in
          let s := with_nodeCounter (default 0 nodeCounter) s in
          let s := with_viewport (default {| vp_x := 0; vp_y := 0; vp_scale := 1 |} viewport) s in
          let s := forEach (λ l s, createNodeElement (objects s !!! l) s)
                           (Map_values (nodes s)) s in
          let s := match find_root (nodes s) (objects s) with
                   | Some rootNode => selectNode (Some (Node.id (objects s !!! rootNode))) s
                   | None => s
                   end in
          Loaded s
      end
  end.

(** [init], up to the timers it starts; [None] when it goes on with a map
    that holds [null]. *)
Definition init (stored : Stored) (s : MindMapApp) : option MindMapApp :=
  match loadFromDatabase stored s with
  | Loaded s => Some s
  | NotLoaded s => Some (createRootNode s)
  | NullNode => None
  end.

(** ** Viewport *)

(** [updateNodePosition]: the screen position of a model point; [inner] is
    [(window.innerWidth, window.innerHeight)]. *)
Definition toScreen (model : Q * Q) (v : Viewport) (inner : Q * Q) : Q * Q :=
  (((model.1 + vp_x v) * vp_scale v + inner.1 / 2)%Q,
   ((model.2 + vp_y v) * vp_scale v + inner.2 / 2)%Q).

(** The wheel handler; [pointer] is the pointer position relative to the
    container. *)
Definition wheel (pointer : Q * Q) (deltaY : Q) (inner : Q * Q) (v : Viewport) : Viewport :=
  let zoomFactor := (105 # 100)%Q in
  let mouseX := (pointer.1 - inner.1 / 2)%Q in
  let mouseY := (pointer.2 - inner.2 / 2)%Q in
  let oldScale := vp_scale v in
  let scale := if Qltb deltaY 0 then (oldScale * zoomFactor)%Q else (oldScale / zoomFactor)%Q in
  let scale := Qmax (1 # 10) (Qmin 3 scale) in
  let scaleDiff := (scale - oldScale)%Q in
  {| vp_x := (vp_x v - (mouseX / oldScale) * scaleDiff / scale)%Q;
     vp_y := (vp_y v - (mouseY / oldScale) * scaleDiff / scale)%Q;
     vp_scale := scale |}.

Definition pan (deltaX deltaY : Q) (v : Viewport) : Viewport :=
  {| vp_x := (vp_x v + deltaX / vp_scale v)%Q;
     vp_y := (vp_y v + deltaY / vp_scale v)%Q;
     vp_scale := vp_scale v |}.

(** The keyboard listener of [setupPanAndZoom]: the viewport after a key,
    when the key moves it. *)
Definition keyPan (key : string) (v : Viewport) : option Viewport :=
  let panSpeed := 50%Q in
  if String.eqb key "ArrowUp" then
    Some {| vp_x := vp_x v; vp_y := (vp_y v + panSpeed / vp_scale v)%Q; vp_scale := vp_scale v |}
  else if String.eqb key "ArrowDown" then
    Some {| vp_x := vp_x v; vp_y := (vp_y v - panSpeed / vp_scale v)%Q; vp_scale := vp_scale v |}
  else if String.eqb key "ArrowLeft" then
    Some {| vp_x := (vp_x v + panSpeed / vp_scale v)%Q; vp_y := vp_y v; vp_scale := vp_scale v |}
  else if String.eqb key "ArrowRight" then
    Some {| vp_x := (vp_x v - panSpeed / vp_scale v)%Q; vp_y := vp_y v; vp_scale := vp_scale v |}
  else if String.eqb key "Home" then
    Some {| vp_x := 0; vp_y := 0; vp_scale := 1 |}
  else None.

(** ** Rendering: element positions and connection lines *)

(** [updateNodePosition]: the [left] and [top] given to the element of a
    node. *)
Definition updateNodePosition (nodeData : Node.t) (v : Viewport) (inner : Q * Q) : Q * Q :=
  let screenX := ((Node.x nodeData + vp_x v) * vp_scale v + inner.1 / 2)%Q in
  let screenY := ((Node.y nodeData + vp_y v) * vp_scale v + inner.2 / 2)%Q in
  let nodeWidth := 120%Q in
  let nodeHeight := 40%Q in
  ((screenX - nodeWidth / 2)%Q, (screenY - nodeHeight / 2)%Q).

(** [createConnection]: the two end points of the path [M px py L cx cy]. *)
Definition createConnection (parentData childData : Node.t) (v : Viewport) (inner : Q * Q)
    : (Q * Q) * (Q * Q) :=
  let parentScreenX := ((Node.x parentData + vp_x v) * vp_scale v + inner.1 / 2)%Q in
  let parentScreenY := ((Node.y parentData + vp_y v) * vp_scale v + inner.2 / 2)%Q in
  let childScreenX := ((Node.x childData + vp_x v) * vp_scale v + inner.1 / 2)%Q in
  let childScreenY := ((Node.y childData + vp_y v) * vp_scale v + inner.2 / 2)%Q in
  ((parentScreenX, parentScreenY), (childScreenX, childScreenY)).

(** [updateConnections]: the paths of the connections group, in the order
    in which they are appended. *)
Definition updateConnections (inner : Q * Q) (s : MindMapApp) : list ((Q * Q) * (Q * Q)) :=
  forEach (λ l paths,
             let nodeData := objects s !!! l in
             if truthy (Node.parent nodeData) then
               match Map_get_opt (Node.parent nodeData) (nodes s) with
               | Some parentData =>
                   paths ++ [createConnection (objects s !!! parentData) nodeData
                                              (viewport s) inner]
               | None => paths
               end
             else paths)
          (Map_values (nodes s)) [].

(** ** Persistence: the blob that is stored *)

(** The [data] object that [saveToDatabase] serializes ([timestamp] is
    never read back and is left out).  [JSON.parse] of its serialization
    delivers a copy of it: [Parsed (saveToDatabase s)]. *)
Definition saveToDatabase (s : MindMapApp) : Blob :=
  {| blob_nodes := map (λ e, (e.1, objects s !!! e.2)) (nodes s);
     blob_nodeCounter := Some (nodeCounter s);
     blob_viewport := Some (viewport s) |}.

(** ** Keyboard *)

(** [String.prototype.trim]: the white space and the line terminators of
    ECMAScript are taken from both ends (U+0009 to U+000D, U+0020, U+00A0,
    U+1680, U+2000 to U+200A, U+2028, U+2029, U+202F, U+205F, U+3000 and
    U+FEFF, in UTF-8). *)
Definition white1 (a : Ascii.ascii) : bool :=
  let n := Ascii.nat_of_ascii a in
  ((9 <=? n) && (n <=? 13) || (n =? 32))%nat.

Definition white2 (a b : Ascii.ascii) : bool :=
  ((Ascii.nat_of_ascii a =? 194) && (Ascii.nat_of_ascii b =? 160))%nat.

Definition white3 (a b c : Ascii.ascii) : bool :=
  let '(x, y, z) := (Ascii.nat_of_ascii a, Ascii.nat_of_ascii b, Ascii.nat_of_ascii c) in
  ((x =? 225) && (y =? 154) && (z =? 128)
   || (x =? 226) && (y =? 128)
        && ((128 <=? z) && (z <=? 138) || (z =? 168) || (z =? 169) || (z =? 175))
   || (x =? 226) && (y =? 129) && (z =? 159)
   || (x =? 227) && (y =? 128) && (z =? 128)
   || (x =? 239) && (y =? 187) && (z =? 191))%nat.

(** The white space at the start of a string is dropped; with [backwards],
    the string is read from its end. *)
Fixpoint trimStart (backwards : bool) (s : string) : string :=
  match s with
  | EmptyString => EmptyString
  | String a s1 =>
      if white1 a then trimStart backwards s1 else
      match s1 with
      | EmptyString => s
      | String b s2 =>
          if (if backwards then white2 b a else white2 a b) then trimStart backwards s2 else
          match s2 with
          | EmptyString => s
          | String c s3 =>
              if (if backwards then white3 c b a else white3 a b c)
              then trimStart backwards s3 else s
          end
      end
  end.

Definition trim (s : string) : string :=
  String.rev (trimStart true (String.rev (trimStart false s))).

(** A [keydown] event; [target] is the id of the node element whose
    textarea the key is typed into, when the focus is in a textarea. *)
Record KeyEvent := {
  metaKey : bool;
  ctrlKey : bool;
  shiftKey : bool;
  key : string;
  target : option string
}.

(** The [keydown] listener that [startEditing] gives to the textarea of the
    element [nodeId]; [nodeData] is the node object it holds, and [pending]
    the trimmed content of the textarea that [stopEditing] reads.  On
    Escape that content is the text of [nodeData] when [stopEditing] reads
    this textarea. *)
Definition inputKeyDown (nodeId : string) (nodeData : loc) (e : KeyEvent) (pending : string)
    (s : MindMapApp) : completion :=
  match (if String.eqb (key e) "Enter" && negb (shiftKey e)
         then stopEditing pending s else Normal s) with
  | Throw s => Throw s
  | Normal s =>
      if String.eqb (key e) "Escape" then
        let value := if bool_decide (editingNode s = Some nodeId)
                     then trim (Node.text (objects s !!! nodeData)) else pending in
        stopEditing value s
      else Normal s
  end.

(** [handleKeyDown]; [firstRect] and [pending] are what [undo] and
    [startEditing] read from the page. *)
Definition handleKeyDown (e : KeyEvent) (firstRect : Q * Q) (pending : string) (s : MindMapApp)
    : option MindMapApp :=
  if (metaKey e || ctrlKey e) && String.eqb (key e) "z" then undo firstRect s else
  if negb (truthy (selectedNode s)) || truthy (editingNode s) then Some s else
  match selectedNode s with
  | None => Some s
  | Some selected =>
      if String.eqb (key e) "Enter" then Some (addSiblingNode s)
      else if String.eqb (key e) "Tab" then Some (addChildNode s)
      else if String.eqb (key e) "F2" then Some (state_of (startEditing selected pending s))
      else if String.eqb (key e) "Delete" || String.eqb (key e) "Backspace"
      then deleteNode selected s
      else Some s
  end.

(** The [keydown] listener of the document that [setupPanAndZoom]
    registers. *)
Definition keydownPan (e : KeyEvent) (s : MindMapApp) : MindMapApp :=
  if truthy (editingNode s) then s else
  match keyPan (key e) (viewport s) with
  | Some v => with_viewport v s
  | None => s
  end.

(** A key press: the listener of the textarea that has the focus runs
    first, then the event reaches the two listeners of the document, in the
    order of their registration. *)
Definition keydown (e : KeyEvent) (firstRect : Q * Q) (pending : string) (s : MindMapApp)
    : option MindMapApp :=
  let s := match target e with
           | Some nodeId =>
               match nodeInput nodeId s with
               | Some nodeData => state_of (inputKeyDown nodeId nodeData e pending s)
               | None => s
               end
           | None => s
           end in
  s ← handleKeyDown e firstRect pending s;
  Some (keydownPan e s).

(** ** Sessions: the commands a user can issue *)

Inductive command :=
  | AddChild
  | AddSibling
  | Delete (nodeId : string)
  | Select (nodeId : option string)
  | Recolor (nodeId : option string) (color : string)
  | StartEditing (nodeId : string) (pending : string)
  | StopEditing (value : string)
  | Drag (nodeData : loc) (startNodeX startNodeY deltaX deltaY : Q)
  | Wheel (pointer : Q * Q) (deltaY : Q) (inner : Q * Q)
  | Pan (deltaX deltaY : Q)
  | Layout (firstRect : Q * Q)
  | Undo (firstRect : Q * Q).

Definition step (c : command) (s : MindMapApp) : option MindMapApp :=
  match c with
  | AddChild => Some (addChildNode s)
  | AddSibling => Some (addSiblingNode s)
  | Delete nodeId => deleteNode nodeId s
  | Select nodeId => Some (selectNode nodeId s)
  | Recolor nodeId color => Some (changeNodeColor nodeId color s)
  | StartEditing nodeId pending => Some (state_of (startEditing nodeId pending s))
  | StopEditing value => Some (state_of (stopEditing value s))
  | Drag nodeData sx sy dx dy => Some (dragNode nodeData sx sy dx dy s)
  | Wheel pointer deltaY inner => Some (with_viewport (wheel pointer deltaY inner (viewport s)) s)
  | Pan dx dy => Some (with_viewport (pan dx dy (viewport s)) s)
  | Layout firstRect => updateLayout firstRect s
  | Undo firstRect => undo firstRect s
  end.

Definition run (cs : list command) (s : MindMapApp) : option MindMapApp :=
  forEachM step cs s.

(** Sessions in which keys are pressed, too. *)
Inductive event :=
  | Command (c : command)
  | KeyDown (e : KeyEvent) (firstRect : Q * Q) (pending : string).

Definition handle (ev : event) (s : MindMapApp) : option MindMapApp :=
  match ev with
  | Command c => step c s
  | KeyDown e firstRect pending => keydown e firstRect pending s
  end.

Definition session (evs : list event) (s : MindMapApp) : option MindMapApp :=
  forEachM handle evs s.

(** ** Notions used to state the properties *)

(** The tree invariant of the data model: every entry of the map holds a
    node object carrying the key as its id, children and parents refer to
    each other, levels count the distance from the single root. *)
Definition entry_ok (m : jsmap) (h : heap) (e : string * loc) : bool :=
  match h !! e.2 with
  | None => false
  | Some n =>
      bool_decide (Node.id n = e.1)
      && negb (String.eqb e.1 "")
      && (0 <=? Node.level n)
      && bool_decide (NoDup (Node.children n))
      && forallb (λ c, match Map_get c m ≫= λ lc, h !! lc with
                       | Some nc => bool_decide (Node.parent nc = Some e.1)
                       | None => false
                       end) (Node.children n)
      && match Node.parent n with
         | None => Node.level n =? 0
         | Some p =>
             match Map_get p m ≫= λ lp, h !! lp with
             | Some np =>
                 bool_decide (e.1 ∈ Node.children np) && (Node.level n =? Node.level np + 1)
             | None => false
             end
         end
  end.

Definition tree_ok (s : MindMapApp) : bool :=
  bool_decide (NoDup (Map_keys (nodes s)))
  && bool_decide (NoDup (Map_values (nodes s)))
  && forallb (entry_ok (nodes s) (objects s)) (nodes s)
  && Nat.eqb (length (filter (λ e, Node.level (objects s !!! e.2) = 0) (nodes s))) 1.

(** [a] is reached from [k] by following [parent] fields upwards. *)
Fixpoint is_ancestor (fuel : nat) (s : MindMapApp) (a k : string) : bool :=
  match fuel with
  | O => false
  | S fuel' =>
      match node_at s k ≫= Node.parent with
      | Some p => bool_decide (p = a) || is_ancestor fuel' s a p
      | None => false
      end
  end.

(** The proper descendants of [a] among the nodes of the map. *)
Definition descendants (s : MindMapApp) (a : string) : list string :=
  filter (λ k, is_ancestor (length (nodes s)) s a k = true) (Map_keys (nodes s)).

(** The last [n] elements of a list. *)
Definition lastn {A : Type} (n : nat) (l : list A) : list A := drop (length l - n) l.

(** The content of the tree: for every id, the fields other than the
    coordinates. *)
Definition content (s : MindMapApp) : list (string * option (string * string * Z * option string * list string * option string)) :=
  map (λ e, (e.1, Node.shape <$> objects s !! e.2)) (nodes s).

(** The x coordinate of a node of level [lv] in the branch of the root's
    child of index [i]. *)
Definition branch_x (i : nat) (lv : Z) : Q :=
  ((if Nat.even i then 1 else -1) * (320 + 280 * inject_Z (lv - 1)))%Q.

(** The y coordinate of the root's child of index [i] among [n] children. *)
Definition root_child_y (i n : nat) : Q :=
  let side := if Nat.even i then Nat.div2 (n + 1) else Nat.div2 n in
  ((ofnat (Nat.div2 i) - (ofnat side - 1) / 2) * Qmax 120 (60 + 40))%Q.

(** A session started without stored data: the state in which [init]
    leaves the application then. *)
Definition fresh : MindMapApp := createRootNode new_app.

(** The map and the heap that loading gives for entries of node objects. *)
Definition load_entries (entries : list (string * Node.t)) (s : MindMapApp) : MindMapApp :=
  let base := length (objects s) in
  let s := with_objects (objects s ++ entries.*2) s in
  with_nodes (Map_from (imap (λ i e, (e.1, (base + i)%nat)) entries)) s.

(** The structural conditions under which the specification asks
    deserialization to fail: a parent reference to no node of the blob, or
    a number of level-0 nodes other than one. *)
Definition structurally_corrupt (data : Blob) : bool :=
  existsb (λ e, match Node.parent e.2 with
                | Some p => negb (bool_decide (p ∈ (blob_nodes data).*1))
                | None => false
                end) (blob_nodes data)
  || negb (Nat.eqb (length (filter (λ e, Node.level e.2 = 0) (blob_nodes data))) 1).

(** The history stack after a sequence of [saveToHistory] calls, the i-th
    made while the application is in the i-th state of [calls]. *)
Definition history_after (h0 : list HistoryEntry) (calls : list MindMapApp) : list HistoryEntry :=
  foldl (λ h s, history (saveToHistory (with_history h s))) h0 calls.

(** A stored blob whose only node refers to a parent that is not there. *)
Definition orphan_blob : Blob :=
  {| blob_nodes :=
       [("node-2", Node.mk "node-2" "A" 1 (Some "node-1") [] 320 0 (Some "white"))];
     blob_nodeCounter := Some 2;
     blob_viewport := None |}.

(** The measured size of a node element used in the examples. *)
Definition sample_rect : Q * Q := (120%Q, 40%Q).

(** Every id of the map was issued at a counter value not above [c]. *)
Definition ids_below (c : Z) (m : jsmap) : Prop :=
  ∀ k, k ∈ Map_keys m → ∃ i, k = id_of i ∧ i ≤ c.

Definition counter_inv (s : MindMapApp) : Prop :=
  ids_below (nodeCounter s) (nodes s)
  ∧ ∀ e, e ∈ history s → ids_below (saved_nodeCounter e) (saved_nodes e).

(** ** Subtrees *)

Definition parent_of (s : MindMapApp) (k : string) : option string :=
  node_at s k ≫= Node.parent.

(** [k] is [a] or reaches [a] by following [parent] fields. *)
Inductive in_subtree (s : MindMapApp) (a : string) : string → Prop :=
  | in_subtree_self : in_subtree s a a
  | in_subtree_child k p :
      parent_of s k = Some p → in_subtree s a p → in_subtree s a k.

(** The tree invariant, as propositions. *)
Record wf (s : MindMapApp) : Prop := {
  wf_keys : NoDup (Map_keys (nodes s));
  wf_locs : NoDup (Map_values (nodes s));
  wf_object : ∀ k l, (k, l) ∈ nodes s →
    ∃ n, objects s !! l = Some n ∧ Node.id n = k ∧ k ≠ "" ∧ 0 ≤ Node.level n
         ∧ NoDup (Node.children n);
  wf_children : ∀ k n c, node_at s k = Some n → c ∈ Node.children n →
    ∃ nc, node_at s c = Some nc ∧ Node.parent nc = Some k;
  wf_parent : ∀ k n p, node_at s k = Some n → Node.parent n = Some p →
    ∃ np, node_at s p = Some np ∧ k ∈ Node.children np
          ∧ Node.level n = Node.level np + 1;
  wf_root : ∀ k n, node_at s k = Some n → Node.parent n = None → Node.level n = 0;
  wf_single_root :
    length (filter (λ e, Node.level (objects s !!! e.2) = 0) (nodes s)) = 1%nat
}.

(** [t] is [s] without the nodes of [D]: the map has lost their entries and
    the remaining nodes have lost them from their children. *)
Record pruned (s t : MindMapApp) (D : gset string) : Prop := {
  pruned_nodes : nodes t = filter (λ e, e.1 ∉ D) (nodes s);
  pruned_objects : ∀ k l, (k, l) ∈ nodes t →
    ∃ n, objects s !! l = Some n
         ∧ objects t !! l
           = Some (Node.set_children (filter (λ c, c ∉ D) (Node.children n)) n);
  pruned_closed : ∀ k p, parent_of s k = Some p → p ∈ D → k ∈ D
}.

(** The scenario of the specification: a root (node-1), its children
    node-2 and node-3 in this order, and node-4 under node-2, laid out after
    every addition. *)
Definition scenario : MindMapApp :=
  default fresh
    (run [AddChild; Layout sample_rect;
          Select (Some "node-1"); AddChild; Layout sample_rect;
          Select (Some "node-2"); AddChild; Layout sample_rect] fresh).

(** What a call [deleteNode(N)] does in a state [t] that is [s] without the
    nodes of [D], for a node [N] of [s] that is still there. *)
Definition delete_spec (s : MindMapApp) (fuel : nat) : Prop :=
  ∀ t D N l n,
    pruned s t D → Map_get N (nodes s) = Some l → objects s !! l = Some n →
    N ∉ D → Node.level n ≠ 0 →
    (∀ k nk, node_at s k = Some nk → Node.level nk < Node.level n + Z.of_nat fuel) →
    ∃ t' D' es,
      deleteNode_rec fuel N t = Some t'
      ∧ pruned s t' D'
      ∧ (∀ k, k ∈ D' ↔ k ∈ D ∨ (k ∈ Map_keys (nodes s) ∧ in_subtree s N k))
      ∧ size D' = (size D + S (length es))%nat
      ∧ history t' = foldl push_bounded (history t) (snapshot t :: es)
      ∧ nodeCounter t' = nodeCounter t
      ∧ (∀ k, selectedNode t = Some k → k ∉ D' → selectedNode t' = Some k)
      ∧ (selectedNode t = None → selectedNode t' = None)
      ∧ (selectedNode t = Some N → selectedNode t' = Node.parent n).

(** ** Frames of the layout *)

(** The heaps agree on every field other than the coordinates. *)
Definition same_shape (h h' : list Node.t) : Prop := Node.shape <$> h' = Node.shape <$> h.

Definition same_x (h h' : list Node.t) : Prop := Node.x <$> h' = Node.x <$> h.

(** Only objects at locations of [L] are written. *)
Definition frame (L : nat → Prop) (h h' : list Node.t) : Prop :=
  ∀ l, ¬ L l → h' !! l = h !! l.

(** The locations of the proper descendants of [a]. *)
Definition sub_locs (s : MindMapApp) (a : string) (l : nat) : Prop :=
  ∃ k, (k, l) ∈ nodes s ∧ in_subtree s a k ∧ k ≠ a.

(** Phase A of [updateLayout] alone. *)
Definition phaseA (s : MindMapApp) : option (list Node.t) :=
  match find_root (nodes s) (objects s) with
  | None => Some (objects s)
  | Some rootNode => directional_placement (nodes s) rootNode (objects s)
  end.

(** The coordinates of a node, as reduced fractions. *)
Definition position (s : MindMapApp) (k : string) : option (Q * Q) :=
  (λ n, (Qred (Node.x n), Qred (Node.y n))) <$> node_at s k.

(** A step that writes [y] fields only. *)
Definition vertical (h h' : list Node.t) : Prop := same_shape h h' ∧ same_x h h'.

(** A step that writes coordinates of objects at locations of [L] only. *)
Definition writes (L : nat → Prop) (h h' : list Node.t) : Prop :=
  same_shape h h' ∧ frame L h h'.

(** The elements at even and at odd positions. *)
Fixpoint alternate {A : Type} (l : list A) : list A * list A :=
  match l with
  | [] => ([], [])
  | a :: l' => let '(r, lf) := alternate l' in (a :: lf, r)
  end.

Definition sgn (right : bool) : Q := if right then 1%Q else (-1)%Q.

(** The distance from the root's x of the nodes of level [lv]. *)
Definition depth_x (lv : Z) : Q := (320 + 280 * inject_Z (lv - 1))%Q.

(** The position of [c] in [cs]. *)
Fixpoint index_of (c : string) (cs : list string) : nat :=
  match cs with
  | [] => 0
  | c' :: cs' => if decide (c' = c) then 0 else S (index_of c cs')
  end.

(** Every node of the subtree of [a] has its x coordinate at the distance
    of its level, on the side given by [sigma]. *)
Definition placed (s : MindMapApp) (sigma : Q) (a : string) (h : list Node.t) : Prop :=
  ∀ k l nk, (k, l) ∈ nodes s → in_subtree s a k → objects s !! l = Some nk →
    (Node.x (h !!! l) == sigma * depth_x (Node.level nk))%Q.

(** What the placement of the subtree below a non-root node [P] does, once
    [P] and its parent are placed on the side [r]. *)
Definition branch_spec (s : MindMapApp) (fuel : nat) : Prop :=
  ∀ P lP nP h (r : bool),
    Map_get P (nodes s) = Some lP → objects s !! lP = Some nP → Node.level nP ≠ 0 →
    same_shape (objects s) h →
    (Node.x (h !!! lP) == sgn r * depth_x (Node.level nP))%Q →
    (∀ G lG, Node.parent nP = Some G → Map_get G (nodes s) = Some lG →
       (Node.x (h !!! lG)
        == if Node.level nP =? 1 then 0 else sgn r * depth_x (Node.level nP - 1))%Q) →
    (∀ k nk, node_at s k = Some nk → Node.level nk < Node.level nP + Z.of_nat fuel) →
    ∃ h', layoutChildrenMindMeisterStyle (nodes s) fuel lP h = Some h'
          ∧ same_shape h h' ∧ frame (sub_locs s P) h h' ∧ placed s (sgn r) P h'.

(** A session in which node-4, the third child of the root, gets a second
    child while node-2, the first child of the root, has one; every
    addition but the last is followed by its layout. *)
Definition two_branches : list command :=
  [AddChild; Layout sample_rect;
   Select (Some "node-1"); AddChild; Layout sample_rect;
   Select (Some "node-1"); AddChild; Layout sample_rect;
   Select (Some "node-2"); AddChild; Layout sample_rect;
   Select (Some "node-4"); AddChild; Layout sample_rect;
   Select (Some "node-4"); AddChild].

(** The states of that session before the pending layout, after it, and
    after a second layout. *)
Definition unplaced : MindMapApp := default fresh (run two_branches fresh).
Definition placed_once : MindMapApp :=
  default fresh (run (two_branches ++ [Layout sample_rect]) fresh).
Definition placed_twice : MindMapApp :=
  default fresh (run (two_branches ++ [Layout sample_rect; Layout sample_rect]) fresh).

(** ** Notions used to state the further properties *)

(** What [adjustParentChildOverlap] does when it takes [p] for the parent
    and [c] for the child: the child is put one and a half times the
    distance from the parent, on the side where it was. *)
Definition child_moved (h h' : list Node.t) (p c : nat) (np nc : Node.t)
    (requiredDistance : Q) : Prop :=
  h' !! p = Some np
  ∧ (∃ y, h' !! c = Some (Node.set_y y nc)
          ∧ ((Node.y np < Node.y nc)%Q → (y == Node.y np + (3 # 2) * requiredDistance)%Q)
          ∧ ((Node.y nc <= Node.y np)%Q → (y == Node.y np - (3 # 2) * requiredDistance)%Q))
  ∧ ∀ l, l ≠ c → h' !! l = h !! l.

(** What [adjustDistantLevelOverlap] does when it takes [d] for the deeper
    node: that node moves away from the horizontal axis through the root. *)
Definition deeper_moved (h h' : list Node.t) (d : nat) (nd : Node.t)
    (requiredDistance : Q) : Prop :=
  (∃ y, h' !! d = Some (Node.set_y y nd)
        ∧ ((0 < Node.y nd)%Q → (y == Node.y nd + requiredDistance)%Q)
        ∧ ((Node.y nd <= 0)%Q → (y == Node.y nd - requiredDistance)%Q))
  ∧ ∀ l, l ≠ d → h' !! l = h !! l.

(** The fields of a node object that make the tree. *)
Definition skeleton (n : Node.t) : string * Z * option string * list string :=
  (Node.id n, Node.level n, Node.parent n, Node.children n).

(** The events that take back a command: the undo button and Cmd+Z or
    Ctrl+Z. *)
Definition is_undo (ev : event) : bool :=
  match ev with
  | Command (Undo _) => true
  | Command _ => false
  | KeyDown e _ _ => (metaKey e || ctrlKey e) && String.eqb (key e) "z"
  end.

(** The object [m] of the node [k'] once [c] has been appended to the
    children of [k]. *)
Definition grown (k c k' : string) (m : Node.t) : Node.t :=
  if decide (k' = k) then Node.set_children (Node.children m ++ [c]) m else m.

(** Every object of [h] is still in [h'], with the id, the level and the
    parent it had. *)
Definition grows (h h' : list Node.t) : Prop :=
  ∀ l n, h !! l = Some n →
    ∃ n', h' !! l = Some n' ∧ Node.id n' = Node.id n ∧ Node.level n' = Node.level n
          ∧ Node.parent n' = Node.parent n.

(** The node objects of a session started without stored data: the first
    object is the root, the others lie below it, and no text is empty. *)
Definition heap_ok (h : list Node.t) : Prop :=
  (∃ n, h !! 0%nat = Some n ∧ Node.id n = "node-1" ∧ Node.level n = 0 ∧ Node.parent n = None)
  ∧ (∀ l n, h !! l = Some n → l ≠ 0%nat → 1 ≤ Node.level n)
  ∧ (∀ l n, h !! l = Some n → Node.text n ≠ "").

(** A map that holds the root and whose entries lead to node objects
    carrying their key. *)
Definition map_ok (m : list (string * nat)) (h : list Node.t) : Prop :=
  Map_get "node-1" m = Some 0%nat
  ∧ ∀ k l, (k, l) ∈ m → ∃ n, h !! l = Some n ∧ Node.id n = k.

(** What holds in every state of a session started without stored data,
    undo included. *)
Definition session_inv (s : MindMapApp) : Prop :=
  heap_ok (objects s) ∧ map_ok (nodes s) (objects s) ∧ 1 ≤ nodeCounter s
  ∧ (∀ e, e ∈ history s → map_ok (saved_nodes e) (objects s) ∧ 1 ≤ saved_nodeCounter e)
  ∧ (1 # 10 <= vp_scale (viewport s) <= 3)%Q.

(** The node elements of the page are the nodes of the map, in the order
    of the map (and every map, live or saved, has each id once). *)
Definition elements_ok (s : MindMapApp) : Prop :=
  elements s = Map_keys (nodes s)
  ∧ NoDup (Map_keys (nodes s))
  ∧ ∀ e, e ∈ history s → NoDup (Map_keys (saved_nodes e)).


(** * Properties *)

(** ** Numbers and lists *)

Lemma Qltb_lt a b : Qltb a b = true ↔ (a < b)%Q.
Proof.
  unfold Qltb. rewrite negb_true_iff, <- not_true_iff_false, Qle_bool_iff.
  split; [apply Qnot_le_lt | apply Qlt_not_le].
Qed.

Lemma Qltb_ge a b : Qltb a b = false ↔ (b <= a)%Q.
Proof. unfold Qltb. rewrite negb_false_iff. apply Qle_bool_iff. Qed.

Lemma lastn_length {A} (n : nat) (l : list A) : length (lastn n l) = Nat.min n (length l).
Proof. unfold lastn. rewrite length_drop. lia. Qed.

Lemma lastn_all {A} (n : nat) (l : list A) : (length l ≤ n)%nat → lastn n l = l.
Proof. intros H. unfold lastn. replace (length l - n)%nat with 0%nat by lia. done. Qed.

Lemma lastn_app_one {A} (n : nat) (l : list A) (a : A) :
  (length l = n)%nat → lastn n (l ++ [a]) = tail (l ++ [a]).
Proof.
  intros H. unfold lastn. rewrite length_app. simpl.
  replace (length l + 1 - n)%nat with 1%nat by lia.
  destruct l; simpl in *; by rewrite ?drop_0.
Qed.

(** ** Viewport *)

Section Zoom.
Local Open Scope Q_scope.

Lemma wheel_scale_range pointer deltaY inner v :
  1 # 10 <= vp_scale (wheel pointer deltaY inner v) <= 3.
Proof.
  unfold wheel; simpl. split.
  - apply Q.le_max_l.
  - apply Q.max_lub; [lra | apply Q.le_min_l].
Qed.

Lemma anchored_coordinate (m vx p i s s' : Q) :
  0 < s → 0 < s' →
  (m + vx) * s + i / 2 == p →
  (m + (vx - ((p - i / 2) / s) * (s' - s) / s')) * s' + i / 2 == p.
Proof.
  intros Hs Hs' H. rewrite <- H. field. split; lra.
Qed.

End Zoom.

(** C7. Pointer-anchored zoom: from a viewport whose scale lies in
    [0.1, 3], a wheel event sets the scale to the old scale multiplied
    (negative delta) or divided (otherwise) by 1.05 and clamped to
    [0.1, 3], and every model point that was drawn at the pointer position
    is drawn there again after the zoom. *)
Theorem wheel_zoom_anchored (v : Viewport) (pointer inner model : Q * Q) (deltaY : Q) :
  (1 # 10 <= vp_scale v)%Q → (vp_scale v <= 3)%Q →
  let v' := wheel pointer deltaY inner v in
  vp_scale v' =
    Qmax (1 # 10) (Qmin 3 (if Qltb deltaY 0 then vp_scale v * (105 # 100)
                           else vp_scale v / (105 # 100)))%Q
  ∧ (1 # 10 <= vp_scale v' <= 3)%Q
  ∧ ((toScreen model v inner).1 == pointer.1 → (toScreen model v' inner).1 == pointer.1)%Q
  ∧ ((toScreen model v inner).2 == pointer.2 → (toScreen model v' inner).2 == pointer.2)%Q.
Proof.
  intros Hlo Hhi v'.
  pose proof (wheel_scale_range pointer deltaY inner v) as Hr. fold v' in Hr.
  split; [reflexivity |]. split; [exact Hr |].
  split; intros H; unfold toScreen in *; simpl in *;
    apply anchored_coordinate; try lra; exact H.
Qed.

Lemma wheel_zoom_anchored_witness :
  let v := {| vp_x := 0; vp_y := 0; vp_scale := 1 |} in
  let v' := wheel (500, 300)%Q (-1)%Q (800, 600)%Q v in
  (vp_scale v' == 105 # 100)%Q
  ∧ ((toScreen (100, 0)%Q v' (800, 600)%Q).1 == 500)%Q.
Proof.
  intros v v'.
  destruct (wheel_zoom_anchored v (500, 300)%Q (800, 600)%Q (100, 0)%Q (-1)%Q) as (Hs & _ & Hx & _).
  - vm_compute. discriminate.
  - vm_compute. discriminate.
  - split.
    + fold v' in Hs. rewrite Hs. vm_compute. reflexivity.
    + apply Hx. vm_compute. reflexivity.
Defined.

(** ** The history stack *)

Lemma lastn_lastn_app {A} (n : nat) (l l' : list A) :
  lastn n (lastn n l ++ l') = lastn n (l ++ l').
Proof.
  unfold lastn. rewrite !length_app, length_drop.
  destruct (decide (length l ≤ n)%nat) as [Hle|Hgt].
  - replace (length l - n)%nat with 0%nat by lia. by rewrite drop_0, Nat.sub_0_r.
  - replace (length l - (length l - n) + length l' - n)%nat with (length l')%nat by lia.
    replace (length l + length l' - n)%nat with ((length l - n) + length l')%nat by lia.
    rewrite <- drop_drop. f_equal. rewrite drop_app_le by lia. done.
Qed.

Lemma push_bounded_lastn h e :
  (length h ≤ maxHistorySize)%nat → push_bounded h e = lastn maxHistorySize (h ++ [e]).
Proof.
  intros Hle. unfold push_bounded.
  destruct (maxHistorySize <? length (h ++ [e]))%nat eqn:E.
  - apply Nat.ltb_lt in E. rewrite length_app in E; simpl in E.
    symmetry. apply lastn_app_one; unfold maxHistorySize in *; lia.
  - apply Nat.ltb_ge in E. by rewrite lastn_all.
Qed.

Lemma saveToHistory_lastn s :
  (length (history s) ≤ maxHistorySize)%nat →
  history (saveToHistory s) = lastn maxHistorySize (history s ++ [snapshot s]).
Proof. intros H. simpl. by apply push_bounded_lastn. Qed.

Lemma saveToHistory_bound s :
  (length (history s) ≤ maxHistorySize)%nat →
  (length (history (saveToHistory s)) ≤ maxHistorySize)%nat.
Proof. intros H. rewrite saveToHistory_lastn, lastn_length by done. lia. Qed.

Lemma history_after_lastn h0 calls :
  (length h0 ≤ maxHistorySize)%nat →
  history_after h0 calls = lastn maxHistorySize (h0 ++ map snapshot calls).
Proof.
  revert h0. induction calls as [|s calls IH]; intros h0 H; simpl.
  - by rewrite app_nil_r, lastn_all.
  - unfold history_after in *; simpl.
    pose proof (saveToHistory_lastn (with_history h0 s) H) as E.
    pose proof (saveToHistory_bound (with_history h0 s) H) as B.
    simpl in E. rewrite IH by exact B. rewrite E.
    change (snapshot (with_history h0 s)) with (snapshot s).
    rewrite lastn_lastn_app. by rewrite <- app_assoc.
Qed.

Lemma forEach_inv {A St} (I : St → Prop) (f : A → St → St) l s :
  (∀ a s, a ∈ l → I s → I (f a s)) → I s → I (forEach f l s).
Proof.
  unfold forEach. revert s. induction l as [|a l IH]; intros s Hf Hs; simpl; [done|].
  apply IH.
  - intros b s' Hb. apply Hf. by right.
  - apply Hf; [by left | done].
Qed.

Lemma forEachM_inv {A St} (I : St → Prop) (f : A → St → option St) l s s' :
  (∀ a s s', a ∈ l → f a s = Some s' → I s → I s') →
  forEachM f l s = Some s' → I s → I s'.
Proof.
  revert s. induction l as [|a l IH]; intros s Hf Hr Hs; simpl in Hr.
  - by simplify_eq.
  - destruct (f a s) as [s1|] eqn:E; [|done].
    eapply IH; [| exact Hr |].
    + intros b t t' Hb. apply Hf. by right.
    + eapply Hf; [by left | exact E | done].
Qed.

Lemma updateLayout_inv firstRect s s' :
  updateLayout firstRect s = Some s' → ∃ h, s' = with_objects h s.
Proof.
  unfold updateLayout. intros H.
  destruct (layout _ _ _) as [h|]; simplify_eq/=. by exists h.
Qed.

Lemma createNodeElements_fields (ls : list loc) s :
  let s' := forEach (λ l s, createNodeElement (objects s !!! l) s) ls s in
  objects s' = objects s ∧ nodes s' = nodes s ∧ history s' = history s
  ∧ nodeCounter s' = nodeCounter s ∧ selectedNode s' = selectedNode s.
Proof.
  apply (forEach_inv (λ s', objects s' = objects s ∧ nodes s' = nodes s
    ∧ history s' = history s ∧ nodeCounter s' = nodeCounter s
    ∧ selectedNode s' = selectedNode s)); [|done].
  intros a t _ H. exact H.
Qed.

Lemma restore_fields e s :
  objects (restore e s) = objects s
  ∧ nodes (restore e s) = saved_nodes e
  ∧ nodeCounter (restore e s) = saved_nodeCounter e
  ∧ history (restore e s) = removelast (history s).
Proof.
  unfold restore.
  match goal with |- context [forEach ?f ?l ?t] =>
    pose proof (createNodeElements_fields l t) as (E0 & E1 & E2 & E3 & _) end.
  simpl in E0, E1, E2, E3.
  match goal with |- context [if ?c then _ else _] => destruct c end;
    simpl; rewrite E0, E1, E2, E3; done.
Qed.

(** The stack after [undo]: the last entry is popped. *)
Lemma undo_history firstRect s s' :
  undo firstRect s = Some s' → history s' = removelast (history s).
Proof.
  unfold undo. destruct (last (history s)) as [e|] eqn:E.
  - intros H. apply updateLayout_inv in H as [h ->]. simpl. apply restore_fields.
  - intros ?; simplify_eq. apply last_None in E. by rewrite E.
Qed.

Lemma addChildNode_history s :
  history (addChildNode s) = history s ∨ history (addChildNode s) = history (saveToHistory s).
Proof. unfold addChildNode. destruct (Map_get_opt _ _); [right | left]; done. Qed.

Lemma addSiblingNode_history s :
  history (addSiblingNode s) = history s ∨ history (addSiblingNode s) = history (saveToHistory s).
Proof.
  unfold addSiblingNode. destruct (Map_get_opt _ _); [|by left].
  destruct (Node.level _ =? 0); [by left|].
  destruct (Map_get_opt _ _); [by right | by left].
Qed.

Lemma changeNodeColor_history nodeId color s :
  history (changeNodeColor nodeId color s) = history s
  ∨ history (changeNodeColor nodeId color s) = history (saveToHistory s).
Proof.
  unfold changeNodeColor. repeat case_match; try (by left); by right.
Qed.

(** The states in which [stopEditing] and [startEditing] can leave the
    application. *)
Lemma stopEditing_state value s :
  state_of (stopEditing value s) = s
  ∨ state_of (stopEditing value s) = with_editingNode None s
  ∨ ∃ editing l,
      editingNode s = Some editing ∧ Map_get editing (nodes s) = Some l
      ∧ getNodeElement editing s = true ∧ is_Some (Map_get editing (inputs s))
      ∧ state_of (stopEditing value s)
        = with_editingNode None
            (with_inputs (Map_delete editing (inputs s))
               (with_objects
                  (store (Node.set_text (if String.eqb value "" then "ノード" else value))
                         l (objects s)) s)).
Proof.
  unfold stopEditing. destruct (editingNode s) as [editing|] eqn:Hed; [|by left].
  destruct (negb (truthy (Some editing))); [by left|].
  destruct (getNodeElement editing s) eqn:Hel; [|by left]. simpl.
  unfold nodeInput. rewrite Hel.
  destruct (Map_get editing (inputs s)) as [i|] eqn:Hi; [|right; by left].
  destruct (Map_get editing (nodes s)) as [l|] eqn:Hl; [|right; by left].
  right; right. exists editing, l. by rewrite Hi.
Qed.

Lemma startEditing_state nodeId pending s :
  ∃ t, (t = s ∨ t = state_of (stopEditing pending s))
       ∧ (state_of (startEditing nodeId pending s) = t
          ∨ state_of (startEditing nodeId pending s) = with_editingNode (Some nodeId) t
          ∨ ∃ l, Map_get nodeId (nodes t) = Some l ∧ getNodeElement nodeId t = true
                 ∧ state_of (startEditing nodeId pending s)
                   = with_inputs (Map_set nodeId l (inputs t))
                       (with_editingNode (Some nodeId) t)).
Proof.
  unfold startEditing.
  set (c := if truthy (editingNode s) then stopEditing pending s else Normal s).
  assert (state_of c = s ∨ state_of c = state_of (stopEditing pending s)) as Hc
    by (unfold c; destruct (truthy _); auto).
  clearbody c. exists (state_of c). split; [done|].
  destruct c as [s0|s0]; simpl; [|by left].
  change (getNodeElement nodeId (with_editingNode (Some nodeId) s0))
    with (getNodeElement nodeId s0).
  destruct (getNodeElement nodeId s0) eqn:Hel; [|right; by left].
  destruct (Map_get nodeId (nodes s0)) as [l|] eqn:Hl; [|right; by left].
  right; right. by exists l.
Qed.

(** Editing a text takes no snapshot. *)
Lemma stopEditing_history value s : history (stopEditing value s) = history s.
Proof.
  destruct (stopEditing_state value s) as [-> | [-> | (? & ? & _ & _ & _ & _ & ->)]]; done.
Qed.

Lemma startEditing_history nodeId pending s :
  history (startEditing nodeId pending s) = history s.
Proof.
  pose proof (stopEditing_history pending s) as H.
  destruct (startEditing_state nodeId pending s)
    as (t & [-> | ->] & [-> | [-> | (? & _ & _ & ->)]]); done.
Qed.

Lemma deleteNode_rec_history_bound fuel nodeId s s' :
  deleteNode_rec fuel nodeId s = Some s' →
  (length (history s) ≤ maxHistorySize)%nat → (length (history s') ≤ maxHistorySize)%nat.
Proof.
  revert nodeId s s'. induction fuel as [|fuel IH]; intros nodeId s s' H Hb; [done|].
  simpl in H. destruct (Map_get nodeId (nodes s)) as [l|]; [|by simplify_eq].
  destruct (Node.level _ =? 0); [by simplify_eq|].
  destruct (forEachM _ _ _) as [s1|] eqn:E; simplify_eq/=.
  assert (length (history s1) ≤ maxHistorySize)%nat as H1.
  { eapply (forEachM_inv (λ t, (length (history t) ≤ maxHistorySize)%nat)); [| exact E |].
    - intros a t t' _ Ht ?. eapply IH; eauto.
    - by apply saveToHistory_bound. }
  repeat case_match; simpl; done.
Qed.

Lemma step_history_bound c s s' :
  step c s = Some s' →
  (length (history s) ≤ maxHistorySize)%nat → (length (history s') ≤ maxHistorySize)%nat.
Proof.
  intros H Hb. pose proof (saveToHistory_bound s Hb) as Hs.
  destruct c; simpl in H; simplify_eq; try done.
  - destruct (addChildNode_history s) as [-> | ->]; done.
  - destruct (addSiblingNode_history s) as [-> | ->]; done.
  - by eapply deleteNode_rec_history_bound.
  - destruct (changeNodeColor_history nodeId color s) as [-> | ->]; done.
  - by rewrite startEditing_history.
  - by rewrite stopEditing_history.
  - apply updateLayout_inv in H as [h ->]. done.
  - apply undo_history in H. rewrite H.
    destruct (history s) as [|e l] using rev_ind; [done|].
    rewrite removelast_last. rewrite length_app in Hb. simpl in Hb. lia.
Qed.

Lemma run_history_bound cs s s' :
  run cs s = Some s' →
  (length (history s) ≤ maxHistorySize)%nat → (length (history s') ≤ maxHistorySize)%nat.
Proof.
  unfold run. intros H. eapply (forEachM_inv (λ t, (length (history t) ≤ maxHistorySize)%nat)); [|exact H].
  intros c t t' _. apply step_history_bound.
Qed.

(** C2. History bound: along every session the stack holds at most 50
    entries; a [saveToHistory] call leaves the 50 most recent snapshots, so
    that a call made with a full stack drops its oldest entry; and after any
    sequence of calls the stack consists of exactly the 50 most recent
    snapshots (all of them while there are fewer). *)
Theorem history_bounded_fifo (s : MindMapApp) :
  (length (history s) ≤ maxHistorySize)%nat →
  maxHistorySize = 50%nat
  ∧ (∀ cs s', run cs s = Some s' → (length (history s') ≤ 50)%nat)
  ∧ (length (history (saveToHistory s)) ≤ 50)%nat
  ∧ (length (history s) = 50%nat →
       history (saveToHistory s) = tail (history s) ++ [snapshot s])
  ∧ (∀ calls, history_after (history s) calls
              = lastn 50 (history s ++ map snapshot calls)
              ∧ (length (history_after (history s) calls) ≤ 50)%nat).
Proof.
  intros Hb. split; [done|]. split; [|split; [|split]].
  - intros cs s' H. by eapply run_history_bound.
  - by apply saveToHistory_bound.
  - intros Hfull. rewrite saveToHistory_lastn by done.
    rewrite lastn_app_one by done.
    destruct (history s); [done | reflexivity].
  - intros calls. rewrite history_after_lastn by done. split; [done|].
    rewrite lastn_length. unfold maxHistorySize. lia.
Qed.

Lemma history_bounded_fifo_witness :
  (length (history fresh) ≤ maxHistorySize)%nat
  ∧ (length (history (saveToHistory fresh)) ≤ 50)%nat.
Proof.
  assert (length (history fresh) ≤ maxHistorySize)%nat as H by (vm_compute; lia).
  split; [exact H|].
  destruct (history_bounded_fifo fresh H) as (_ & _ & Hs & _). exact Hs.
Defined.


(** ** The map *)

Lemma Map_get_Some k l m : Map_get k m = Some l → (k, l) ∈ m.
Proof.
  induction m as [|[k' v] m IH]; simpl; [done|].
  case_decide; intros; simplify_eq; [by left | right; auto].
Qed.

Lemma Map_get_None k m : Map_get k m = None ↔ k ∉ Map_keys m.
Proof.
  unfold Map_keys. induction m as [|[k' v] m IH]; simpl.
  - split; [intros _; apply not_elem_of_nil | done].
  - rewrite not_elem_of_cons. case_decide; subst.
    + split; [done | intros [? _]; done].
    + rewrite IH. naive_solver.
Qed.

Lemma Map_get_NoDup k l m : NoDup (Map_keys m) → (k, l) ∈ m → Map_get k m = Some l.
Proof.
  unfold Map_keys. induction m as [|[k' v] m IH]; simpl; intros Hnd Hin.
  - by apply elem_of_nil in Hin.
  - apply NoDup_cons in Hnd as [Hk Hnd]. apply elem_of_cons in Hin as [?|Hin]; simplify_eq.
    + by rewrite decide_True.
    + rewrite decide_False; [auto|]. intros ->. apply Hk.
      apply list_elem_of_fmap. by exists (k, l).
Qed.

Lemma Map_set_fresh k v m : k ∉ Map_keys m → Map_set k v m = m ++ [(k, v)].
Proof.
  unfold Map_keys. induction m as [|[k' v'] m IH]; simpl; [done|].
  rewrite not_elem_of_cons. intros [Hne Hk]. rewrite decide_False by done. by rewrite IH.
Qed.

Lemma Map_set_keys k v m k' :
  k' ∈ Map_keys (Map_set k v m) → k' = k ∨ k' ∈ Map_keys m.
Proof.
  unfold Map_keys. induction m as [|[k0 v0] m IH]; simpl.
  - intros H%list_elem_of_singleton. by left.
  - case_decide; subst; simpl; rewrite !elem_of_cons; naive_solver.
Qed.

Lemma Map_delete_keys k m k' : k' ∈ Map_keys (Map_delete k m) → k' ∈ Map_keys m.
Proof.
  unfold Map_keys, Map_delete. rewrite !list_elem_of_fmap.
  intros (e & -> & He%list_elem_of_filter). exists e. naive_solver.
Qed.

Lemma Map_from_NoDup (l : list (string * loc)) : NoDup l.*1 → Map_from l = l.
Proof.
  unfold Map_from.
  enough (∀ acc, NoDup (acc ++ l).*1 →
            foldl (λ m e, Map_set e.1 e.2 m) acc l = acc ++ l) as H by (apply (H [])).
  induction l as [|[k v] l IH]; intros acc Hnd; simpl.
  - by rewrite app_nil_r.
  - rewrite Map_set_fresh.
    + rewrite IH; rewrite <- app_assoc; done.
    + rewrite fmap_app in Hnd. apply NoDup_app in Hnd as (_ & Hd & _).
      intros Hk. apply (Hd k Hk). simpl. by left.
Qed.

(** [new Map] looks at the keys only: a function applied to the values of
    the entries is applied to the values of the map. *)
Lemma Map_set_fmap {V W} (f : V → W) k v (m : list (string * V)) :
  Map_set k (f v) (prod_map id f <$> m) = prod_map id f <$> Map_set k v m.
Proof.
  induction m as [|[k' v'] m IH]; simpl; [done|].
  case_decide; simpl; [done | f_equal; apply IH].
Qed.

Lemma Map_from_fmap {V W} (f : V → W) (l : list (string * V)) :
  Map_from (prod_map id f <$> l) = prod_map id f <$> Map_from l.
Proof.
  unfold Map_from.
  enough (∀ acc, foldl (λ m e, Map_set e.1 e.2 m) (prod_map id f <$> acc) (prod_map id f <$> l)
                 = prod_map id f <$> foldl (λ m e, Map_set e.1 e.2 m) acc l) as H
    by (apply (H [])).
  induction l as [|[k v] l IH]; intros acc; simpl; [done|].
  rewrite <- IH. f_equal. apply Map_set_fmap.
Qed.



(** ** Loading *)


Lemma load_locs_nodes base (entries : list (string * Node.t)) :
  load_locs base ((λ e, (e.1, Some e.2)) <$> entries)
  = prod_map id Some <$> imap (λ i e, (e.1, (base + i)%nat)) entries.
Proof.
  revert base. induction entries as [|[k n] entries IH]; intros base; [done|].
  rewrite imap_cons, !fmap_cons. simpl. rewrite IH. f_equal; [do 2 f_equal; lia|].
  f_equal. apply imap_ext. intros i x _. simpl. f_equal. lia.
Qed.



Lemma omap_snd_Some (l : list (string * Node.t)) :
  omap snd ((λ e : string * Node.t, (e.1, Some e.2)) <$> l) = l.*2.
Proof.
  induction l as [|[k n] l IH]; [done|]. rewrite !fmap_cons. simpl. f_equal. exact IH.
Qed.




Example corrupt_blob_session :
  structurally_corrupt orphan_blob = true
  ∧ content <$> init (Parsed orphan_blob) new_app
    = Some [("node-2", Some ("node-2", "A", 1, Some "node-1", [], Some "white"))].
Proof. split; vm_compute; reflexivity. Qed.

(** A stored value with a [null] node: the call returns [false] although
    the text was parsed. *)
Example null_node_session :
  loadFromDatabase (Entries [("node-1", None)] (Some 1) None) new_app = NullNode
  ∧ init (Entries [("node-1", None)] (Some 1) None) new_app = None
  ∧ init NoItem new_app = Some fresh ∧ init NotEntries new_app = Some fresh.
Proof. split_and!; vm_compute; reflexivity. Qed.

(** ** Undo and the shared node objects *)

(** C1 on the code: the snapshot shares the node objects with the live map,
    so the command that follows changes the snapshot too.  After add-child
    and undo the root still lists the removed child; after recolor and undo
    the new colour stays; after delete and undo the node is back in the map
    but not in its parent's children; and editing a text takes no snapshot
    at all, so that undo after an edit takes back the command before it. *)
Theorem undo_shares_node_objects :
  content fresh = [("node-1", Some ("node-1", "メインアイデア", 0, None, [], None))]
  ∧ content <$> run [AddChild; Undo sample_rect] fresh
    = Some [("node-1", Some ("node-1", "メインアイデア", 0, None, ["node-2"], None))]
  ∧ content <$> run [AddChild; Recolor (Some "node-2") "red"; Undo sample_rect] fresh
    = content <$> run [AddChild; Recolor (Some "node-2") "red"] fresh
  ∧ content <$> run [AddChild; Recolor (Some "node-2") "red"] fresh
    ≠ content <$> run [AddChild] fresh
  ∧ content <$> run [AddChild; Delete "node-2"; Undo sample_rect] fresh
    = Some [("node-1", Some ("node-1", "メインアイデア", 0, None, [], None));
            ("node-2", Some ("node-2", "ノード", 1, Some "node-1", [], Some "white"))]
  ∧ content <$> run [AddChild] fresh
    = Some [("node-1", Some ("node-1", "メインアイデア", 0, None, ["node-2"], None));
            ("node-2", Some ("node-2", "ノード", 1, Some "node-1", [], Some "white"))]
  ∧ (∀ value s, history (stopEditing value s) = history s)
  ∧ content <$> run [AddChild; StartEditing "node-2" ""; StopEditing "idea";
                     Undo sample_rect] fresh
    = Some [("node-1", Some ("node-1", "メインアイデア", 0, None, ["node-2"], None))].
Proof.
  repeat split; try (vm_compute; reflexivity).
  - vm_compute. discriminate.
  - intros. apply stopEditing_history.
Qed.

(** ** The id counter *)

Lemma id_of_inj a b : id_of a = id_of b → a = b.
Proof. unfold id_of. simpl. intros H. simplify_eq. by apply (inj pretty). Qed.

Lemma ids_below_mono c c' m : c ≤ c' → ids_below c m → ids_below c' m.
Proof. intros Hc H k Hk. destruct (H k Hk) as (i & -> & Hi). exists i. split; [done | lia]. Qed.

Lemma ids_below_fresh s : ids_below (nodeCounter s) (nodes s) → (generateId s).1 ∉ Map_keys (nodes s).
Proof.
  intros H Hin. destruct (H _ Hin) as (i & Hi & Hle). simpl in Hi.
  apply id_of_inj in Hi. lia.
Qed.

Lemma ids_below_set c l m : ids_below c m → ids_below (c + 1) (Map_set (id_of (c + 1)) l m).
Proof.
  intros H k [-> | Hk]%Map_set_keys.
  - exists (c + 1). split; [done | lia].
  - destruct (H k Hk) as (i & -> & Hi). exists i. split; [done | lia].
Qed.

Lemma ids_below_delete c k m : ids_below c m → ids_below c (Map_delete k m).
Proof. intros H k' Hk'%Map_delete_keys. auto. Qed.

Lemma push_bounded_elem e' h e : e' ∈ push_bounded h e → e' ∈ h ∨ e' = e.
Proof.
  unfold push_bounded. intros H.
  assert (e' ∈ h ++ [e]) as Hin.
  { destruct (maxHistorySize <? length (h ++ [e]))%nat; [|done].
    destruct (h ++ [e]); [done|]. simpl in H. by right. }
  apply elem_of_app in Hin as [?|?%list_elem_of_singleton]; auto.
Qed.

Lemma saveToHistory_elem e s :
  e ∈ history (saveToHistory s) → e ∈ history s ∨ e = snapshot s.
Proof. apply push_bounded_elem. Qed.

Lemma counter_inv_ext s s' :
  nodes s' = nodes s → nodeCounter s' = nodeCounter s → history s' = history s →
  counter_inv s → counter_inv s'.
Proof. unfold counter_inv. intros -> -> ->. done. Qed.

Lemma counter_inv_save s : counter_inv s → counter_inv (saveToHistory s).
Proof.
  intros [Hn Hh]. split; [exact Hn|].
  intros e [He | ->]%saveToHistory_elem; [by apply Hh | exact Hn].
Qed.

(** Adding a node: the map gains the id issued at the next counter value. *)
Lemma counter_inv_add s s' l :
  counter_inv s → nodes s' = Map_set (id_of (nodeCounter s + 1)) l (nodes s) →
  nodeCounter s' = nodeCounter s + 1 → history s' = history s → counter_inv s'.
Proof.
  intros [Hn Hh] En Ec Eh. split.
  - rewrite En, Ec. by apply ids_below_set.
  - rewrite Eh. exact Hh.
Qed.

Lemma addChildNode_counter_inv s : counter_inv s → counter_inv (addChildNode s).
Proof.
  intros H. unfold addChildNode. destruct (Map_get_opt _ _) as [p|]; [|done].
  eapply (counter_inv_add (saveToHistory s)); [by apply counter_inv_save | reflexivity..].
Qed.

Lemma addSiblingNode_counter_inv s : counter_inv s → counter_inv (addSiblingNode s).
Proof.
  intros H. unfold addSiblingNode. destruct (Map_get_opt _ _) as [c|]; [|done].
  destruct (Node.level _ =? 0); [done|].
  destruct (Map_get_opt _ _) as [p|]; [|done].
  eapply (counter_inv_add (saveToHistory s)); [by apply counter_inv_save | reflexivity..].
Qed.

Lemma changeNodeColor_counter_inv nodeId color s :
  counter_inv s → counter_inv (changeNodeColor nodeId color s).
Proof.
  intros H. unfold changeNodeColor. destruct nodeId as [k|]; [|done].
  destruct (negb _); [done|].
  destruct (Map_get _ _); [destruct (getNodeElement _ _)|];
    by apply counter_inv_save.
Qed.

Lemma stopEditing_fields value s :
  nodes (stopEditing value s) = nodes s
  ∧ nodeCounter (stopEditing value s) = nodeCounter s
  ∧ selectedNode (stopEditing value s) = selectedNode s.
Proof.
  destruct (stopEditing_state value s) as [-> | [-> | (? & ? & _ & _ & _ & _ & ->)]]; done.
Qed.

Lemma startEditing_fields nodeId pending s :
  nodes (startEditing nodeId pending s) = nodes s
  ∧ nodeCounter (startEditing nodeId pending s) = nodeCounter s
  ∧ selectedNode (startEditing nodeId pending s) = selectedNode s.
Proof.
  pose proof (stopEditing_fields pending s) as (E1 & E2 & E3).
  destruct (startEditing_state nodeId pending s)
    as (t & [-> | ->] & [-> | [-> | (? & _ & _ & ->)]]); done.
Qed.

Lemma deleteNode_rec_counter_inv fuel nodeId s s' :
  deleteNode_rec fuel nodeId s = Some s' → counter_inv s → counter_inv s'.
Proof.
  revert nodeId s s'. induction fuel as [|fuel IH]; intros nodeId s s' H Hi; [done|].
  simpl in H. destruct (Map_get nodeId (nodes s)) as [l|]; [|by simplify_eq].
  destruct (Node.level _ =? 0); [by simplify_eq|].
  destruct (forEachM _ _ _) as [s1|] eqn:E; simplify_eq/=.
  assert (counter_inv s1) as [Hn Hh].
  { eapply (forEachM_inv counter_inv); [| exact E | by apply counter_inv_save].
    intros a t t' _ Ht ?. eapply IH; eauto. }
  split.
  - repeat case_match; simpl; by apply ids_below_delete.
  - repeat case_match; simpl; done.
Qed.

Lemma deleteNode_rec_nodeCounter fuel nodeId s s' :
  deleteNode_rec fuel nodeId s = Some s' → nodeCounter s' = nodeCounter s.
Proof.
  revert nodeId s s'. induction fuel as [|fuel IH]; intros nodeId s s' H; [done|].
  simpl in H. destruct (Map_get nodeId (nodes s)) as [l|]; [|by simplify_eq].
  destruct (Node.level _ =? 0); [by simplify_eq|].
  destruct (forEachM _ _ _) as [s1|] eqn:E; simplify_eq/=.
  assert (nodeCounter s1 = nodeCounter s) as H1.
  { eapply (forEachM_inv (λ t, nodeCounter t = nodeCounter s)); [| exact E | done].
    intros a t t' _ Ht <-. eapply IH; eauto. }
  repeat case_match; simpl; done.
Qed.

(** What [undo] installs: the map and the counter of the popped entry. *)
Lemma undo_fields firstRect s s' :
  undo firstRect s = Some s' →
  (last (history s) = None ∧ s' = s)
  ∨ ∃ e, last (history s) = Some e ∧ nodes s' = saved_nodes e
         ∧ nodeCounter s' = saved_nodeCounter e
         ∧ history s' = removelast (history s).
Proof.
  unfold undo. intros H. destruct (last (history s)) as [e|] eqn:E;
    [right; exists e | left; by simplify_eq].
  apply updateLayout_inv in H as [h ->]. split; [done|]. simpl.
  pose proof (restore_fields e s) as (_ & E1 & E2 & E3). done.
Qed.

Lemma elem_of_removelast {A} (a : A) l : a ∈ removelast l → a ∈ l.
Proof.
  destruct l as [|x l _] using rev_ind; [done|].
  rewrite removelast_last. intros ?. apply elem_of_app. by left.
Qed.

Lemma undo_counter_inv firstRect s s' :
  undo firstRect s = Some s' → counter_inv s → counter_inv s'.
Proof.
  intros [[_ ->] | (e & E & E1 & E2 & E3)]%undo_fields [Hn Hh]; [done|].
  assert (e ∈ history s) as He.
  { apply last_Some in E as [l' ->]. apply elem_of_app. right. by left. }
  split.
  - rewrite E1, E2. by apply Hh.
  - rewrite E3. intros e' He'%elem_of_removelast. by apply Hh.
Qed.

Lemma step_counter_inv c s s' : step c s = Some s' → counter_inv s → counter_inv s'.
Proof.
  intros H Hi. destruct c; simpl in H; simplify_eq; try done.
  - by apply addChildNode_counter_inv.
  - by apply addSiblingNode_counter_inv.
  - by eapply deleteNode_rec_counter_inv.
  - by apply changeNodeColor_counter_inv.
  - pose proof (startEditing_fields nodeId pending s) as (E1 & E2 & _).
    eapply counter_inv_ext; [..| exact Hi]; try done. apply startEditing_history.
  - pose proof (stopEditing_fields value s) as (E1 & E2 & _).
    eapply counter_inv_ext; [..| exact Hi]; try done. apply stopEditing_history.
  - apply updateLayout_inv in H as [h ->]. done.
  - by eapply undo_counter_inv.
Qed.

Lemma fresh_counter_inv : counter_inv fresh.
Proof.
  split.
  - intros k Hk. vm_compute in Hk. apply list_elem_of_singleton in Hk as ->.
    exists 1. split; [vm_compute; reflexivity | vm_compute; discriminate].
  - intros e He. vm_compute in He. by apply elem_of_nil in He.
Qed.

Lemma run_counter_inv cs s s' : run cs s = Some s' → counter_inv s → counter_inv s'.
Proof.
  intros H. eapply (forEachM_inv counter_inv); [| exact H].
  intros c t t' _. apply step_counter_inv.
Qed.

Lemma step_nodeCounter_mono c s s' :
  (∀ r, c ≠ Undo r) → step c s = Some s' → nodeCounter s ≤ nodeCounter s'.
Proof.
  intros Hc H. destruct c; simpl in H; simplify_eq; simpl; try lia.
  - unfold addChildNode. destruct (Map_get_opt _ _); simpl; lia.
  - unfold addSiblingNode. repeat (case_match; simpl; try lia).
  - apply deleteNode_rec_nodeCounter in H. lia.
  - unfold changeNodeColor. repeat (case_match; simpl; try lia).
  - destruct (startEditing_fields nodeId pending s) as (_ & -> & _). lia.
  - destruct (stopEditing_fields value s) as (_ & -> & _). lia.
  - apply updateLayout_inv in H as [h ->]. simpl. lia.
  - by destruct (Hc firstRect).
Qed.

(** C9, as the code has it: in a session started without stored data, the
    id that [generateId] returns is never the key of a node of the current
    map and differs from every id issued at a counter value up to the
    current one; the counter grows by one with every id and is not lowered
    by any command other than undo.  Undo puts the counter back to the value
    saved in the snapshot. *)
Theorem generated_id_fresh_in_map (cs : list command) (s' : MindMapApp) :
  run cs fresh = Some s' →
  (generateId s').1 ∉ Map_keys (nodes s')
  ∧ (∀ c, c ≤ nodeCounter s' → (generateId s').1 ≠ id_of c)
  ∧ nodeCounter (generateId s').2 = nodeCounter s' + 1
  ∧ (∀ c s'', (∀ r, c ≠ Undo r) → step c s' = Some s'' → nodeCounter s' ≤ nodeCounter s'')
  ∧ (∀ r s'', step (Undo r) s' = Some s'' →
       s'' = s' ∨ ∃ e, last (history s') = Some e ∧ nodeCounter s'' = saved_nodeCounter e).
Proof.
  intros H. pose proof (run_counter_inv _ _ _ H fresh_counter_inv) as [Hn Hh].
  split; [by apply ids_below_fresh|]. split; [|split; [done|split]].
  - intros c Hc E. simpl in E. apply id_of_inj in E. lia.
  - intros c s''. apply step_nodeCounter_mono.
  - intros r s'' [[_ ->] | (e & E & _ & E2 & _)]%undo_fields; [by left | right; eauto].
Qed.

Lemma generated_id_fresh_in_map_witness :
  ∃ s', run [AddChild; Undo sample_rect] fresh = Some s'
        ∧ (generateId s').1 ∉ Map_keys (nodes s').
Proof.
  destruct (run [AddChild; Undo sample_rect] fresh) as [s'|] eqn:E.
  - exists s'. split; [reflexivity|].
    exact (proj1 (generated_id_fresh_in_map [AddChild; Undo sample_rect] s' E)).
  - vm_compute in E. discriminate E.
Defined.

(** C9, as stated, fails: the id of the node created by the first add-child
    is issued again after undo, for a new node object, and undo lowers the
    counter. *)
Lemma id_reissued_after_undo :
  (λ s, (generateId (saveToHistory s)).1) <$> Some fresh = Some "node-2"
  ∧ (λ s, Map_keys (nodes s)) <$> run [AddChild] fresh = Some ["node-1"; "node-2"]
  ∧ nodeCounter <$> run [AddChild] fresh = Some 2
  ∧ nodeCounter <$> run [AddChild; Undo sample_rect] fresh = Some 1
  ∧ (λ s, (generateId (saveToHistory s)).1) <$> run [AddChild; Undo sample_rect] fresh
    = Some "node-2"
  ∧ nodes <$> run [AddChild] fresh = Some [("node-1", 0%nat); ("node-2", 1%nat)]
  ∧ nodes <$> run [AddChild; Undo sample_rect; AddChild] fresh
    = Some [("node-1", 0%nat); ("node-2", 2%nat)].
Proof. repeat split; vm_compute; reflexivity. Qed.


(** ** The tree invariant *)

Lemma node_at_Some s k n :
  node_at s k = Some n ↔ ∃ l, Map_get k (nodes s) = Some l ∧ objects s !! l = Some n.
Proof.
  unfold node_at. destruct (Map_get k (nodes s)) as [l|]; simpl; [|naive_solver].
  split; [by exists l | by intros (l' & [= ->] & ?)].
Qed.

Lemma node_at_elem s k n : node_at s k = Some n → k ∈ Map_keys (nodes s).
Proof.
  intros (l & Hl%Map_get_Some & _)%node_at_Some.
  apply list_elem_of_fmap. by exists (k, l).
Qed.

Lemma tree_ok_wf s : tree_ok s = true → wf s.
Proof.
  unfold tree_ok. rewrite !andb_true_iff, !bool_decide_eq_true, Nat.eqb_eq.
  intros [[[Hk Hl] Hall] Hroot].
  assert (∀ k l, (k, l) ∈ nodes s → entry_ok (nodes s) (objects s) (k, l) = true) as He.
  { intros k l Hin. rewrite forallb_forall in Hall. apply Hall. by apply list_elem_of_In. }
  assert (∀ k n, node_at s k = Some n →
            ∃ l, (k, l) ∈ nodes s ∧ objects s !! l = Some n) as Hat.
  { intros k n (l & Hg & Ho)%node_at_Some. exists l. split; [by apply Map_get_Some | done]. }
  split; try done.
  - intros k l Hin. specialize (He k l Hin). unfold entry_ok in He. simpl in He.
    destruct (objects s !! l) as [n|]; [|done]. exists n.
    rewrite !andb_true_iff, !bool_decide_eq_true, negb_true_iff, String.eqb_neq in He.
    destruct He as [[[[[? ?] ?] ?] _] _]. split_and!; try done. lia.
  - intros k n c (l & Hin & Ho)%Hat Hc. specialize (He k l Hin). unfold entry_ok in He.
    simpl in He. rewrite Ho in He. rewrite !andb_true_iff in He.
    destruct He as [[_ Hch] _]. rewrite forallb_forall in Hch.
    specialize (Hch c). rewrite <- list_elem_of_In in Hch. specialize (Hch Hc).
    fold (node_at s c) in Hch. destruct (node_at s c) as [nc|]; [|done].
    exists nc. split; [done|]. by apply bool_decide_eq_true in Hch.
  - intros k n p (l & Hin & Ho)%Hat Hp. specialize (He k l Hin). unfold entry_ok in He.
    simpl in He. rewrite Ho, Hp in He. rewrite !andb_true_iff in He. destruct He as [_ He].
    fold (node_at s p) in He. destruct (node_at s p) as [np|]; [|done].
    exists np. rewrite andb_true_iff, bool_decide_eq_true in He. destruct He as [? ?].
    split_and!; [done.. | lia].
  - intros k n (l & Hin & Ho)%Hat Hp. specialize (He k l Hin). unfold entry_ok in He.
    simpl in He. rewrite Ho, Hp in He. rewrite !andb_true_iff in He. destruct He as [_ He]. lia.
Qed.

Section Tree.
Context (s : MindMapApp) (Hwf : wf s).

Lemma wf_get k l : (k, l) ∈ nodes s ↔ Map_get k (nodes s) = Some l.
Proof. split; [apply Map_get_NoDup, Hwf | apply Map_get_Some]. Qed.

Lemma wf_loc_inj k k' l : (k, l) ∈ nodes s → (k', l) ∈ nodes s → k = k'.
Proof.
  intros H1 H2. pose proof (wf_locs s Hwf) as Hnd. unfold Map_values in Hnd.
  apply list_elem_of_lookup in H1 as [i Hi]. apply list_elem_of_lookup in H2 as [j Hj].
  assert (i = j) as ->.
  { eapply NoDup_lookup; [exact Hnd | |]; rewrite list_lookup_fmap.
    - by rewrite Hi.
    - by rewrite Hj. }
  by simplify_eq.
Qed.

Lemma parent_of_Some k p :
  parent_of s k = Some p ↔ ∃ n, node_at s k = Some n ∧ Node.parent n = Some p.
Proof.
  unfold parent_of. destruct (node_at s k) as [n|]; simpl; [|naive_solver].
  split; [by exists n | by intros (n' & [= ->] & ?)].
Qed.

Lemma wf_child_level k n c nc :
  node_at s k = Some n → c ∈ Node.children n → node_at s c = Some nc →
  Node.parent nc = Some k ∧ Node.level nc = Node.level n + 1.
Proof.
  intros Hk Hc Hnc. destruct (wf_children s Hwf k n c Hk Hc) as (nc' & Hnc' & Hp).
  simplify_eq. split; [done|].
  destruct (wf_parent s Hwf c nc k Hnc Hp) as (np & Hnp & _ & Hl). by simplify_eq.
Qed.

Lemma wf_level_nonneg k n : node_at s k = Some n → 0 ≤ Node.level n.
Proof.
  intros (l & Hg%Map_get_Some & Ho)%node_at_Some.
  destruct (wf_object s Hwf k l Hg) as (n' & Ho' & _ & _ & ? & _). by simplify_eq.
Qed.

Lemma in_subtree_level a k na nk :
  in_subtree s a k → node_at s a = Some na → node_at s k = Some nk →
  Node.level na ≤ Node.level nk ∧ (Node.level na = Node.level nk → k = a).
Proof.
  intros H Ha. revert nk. induction H as [|k p Hp _ IH]; intros nk Hk.
  - simplify_eq. done.
  - apply parent_of_Some in Hp as (n & Hn & Hpar). rewrite Hn in Hk. injection Hk as ->.
    destruct (wf_parent s Hwf k nk p Hn Hpar) as (np & Hnp & _ & Hl).
    destruct (IH np Hnp) as [Hle _]. split; lia.
Qed.

Lemma in_subtree_trans a b k : in_subtree s a b → in_subtree s b k → in_subtree s a k.
Proof. intros Hab Hbk. induction Hbk; [done | by eapply in_subtree_child]. Qed.

Lemma in_subtree_inv a k :
  in_subtree s a k → k = a ∨ ∃ c, parent_of s c = Some a ∧ in_subtree s c k.
Proof.
  induction 1 as [|k p Hp _ [-> | (c & Hc & Hck)]]; [by left | right..].
  - exists k. split; [done | constructor].
  - exists c. split; [done | by eapply in_subtree_child].
Qed.

Lemma in_subtree_mapped a k : in_subtree s a k → k ≠ a → k ∈ Map_keys (nodes s).
Proof.
  destruct 1 as [|k p Hp _]; [done|]. intros _.
  apply parent_of_Some in Hp as (n & Hn & _). by eapply node_at_elem.
Qed.

End Tree.

(** ** Pruned states *)

Lemma Map_get_filter (D : gset string) k (m : list (string * nat)) :
  Map_get k (filter (λ e, e.1 ∉ D) m) = if decide (k ∈ D) then None else Map_get k m.
Proof.
  induction m as [|[k' v] m IH]; simpl.
  - destruct (decide (k ∈ D)); reflexivity.
  - rewrite filter_cons. simpl. destruct (decide (k' ∉ D)) as [Hk'|Hk']; simpl.
    + destruct (decide (k' = k)) as [->|]; [|exact IH].
      destruct (decide (k ∈ D)); [contradiction | reflexivity].
    + rewrite IH. destruct (decide (k' = k)) as [->|]; [|done].
      destruct (decide (k ∈ D)); [reflexivity | contradiction].
Qed.

Lemma pruned_in_closed s t D a k :
  pruned s t D → in_subtree s a k → a ∈ D → k ∈ D.
Proof.
  intros Hp H Ha. induction H as [|k p Hpar _ IH]; [done|].
  eapply pruned_closed; eauto.
Qed.

Lemma filter_all {A} (P : A → Prop) `{!∀ x, Decision (P x)} (l : list A) :
  (∀ x, x ∈ l → P x) → filter P l = l.
Proof.
  induction l as [|a l IH]; intros Hall; [done|].
  rewrite filter_cons_True by (apply Hall; by left). f_equal. apply IH.
  intros x Hx. apply Hall. by right.
Qed.

Lemma filter_ext_in {A} (P1 P2 : A → Prop) `{!∀ x, Decision (P1 x), !∀ x, Decision (P2 x)}
    (l : list A) :
  (∀ x, x ∈ l → (P1 x ↔ P2 x)) → filter P1 l = filter P2 l.
Proof.
  induction l as [|a l IH]; intros Hall; [done|].
  assert (filter P1 l = filter P2 l) as E by (apply IH; intros x Hx; apply Hall; by right).
  assert (P1 a ↔ P2 a) as Ha by (apply Hall; by left).
  destruct (decide (P1 a)) as [H1|H1].
  - rewrite !filter_cons_True; [by rewrite E | by apply Ha | done].
  - rewrite !filter_cons_False; [done | by rewrite <- Ha | done].
Qed.

Lemma pruned_refl s : wf s → pruned s s ∅.
Proof.
  intros Hwf. split.
  - symmetry. apply filter_all. intros e _. apply not_elem_of_empty.
  - intros k l Hin. destruct (wf_object s Hwf k l Hin) as (n & Ho & _).
    exists n. split; [done|]. rewrite Ho. f_equal.
    rewrite filter_all by (intros c _; apply not_elem_of_empty). by destruct n.
  - intros k p _ Hp. by apply not_elem_of_empty in Hp.
Qed.

Lemma pruned_ext s t t' D :
  nodes t' = nodes t → objects t' = objects t → pruned s t D → pruned s t' D.
Proof. intros En Eo [H1 H2 H3]. split; rewrite ?En, ?Eo; done. Qed.

Lemma pruned_get s t D k :
  pruned s t D → k ∉ D → Map_get k (nodes t) = Map_get k (nodes s).
Proof.
  intros Hp Hk. rewrite (pruned_nodes _ _ _ Hp), Map_get_filter.
  destruct (decide (k ∈ D)); [contradiction | done].
Qed.

Lemma pruned_object s t D k l n :
  pruned s t D → Map_get k (nodes s) = Some l → k ∉ D → objects s !! l = Some n →
  objects t !! l = Some (Node.set_children (filter (λ c, c ∉ D) (Node.children n)) n).
Proof.
  intros Hp Hg Hk Ho. rewrite <- (pruned_get s t D k Hp Hk) in Hg.
  apply Map_get_Some in Hg. destruct (pruned_objects _ _ _ Hp k l Hg) as (n' & Ho' & Ht).
  by simplify_eq.
Qed.

Lemma foldl_push_bounded_cons h e es :
  foldl push_bounded (push_bounded h e) es = foldl push_bounded h (e :: es).
Proof. done. Qed.

(** ** Deleting a subtree *)

Section Delete.
Context (s : MindMapApp) (Hwf : wf s).

(** The loop over the children of a node [N] of [s]. *)
Lemma delete_children fuel (N : string) n :
  delete_spec s fuel → node_at s N = Some n →
  (∀ k nk, node_at s k = Some nk → Node.level nk < Node.level n + 1 + Z.of_nat fuel) →
  ∀ cs t D,
    NoDup cs → (∀ c, c ∈ cs → c ∈ Node.children n ∧ c ∉ D) →
    pruned s t D → N ∉ D →
    ∃ t' D' es,
      forEachM (deleteNode_rec fuel) cs t = Some t'
      ∧ pruned s t' D'
      ∧ (∀ k, k ∈ D' ↔ k ∈ D ∨ ∃ c, c ∈ cs ∧ k ∈ Map_keys (nodes s) ∧ in_subtree s c k)
      ∧ size D' = (size D + length es)%nat
      ∧ history t' = foldl push_bounded (history t) es
      ∧ nodeCounter t' = nodeCounter t
      ∧ (∀ k, selectedNode t = Some k → k ∉ D' → selectedNode t' = Some k)
      ∧ (selectedNode t = None → selectedNode t' = None).
Proof.
  intros Hspec HN Hbound. induction cs as [|c cs IH]; intros t D Hnd Hcs Hp HND.
  - exists t, D, []. simpl. split_and!; try done.
    intros k. split; [by left | intros [?|(c & []%elem_of_nil & _)]; done].
  - apply NoDup_cons in Hnd as [Hc Hnd].
    destruct (Hcs c) as [Hcn HcD]; [by left|].
    destruct (wf_children s Hwf N n c HN Hcn) as (nc & Hnc & Hpar).
    destruct (wf_child_level s Hwf N n c nc HN Hcn Hnc) as [_ Hlev].
    pose proof (wf_level_nonneg s Hwf N n HN) as Hn0.
    apply node_at_Some in Hnc as Hnc'. destruct Hnc' as (lc & Hgc & Hoc).
    destruct (Hspec t D c lc nc Hp Hgc Hoc HcD) as
      (t1 & D1 & es1 & Hrun & Hp1 & HD1 & Hsz1 & Hh1 & Hc1 & Hs1 & Hs1' & _).
    { lia. }
    { intros k nk Hk. specialize (Hbound k nk Hk). lia. }
    destruct (IH t1 D1 Hnd) as (t2 & D2 & es2 & Hrun2 & Hp2 & HD2 & Hsz2 & Hh2 & Hc2 & Hs2 & Hs2').
    { intros c' Hc'. destruct (Hcs c') as [Hcn' HcD']; [by right|]. split; [done|].
      rewrite HD1. intros [?|[_ Hsub]]; [done|].
      destruct (wf_children s Hwf N n c' HN Hcn') as (nc' & Hnc' & _).
      destruct (wf_child_level s Hwf N n c' nc' HN Hcn' Hnc') as [_ Hlev'].
      destruct (in_subtree_level s Hwf c c' nc nc' Hsub Hnc Hnc') as [_ Heq].
      apply Hc. rewrite <- Heq by lia. done. }
    { done. }
    { rewrite HD1. intros [?|[_ Hsub]]; [done|].
      destruct (in_subtree_level s Hwf c N nc n Hsub Hnc HN) as [Hle _]. lia. }
    exists t2, D2, (snapshot t :: es1 ++ es2). simpl. rewrite Hrun. split_and!.
    + done.
    + done.
    + intros k. rewrite HD2, HD1. split.
      * intros [[?|[Hk Hsub]]|(c' & Hc' & Hk & Hsub)]; [by left | right..].
        -- exists c. split_and!; [by left | done..].
        -- exists c'. split_and!; [by right | done..].
      * intros [?|(c' & [->|Hc']%elem_of_cons & Hk & Hsub)]; [by left; left | |].
        -- left. by right.
        -- right. by exists c'.
    + rewrite Hsz2, Hsz1, length_app. simpl. lia.
    + rewrite Hh2, Hh1. simpl. by rewrite foldl_app.
    + by rewrite Hc2.
    + intros k Hk HkD. apply Hs2; [|done]. apply Hs1; [done|].
      intros Hin. apply HkD, HD2. left. done.
    + intros Hnone. auto.
Qed.

(** Unlinking [N] from its parent and dropping its entry, once all its
    children are gone. *)
Lemma pruned_remove t t' D N l n p lp np :
  pruned s t D → Map_get N (nodes s) = Some l → objects s !! l = Some n → N ∉ D →
  Node.parent n = Some p → Map_get p (nodes s) = Some lp → objects s !! lp = Some np →
  p ∉ D → (∀ c, parent_of s c = Some N → c ∈ D) →
  nodes t' = Map_delete N (nodes t) →
  objects t' = store (λ m, Node.set_children (filter (λ i, i ≠ N) (Node.children m)) m)
                     lp (objects t) →
  pruned s t' (D ∪ {[N]}).
Proof.
  intros Hp Hg Ho HND Hpar Hgp Hop HpD Hch En Eo.
  assert (nodes t' = filter (λ e, e.1 ∉ D ∪ {[N]}) (nodes s)) as En'.
  { rewrite En, (pruned_nodes _ _ _ Hp). unfold Map_delete. rewrite list_filter_filter.
    apply list_filter_iff. intros e. set_solver. }
  split; [exact En' | | ].
  - intros k l' Hin. rewrite En' in Hin. apply list_elem_of_filter in Hin as [HkD Hin].
    simpl in HkD. apply not_elem_of_union in HkD as [HkD HkN].
    apply not_elem_of_singleton in HkN.
    destruct (wf_object s Hwf k l' Hin) as (nk & Hok & _). exists nk. split; [done|].
    apply (wf_get s Hwf) in Hin as Hgk.
    pose proof (pruned_object s t D k l' nk Hp Hgk HkD Hok) as Hot.
    rewrite Eo. unfold store. destruct (decide (l' = lp)) as [->|Hne].
    + rewrite list_lookup_alter_eq, Hot. simpl. simplify_eq.
      unfold Node.set_children. simpl. do 2 f_equal.
      rewrite list_filter_filter. apply list_filter_iff. intros c. set_solver.
    + rewrite list_lookup_alter_ne by done. rewrite Hot. do 2 f_equal.
      apply filter_ext_in. intros c Hc.
      split; [|intros Hn Hd; apply Hn, elem_of_union; by left]. intros HcD.
      apply not_elem_of_union. split; [done|]. apply not_elem_of_singleton. intros ->.
      assert (node_at s k = Some nk) as Hk by (apply node_at_Some; eauto).
      assert (node_at s N = Some n) as HN by (apply node_at_Some; eauto).
      destruct (wf_child_level s Hwf k nk N n Hk Hc HN) as [Hpk _].
      rewrite Hpar in Hpk. injection Hpk as <-. rewrite Hgp in Hgk. by simplify_eq.
  - intros k q Hq [HqD | ->%elem_of_singleton]%elem_of_union; apply elem_of_union; left.
    + by eapply pruned_closed.
    + by apply Hch.
Qed.

Lemma deleteNode_rec_spec fuel : delete_spec s fuel.
Proof.
  induction fuel as [|fuel IH]; intros t D N l n Hp Hg Ho HND Hlev Hbound.
  { assert (node_at s N = Some n) as HN by (apply node_at_Some; eauto).
    specialize (Hbound N n HN). lia. }
  assert (node_at s N = Some n) as HN by (apply node_at_Some; eauto).
  pose proof (pruned_object s t D N l n Hp Hg HND Ho) as Hot.
  apply list_lookup_total_correct in Hot as Hot'.
  apply Map_get_Some in Hg as Hin.
  destruct (wf_object s Hwf N l Hin) as (n' & Ho' & _ & HNne & Hn0 & Hndc).
  rewrite Ho in Ho'. injection Ho' as <-.
  destruct (delete_children fuel N n IH HN) with
    (cs := filter (λ c, c ∉ D) (Node.children n)) (t := saveToHistory t) (D := D)
    as (t2 & D2 & es & Hrun & Hp2 & HD2 & Hsz2 & Hh2 & Hc2 & Hs2 & Hs2').
  { intros k nk Hk. specialize (Hbound k nk Hk). lia. }
  { by apply NoDup_filter. }
  { intros c [? ?]%list_elem_of_filter. done. }
  { eapply pruned_ext; [..| exact Hp]; done. }
  { done. }
  destruct (Node.parent n) as [p|] eqn:Hpar;
    [| by pose proof (wf_root s Hwf N n HN Hpar)].
  destruct (wf_parent s Hwf N n p HN Hpar) as (np & Hnp & HNp & Hlp).
  apply node_at_Some in Hnp as Hnp'. destruct Hnp' as (lp & Hgp & Hop).
  apply Map_get_Some in Hgp as Hinp.
  destruct (wf_object s Hwf p lp Hinp) as (np' & Hop' & _ & Hpne & _).
  assert (∀ c, c ∈ Node.children n → c ∈ Map_keys (nodes s) ∧ in_subtree s N c
                                      ∧ ∃ nc, node_at s c = Some nc
                                              ∧ Node.level nc = Node.level n + 1) as Hkids.
  { intros c Hc. destruct (wf_children s Hwf N n c HN Hc) as (nc & Hnc & Hpc).
    destruct (wf_child_level s Hwf N n c nc HN Hc Hnc) as [_ Hl].
    split_and!; [by eapply node_at_elem | | by exists nc].
    eapply in_subtree_child; [|constructor]. apply parent_of_Some; eauto. }
  assert (∀ k nk, k ∈ D2 → k ∉ D → node_at s k = Some nk → Node.level n < Node.level nk)
    as Hdeep.
  { intros k nk [?|(c & [_ Hc]%list_elem_of_filter & _ & Hsub)]%HD2 HkD Hk; [done|].
    destruct (Hkids c Hc) as (_ & _ & nc & Hnc & Hl).
    destruct (in_subtree_level s Hwf c k nc nk Hsub Hnc Hk) as [Hle _]. lia. }
  assert (N ∉ D2) as HND2.
  { intros Hin2. pose proof (Hdeep N n Hin2 HND HN). lia. }
  assert (p ∉ D) as HpD.
  { intros HpD. apply HND. eapply pruned_closed; [exact Hp | | exact HpD].
    apply parent_of_Some; eauto. }
  assert (p ∉ D2) as HpD2.
  { intros Hin2. pose proof (Hdeep p np Hin2 HpD Hnp). lia. }
  assert (∀ c, parent_of s c = Some N → c ∈ D2) as Hch.
  { intros c (nc & Hnc & Hpc)%parent_of_Some.
    destruct (wf_parent s Hwf c nc N Hnc Hpc) as (n'' & HN'' & Hc & _).
    rewrite HN in HN''. injection HN'' as <-. apply HD2.
    destruct (decide (c ∈ D)); [by left | right].
    exists c. split_and!; [by apply list_elem_of_filter | by eapply node_at_elem | constructor]. }
  exists
    (let t3 := with_nodes (Map_delete N (nodes t2))
         (with_inputs (Map_delete N (inputs t2))
            (with_elements (remove_element N (elements t2))
               (with_objects (store (λ m, Node.set_children
                                            (filter (λ i, i ≠ N) (Node.children m)) m)
                                    lp (objects t2)) t2))) in
     if bool_decide (selectedNode t3 = Some N) then selectNode (Some p) t3 else t3),
    (D2 ∪ {[N]}), es.
  split_and!; cbv zeta.
  - simpl. rewrite (pruned_get s t D N Hp HND), Hg, Hot'. simpl.
    destruct (Z.eqb_spec (Node.level n) 0) as [?|_]; [done|].
    rewrite Hrun. simpl. rewrite Hpar. simpl.
    destruct (String.eqb_spec p "") as [?|_]; [done|]. simpl.
    rewrite (pruned_get s t2 D2 p Hp2 HpD2), Hgp. simpl. reflexivity.
  - match goal with |- pruned s (if ?b then _ else _) _ => destruct b end;
      (eapply pruned_remove; [exact Hp2 | exact Hg | exact Ho | exact HND2 | exact Hpar
                              | exact Hgp | exact Hop | exact HpD2 | exact Hch | done..]).
  - intros k. rewrite elem_of_union, elem_of_singleton. split.
    + intros [[?|(c & [_ Hc]%list_elem_of_filter & Hk & Hsub)]%HD2 | ->]; [by left | right..].
      * split; [done|]. destruct (Hkids c Hc) as (_ & Hsub' & _).
        by eapply in_subtree_trans.
      * split; [by eapply node_at_elem | constructor].
    + intros [HkD | [Hk [-> | (c & Hc & Hsub)]%in_subtree_inv]]; [left; apply HD2; by left | by right |].
      left. eapply (pruned_in_closed s t2 D2 c k); [done.. | by apply Hch].
  - rewrite size_union by set_solver. rewrite size_singleton, Hsz2. lia.
  - match goal with |- history (if ?b then _ else _) = _ => destruct b end; simpl; exact Hh2.
  - match goal with |- nodeCounter (if ?b then _ else _) = _ => destruct b end; simpl; exact Hc2.
  - intros k Hk HkD. apply not_elem_of_union in HkD as [HkD2 HkN%not_elem_of_singleton].
    specialize (Hs2 k Hk HkD2). simpl. rewrite Hs2.
    rewrite bool_decide_eq_false_2 by congruence. simpl. exact Hs2.
  - intros Hnone. specialize (Hs2' Hnone). simpl. rewrite Hs2'. simpl. exact Hs2'.
  - intros HselN. specialize (Hs2 N HselN HND2). simpl. rewrite Hs2.
    rewrite bool_decide_eq_true_2 by done. reflexivity.
Qed.

End Delete.

(** ** Levels, ancestors and descendants *)

Section Descendants.
Context (s : MindMapApp) (Hwf : wf s).

Lemma level_chain (L : nat) k nk :
  node_at s k = Some nk → Node.level nk = Z.of_nat L →
  ∃ ks, length ks = S L ∧ NoDup ks
        ∧ ∀ k', k' ∈ ks → ∃ n', node_at s k' = Some n' ∧ Node.level n' ≤ Z.of_nat L.
Proof.
  revert k nk. induction L as [|L IH]; intros k nk Hk Hl.
  - exists [k]. split_and!; [done | apply NoDup_singleton |].
    intros k' ->%list_elem_of_singleton. exists nk. split; [done | lia].
  - destruct (Node.parent nk) as [p|] eqn:Hp;
      [| pose proof (wf_root s Hwf k nk Hk Hp); lia].
    destruct (wf_parent s Hwf k nk p Hk Hp) as (np & Hnp & _ & Hlp).
    destruct (IH p np Hnp) as (ks & Hlen & Hnd & Hks); [lia|].
    exists (k :: ks). split_and!; [simpl; lia | |].
    + apply NoDup_cons. split; [|done]. intros (n' & Hn' & Hle)%Hks.
      rewrite Hk in Hn'. injection Hn' as <-. lia.
    + intros k' [->|Hk']%elem_of_cons.
      * exists nk. split; [done | lia].
      * destruct (Hks k' Hk') as (n' & ? & ?). exists n'. split; [done | lia].
Qed.

Lemma level_lt_size k nk :
  node_at s k = Some nk → Node.level nk < Z.of_nat (length (nodes s)).
Proof.
  intros Hk. pose proof (wf_level_nonneg s Hwf k nk Hk) as H0.
  destruct (level_chain (Z.to_nat (Node.level nk)) k nk Hk) as (ks & Hlen & Hnd & Hks); [lia|].
  assert (ks ⊆+ Map_keys (nodes s)) as Hsub.
  { apply NoDup_submseteq; [done|]. intros k' (n' & Hn' & _)%Hks. by eapply node_at_elem. }
  apply submseteq_length in Hsub. unfold Map_keys in Hsub. rewrite length_fmap in Hsub. lia.
Qed.

Lemma in_subtree_proper a k p :
  parent_of s k = Some p → in_subtree s a p → k ≠ a.
Proof.
  intros (nk & Hk & Hp)%parent_of_Some Hsub ->.
  destruct (wf_parent s Hwf a nk p Hk Hp) as (np & Hnp & _ & Hl).
  destruct (in_subtree_level s Hwf a p nk np Hsub Hk Hnp) as [Hle _]. lia.
Qed.

Lemma is_ancestor_sound fuel a k :
  is_ancestor fuel s a k = true → in_subtree s a k ∧ k ≠ a.
Proof.
  revert k. induction fuel as [|fuel IH]; intros k H; [done|].
  simpl in H. fold (parent_of s k) in H. destruct (parent_of s k) as [p|] eqn:Hp; [|done].
  assert (in_subtree s a p) as Hsub.
  { apply orb_true_iff in H as [->%bool_decide_eq_true | H]; [constructor | by apply IH]. }
  split; [by eapply in_subtree_child | by eapply in_subtree_proper].
Qed.

Lemma is_ancestor_complete fuel a k nk :
  in_subtree s a k → k ≠ a → node_at s k = Some nk → Node.level nk ≤ Z.of_nat fuel →
  is_ancestor fuel s a k = true.
Proof.
  intros H. revert fuel nk. induction H as [|k p Hp _ IH]; intros fuel nk Hne Hk Hl; [done|].
  apply parent_of_Some in Hp as Hp'. destruct Hp' as (nk' & Hk' & Hpar).
  rewrite Hk in Hk'. injection Hk' as <-.
  destruct (wf_parent s Hwf k nk p Hk Hpar) as (np & Hnp & _ & Hlp).
  pose proof (wf_level_nonneg s Hwf p np Hnp) as H0.
  destruct fuel as [|fuel]; [lia|]. simpl. fold (parent_of s k). rewrite Hp.
  apply orb_true_iff. destruct (decide (p = a)) as [->|Hpa].
  - left. by apply bool_decide_eq_true.
  - right. apply (IH fuel np); [done.. | lia].
Qed.

Lemma elem_of_descendants a k :
  k ∈ descendants s a ↔ k ∈ Map_keys (nodes s) ∧ in_subtree s a k ∧ k ≠ a.
Proof.
  unfold descendants. rewrite list_elem_of_filter. split.
  - intros [H Hk]. apply is_ancestor_sound in H. tauto.
  - intros (Hk & Hsub & Hne). split; [|done].
    assert (∃ nk, node_at s k = Some nk) as [nk Hnk].
    { destruct Hsub as [|k p Hp _]; [done|]. apply parent_of_Some in Hp as (nk & ? & _). eauto. }
    eapply is_ancestor_complete; eauto. pose proof (level_lt_size k nk Hnk). lia.
Qed.

Lemma NoDup_descendants a : NoDup (descendants s a).
Proof. apply NoDup_filter, Hwf. Qed.

(** A set holding exactly the subtree of [a] has one element more than
    [a] has descendants. *)
Lemma size_subtree (D : gset string) a :
  a ∈ Map_keys (nodes s) →
  (∀ k, k ∈ D ↔ k ∈ Map_keys (nodes s) ∧ in_subtree s a k) →
  size D = S (length (descendants s a)).
Proof.
  intros Ha HD.
  assert (D = {[a]} ∪ list_to_set (descendants s a)) as ->.
  { apply set_eq. intros k. rewrite HD, elem_of_union, elem_of_singleton,
      elem_of_list_to_set, elem_of_descendants.
    split.
    - intros [Hk Hsub]. destruct (decide (k = a)); [by left | by right].
    - intros [-> | (? & ? & _)]; [split; [done | constructor] | done]. }
  rewrite size_union.
  - rewrite size_singleton, size_list_to_set by apply NoDup_descendants. done.
  - apply disjoint_singleton_l. rewrite elem_of_list_to_set, elem_of_descendants. tauto.
Qed.

End Descendants.

Lemma Map_keys_filter (P : string → Prop) (Q : string * nat → Prop)
    `{!∀ k, Decision (P k), !∀ e, Decision (Q e)} (m : list (string * nat)) :
  (∀ e, Q e ↔ P e.1) → Map_keys (filter Q m) = filter P (Map_keys m).
Proof.
  intros HPQ. unfold Map_keys. induction m as [|[k v] m IH]; [done|].
  rewrite fmap_cons. cbn [fst]. destruct (decide (P k)) as [Hk|Hk].
  - rewrite !filter_cons_True; [by rewrite fmap_cons, IH | done | by apply HPQ].
  - rewrite !filter_cons_False; [done.. |]. by rewrite HPQ.
Qed.

Lemma pruned_keys s t (D : gset string) :
  pruned s t D → Map_keys (nodes t) = filter (λ k, k ∉ D) (Map_keys (nodes s)).
Proof.
  intros Hp. rewrite (pruned_nodes _ _ _ Hp). by apply Map_keys_filter.
Qed.

Lemma pruned_node_at s t D k :
  wf s → pruned s t D → k ∉ D →
  node_at t k
  = (λ n, Node.set_children (filter (λ c, c ∉ D) (Node.children n)) n) <$> node_at s k.
Proof.
  intros Hwf Hp Hk. unfold node_at. rewrite (pruned_get s t D k Hp Hk).
  destruct (Map_get k (nodes s)) as [l|] eqn:Hg; [|done]. simpl.
  apply Map_get_Some in Hg as Hin.
  destruct (wf_object s Hwf k l Hin) as (n & Ho & _).
  rewrite (pruned_object s t D k l n Hp Hg Hk Ho), Ho. done.
Qed.

Lemma pruned_node_at_gone s t D k : pruned s t D → k ∈ D → node_at t k = None.
Proof.
  intros Hp Hk. unfold node_at. rewrite (pruned_nodes _ _ _ Hp), Map_get_filter.
  by rewrite decide_True.
Qed.

Lemma set_children_id n : Node.set_children (Node.children n) n = n.
Proof. by destruct n. Qed.

Lemma deleteNode_top s N n :
  wf s → node_at s N = Some n → Node.level n ≠ 0 →
  ∃ s' D es,
    deleteNode N s = Some s'
    ∧ pruned s s' D
    ∧ (∀ k, k ∈ D ↔ k ∈ Map_keys (nodes s) ∧ in_subtree s N k)
    ∧ length es = length (descendants s N)
    ∧ history s' = foldl push_bounded (history s) (snapshot s :: es)
    ∧ nodeCounter s' = nodeCounter s
    ∧ (∀ k, selectedNode s = Some k → k ∉ D → selectedNode s' = Some k)
    ∧ (selectedNode s = Some N → selectedNode s' = Node.parent n).
Proof.
  intros Hwf HN Hlev. apply node_at_Some in HN as HN'. destruct HN' as (l & Hg & Ho).
  pose proof (wf_level_nonneg s Hwf N n HN) as H0.
  destruct (deleteNode_rec_spec s Hwf (S (length (nodes s))) s ∅ N l n)
    as (s' & D & es & Hrun & Hp & HD & Hsz & Hh & Hc & Hs & _ & HsN);
    [by apply pruned_refl | done | done | apply not_elem_of_empty | done | |].
  { intros k nk Hk. pose proof (level_lt_size s Hwf k nk Hk). lia. }
  assert (∀ k, k ∈ D ↔ k ∈ Map_keys (nodes s) ∧ in_subtree s N k) as HD'.
  { intros k. rewrite HD. split; [intros [[]%not_elem_of_empty|?]; done | by right]. }
  exists s', D, es. split_and!; try done.
  rewrite size_empty in Hsz. simpl in Hsz.
  rewrite (size_subtree s Hwf D N) in Hsz; [lia | by eapply node_at_elem | done].
Qed.

(** X28. Deletion cascades in a tree: in a state satisfying the tree invariant,
    deleting a node of level 0 changes nothing; deleting any other node [N]
    returns, removes exactly [N] and its descendants from the map, removes
    [N] from the children of its parent, leaves every other node as it was,
    leaves no node whose parent is not in the map, and moves the selection
    to the parent of [N] when [N] was selected. *)
Theorem delete_cascades (s : MindMapApp) (N : string) (n : Node.t) :
  tree_ok s = true → node_at s N = Some n →
  (Node.level n = 0 → deleteNode N s = Some s)
  ∧ (Node.level n ≠ 0 →
     ∃ s', deleteNode N s = Some s'
       ∧ Map_keys (nodes s')
         = filter (λ k, k ≠ N ∧ k ∉ descendants s N) (Map_keys (nodes s))
       ∧ node_at s' N = None
       ∧ (∀ d, d ∈ descendants s N → node_at s' d = None)
       ∧ (∃ p np, Node.parent n = Some p ∧ node_at s p = Some np
                  ∧ node_at s' p
                    = Some (Node.set_children (filter (λ c, c ≠ N) (Node.children np)) np))
       ∧ (∀ k nk, node_at s' k = Some nk → Some k ≠ Node.parent n → node_at s k = Some nk)
       ∧ (∀ k nk q, node_at s' k = Some nk → Node.parent nk = Some q →
                    q ∈ Map_keys (nodes s'))
       ∧ (selectedNode s = Some N → selectedNode s' = Node.parent n)).
Proof.
  intros Hwf%tree_ok_wf HN. split.
  { intros Hl. apply node_at_Some in HN as (l & Hg & Ho).
    apply list_lookup_total_correct in Ho.
    unfold deleteNode. simpl. rewrite Hg, Ho, Hl. done. }
  intros Hlev.
  destruct (deleteNode_top s N n Hwf HN Hlev) as (s' & D & es & Hrun & Hp & HD & _ & _ & _ & _ & Hsel).
  assert (∀ k, k ∈ Map_keys (nodes s) → (k ∉ D ↔ k ≠ N ∧ k ∉ descendants s N)) as HDk.
  { intros k Hk. rewrite HD, elem_of_descendants by done. split.
    - intros Hn. split; [intros ->; apply Hn; split; [done | constructor] | tauto].
    - intros [Hne Hnd] [_ Hsub]. tauto. }
  assert (N ∈ D) as HND.
  { apply HD. split; [by eapply node_at_elem | constructor]. }
  assert (∀ k nk0 c, node_at s k = Some nk0 → c ∈ Node.children nk0 → c ∈ D →
                     k ∉ D → c = N) as Hchild.
  { intros k nk0 c Hk Hc [_ Hsub]%HD HkD.
    destruct (wf_children s Hwf k nk0 c Hk Hc) as (nc & Hnc & Hpc).
    destruct (decide (c = N)) as [|Hne]; [done|]. exfalso. apply HkD, HD.
    split; [by eapply node_at_elem|].
    destruct Hsub as [|c q Hq Hsub]; [done|].
    apply parent_of_Some in Hq as (nc' & Hnc' & Hq). by simplify_eq. }
  destruct (Node.parent n) as [p|] eqn:Hpar; [| by pose proof (wf_root s Hwf N n HN Hpar)].
  destruct (wf_parent s Hwf N n p HN Hpar) as (np & Hnp & HNp & Hlp).
  assert (p ∉ D) as HpD.
  { intros [_ Hsub]%HD. destruct (in_subtree_level s Hwf N p n np Hsub HN Hnp). lia. }
  exists s'. split_and!.
  - done.
  - rewrite (pruned_keys s s' D Hp).
    apply filter_ext_in. exact HDk.
  - by eapply pruned_node_at_gone.
  - intros d Hd. eapply pruned_node_at_gone; [done|]. apply HD.
    apply elem_of_descendants in Hd; tauto.
  - exists p, np. split_and!; [done..|].
    rewrite (pruned_node_at s s' D p Hwf Hp HpD), Hnp. simpl. do 2 f_equal.
    apply filter_ext_in. intros c Hc. split.
    + intros HcD ->. done.
    + intros Hne HcD. apply Hne. by eapply Hchild.
  - intros k nk Hk Hkp.
    destruct (decide (k ∈ D)) as [HkD|HkD];
      [by rewrite (pruned_node_at_gone s s' D k Hp HkD) in Hk|].
    rewrite (pruned_node_at s s' D k Hwf Hp HkD) in Hk.
    destruct (node_at s k) as [nk0|] eqn:Hk0; [|done]. simpl in Hk. injection Hk as <-.
    f_equal. rewrite filter_all; [by rewrite set_children_id|].
    intros c Hc HcD. pose proof (Hchild k nk0 c Hk0 Hc HcD HkD) as ->.
    destruct (wf_child_level s Hwf k nk0 N n Hk0 Hc HN) as [Hpk _]. congruence.
  - intros k nk q Hk Hq.
    destruct (decide (k ∈ D)) as [HkD|HkD];
      [by rewrite (pruned_node_at_gone s s' D k Hp HkD) in Hk|].
    rewrite (pruned_node_at s s' D k Hwf Hp HkD) in Hk.
    destruct (node_at s k) as [nk0|] eqn:Hk0; [|done]. simpl in Hk. injection Hk as <-.
    simpl in Hq. destruct (wf_parent s Hwf k nk0 q Hk0 Hq) as (nq & Hnq & _).
    rewrite (pruned_keys s s' D Hp).
    apply list_elem_of_filter. split; [|by eapply node_at_elem].
    intros HqD. apply HkD. eapply pruned_closed; [exact Hp | | exact HqD].
    apply parent_of_Some. eauto.
  - exact Hsel.
Qed.

Lemma delete_cascades_witness :
  ∃ s', deleteNode "node-2" (selectNode (Some "node-2") scenario) = Some s'
        ∧ Map_keys (nodes s') = ["node-1"; "node-3"]
        ∧ selectedNode s' = Some "node-1".
Proof.
  destruct (delete_cascades (selectNode (Some "node-2") scenario) "node-2"
              (objects scenario !!! 1%nat)) as [_ H];
    [vm_compute; reflexivity | vm_compute; reflexivity |].
  destruct H as (s' & Hrun & Hkeys & _ & _ & _ & _ & _ & Hsel); [vm_compute; discriminate|].
  exists s'. split; [exact Hrun|]. split.
  - rewrite Hkeys. vm_compute. reflexivity.
  - rewrite Hsel by reflexivity. vm_compute. reflexivity.
Defined.

(** ** Snapshots taken by a deletion *)

Lemma foldl_push_bounded_lastn h es :
  (length h ≤ maxHistorySize)%nat →
  foldl push_bounded h es = lastn maxHistorySize (h ++ es).
Proof.
  revert h. induction es as [|e es IH]; intros h Hh; simpl.
  - by rewrite app_nil_r, lastn_all.
  - rewrite IH.
    + rewrite push_bounded_lastn by done. rewrite lastn_lastn_app. by rewrite <- app_assoc.
    + rewrite push_bounded_lastn, lastn_length by done. lia.
Qed.

Lemma foldl_push_bounded_room h es :
  (length h + length es ≤ maxHistorySize)%nat → foldl push_bounded h es = h ++ es.
Proof.
  intros H. rewrite foldl_push_bounded_lastn by lia. apply lastn_all.
  rewrite length_app. lia.
Qed.

Lemma push_bounded_last h e : last (push_bounded h e) = Some e.
Proof.
  unfold push_bounded. destruct (maxHistorySize <? length (h ++ [e]))%nat eqn:E.
  - apply Nat.ltb_lt in E. rewrite length_app in E. simpl in E.
    destruct h as [|x h]; [unfold maxHistorySize in E; simpl in E; lia|].
    simpl. apply last_snoc.
  - apply last_snoc.
Qed.

Lemma foldl_push_bounded_last h e es :
  last (foldl push_bounded h (e :: es)) = last (e :: es).
Proof.
  revert h e. induction es as [|e' es IH]; intros h e.
  - simpl. apply push_bounded_last.
  - change (foldl push_bounded h (e :: e' :: es))
      with (foldl push_bounded (push_bounded h e) (e' :: es)).
    rewrite IH. by rewrite (last_cons_cons e).
Qed.

(** X29. One snapshot per removed node of a tree: in a state satisfying the
    tree invariant, deleting a non-root node [N] with k proper descendants
    returns after k + 1 pushes onto the bounded stack (the first of them the
    snapshot before the command); the entry on top afterwards, which a
    following undo pops and restores, is the last of these k + 1 snapshots,
    and the other k remain on the stack. *)
Theorem delete_snapshots_every_node (s : MindMapApp) (N : string) (n : Node.t) :
  tree_ok s = true → node_at s N = Some n → Node.level n ≠ 0 →
  ∃ s' es,
    deleteNode N s = Some s'
    ∧ length (snapshot s :: es) = S (length (descendants s N))
    ∧ history s' = foldl push_bounded (history s) (snapshot s :: es)
    ∧ ((length (history s) ≤ maxHistorySize)%nat →
       history s' = lastn 50 (history s ++ snapshot s :: es))
    ∧ ((length (history s) + S (length (descendants s N)) ≤ maxHistorySize)%nat →
       history s' = history s ++ snapshot s :: es)
    ∧ last (history s') = last (snapshot s :: es)
    ∧ (∀ r, undo r s' = updateLayout r (restore (default (snapshot s) (last es)) s'))
    ∧ history (restore (default (snapshot s) (last es)) s') = removelast (history s')
    ∧ nodes (restore (default (snapshot s) (last es)) s')
      = saved_nodes (default (snapshot s) (last es))
    ∧ ((length (history s) + S (length (descendants s N)) ≤ maxHistorySize)%nat →
       history (restore (default (snapshot s) (last es)) s') = history s ++ removelast (snapshot s :: es)).
Proof.
  intros Hwf%tree_ok_wf HN Hlev.
  destruct (deleteNode_top s N n Hwf HN Hlev) as (s' & D & es & Hrun & _ & _ & Hlen & Hh & _).
  assert (last (history s') = Some (default (snapshot s) (last es))) as Hlast.
  { rewrite Hh, foldl_push_bounded_last.
    destruct es as [|e es] using rev_ind; [done|].
    rewrite app_comm_cons, !last_snoc. done. }
  pose proof (restore_fields (default (snapshot s) (last es)) s') as (_ & Hrn & _ & Hrh).
  exists s', es. split_and!; try done.
  - simpl. by rewrite Hlen.
  - intros Hb. by rewrite Hh, foldl_push_bounded_lastn.
  - intros Hb. rewrite Hh, foldl_push_bounded_room; [done | simpl; lia].
  - rewrite Hlast. destruct es as [|e es] using rev_ind; [done|].
    by rewrite app_comm_cons, !last_snoc.
  - intros r. unfold undo. by rewrite Hlast.
  - intros Hb. rewrite Hrh, Hh, foldl_push_bounded_room by (simpl; lia).
    by apply removelast_app.
Qed.

Lemma delete_snapshots_every_node_witness :
  ∃ s' es, deleteNode "node-2" scenario = Some s'
           ∧ length (snapshot scenario :: es) = 2%nat
           ∧ length (history s') = 5%nat.
Proof.
  destruct (delete_snapshots_every_node scenario "node-2" (objects scenario !!! 1%nat))
    as (s' & es & Hrun & Hlen & _ & _ & Hh & _);
    [vm_compute; reflexivity | vm_compute; reflexivity | vm_compute; discriminate |].
  exists s', es. split; [exact Hrun|]. split.
  - rewrite Hlen. vm_compute. reflexivity.
  - rewrite Hh.
    + rewrite length_app. rewrite Hlen. vm_compute. reflexivity.
    + vm_compute. lia.
Defined.

(** ** Deleting after an undo *)

(** C3 on the code: [deleteNode] follows the children arrays, and after an
    undo these no longer match the map (the defect of C1: the snapshot
    shares the node objects).  In the scenario, deleting node-2 and undoing
    brings node-2 and node-4 back into the map, node-2 with the empty
    children array that the deletion left; deleting node-2 again then
    removes node-2 alone: node-4, its descendant, stays in the map, with a
    parent field that refers to the removed node. *)
Theorem delete_after_undo_leaves_orphan :
  run [AddChild; Layout sample_rect; Select (Some "node-1"); AddChild; Layout sample_rect;
       Select (Some "node-2"); AddChild; Layout sample_rect] fresh = Some scenario
  ∧ content <$> run [Delete "node-2"; Undo sample_rect] scenario
    = Some [("node-1", Some ("node-1", "メインアイデア", 0, None, ["node-3"], None));
            ("node-2", Some ("node-2", "ノード", 1, Some "node-1", [], Some "white"));
            ("node-3", Some ("node-3", "ノード", 1, Some "node-1", [], Some "white"));
            ("node-4", Some ("node-4", "ノード", 2, Some "node-2", [], Some "white"))]
  ∧ (λ t, descendants t "node-2") <$> run [Delete "node-2"; Undo sample_rect] scenario
    = Some ["node-4"]
  ∧ content <$> run [Delete "node-2"; Undo sample_rect; Delete "node-2"] scenario
    = Some [("node-1", Some ("node-1", "メインアイデア", 0, None, ["node-3"], None));
            ("node-3", Some ("node-3", "ノード", 1, Some "node-1", [], Some "white"));
            ("node-4", Some ("node-4", "ノード", 2, Some "node-2", [], Some "white"))]
  ∧ (λ t, parent_of t "node-4" ≫= λ p, Map_get p (nodes t))
      <$> run [Delete "node-2"; Undo sample_rect; Delete "node-2"] scenario
    = Some None.
Proof. split_and!; vm_compute; reflexivity. Qed.



(** ** Heaps under the layout *)

Lemma same_shape_refl h : same_shape h h.
Proof. done. Qed.

Lemma same_shape_trans h1 h2 h3 : same_shape h1 h2 → same_shape h2 h3 → same_shape h1 h3.
Proof. unfold same_shape. congruence. Qed.

Lemma same_x_trans h1 h2 h3 : same_x h1 h2 → same_x h2 h3 → same_x h1 h3.
Proof. unfold same_x. congruence. Qed.

Lemma fmap_store {B} (g : Node.t → B) f l (h : list Node.t) :
  (∀ n, g (f n) = g n) → g <$> store f l h = g <$> h.
Proof.
  intros Hg. unfold store. apply list_eq. intros i.
  rewrite !list_lookup_fmap. destruct (decide (l = i)) as [->|Hne].
  - rewrite list_lookup_alter_eq. destruct (h !! i); simpl; by rewrite ?Hg.
  - by rewrite list_lookup_alter_ne.
Qed.

Lemma same_shape_store f l h :
  (∀ n, Node.shape (f n) = Node.shape n) → same_shape h (store f l h).
Proof. apply fmap_store. Qed.

Lemma same_x_store f l h : (∀ n, Node.x (f n) = Node.x n) → same_x h (store f l h).
Proof. apply fmap_store. Qed.

Lemma fmap_total {B} (g : Node.t → B) (h h' : list Node.t) l :
  g <$> h' = g <$> h → g (h' !!! l) = g (h !!! l).
Proof.
  intros E. apply (f_equal (λ x, x !! l)) in E. rewrite !list_lookup_fmap in E.
  rewrite !list_lookup_total_alt.
  destruct (h' !! l), (h !! l); simpl in *; [by injection E | done..].
Qed.

Lemma same_shape_total h h' l : same_shape h h' → Node.shape (h' !!! l) = Node.shape (h !!! l).
Proof. apply fmap_total. Qed.

Lemma shape_eq n n' :
  Node.shape n' = Node.shape n →
  Node.id n' = Node.id n ∧ Node.level n' = Node.level n
  ∧ Node.parent n' = Node.parent n ∧ Node.children n' = Node.children n.
Proof. unfold Node.shape. intros [= ? ? ? ? ? ?]. done. Qed.

Lemma same_shape_fields h h' l :
  same_shape h h' →
  Node.id (h' !!! l) = Node.id (h !!! l)
  ∧ Node.level (h' !!! l) = Node.level (h !!! l)
  ∧ Node.parent (h' !!! l) = Node.parent (h !!! l)
  ∧ Node.children (h' !!! l) = Node.children (h !!! l).
Proof.
  intros E%(same_shape_total _ _ l). unfold Node.shape in E. by simplify_eq.
Qed.

Lemma same_shape_length h h' : same_shape h h' → length h' = length h.
Proof. intros E. apply (f_equal length) in E. by rewrite !length_fmap in E. Qed.

Lemma same_x_total h h' l : same_x h h' → Node.x (h' !!! l) = Node.x (h !!! l).
Proof. apply fmap_total. Qed.

Lemma same_shape_lookup h h' l n :
  same_shape h h' → h !! l = Some n → ∃ n', h' !! l = Some n' ∧ Node.shape n' = Node.shape n.
Proof.
  intros E Hl. unfold same_shape in E.
  apply (f_equal (λ x, x !! l)) in E. rewrite !list_lookup_fmap, Hl in E.
  destruct (h' !! l) as [n'|]; simpl in E; [|done]. exists n'. split; [done|]. congruence.
Qed.

(** ** Phase B moves nodes vertically only *)

Lemma vertical_refl h : vertical h h.
Proof. done. Qed.

Lemma vertical_trans h1 h2 h3 : vertical h1 h2 → vertical h2 h3 → vertical h1 h3.
Proof.
  intros [? ?] [? ?]. split; [by eapply same_shape_trans | by eapply same_x_trans].
Qed.

Lemma vertical_store (g : Node.t → Q) l h :
  vertical h (store (λ n, Node.set_y (g n) n) l h).
Proof. split; [apply same_shape_store | apply same_x_store]; by intros []. Qed.

Lemma vertical_store_const v l h : vertical h (store (Node.set_y v) l h).
Proof. apply (vertical_store (λ _, v)). Qed.

Lemma forEach_vertical {A} (f : A → list Node.t → list Node.t) l h :
  (∀ a h, vertical h (f a h)) → vertical h (forEach f l h).
Proof.
  intros Hf. apply (forEach_inv (vertical h)); [|done].
  intros a h' _ Hh. eapply vertical_trans; [exact Hh | apply Hf].
Qed.

Lemma applyOverlapAdjustment_vertical a b dims st h :
  vertical h (applyOverlapAdjustment a b dims st h).
Proof.
  destruct st; simpl.
  - apply vertical_store_const.
  - unfold adjustSiblingOverlap. case_match;
      (eapply vertical_trans; apply vertical_store_const).
  - apply vertical_store.
  - unfold adjustGeneralOverlap. case_match;
      (eapply vertical_trans; apply vertical_store).
Qed.

Lemma resolveNodePairOverlap_vertical a b dims h :
  vertical h (resolveNodePairOverlap a b dims h).1.
Proof.
  unfold resolveNodePairOverlap. case_match; simpl;
    [apply applyOverlapAdjustment_vertical | done].
Qed.

Lemma resolve_row_vertical a rest dims h b0 :
  vertical h (resolve_row a rest dims (h, b0)).1.
Proof.
  unfold resolve_row.
  apply (forEach_inv (λ st : list Node.t * bool, vertical h st.1)); [|done].
  intros b [h' r] _ Hh. simpl in *.
  pose proof (resolveNodePairOverlap_vertical a b dims h') as Hv.
  destruct (resolveNodePairOverlap a b dims h') as [h'' r'']. simpl in *.
  by eapply vertical_trans.
Qed.

Lemma resolve_pass_vertical l dims h b0 : vertical h (resolve_pass l dims (h, b0)).1.
Proof.
  revert h b0. induction l as [|a rest IH]; intros h b0; simpl; [done|].
  pose proof (resolve_row_vertical a rest dims h b0) as Hv.
  destruct (resolve_row a rest dims (h, b0)) as [h' b']. simpl in Hv.
  eapply vertical_trans; [exact Hv | apply IH].
Qed.

Lemma resolve_loop_vertical n l dims h : vertical h (resolve_loop n l dims h).
Proof.
  revert h. induction n as [|n IH]; intros h; simpl; [done|].
  pose proof (resolve_pass_vertical l dims h false) as Hv.
  destruct (resolve_pass l dims (h, false)) as [h' b']. simpl in Hv.
  destruct b'; [|done]. eapply vertical_trans; [exact Hv | apply IH].
Qed.

Lemma performComprehensiveOverlapResolution_vertical nodes firstNode h :
  vertical h (performComprehensiveOverlapResolution nodes firstNode h).
Proof.
  unfold performComprehensiveOverlapResolution, resolveGlobalOverlaps, resolveOverlapsByLevel.
  eapply vertical_trans; [|apply resolve_loop_vertical].
  apply forEach_vertical. intros [lv ls] h'. case_match; [|done].
  apply resolve_loop_vertical.
Qed.


(** ** Loops that place a list of nodes *)

Lemma writes_refl L h : writes L h h.
Proof. done. Qed.

Lemma writes_trans L h1 h2 h3 : writes L h1 h2 → writes L h2 h3 → writes L h1 h3.
Proof.
  intros [S1 F1] [S2 F2]. split; [by eapply same_shape_trans|].
  intros l Hl. by rewrite F2, F1.
Qed.

Lemma writes_mono (L L' : nat → Prop) h h' : (∀ l, L l → L' l) → writes L h h' → writes L' h h'.
Proof. intros HL [S1 F1]. split; [done|]. intros l Hl. apply F1. auto. Qed.

Lemma writes_store (L : nat → Prop) f l h :
  L l → (∀ n, Node.shape (f n) = Node.shape n) → writes L h (store f l h).
Proof.
  intros Hl Hf. split; [by apply same_shape_store|].
  intros l' Hl'. unfold store. apply list_lookup_alter_ne. by intros ->.
Qed.

Lemma vertical_same_shape h h' : vertical h h' → same_shape h h'.
Proof. by intros [? ?]. Qed.

Lemma forEach_writes {A} (L : nat → Prop) (f : A → list Node.t → list Node.t) l h :
  (∀ a h, a ∈ l → writes L h (f a h)) → writes L h (forEach f l h).
Proof.
  intros Hf. apply (forEach_inv (writes L h)); [|done].
  intros a h' Ha Hh. eapply writes_trans; [exact Hh | by apply Hf].
Qed.

(** A loop whose body writes one object per element, at distinct
    locations. *)
Lemma forEach_from_store (body : nat → nat → list Node.t → list Node.t)
    (g : nat → Node.t → Node.t) (I : list Node.t → Prop) ls :
  (∀ c idx h, c ∈ ls → I h → body c idx h = store (g idx) c h ∧ I (store (g idx) c h)) →
  NoDup ls → ∀ i h, I h →
  let h' := forEach_from body ls i h in
  I h'
  ∧ (∀ l, l ∉ ls → h' !! l = h !! l)
  ∧ (∀ j c, ls !! j = Some c → h' !! c = g (i + j)%nat <$> h !! c).
Proof.
  induction ls as [|c ls IH]; intros Hbody Hnd i h Hh; simpl.
  - split_and!; [done | done | intros j c; by rewrite lookup_nil].
  - apply NoDup_cons in Hnd as [Hc Hnd].
    destruct (Hbody c i h) as [-> HI]; [by left | done |].
    assert (∀ c' idx h', c' ∈ ls → I h' →
              body c' idx h' = store (g idx) c' h' ∧ I (store (g idx) c' h')) as Hbody'.
    { intros c' idx h' Hc'. apply Hbody. by right. }
    destruct (IH Hbody' Hnd (S i) _ HI) as (HI' & Hfr & Hpl).
    split_and!; [done | |].
    + intros l [Hne Hl]%not_elem_of_cons. rewrite Hfr by done.
      unfold store. by apply list_lookup_alter_ne.
    + intros [|j] c' Hj; simpl in Hj.
      * injection Hj as <-. rewrite Hfr by done. unfold store.
        rewrite list_lookup_alter_eq. by rewrite Nat.add_0_r.
      * rewrite (Hpl j c' Hj). unfold store. rewrite list_lookup_alter_ne.
        -- by replace (S i + j)%nat with (i + S j)%nat by lia.
        -- intros ->. apply Hc. by eapply list_elem_of_lookup_2.
Qed.

(** ** Even and odd positions *)

Lemma alternate_cons {A} (a : A) l :
  alternate (a :: l) = (a :: (alternate l).2, (alternate l).1).
Proof. simpl. by destruct (alternate l). Qed.

Lemma alternate_lookup {A} (l : list A) j :
  (alternate l).1 !! j = l !! (2 * j)%nat ∧ (alternate l).2 !! j = l !! (2 * j + 1)%nat.
Proof.
  revert j. induction l as [|a l IH]; intros j.
  - simpl. by rewrite !lookup_nil.
  - rewrite alternate_cons. simpl. split.
    + destruct j as [|j]; simpl; [done|]. destruct (IH j) as [_ ->].
      replace (j + S (j + 0))%nat with (2 * j + 1)%nat by lia. done.
    + destruct (IH j) as [-> _]. replace (j + (j + 0) + 1)%nat with (S (2 * j)) by lia. done.
Qed.

Lemma alternate_length {A} (l : list A) :
  length (alternate l).1 = Nat.div2 (S (length l)) ∧ length (alternate l).2 = Nat.div2 (length l).
Proof.
  induction l as [|a l [IH1 IH2]]; [done|].
  rewrite alternate_cons. cbn [fst snd length]. rewrite IH1, IH2. done.
Qed.

(** The partition loop of [layoutRootChildren]. *)
Lemma partition_alternate {A} (l : list A) i r lf :
  forEach_from (λ child index '(r, l),
                  if Nat.even index then (r ++ [child], l) else (r, l ++ [child])) l i (r, lf)
  = if Nat.even i then (r ++ (alternate l).1, lf ++ (alternate l).2)
    else (r ++ (alternate l).2, lf ++ (alternate l).1).
Proof.
  revert i r lf. induction l as [|a l IH]; intros i r lf.
  - simpl. destruct (Nat.even i); by rewrite !app_nil_r.
  - rewrite alternate_cons. cbn [forEach_from fst snd].
    assert (Nat.even (S i) = negb (Nat.even i)) as Hs
      by (by rewrite Nat.even_succ, <- Nat.negb_even).
    destruct (Nat.even i) eqn:Ei; rewrite IH, Hs; simpl; by rewrite <- !app_assoc.
Qed.

Lemma forEach_from_store_shape body g I ls i h :
  (∀ c idx h, c ∈ ls → I h → body c idx h = store (g idx) c h ∧ I (store (g idx) c h)) →
  (∀ idx n, Node.shape (g idx n) = Node.shape n) →
  NoDup ls → I h →
  writes (λ l, l ∈ ls) h (forEach_from body ls i h).
Proof.
  intros Hbody Hg Hnd Hh.
  destruct (forEach_from_store body g I ls Hbody Hnd i h Hh) as (_ & Hfr & Hpl).
  split; [|exact Hfr].
  unfold same_shape. apply list_eq. intros l. rewrite !list_lookup_fmap.
  destruct (decide (l ∈ ls)) as [Hl|Hl].
  - apply list_elem_of_lookup in Hl as [j Hj]. rewrite (Hpl j l Hj).
    destruct (h !! l); simpl; by rewrite ?Hg.
  - by rewrite Hfr.
Qed.

Lemma NoDup_alternate {A} (l : list A) :
  NoDup l → NoDup (alternate l).1 ∧ NoDup (alternate l).2.
Proof.
  intros Hnd. split; apply NoDup_alt; intros i j x Hi Hj.
  - rewrite (proj1 (alternate_lookup l i)) in Hi. rewrite (proj1 (alternate_lookup l j)) in Hj.
    pose proof (NoDup_lookup l _ _ x Hnd Hi Hj). lia.
  - rewrite (proj2 (alternate_lookup l i)) in Hi. rewrite (proj2 (alternate_lookup l j)) in Hj.
    pose proof (NoDup_lookup l _ _ x Hnd Hi Hj). lia.
Qed.

Lemma store_store f g l (h : list Node.t) : store f l (store g l h) = store (λ n, f (g n)) l h.
Proof. unfold store. apply list_alter_alter_eq. Qed.

Lemma Nat_even_double_div2 i : Nat.even i = true → (2 * Nat.div2 i)%nat = i.
Proof.
  intros H. apply Nat.even_spec in H as [k ->]. f_equal.
  rewrite Nat.div2_double. done.
Qed.

Lemma Nat_odd_double_div2 i : Nat.even i = false → (2 * Nat.div2 i + 1)%nat = i.
Proof.
  intros H. rewrite <- Nat.negb_odd in H. apply negb_false_iff, Nat.odd_spec in H as [k ->].
  replace (2 * k + 1)%nat with (S (2 * k)) by lia. rewrite Nat.div2_succ_double. lia.
Qed.

(** The root's children after [layoutRootChildren]. *)
Lemma layoutRootChildren_spec (cl : list nat) h :
  NoDup cl →
  let h' := layoutRootChildren cl h in
  writes (λ l, l ∈ cl) h h'
  ∧ ∀ i c, cl !! i = Some c →
      h' !! c = (λ n, Node.set_y (root_child_y i (length cl))
                        (Node.set_x (if Nat.even i then 320 else -320)%Q n)) <$> h !! c.
Proof.
  intros Hnd. unfold layoutRootChildren, forEachI.
  rewrite (partition_alternate cl 0 [] []). simpl.
  destruct (NoDup_alternate cl Hnd) as [HndR HndL].
  destruct (alternate_length cl) as [HlenR HlenL].
  set (R := (alternate cl).1) in *. set (Lf := (alternate cl).2) in *.
  set (gR := λ (idx : nat) n,
         Node.set_y ((ofnat idx - (ofnat (length R) - 1) / 2) * Qmax 120 (60 + 40))%Q
           (Node.set_x 320%Q n)).
  set (gL := λ (idx : nat) n,
         Node.set_y ((ofnat idx - (ofnat (length Lf) - 1) / 2) * Qmax 120 (60 + 40))%Q
           (Node.set_x (- (320))%Q n)).
  match goal with |- context [forEach_from ?b R 0%nat h] => set (bR := b) end.
  match goal with |- context [forEach_from ?b Lf 0%nat _] => set (bL := b) end.
  assert (∀ (ls : list nat) c idx (h0 : list Node.t), c ∈ ls → True →
            bR c idx h0 = store (gR idx) c h0 ∧ True) as HbR.
  { intros ls c idx h0 _ _. split; [|done]. unfold bR, gR. apply store_store. }
  assert (∀ (ls : list nat) c idx (h0 : list Node.t), c ∈ ls → True →
            bL c idx h0 = store (gL idx) c h0 ∧ True) as HbL.
  { intros ls c idx h0 _ _. split; [|done]. unfold bL, gL. apply store_store. }
  pose proof (forEach_from_store_shape bR gR (λ _, True) R 0 h (HbR R)
                ltac:(by intros idx []) HndR I) as HwR.
  destruct (forEach_from_store bR gR (λ _, True) R (HbR R) HndR 0%nat h I) as (_ & HfrR & HplR).
  set (h1 := forEach_from bR R 0%nat h) in *.
  pose proof (forEach_from_store_shape bL gL (λ _, True) Lf 0 h1 (HbL Lf)
                ltac:(by intros idx []) HndL I) as HwL.
  destruct (forEach_from_store bL gL (λ _, True) Lf (HbL Lf) HndL 0%nat h1 I) as (_ & HfrL & HplL).
  assert (∀ c, c ∈ R → c ∈ cl) as HR.
  { intros c [j Hj]%list_elem_of_lookup. unfold R in Hj.
    rewrite (proj1 (alternate_lookup cl j)) in Hj. by eapply list_elem_of_lookup_2. }
  assert (∀ c, c ∈ Lf → c ∈ cl) as HL.
  { intros c [j Hj]%list_elem_of_lookup. unfold Lf in Hj.
    rewrite (proj2 (alternate_lookup cl j)) in Hj. by eapply list_elem_of_lookup_2. }
  split.
  - eapply writes_trans; (eapply writes_mono; [|eassumption]); auto.
  - intros i c Hi. destruct (Nat.even i) eqn:Ei.
    + pose proof (Nat_even_double_div2 i Ei) as Hd.
      assert (R !! Nat.div2 i = Some c) as HRi.
      { unfold R. rewrite (proj1 (alternate_lookup cl _)), Hd. done. }
      rewrite HfrL.
      * rewrite (HplR _ _ HRi). unfold gR, root_child_y. rewrite Ei, HlenR. simpl.
        replace (length cl + 1)%nat with (S (length cl)) by lia. done.
      * intros [j Hj]%list_elem_of_lookup. unfold Lf in Hj.
        rewrite (proj2 (alternate_lookup cl j)) in Hj.
        pose proof (NoDup_lookup cl _ _ c Hnd Hi Hj). lia.
    + pose proof (Nat_odd_double_div2 i Ei) as Hd.
      assert (Lf !! Nat.div2 i = Some c) as HLi.
      { unfold Lf. rewrite (proj2 (alternate_lookup cl _)), Hd. done. }
      rewrite (HplL _ _ HLi), HfrR.
      * unfold gL, root_child_y. rewrite Ei, HlenL. simpl. done.
      * intros [j Hj]%list_elem_of_lookup. unfold R in Hj.
        rewrite (proj1 (alternate_lookup cl j)) in Hj.
        pose proof (NoDup_lookup cl _ _ c Hnd Hi Hj). lia.
Qed.

(** ** Placing the children of a branch node *)

Lemma adjustForSiblingConflicts_writes P (cl : list nat) sib sc h :
  let h' := adjustForSiblingConflicts P cl sib sc h in
  writes (λ l, l ∈ cl) h h' ∧ same_x h h'.
Proof.
  unfold adjustForSiblingConflicts.
  assert (∀ (g : Node.t → Q) (h0 : list Node.t),
            let h' := forEach (λ child h, store (λ n, Node.set_y (g n) n) child h) cl h0 in
            writes (λ l, l ∈ cl) h0 h' ∧ same_x h0 h') as Hloop.
  { intros g h0. split.
    - apply forEach_writes. intros c h1 Hc. apply writes_store; [done | by intros []].
    - apply (forEach_vertical (λ child h, store (λ n, Node.set_y (g n) n) child h)).
      intros c h1. apply vertical_store. }
  repeat case_match; try done; apply Hloop.
Qed.

Lemma avoidIntersections_writes nodes P (cl : list nat) h :
  let h' := avoidIntersections nodes P cl h in
  writes (λ l, l ∈ cl) h h' ∧ same_x h h'.
Proof.
  unfold avoidIntersections. case_match; [done|]. case_match; [|done].
  match goal with |- context [forEach ?ff ?ll h] =>
    apply (forEach_inv (λ h', writes (λ x, x ∈ cl) h h' ∧ same_x h h') ff ll h) end; [|done].
  intros sib h1 _ [Hw Hx]. case_match; [done|].
  match goal with |- context [adjustForSiblingConflicts ?a ?b ?c ?d ?e] =>
    destruct (adjustForSiblingConflicts_writes a b c d e) as [Hw' Hx'] end.
  split; [by eapply writes_trans | by eapply same_x_trans].
Qed.

Lemma layoutBranchChildrenNoIntersection_spec nodes P (cl : list nat) h :
  NoDup cl → P ∉ cl →
  let h' := layoutBranchChildrenNoIntersection nodes P cl h in
  writes (λ l, l ∈ cl) h h'
  ∧ ∀ c, c ∈ cl →
      Node.x <$> h' !! c
      = (λ _, Node.x (h !!! P) + 280 * branch_direction nodes P h)%Q <$> h !! c.
Proof.
  intros Hnd HP. unfold layoutBranchChildrenNoIntersection, forEachI.
  set (dir := branch_direction nodes P h).
  set (vs := Qmax 120 (calculateRequiredSpace nodes P (length cl) h
                       / ofnat (Nat.max (length cl - 1) 1))).
  set (startY := (Node.y (h !!! P) - (ofnat (length cl) - 1) * vs / 2)%Q).
  match goal with |- context [forEach_from ?b cl 0%nat h] => set (body := b) end.
  set (g := λ (idx : nat) n,
         Node.set_y (startY + ofnat idx * vs)%Q
           (Node.set_x (Node.x (h !!! P) + 280 * dir)%Q n)).
  assert (∀ c idx (h0 : list Node.t), c ∈ cl → h0 !! P = h !! P →
            body c idx h0 = store (g idx) c h0 ∧ store (g idx) c h0 !! P = h !! P) as Hbody.
  { intros c idx h0 Hc HP0. split.
    - unfold body, g. rewrite store_store.
      rewrite !list_lookup_total_alt, HP0. done.
    - unfold store. rewrite list_lookup_alter_ne; [done|]. by intros ->. }
  pose proof (forEach_from_store_shape body g (λ h0, h0 !! P = h !! P) cl 0 h Hbody
                ltac:(by intros idx []) Hnd eq_refl) as Hw1.
  destruct (forEach_from_store body g (λ h0, h0 !! P = h !! P) cl Hbody Hnd 0%nat h eq_refl)
    as (_ & _ & Hpl).
  set (h1 := forEach_from body cl 0%nat h) in *.
  destruct (avoidIntersections_writes nodes P cl h1) as [Hw2 Hx2].
  split; [by eapply writes_trans|].
  intros c [j Hj]%list_elem_of_lookup.
  unfold same_x in Hx2. apply (f_equal (λ l, l !! c)) in Hx2.
  rewrite !list_lookup_fmap in Hx2. rewrite Hx2, (Hpl j c Hj).
  destruct (h !! c); done.
Qed.


(** ** Subtrees and their locations *)

Lemma index_of_lookup c (cs : list string) i :
  NoDup cs → cs !! i = Some c → index_of c cs = i.
Proof.
  revert i. induction cs as [|c' cs IH]; intros i Hnd Hi; [by rewrite lookup_nil in Hi|].
  apply NoDup_cons in Hnd as [Hc' Hnd]. simpl. destruct i as [|i]; simpl in Hi.
  - injection Hi as ->. by rewrite decide_True.
  - rewrite decide_False; [f_equal; by apply IH|].
    intros ->. apply Hc'. by eapply list_elem_of_lookup_2.
Qed.

Lemma lookup_all_cons c cs (m : list (string * nat)) lc :
  Map_get c m = Some lc → lookup_all (c :: cs) m = lc :: lookup_all cs m.
Proof. intros H. unfold lookup_all. simpl. by rewrite H. Qed.

Lemma elem_of_lookup_all lc cs (m : list (string * nat)) :
  lc ∈ lookup_all cs m ↔ ∃ c, c ∈ cs ∧ Map_get c m = Some lc.
Proof. unfold lookup_all. apply list_elem_of_omap. Qed.

Lemma depth_x_succ lv : (depth_x (lv + 1) == depth_x lv + 280)%Q.
Proof.
  unfold depth_x. replace (lv + 1 - 1) with ((lv - 1) + 1) by lia.
  rewrite inject_Z_plus. simpl. ring.
Qed.

Lemma depth_x_pos lv : 1 ≤ lv → (320 <= depth_x lv)%Q.
Proof.
  intros H. unfold depth_x.
  assert (0 <= inject_Z (lv - 1))%Q as H0.
  { change 0%Q with (inject_Z 0). rewrite <- Zle_Qle. lia. }
  lra.
Qed.

Lemma depth_x_one : (depth_x 1 == 320)%Q.
Proof. reflexivity. Qed.

Section Subtrees.
Context (s : MindMapApp) (Hwf : wf s).

Lemma in_subtree_unique a b k na nb :
  in_subtree s a k → in_subtree s b k →
  node_at s a = Some na → node_at s b = Some nb → Node.level na = Node.level nb → a = b.
Proof.
  intros Ha. revert b nb. induction Ha as [|k p Hp Hap IH]; intros b nb Hb Hna Hnb Hl.
  - destruct (in_subtree_level s Hwf b a nb na Hb Hnb Hna) as [_ H]. apply H. lia.
  - inversion Hb as [Heq | k' p' Hp' Hbp Heq]; subst.
    + apply parent_of_Some in Hp as (nk & Hk & Hpar).
      destruct (wf_parent s Hwf k nk p Hk Hpar) as (np & Hnp & _ & Hlp).
      destruct (in_subtree_level s Hwf a p na np Hap Hna Hnp) as [Hle _].
      rewrite Hk in Hnb. injection Hnb as <-. lia.
    + rewrite Hp in Hp'. injection Hp' as <-. by eapply IH.
Qed.

(** The node objects of [s], read in a heap of the same shape. *)
Lemma shape_fields h k l n :
  same_shape (objects s) h → (k, l) ∈ nodes s → objects s !! l = Some n →
  Node.id (h !!! l) = k ∧ Node.level (h !!! l) = Node.level n
  ∧ Node.parent (h !!! l) = Node.parent n ∧ Node.children (h !!! l) = Node.children n.
Proof.
  intros Hs Hin Ho. destruct (same_shape_fields _ _ l Hs) as (E1 & E2 & E3 & E4).
  apply list_lookup_total_correct in Ho as Ho'. rewrite Ho' in *.
  destruct (wf_object s Hwf k l Hin) as (n' & Ho'' & Hid & _).
  rewrite Ho in Ho''. injection Ho'' as <-. by rewrite E1, E2, E3, E4.
Qed.

Lemma child_loc k n c :
  node_at s k = Some n → c ∈ Node.children n →
  ∃ lc nc, Map_get c (nodes s) = Some lc ∧ objects s !! lc = Some nc
           ∧ Node.parent nc = Some k ∧ Node.level nc = Node.level n + 1.
Proof.
  intros Hk Hc. destruct (wf_children s Hwf k n c Hk Hc) as (nc & Hnc & Hpar).
  destruct (wf_child_level s Hwf k n c nc Hk Hc Hnc) as [_ Hl].
  apply node_at_Some in Hnc as (lc & ? & ?). by exists lc, nc.
Qed.

Lemma NoDup_lookup_all cs :
  NoDup cs → NoDup (lookup_all cs (nodes s)).
Proof.
  induction cs as [|c cs IH]; intros Hnd; [constructor|].
  apply NoDup_cons in Hnd as [Hc Hnd]. unfold lookup_all. simpl.
  destruct (Map_get c (nodes s)) as [lc|] eqn:Hg; [|by apply IH].
  apply NoDup_cons. split; [|by apply IH].
  intros (c' & Hc' & Hg')%elem_of_lookup_all.
  apply Map_get_Some in Hg, Hg'. assert (c = c') as -> by by eapply wf_loc_inj. done.
Qed.

(** The locations below a child do not contain nodes of the level of the
    child or above. *)
Lemma sub_locs_level c nc k l nk :
  node_at s c = Some nc → (k, l) ∈ nodes s → objects s !! l = Some nk →
  sub_locs s c l → Node.level nc < Node.level nk.
Proof.
  intros Hc Hin Ho (k' & Hin' & Hsub & Hne).
  assert (k' = k) as -> by by eapply wf_loc_inj.
  assert (node_at s k = Some nk) as Hk.
  { apply node_at_Some. exists l. split; [by apply wf_get | done]. }
  destruct (in_subtree_level s Hwf c k nc nk Hsub Hc Hk) as [Hle Heq].
  destruct (decide (Node.level nc = Node.level nk)) as [E|]; [by apply Heq in E | lia].
Qed.

Lemma sub_locs_disjoint c c' nc nc' k l :
  node_at s c = Some nc → node_at s c' = Some nc' → Node.level nc = Node.level nc' →
  (k, l) ∈ nodes s → in_subtree s c k → sub_locs s c' l → c = c'.
Proof.
  intros Hc Hc' Hl Hin Hsub (k' & Hin' & Hsub' & Hne).
  assert (k' = k) as -> by by eapply wf_loc_inj.
  by eapply in_subtree_unique.
Qed.

Lemma sub_locs_child P nP c l :
  node_at s P = Some nP → c ∈ Node.children nP → sub_locs s c l → sub_locs s P l.
Proof.
  intros HP Hc (k & Hin & Hsub & Hne).
  destruct (wf_children s Hwf P nP c HP Hc) as (nc & Hnc & Hpar).
  assert (in_subtree s P c) as HPc.
  { eapply in_subtree_child; [|constructor]. apply parent_of_Some. eauto. }
  exists k. split_and!; [done | by eapply in_subtree_trans |].
  intros ->. destruct (wf_child_level s Hwf P nP c nc HP Hc Hnc) as [_ Hl].
  destruct (in_subtree_level s Hwf c P nc nP Hsub Hnc HP). lia.
Qed.

Lemma child_in_sub_locs P nP c lc :
  node_at s P = Some nP → c ∈ Node.children nP → Map_get c (nodes s) = Some lc →
  sub_locs s P lc.
Proof.
  intros HP Hc Hg. destruct (wf_children s Hwf P nP c HP Hc) as (nc & Hnc & Hpar).
  exists c. split_and!; [by apply Map_get_Some | |].
  - eapply in_subtree_child; [|constructor]. apply parent_of_Some. eauto.
  - intros ->. destruct (wf_child_level s Hwf P nP P nc HP Hc Hnc) as [_ Hl].
    rewrite HP in Hnc. injection Hnc as <-. lia.
Qed.

End Subtrees.

(** ** Phase A places every branch on one side *)

Lemma frame_total (L : nat → Prop) h h' l : frame L h h' → ¬ L l → h' !!! l = h !!! l.
Proof. intros Hf Hl. by rewrite !list_lookup_total_alt, (Hf l Hl). Qed.

Section Placement.
Context (s : MindMapApp) (Hwf : wf s).

(** The loop over the children [cs] of [P], the child [c] lying on the side
    [rho c]. *)
Lemma layout_children_loop fuel P lP nP (rho : string → bool) :
  branch_spec s fuel → Map_get P (nodes s) = Some lP → objects s !! lP = Some nP →
  (∀ k nk, node_at s k = Some nk → Node.level nk < Node.level nP + 1 + Z.of_nat fuel) →
  ∀ cs h,
    NoDup cs → (∀ c, c ∈ cs → c ∈ Node.children nP) → same_shape (objects s) h →
    (∀ c lc nc, c ∈ cs → Map_get c (nodes s) = Some lc → objects s !! lc = Some nc →
       (Node.x (h !!! lc) == sgn (rho c) * depth_x (Node.level nc))%Q) →
    (∀ c, c ∈ cs →
       (Node.x (h !!! lP)
        == if Node.level nP + 1 =? 1 then 0 else sgn (rho c) * depth_x (Node.level nP))%Q) →
    ∃ h', forEachM (layoutChildrenMindMeisterStyle (nodes s) fuel) (lookup_all cs (nodes s)) h
          = Some h'
          ∧ same_shape h h'
          ∧ frame (λ l, ∃ c, c ∈ cs ∧ sub_locs s c l) h h'
          ∧ ∀ c, c ∈ cs → placed s (sgn (rho c)) c h'.
Proof.
  intros Hspec HgP HoP Hbound.
  assert (node_at s P = Some nP) as HP by (apply node_at_Some; eauto).
  pose proof (wf_level_nonneg s Hwf P nP HP) as HP0.
  induction cs as [|c cs IH]; intros h Hnd Hcs Hs Hx HxP.
  - exists h. simpl. split_and!; [done | done | by intros l _ | ].
    intros c []%elem_of_nil.
  - apply NoDup_cons in Hnd as [Hc Hnd].
    destruct (child_loc s Hwf P nP c HP) as (lc & nc & Hgc & Hoc & Hparc & Hlc);
      [apply Hcs; by left|].
    assert (node_at s c = Some nc) as Hnc by (apply node_at_Some; eauto).
    rewrite (lookup_all_cons c cs _ lc Hgc). simpl.
    destruct (Hspec c lc nc h (rho c) Hgc Hoc) as (h1 & Hrun & Hs1 & Hf1 & Hpl1).
    { lia. }
    { done. }
    { apply (Hx c lc nc); [by left | done..]. }
    { intros G lG HG HgG. rewrite Hparc in HG. injection HG as <-.
      rewrite HgP in HgG. injection HgG as <-.
      rewrite Hlc. replace (Node.level nP + 1 - 1) with (Node.level nP) by lia.
      apply HxP. by left. }
    { intros k nk Hk. specialize (Hbound k nk Hk). lia. }
    rewrite Hrun.
    assert (∀ c' lc' nc', c' ∈ c :: cs → Map_get c' (nodes s) = Some lc' →
              objects s !! lc' = Some nc' → ¬ sub_locs s c lc') as Hout.
    { intros c' lc' nc' Hc' Hg' Ho' Hsub.
      destruct (child_loc s Hwf P nP c' HP (Hcs c' Hc')) as (lc'' & nc'' & Hg'' & Ho'' & _ & Hl'').
      rewrite Hg' in Hg''. injection Hg'' as <-. rewrite Ho' in Ho''. injection Ho'' as <-.
      pose proof (sub_locs_level s Hwf c nc c' lc' nc' Hnc (Map_get_Some _ _ _ Hg') Ho' Hsub).
      lia. }
    assert (¬ sub_locs s c lP) as HoutP.
    { intros Hsub.
      pose proof (sub_locs_level s Hwf c nc P lP nP Hnc (Map_get_Some _ _ _ HgP) HoP Hsub).
      lia. }
    destruct (IH h1 Hnd) as (h2 & Hrun2 & Hs2 & Hf2 & Hpl2).
    { intros c' Hc'. apply Hcs. by right. }
    { by eapply same_shape_trans. }
    { intros c' lc' nc' Hc' Hg' Ho'. rewrite (frame_total _ _ _ _ Hf1).
      - apply (Hx c' lc' nc'); [by right | done..].
      - eapply Hout; [by right | done..]. }
    { intros c' Hc'. rewrite (frame_total _ _ _ _ Hf1 HoutP). apply HxP. by right. }
    exists h2. split_and!.
    + done.
    + by eapply same_shape_trans.
    + intros l Hl. rewrite Hf2, Hf1; [done | |].
      * intros Hsub. apply Hl. exists c. split; [by left | done].
      * intros (c' & Hc' & Hsub). apply Hl. exists c'. split; [by right | done].
    + intros c0 [->|Hc0]%elem_of_cons; [|by apply Hpl2].
      intros k l nk Hin Hsub Ho. rewrite (frame_total _ _ _ _ Hf2); [by eapply Hpl1|].
      intros (c' & Hc' & Hsub').
      destruct (child_loc s Hwf P nP c' HP) as (lc' & nc' & Hg' & Ho' & _ & Hl');
        [apply Hcs; by right|].
      assert (node_at s c' = Some nc') as Hnc' by (apply node_at_Some; eauto).
      assert (c = c') as -> by (eapply (sub_locs_disjoint s Hwf c c' nc nc' k l); eauto; lia).
      done.
Qed.

Lemma direction_side (r : bool) L (xP xG : Q) :
  1 ≤ L → (xP == sgn r * depth_x L)%Q →
  (xG == if L =? 1 then 0 else sgn r * depth_x (L - 1))%Q →
  (if Qgtb xP xG then 1%Q else (-1)%Q) = sgn r.
Proof.
  intros HL HP HG. pose proof (depth_x_pos L HL) as Hpos.
  assert (xG == sgn r * (depth_x L - 280) ∨ xG == 0)%Q as HG'.
  { destruct (Z.eqb_spec L 1) as [->|Hne]; [by right | left].
    rewrite HG. pose proof (depth_x_succ (L - 1)) as E.
    replace (L - 1 + 1) with L in E by lia. rewrite E. ring. }
  unfold Qgtb. destruct r; simpl in *.
  - rewrite (proj2 (Qltb_lt xG xP)); [done|]. destruct HG' as [E|E]; rewrite E, HP; lra.
  - rewrite (proj2 (Qltb_ge xG xP)); [done|]. destruct HG' as [E|E]; rewrite E, HP; lra.
Qed.

Lemma child_x (r : bool) L (xP : Q) :
  (xP == sgn r * depth_x L)%Q → (xP + 280 * sgn r == sgn r * depth_x (L + 1))%Q.
Proof. intros ->. rewrite depth_x_succ. ring. Qed.

Lemma loc_unique k l l' : (k, l) ∈ nodes s → Map_get k (nodes s) = Some l' → l = l'.
Proof. intros Hin%(wf_get s Hwf) Hg. congruence. Qed.

Lemma not_sub_locs_self P lP : Map_get P (nodes s) = Some lP → ¬ sub_locs s P lP.
Proof.
  intros Hg (k & Hin & _ & Hne). apply Hne.
  eapply wf_loc_inj; [done | exact Hin | by apply Map_get_Some].
Qed.

Lemma layout_branch_spec fuel : branch_spec s fuel.
Proof.
  induction fuel as [|fuel IH]; intros P lP nP h r HgP HoP Hlev Hs HxP HxG Hbound.
  { assert (node_at s P = Some nP) as HP by (apply node_at_Some; eauto).
    specialize (Hbound P nP HP). lia. }
  assert (node_at s P = Some nP) as HP by (apply node_at_Some; eauto).
  pose proof (wf_level_nonneg s Hwf P nP HP) as HP0.
  apply Map_get_Some in HgP as HinP.
  destruct (shape_fields s Hwf h P lP nP Hs HinP HoP) as (Eid & Elev & Epar & Ech).
  simpl. rewrite Ech, Elev. set (cl := lookup_all (Node.children nP) (nodes s)).
  destruct (length cl =? 0)%nat eqn:Elen.
  { exists h. split_and!; [done | done | by intros l _ |].
    intros k l nk Hin [-> | (c & Hc & _)]%in_subtree_inv Ho.
    - rewrite (loc_unique P l lP Hin HgP) in *. rewrite HoP in Ho. by injection Ho as <-.
    - exfalso. apply parent_of_Some in Hc as (nc & Hnc & Hpar).
      destruct (wf_parent s Hwf c nc P Hnc Hpar) as (nP' & HP' & Hc & _).
      rewrite HP in HP'. injection HP' as <-.
      apply node_at_Some in Hnc as (lc & Hgc & _).
      assert (lc ∈ cl) as Hin' by (apply elem_of_lookup_all; eauto).
      apply Nat.eqb_eq in Elen. destruct cl; [by apply elem_of_nil in Hin' | done]. }
  destruct (Z.eqb_spec (Node.level nP) 0) as [?|_]; [done|].
  destruct (Node.parent nP) as [G|] eqn:HparP;
    [| by pose proof (wf_root s Hwf P nP HP HparP)].
  destruct (wf_parent s Hwf P nP G HP HparP) as (nG & HnG & _ & HlG).
  apply node_at_Some in HnG as HnG'. destruct HnG' as (lG & HgG & HoG).
  destruct (wf_object s Hwf G lG (Map_get_Some _ _ _ HgG)) as (nG' & _ & _ & HGne & _).
  assert (NoDup cl) as Hndcl.
  { apply NoDup_lookup_all; [done|].
    destruct (wf_object s Hwf P lP HinP) as (n' & Ho' & _ & _ & _ & Hnd).
    rewrite HoP in Ho'. by injection Ho' as <-. }
  assert (lP ∉ cl) as HlPcl.
  { intros (c & Hc & Hgc)%elem_of_lookup_all.
    eapply (not_sub_locs_self P lP HgP), child_in_sub_locs; eauto. }
  assert (branch_direction (nodes s) lP h = sgn r) as Hdir.
  { unfold branch_direction. rewrite Epar. simpl.
    destruct (String.eqb_spec G "") as [?|_]; [done|]. simpl. rewrite HgG.
    apply (direction_side r (Node.level nP)); [lia | done | by apply (HxG G lG)]. }
  destruct (layoutBranchChildrenNoIntersection_spec (nodes s) lP cl h Hndcl HlPcl)
    as [[Hs1 Hf1] Hx1].
  set (h1 := layoutBranchChildrenNoIntersection (nodes s) lP cl h) in *.
  assert (h1 !!! lP = h !!! lP) as HlP1 by (by apply (frame_total _ _ _ _ Hf1)).
  destruct (layout_children_loop fuel P lP nP (λ _, r) IH HgP HoP) with
    (cs := Node.children nP) (h := h1) as (h2 & Hrun & Hs2 & Hf2 & Hpl2).
  { intros k nk Hk. specialize (Hbound k nk Hk). lia. }
  { destruct (wf_object s Hwf P lP HinP) as (n' & Ho' & _ & _ & _ & Hnd).
    rewrite HoP in Ho'. by injection Ho' as <-. }
  { done. }
  { by eapply same_shape_trans. }
  { intros c lc nc Hc Hgc Hoc.
    destruct (child_loc s Hwf P nP c HP Hc) as (lc' & nc' & Hgc' & Hoc' & _ & Hlc).
    rewrite Hgc in Hgc'. injection Hgc' as <-. rewrite Hoc in Hoc'. injection Hoc' as <-.
    assert (lc ∈ cl) as Hlc_in by (apply elem_of_lookup_all; eauto).
    specialize (Hx1 lc Hlc_in).
    destruct (same_shape_lookup _ _ lc nc Hs Hoc) as (n0 & Hn0 & _).
    rewrite Hn0 in Hx1. simpl in Hx1. destruct (h1 !! lc) as [n1|] eqn:Hn1; [|done].
    simpl in Hx1. injection Hx1 as Hx1.
    rewrite (list_lookup_total_correct _ _ _ Hn1), Hx1, Hdir, Hlc.
    by apply child_x. }
  { intros c Hc. rewrite HlP1.
    destruct (Z.eqb_spec (Node.level nP + 1) 1) as [?|_]; [lia | done]. }
  exists h2. split_and!.
  - done.
  - eapply same_shape_trans; [exact Hs1 | exact Hs2].
  - intros l Hl. rewrite Hf2, Hf1; [done | |].
    + intros (c & Hc & Hgc)%elem_of_lookup_all. apply Hl. by eapply child_in_sub_locs.
    + intros (c & Hc & Hsub). apply Hl. by eapply sub_locs_child.
  - intros k l nk Hin [-> | (c & Hc & Hsub)]%in_subtree_inv Ho.
    + rewrite (loc_unique P l lP Hin HgP) in *. rewrite HoP in Ho. injection Ho as <-.
      rewrite (frame_total _ _ _ _ Hf2), HlP1; [done|].
      intros (c & Hc & Hsub). eapply (not_sub_locs_self P lP HgP), sub_locs_child; eauto.
    + apply parent_of_Some in Hc as (nc & Hnc & Hpar).
      destruct (wf_parent s Hwf c nc P Hnc Hpar) as (nP' & HP' & Hc & _).
      rewrite HP in HP'. injection HP' as <-.
      by eapply (Hpl2 c Hc).
Qed.

End Placement.

(** ** The root and its children *)

Lemma filter_length_one {A} (P : A → Prop) `{!∀ x, Decision (P x)} (l : list A) x y :
  NoDup l → length (filter P l) = 1%nat → x ∈ l → y ∈ l → P x → P y → x = y.
Proof.
  intros Hnd Hlen Hx Hy HPx HPy.
  assert (x ∈ filter P l) as Hx' by (by apply list_elem_of_filter).
  assert (y ∈ filter P l) as Hy' by (by apply list_elem_of_filter).
  destruct (filter P l) as [|z [|z' l']]; simplify_eq/=.
  apply list_elem_of_singleton in Hx', Hy'. congruence.
Qed.

Lemma lookup_all_present (m : list (string * nat)) cs :
  (∀ c, c ∈ cs → is_Some (Map_get c m)) →
  length (lookup_all cs m) = length cs
  ∧ ∀ i c lc, cs !! i = Some c → Map_get c m = Some lc → lookup_all cs m !! i = Some lc.
Proof.
  induction cs as [|c cs IH]; intros Hall; [split; [done | intros i c lc; by rewrite lookup_nil]|].
  destruct (Hall c) as [lc Hlc]; [by left|].
  rewrite (lookup_all_cons c cs m lc Hlc).
  destruct IH as [IH1 IH2]; [intros c' Hc'; apply Hall; by right|].
  split; [simpl; by rewrite IH1|].
  intros [|i] c' lc' Hi Hg; simpl in *; [by simplify_eq | by eapply IH2].
Qed.

Section Root.
Context (s : MindMapApp) (Hwf : wf s).

Lemma NoDup_nodes : NoDup (nodes s).
Proof. eapply NoDup_fmap_1, (wf_keys s Hwf). Qed.

Lemma root_exists :
  ∃ R lr nR, find_root (nodes s) (objects s) = Some lr ∧ (R, lr) ∈ nodes s
             ∧ objects s !! lr = Some nR ∧ Node.level nR = 0.
Proof.
  unfold find_root.
  destruct (find _ (Map_values (nodes s))) as [lr|] eqn:E.
  - apply find_some in E as [Hin Hl]. apply list_elem_of_In in Hin.
    unfold Map_values in Hin. apply list_elem_of_fmap in Hin as ([R lr'] & -> & Hin).
    simpl in *. destruct (wf_object s Hwf R lr' Hin) as (nR & Ho & _).
    exists R, lr', nR. split_and!; try done.
    rewrite (list_lookup_total_correct _ _ _ Ho) in Hl. lia.
  - exfalso. pose proof (wf_single_root s Hwf) as Hlen.
    destruct (filter _ (nodes s)) as [|e l] eqn:Ef; [done|].
    assert (e ∈ filter (λ e, Node.level (objects s !!! e.2) = 0) (nodes s)) as He
      by (rewrite Ef; by left).
    apply list_elem_of_filter in He as [Hl He].
    eapply find_none in E; [| apply list_elem_of_In, list_elem_of_fmap; by exists e].
    simpl in E. lia.
Qed.

Lemma root_unique R lr nR k l nk :
  (R, lr) ∈ nodes s → objects s !! lr = Some nR → Node.level nR = 0 →
  (k, l) ∈ nodes s → objects s !! l = Some nk → Node.level nk = 0 → k = R.
Proof.
  intros HinR HoR HlR Hin Ho Hl.
  assert ((k, l) = (R, lr)) as E; [|by injection E].
  eapply (filter_length_one (λ e, Node.level (objects s !!! e.2) = 0) (nodes s));
    [apply NoDup_nodes | apply (wf_single_root s Hwf) | done | done | |]; simpl.
  - by rewrite (list_lookup_total_correct _ _ _ Ho).
  - by rewrite (list_lookup_total_correct _ _ _ HoR).
Qed.

(** Every node other than the root lies in the subtree of a child of the
    root. *)
Lemma below_root_child R nR k nk :
  node_at s R = Some nR → Node.level nR = 0 →
  node_at s k = Some nk → Node.level nk ≠ 0 →
  ∃ c, c ∈ Node.children nR ∧ in_subtree s c k.
Proof.
  intros HR HlR Hk Hl.
  pose proof (wf_level_nonneg s Hwf k nk Hk) as H0.
  remember (Z.to_nat (Node.level nk)) as d eqn:Hd.
  revert k nk Hk Hl H0 Hd. induction d as [|d IH]; intros k nk Hk Hl H0 Hd; [lia|].
  destruct (Node.parent nk) as [p|] eqn:Hp; [|by pose proof (wf_root s Hwf k nk Hk Hp)].
  destruct (wf_parent s Hwf k nk p Hk Hp) as (np & Hnp & Hkp & Hlp).
  pose proof (wf_level_nonneg s Hwf p np Hnp) as Hp0.
  destruct (decide (Node.level np = 0)) as [Hz|Hnz].
  - apply node_at_Some in HR as (lr & HgR%Map_get_Some & HoR).
    apply node_at_Some in Hnp as Hnp'. destruct Hnp' as (lp & Hgp%Map_get_Some & Hop).
    pose proof (root_unique R lr nR p lp np HgR HoR HlR Hgp Hop Hz) as ->.
    pose proof (loc_unique s Hwf R lp lr Hgp (proj1 (wf_get s Hwf R lr) HgR)) as ->.
    rewrite HoR in Hop. injection Hop as <-.
    exists k. split; [done | constructor].
  - destruct (IH p np Hnp Hnz Hp0) as (c & Hc & Hsub); [lia|].
    exists c. split; [done|]. eapply in_subtree_child; [|done].
    apply parent_of_Some. eauto.
Qed.

End Root.

Section PhaseA.
Context (s : MindMapApp) (Hwf : wf s).

(** Phase A on a state satisfying the tree invariant. *)
Lemma phaseA_spec :
  ∃ R lr nR h',
    find_root (nodes s) (objects s) = Some lr ∧ (R, lr) ∈ nodes s
    ∧ objects s !! lr = Some nR ∧ Node.level nR = 0
    ∧ phaseA s = Some h'
    ∧ same_shape (objects s) h'
    ∧ h' !! lr = Some (Node.set_y 0 (Node.set_x 0 nR))
    ∧ (∀ i c lc, Node.children nR !! i = Some c → Map_get c (nodes s) = Some lc →
         h' !! lc
         = (λ n, Node.set_y (root_child_y i (length (Node.children nR)))
                   (Node.set_x (if Nat.even i then 320 else -320)%Q n)) <$> objects s !! lc)
    ∧ (∀ i c, Node.children nR !! i = Some c → placed s (sgn (Nat.even i)) c h').
Proof.
  destruct (root_exists s Hwf) as (R & lr & nR & Hfind & HinR & HoR & HlR).
  exists R, lr, nR.
  assert (node_at s R = Some nR) as HR.
  { apply node_at_Some. exists lr. split; [by apply (wf_get s Hwf) | done]. }
  apply (wf_get s Hwf) in HinR as HgR.
  set (h0 := store (Node.set_y 0) lr (store (Node.set_x 0) lr (objects s))).
  assert (same_shape (objects s) h0) as Hs0.
  { eapply same_shape_trans; apply same_shape_store; by intros []. }
  assert (h0 !! lr = Some (Node.set_y 0 (Node.set_x 0 nR))) as Hh0r.
  { unfold h0, store. rewrite !list_lookup_alter_eq, HoR. done. }
  assert (∀ l, l ≠ lr → h0 !! l = objects s !! l) as Hh0.
  { intros l Hl. unfold h0, store. by rewrite !list_lookup_alter_ne. }
  destruct (shape_fields s Hwf h0 R lr nR Hs0 HinR HoR) as (Eid & Elev & Epar & Ech).
  destruct (wf_object s Hwf R lr HinR) as (n' & Ho' & _ & _ & _ & HndR).
  rewrite HoR in Ho'. injection Ho' as <-.
  assert (∀ c, c ∈ Node.children nR → is_Some (Map_get c (nodes s))) as Hpres.
  { intros c Hc. destruct (child_loc s Hwf R nR c HR Hc) as (lc & _ & Hg & _). eauto. }
  destruct (lookup_all_present (nodes s) (Node.children nR) Hpres) as [Hlen Hlook].
  set (cl := lookup_all (Node.children nR) (nodes s)) in *.
  assert (phaseA s
          = if (length cl =? 0)%nat then Some h0
            else forEachM (layoutChildrenMindMeisterStyle (nodes s) (length (nodes s))) cl
                          (layoutRootChildren cl h0)) as Hphase.
  { unfold phaseA, directional_placement. rewrite Hfind. fold h0.
    cbn [layoutChildrenMindMeisterStyle]. rewrite Ech, Elev, HlR. fold cl. done. }
  assert (∀ c lc, c ∈ Node.children nR → Map_get c (nodes s) = Some lc → lc ≠ lr) as Hclr.
  { intros c lc Hc Hg ->.
    eapply (not_sub_locs_self s Hwf R lr HgR), child_in_sub_locs; eauto. }
  destruct (length cl =? 0)%nat eqn:Elen.
  { apply Nat.eqb_eq in Elen. rewrite Hlen in Elen.
    destruct (Node.children nR) as [|c cs] eqn:Ecs; [|done].
    exists h0. split_and!; try done; intros i c; by rewrite lookup_nil. }
  assert (NoDup cl) as Hndcl by (by apply NoDup_lookup_all).
  destruct (layoutRootChildren_spec cl h0 Hndcl) as [[Hs1 Hf1] Hpl1].
  set (h1 := layoutRootChildren cl h0) in *.
  assert (lr ∉ cl) as Hlrcl.
  { intros (c & Hc & Hg)%elem_of_lookup_all. by eapply Hclr. }
  assert (∀ i c lc, Node.children nR !! i = Some c → Map_get c (nodes s) = Some lc →
            h1 !! lc
            = (λ n, Node.set_y (root_child_y i (length (Node.children nR)))
                      (Node.set_x (if Nat.even i then 320 else -320)%Q n))
                <$> objects s !! lc) as Hkids1.
  { intros i c lc Hi Hg. rewrite (Hpl1 i lc (Hlook i c lc Hi Hg)), Hlen.
    rewrite Hh0; [done|]. eapply Hclr; [by eapply list_elem_of_lookup_2 | done]. }
  destruct (layout_children_loop s Hwf (length (nodes s)) R lr nR
              (λ c, Nat.even (index_of c (Node.children nR)))
              (layout_branch_spec s Hwf (length (nodes s))) HgR HoR) with
    (cs := Node.children nR) (h := h1) as (h2 & Hrun & Hs2 & Hf2 & Hpl2).
  { intros k nk Hk. pose proof (level_lt_size s Hwf k nk Hk). lia. }
  { done. }
  { done. }
  { by eapply same_shape_trans. }
  { intros c lc nc Hc Hg Ho. apply list_elem_of_lookup in Hc as [i Hi].
    rewrite (index_of_lookup c _ i HndR Hi).
    destruct (child_loc s Hwf R nR c HR) as (lc' & nc' & Hg' & Ho' & _ & Hl');
      [by eapply list_elem_of_lookup_2|].
    rewrite Hg in Hg'. injection Hg' as <-. rewrite Ho in Ho'. injection Ho' as <-.
    pose proof (Hkids1 i c lc Hi Hg) as Hc1. rewrite Ho in Hc1. simpl in Hc1.
    rewrite (list_lookup_total_correct _ _ _ Hc1), Hl', HlR. simpl.
    destruct (Nat.even i); reflexivity. }
  { intros c Hc. rewrite (frame_total _ _ _ _ Hf1 Hlrcl).
    rewrite (list_lookup_total_correct _ _ _ Hh0r), HlR. reflexivity. }
  assert (∀ c lc, c ∈ Node.children nR → Map_get c (nodes s) = Some lc →
            ¬ ∃ c', c' ∈ Node.children nR ∧ sub_locs s c' lc) as Hkout.
  { intros c lc Hc Hg (c' & Hc' & Hsub).
    destruct (child_loc s Hwf R nR c HR Hc) as (lc0 & nc & Hg0 & Ho & _ & Hl).
    rewrite Hg in Hg0. injection Hg0 as <-.
    destruct (child_loc s Hwf R nR c' HR Hc') as (lc' & nc' & Hg' & Ho' & _ & Hl').
    assert (node_at s c' = Some nc') as Hnc' by (apply node_at_Some; eauto).
    pose proof (sub_locs_level s Hwf c' nc' c lc nc Hnc' (Map_get_Some _ _ _ Hg) Ho Hsub).
    lia. }
  assert (¬ ∃ c', c' ∈ Node.children nR ∧ sub_locs s c' lr) as Hrout.
  { intros (c' & Hc' & Hsub).
    eapply (not_sub_locs_self s Hwf R lr HgR), sub_locs_child; eauto. }
  exists h2. split_and!; try done.
  - rewrite Hphase. exact Hrun.
  - eapply same_shape_trans; [exact Hs0|]. eapply same_shape_trans; [exact Hs1 | exact Hs2].
  - rewrite (Hf2 lr Hrout), (Hf1 lr Hlrcl). exact Hh0r.
  - intros i c lc Hi Hg. rewrite Hf2; [by apply (Hkids1 i c lc)|].
    eapply Hkout; [by eapply list_elem_of_lookup_2 | done].
  - intros i c Hi. pose proof (Hpl2 c (list_elem_of_lookup_2 _ _ _ Hi)) as H.
    simpl in H. by rewrite (index_of_lookup c _ i HndR Hi) in H.
Qed.

End PhaseA.


(** ** The layout as a whole *)

Lemma updateLayout_phases firstRect s h1 :
  find_root (nodes s) (objects s) ≠ None → phaseA s = Some h1 →
  ∃ s', updateLayout firstRect s = Some s' ∧ nodes s' = nodes s ∧ vertical h1 (objects s').
Proof.
  unfold phaseA, updateLayout, layout. destruct (find_root _ _) as [r|]; [|done].
  intros _ ->. simpl. eexists. split; [reflexivity|]. split; [done|]. simpl.
  apply performComprehensiveOverlapResolution_vertical.
Qed.

Lemma root_child_y_step i n :
  (root_child_y (i + 2) n - root_child_y i n == 120)%Q.
Proof.
  unfold root_child_y.
  replace (i + 2)%nat with (S (S i)) by lia.
  rewrite Nat.even_succ_succ. change (Nat.div2 (S (S i))) with (S (Nat.div2 i)).
  assert (ofnat (S (Nat.div2 i)) == ofnat (Nat.div2 i) + 1)%Q as ->.
  { unfold ofnat. rewrite Nat2Z.inj_succ, <- Z.add_1_r, inject_Z_plus. reflexivity. }
  assert (Qmax 120 (60 + 40) == 120)%Q as -> by (apply Q.max_l; lra).
  ring.
Qed.

Lemma root_child_y_centred j j' m (b : bool) n :
  (j + j' + 1 = m)%nat →
  m = (if b then Nat.div2 (n + 1) else Nat.div2 n) →
  (root_child_y (2 * j + (if b then 0 else 1)) n
   + root_child_y (2 * j' + (if b then 0 else 1)) n == 0)%Q.
Proof.
  intros Hm Hside. unfold root_child_y.
  assert (∀ k, Nat.even (2 * k + (if b then 0 else 1)) = b
               ∧ Nat.div2 (2 * k + (if b then 0 else 1)) = k) as Hk.
  { intros k. destruct b.
    - rewrite Nat.add_0_r. split; [apply Nat.even_spec; by exists k | apply Nat.div2_double].
    - replace (2 * k + 1)%nat with (S (2 * k)) by lia.
      split; [| apply Nat.div2_succ_double].
      rewrite Nat.even_succ, <- Nat.negb_even. apply negb_false_iff, Nat.even_spec. by exists k. }
  destruct (Hk j) as [-> ->]. destruct (Hk j') as [-> ->].
  rewrite <- Hside, <- Hm.
  assert (ofnat (j + j' + 1) == ofnat j + ofnat j' + 1)%Q as ->.
  { unfold ofnat. rewrite !Nat2Z.inj_add, !inject_Z_plus. reflexivity. }
  field.
Qed.

(** C4. Root-children alternation: in a state satisfying the tree
    invariant, directional placement returns with the root at the origin
    and the root's child of index i at x = +320 when i is even (the 1st,
    3rd, ... child) and x = -320 when i is odd, at the height of its rank on
    its side: the children of a side are 120 = max(120, 60 + 40) apart and
    placed symmetrically around y = 0.  In the four-node scenario node-2 is
    at (320, 0), node-3 at (-320, 0) and node-4 at (600, 0). *)
Theorem root_children_alternate (s : MindMapApp) (R : string) (lr : nat) (nR : Node.t) :
  tree_ok s = true →
  Map_get R (nodes s) = Some lr → objects s !! lr = Some nR → Node.level nR = 0 →
  (∃ h',
     phaseA s = Some h'
     ∧ h' !! lr = Some (Node.set_y 0 (Node.set_x 0 nR))
     ∧ ∀ i c lc, Node.children nR !! i = Some c → Map_get c (nodes s) = Some lc →
         ∃ nc, h' !! lc = Some nc
               ∧ Node.x nc = (if Nat.even i then 320 else -320)%Q
               ∧ Node.y nc = root_child_y i (length (Node.children nR)))
  ∧ (Qmax 120 (60 + 40) == 120)%Q
  ∧ (∀ i n, (root_child_y (i + 2) n - root_child_y i n == 120)%Q)
  ∧ (∀ j j' n, (j + j' + 1 = Nat.div2 (n + 1))%nat →
               (root_child_y (2 * j) n + root_child_y (2 * j') n == 0)%Q)
  ∧ (∀ j j' n, (j + j' + 1 = Nat.div2 n)%nat →
               (root_child_y (2 * j + 1) n + root_child_y (2 * j' + 1) n == 0)%Q)
  ∧ position scenario "node-1" = Some (0, 0)%Q
  ∧ position scenario "node-2" = Some (320, 0)%Q
  ∧ position scenario "node-3" = Some (-320, 0)%Q
  ∧ position scenario "node-4" = Some (320 + 280, 0)%Q.
Proof.
  intros Hwf%tree_ok_wf HgR HoR HlR. split_and!.
  - destruct (phaseA_spec s Hwf)
      as (R' & lr' & nR' & h' & _ & HinR' & HoR' & HlR' & Hrun & _ & Hr & Hkids & _).
    pose proof (root_unique s Hwf R' lr' nR' R lr nR HinR' HoR' HlR'
                  (Map_get_Some _ _ _ HgR) HoR HlR) as ->.
    pose proof (loc_unique s Hwf R' lr' lr HinR' HgR) as ->.
    rewrite HoR in HoR'. injection HoR' as <-.
    exists h'. split_and!; try done.
    intros i c lc Hi Hg. rewrite (Hkids i c lc Hi Hg).
    destruct (wf_object s Hwf c lc (Map_get_Some _ _ _ Hg)) as (nc & -> & _).
    eexists. split; [reflexivity|]. done.
  - apply Q.max_l. lra.
  - apply root_child_y_step.
  - intros j j' n Hm.
    pose proof (root_child_y_centred j j' _ true n Hm eq_refl) as H.
    by rewrite !Nat.add_0_r in H.
  - intros j j' n Hm. exact (root_child_y_centred j j' _ false n Hm eq_refl).
  - vm_compute. reflexivity.
  - vm_compute. reflexivity.
  - vm_compute. reflexivity.
  - vm_compute. reflexivity.
Qed.

Lemma root_children_alternate_witness :
  ∃ h' n2 n3,
    phaseA scenario = Some h'
    ∧ h' !! 1%nat = Some n2 ∧ Node.x n2 = 320%Q
    ∧ h' !! 2%nat = Some n3 ∧ Node.x n3 = (-320)%Q.
Proof.
  destruct (root_children_alternate scenario "node-1" 0%nat (objects scenario !!! 0%nat))
    as [(h' & Hrun & _ & Hkids) _]; [vm_compute; reflexivity..|].
  destruct (Hkids 0%nat "node-2" 1%nat) as (n2 & H2 & Hx2 & _); [vm_compute; reflexivity..|].
  destruct (Hkids 1%nat "node-3" 2%nat) as (n3 & H3 & Hx3 & _); [vm_compute; reflexivity..|].
  exists h', n2, n3. split_and!; done.
Defined.

Lemma sgn_depth_sign (b : bool) lv (v : Q) :
  1 ≤ lv → (v == sgn b * depth_x lv)%Q →
  (b = true → (0 < v)%Q) ∧ (b = false → (v < 0)%Q).
Proof.
  intros Hl Hv. pose proof (depth_x_pos lv Hl) as Hpos.
  split; intros ->; simpl in Hv; rewrite Hv; lra.
Qed.

Lemma branch_x_sgn i lv : branch_x i lv = (sgn (Nat.even i) * depth_x lv)%Q.
Proof. unfold branch_x, sgn, depth_x. by destruct (Nat.even i). Qed.

(** The x coordinates after a full layout, in a state satisfying the tree
    invariant. *)
Lemma updateLayout_x firstRect s :
  wf s →
  ∃ s' R nR,
    updateLayout firstRect s = Some s' ∧ nodes s' = nodes s
    ∧ same_shape (objects s) (objects s')
    ∧ node_at s R = Some nR ∧ Node.level nR = 0
    ∧ (∃ nR', node_at s' R = Some nR' ∧ Node.x nR' = 0%Q)
    ∧ ∀ i c k nk, Node.children nR !! i = Some c → in_subtree s c k →
        node_at s k = Some nk →
        ∃ nk', node_at s' k = Some nk' ∧ Node.shape nk' = Node.shape nk
               ∧ (Node.x nk' == branch_x i (Node.level nk))%Q.
Proof.
  intros Hwf.
  destruct (phaseA_spec s Hwf)
    as (R & lr & nR & h1 & Hfind & HinR & HoR & HlR & Hrun & Hs1 & Hr & _ & Hpl).
  destruct (updateLayout_phases firstRect s h1) as (s' & Hupd & Hn & [Hs2 Hx2]);
    [by rewrite Hfind | done |].
  apply (wf_get s Hwf) in HinR as HgR.
  assert (same_shape (objects s) (objects s')) as Hs by (by eapply same_shape_trans).
  exists s', R, nR. split_and!; try done.
  - apply node_at_Some; eauto.
  - destruct (same_shape_lookup _ _ lr _ Hs2 Hr) as (nR' & HnR' & _).
    exists nR'. split; [apply node_at_Some; exists lr; by rewrite Hn|].
    pose proof (same_x_total _ _ lr Hx2) as E.
    by rewrite (list_lookup_total_correct _ _ _ HnR'), (list_lookup_total_correct _ _ _ Hr) in E.
  - intros i c k nk Hi Hsub (l & Hg & Ho)%node_at_Some.
    destruct (same_shape_lookup _ _ l nk Hs Ho) as (nk' & Hnk' & Hshape).
    exists nk'. split_and!; [apply node_at_Some; exists l; by rewrite Hn | done |].
    pose proof (Hpl i c Hi k l nk (Map_get_Some _ _ _ Hg) Hsub Ho) as Hx.
    pose proof (same_x_total _ _ l Hx2) as E.
    rewrite (list_lookup_total_correct _ _ _ Hnk') in E.
    by rewrite E, branch_x_sgn.
Qed.

(** C5. Branch-side stability: in a state satisfying the tree invariant the
    full layout returns; every node other than the root lies in the branch
    of one child of the root, and every node of the branch of the root's
    child of index i has x = +(320 + 280 (level - 1)) > 0 when i is even
    and x = -(320 + 280 (level - 1)) < 0 when i is odd.  Overlap resolution
    leaves every x coordinate as it is. *)
Theorem branch_side_stable (s : MindMapApp) (firstRect : Q * Q) (R : string) (nR : Node.t) :
  tree_ok s = true → node_at s R = Some nR → Node.level nR = 0 →
  ∃ s',
    updateLayout firstRect s = Some s' ∧ nodes s' = nodes s
    ∧ (∀ k nk, node_at s k = Some nk → Node.level nk ≠ 0 →
         ∃ i c, Node.children nR !! i = Some c ∧ (k = c ∨ k ∈ descendants s c))
    ∧ (∀ i c k nk, Node.children nR !! i = Some c → k = c ∨ k ∈ descendants s c →
         node_at s k = Some nk →
         ∃ nk', node_at s' k = Some nk'
                ∧ (Node.x nk' == branch_x i (Node.level nk))%Q
                ∧ (Nat.even i = true → (0 < Node.x nk')%Q)
                ∧ (Nat.even i = false → (Node.x nk' < 0)%Q))
    ∧ (∀ firstNode h l,
         Node.x (performComprehensiveOverlapResolution (nodes s) firstNode h !!! l)
         = Node.x (h !!! l)).
Proof.
  intros Hwf%tree_ok_wf HR HlR.
  destruct (updateLayout_x firstRect s Hwf)
    as (s' & R' & nR' & Hupd & Hn & _ & HR' & HlR' & _ & Hx).
  assert (R' = R) as ->.
  { apply node_at_Some in HR as (l & Hg%Map_get_Some & Ho).
    apply node_at_Some in HR' as (l' & Hg'%Map_get_Some & Ho').
    symmetry. by eapply (root_unique s Hwf R' l' nR' R l nR). }
  rewrite HR in HR'. injection HR' as <-.
  exists s'. split_and!; try done.
  - intros k nk Hk Hl.
    destruct (below_root_child s Hwf R nR k nk HR HlR Hk Hl)
      as (c & [i Hi]%list_elem_of_lookup & Hsub).
    exists i, c. split; [done|]. destruct (decide (k = c)); [by left | right].
    apply (elem_of_descendants s Hwf). split_and!; [by eapply node_at_elem | done..].
  - intros i c k nk Hi Hk Hnk.
    assert (in_subtree s c k) as Hsub.
    { destruct Hk as [-> | Hk]; [constructor|].
      by apply (elem_of_descendants s Hwf) in Hk as (_ & ? & _). }
    destruct (Hx i c k nk Hi Hsub Hnk) as (nk' & Hnk' & _ & Hxk).
    exists nk'. split; [done|]. split; [done|].
    rewrite branch_x_sgn in Hxk. eapply sgn_depth_sign; [|exact Hxk].
    destruct (child_loc s Hwf R nR c HR (list_elem_of_lookup_2 _ _ _ Hi))
      as (lc & nc & Hgc & Hoc & _ & Hlc).
    assert (node_at s c = Some nc) as Hnc by (apply node_at_Some; eauto).
    pose proof (wf_level_nonneg s Hwf R nR HR).
    destruct (in_subtree_level s Hwf c k nc nk Hsub Hnc Hnk). lia.
  - intros firstNode h l.
    destruct (performComprehensiveOverlapResolution_vertical (nodes s) firstNode h) as [_ Hx'].
    by apply same_x_total.
Qed.

Lemma branch_side_stable_witness :
  ∃ s' n4, updateLayout sample_rect scenario = Some s'
           ∧ node_at s' "node-4" = Some n4 ∧ (0 < Node.x n4)%Q.
Proof.
  destruct (branch_side_stable scenario sample_rect "node-1" (objects scenario !!! 0%nat))
    as (s' & Hupd & _ & _ & Hx & _); [vm_compute; reflexivity..|].
  destruct (Hx 0%nat "node-2" "node-4" (objects scenario !!! 3%nat))
    as (n4 & Hn4 & _ & Hpos & _);
    [vm_compute; reflexivity | right; vm_compute; by left | vm_compute; reflexivity |].
  exists s', n4. split_and!; [done | done | by apply Hpos].
Defined.


(** ** Two layouts of one tree *)

Section SameShape.
Context (s1 s2 : MindMapApp).
Context (Hnodes : nodes s1 = nodes s2) (Hshape : same_shape (objects s1) (objects s2)).

Lemma node_at_same_shape k n1 :
  node_at s1 k = Some n1 → ∃ n2, node_at s2 k = Some n2 ∧ Node.shape n2 = Node.shape n1.
Proof.
  intros (l & Hg & Ho)%node_at_Some.
  destruct (same_shape_lookup _ _ l n1 Hshape Ho) as (n2 & Hn2 & Hs).
  exists n2. split; [apply node_at_Some; exists l; by rewrite <- Hnodes | done].
Qed.

Lemma parent_of_same_shape k p : parent_of s1 k = Some p → parent_of s2 k = Some p.
Proof.
  unfold parent_of. destruct (node_at s1 k) as [n1|] eqn:E; [|done]. simpl. intros Hp.
  destruct (node_at_same_shape k n1 E) as (n2 & -> & Hs). simpl.
  apply shape_eq in Hs as (_ & _ & -> & _). done.
Qed.

Lemma in_subtree_same_shape a k : in_subtree s1 a k → in_subtree s2 a k.
Proof.
  induction 1 as [|k p Hp _ IH]; [constructor|].
  eapply in_subtree_child; [by apply parent_of_same_shape | done].
Qed.

End SameShape.

(** C6, as the code has it: for two states satisfying the tree invariant
    with the same node map and the same node fields other than the
    coordinates, the full layout returns on both and gives every node the
    same x coordinate in both, whatever the coordinates before the runs and
    the measured node size.  (The y coordinates also depend on the
    coordinates that the nodes had before the run.) *)
Theorem layout_x_reproducible (s1 s2 : MindMapApp) (rect1 rect2 : Q * Q) :
  tree_ok s1 = true → tree_ok s2 = true →
  nodes s1 = nodes s2 → same_shape (objects s1) (objects s2) →
  ∃ s1' s2',
    updateLayout rect1 s1 = Some s1' ∧ updateLayout rect2 s2 = Some s2'
    ∧ nodes s1' = nodes s1 ∧ nodes s2' = nodes s1
    ∧ ∀ k n1, node_at s1' k = Some n1 →
        ∃ n2, node_at s2' k = Some n2 ∧ Node.shape n2 = Node.shape n1
              ∧ (Node.x n2 == Node.x n1)%Q.
Proof.
  intros Hwf1%tree_ok_wf Hwf2%tree_ok_wf Hnodes Hshape.
  destruct (updateLayout_x rect1 s1 Hwf1)
    as (s1' & R & nR & Hupd1 & Hn1 & Hs1 & HR & HlR & (nR1' & HR1' & HxR1) & Hx1).
  destruct (updateLayout_x rect2 s2 Hwf2)
    as (s2' & R2 & nR2 & Hupd2 & Hn2 & Hs2 & HR2 & HlR2 & (nR2' & HR2' & HxR2) & Hx2).
  exists s1', s2'. split_and!; [done | done | done | congruence |].
  destruct (node_at_same_shape s1 s2 Hnodes Hshape R nR HR) as (nR0 & HR0 & HsR).
  assert (R2 = R) as ->.
  { apply node_at_Some in HR0 as (l0 & Hg0%Map_get_Some & Ho0).
    apply node_at_Some in HR2 as (l2 & Hg2%Map_get_Some & Ho2).
    symmetry. eapply (root_unique s2 Hwf2 R2 l2 nR2 R l0 nR0); try done.
    apply shape_eq in HsR as (_ & -> & _). done. }
  rewrite HR2 in HR0. injection HR0 as <-.
  assert (Node.children nR2 = Node.children nR) as Hch
    by (by apply shape_eq in HsR as (_ & _ & _ & ->)).
  intros k n1 Hk1'.
  assert (∃ nk1, node_at s1 k = Some nk1) as [nk1 Hk1].
  { apply node_at_Some in Hk1' as (l & Hg & _). rewrite Hn1 in Hg.
    destruct (wf_object s1 Hwf1 k l (Map_get_Some _ _ _ Hg)) as (nk1 & Ho & _).
    exists nk1. apply node_at_Some. eauto. }
  destruct (node_at_same_shape s1 s2 Hnodes Hshape k nk1 Hk1) as (nk2 & Hk2 & Hsk).
  assert (Node.level nk2 = Node.level nk1) as Hlev
    by (by apply shape_eq in Hsk as (_ & -> & _)).
  destruct (decide (Node.level nk1 = 0)) as [Hz|Hnz].
  - assert (k = R) as ->.
    { apply node_at_Some in Hk1 as (l & Hg%Map_get_Some & Ho).
      apply node_at_Some in HR as (lr & HgR%Map_get_Some & HoR).
      by eapply (root_unique s1 Hwf1 R lr nR k l nk1). }
    rewrite HR1' in Hk1'. injection Hk1' as <-.
    exists nR2'. split_and!; [done | | by rewrite HxR1, HxR2].
    apply node_at_Some in HR2' as (l & Hg & Ho). apply node_at_Some in HR1' as (l' & Hg' & Ho').
    rewrite Hn1 in Hg'. rewrite Hn2, <- Hnodes, Hg' in Hg. injection Hg as <-.
    pose proof (same_shape_total _ _ l' Hs1) as E1. pose proof (same_shape_total _ _ l' Hs2) as E2.
    pose proof (same_shape_total _ _ l' Hshape) as E3.
    rewrite (list_lookup_total_correct _ _ _ Ho) in E2.
    rewrite (list_lookup_total_correct _ _ _ Ho') in E1. congruence.
  - destruct (below_root_child s1 Hwf1 R nR k nk1 HR HlR Hk1 Hnz)
      as (c & [i Hi]%list_elem_of_lookup & Hsub).
    destruct (Hx1 i c k nk1 Hi Hsub Hk1) as (n1' & Hn1' & Hsh1 & Hxk1).
    rewrite Hk1' in Hn1'. injection Hn1' as <-.
    destruct (Hx2 i c k nk2) as (n2 & Hn2' & Hsh2 & Hxk2);
      [by rewrite Hch | by apply (in_subtree_same_shape s1 s2 Hnodes Hshape) | done |].
    exists n2. split_and!; [done | congruence | by rewrite Hxk1, Hxk2, Hlev].
Qed.

Lemma layout_x_reproducible_witness :
  ∃ s1' s2',
    updateLayout sample_rect unplaced = Some s1'
    ∧ updateLayout (200, 80)%Q placed_once = Some s2'
    ∧ nodes s2' = nodes unplaced.
Proof.
  destruct (layout_x_reproducible unplaced placed_once sample_rect (200, 80)%Q)
    as (s1' & s2' & H1 & H2 & _ & Hn & _); try (vm_compute; reflexivity).
  exists s1', s2'. exact (conj H1 (conj H2 Hn)).
Defined.

(** C6, as stated, fails: the states before and after the pending layout
    of the session [two_branches] have the same node map and the same tree
    content, and the layout puts node-5 at different heights from them; so
    do two consecutive runs of the layout. *)
Lemma layout_depends_on_old_coordinates :
  ¬ (∀ s1 s2 s1' s2' rect,
       tree_ok s1 = true → nodes s1 = nodes s2 → content s1 = content s2 →
       updateLayout rect s1 = Some s1' → updateLayout rect s2 = Some s2' →
       ∀ k, position s1' k = position s2' k).
Proof.
  intros H.
  specialize (H unplaced placed_once placed_once placed_twice sample_rect).
  assert (position placed_once "node-5" = position placed_twice "node-5") as E.
  { apply H; vm_compute; reflexivity. }
  vm_compute in E. discriminate E.
Qed.

Example layout_twice_positions :
  tree_ok unplaced = true
  ∧ updateLayout sample_rect unplaced = Some placed_once
  ∧ updateLayout sample_rect placed_once = Some placed_twice
  ∧ position placed_once "node-5" = Some (600, - (155 # 2))%Q
  ∧ position placed_twice "node-5" = Some (600, - (1255 # 16))%Q
  ∧ position unplaced "node-7" = Some (320, 60)%Q.
Proof. split_and!; vm_compute; reflexivity. Qed.


(** * Further properties of the code *)

(** ** Screen positions under panning, dragging and the arrow keys *)

(** X1. Panning by the mouse: while the background is dragged by
    (deltaX, deltaY) pixels at a positive scale, the element of every node
    and both ends of every connection move by exactly (deltaX, deltaY)
    pixels, and the scale stays as it is. *)
Theorem pan_moves_every_element (v : Viewport) (deltaX deltaY : Q) (inner : Q * Q)
    (n p : Node.t) :
  (0 < vp_scale v)%Q →
  let v' := pan deltaX deltaY v in
  vp_scale v' = vp_scale v
  ∧ ((updateNodePosition n v' inner).1 == (updateNodePosition n v inner).1 + deltaX)%Q
  ∧ ((updateNodePosition n v' inner).2 == (updateNodePosition n v inner).2 + deltaY)%Q
  ∧ ((createConnection p n v' inner).1.1 == (createConnection p n v inner).1.1 + deltaX)%Q
  ∧ ((createConnection p n v' inner).1.2 == (createConnection p n v inner).1.2 + deltaY)%Q
  ∧ ((createConnection p n v' inner).2.1 == (createConnection p n v inner).2.1 + deltaX)%Q
  ∧ ((createConnection p n v' inner).2.2 == (createConnection p n v inner).2.2 + deltaY)%Q.
Proof.
  intros Hs v'. unfold v', pan, updateNodePosition, createConnection. simpl.
  split_and!; [done | try (field; lra) ..].
Qed.

Lemma pan_moves_every_element_witness :
  let v := {| vp_x := 10; vp_y := 0; vp_scale := 2 |} in
  ((updateNodePosition Node.dummy (pan 30 (-8) v) (800, 600)%Q).1
   == (updateNodePosition Node.dummy v (800, 600)%Q).1 + 30)%Q.
Proof.
  intros v.
  destruct (pan_moves_every_element v 30 (-8) (800, 600)%Q Node.dummy Node.dummy)
    as (_ & H & _); [reflexivity | exact H].
Defined.

(** X2. Dragging a node: at a positive scale, a pointer movement of
    (deltaX, deltaY) pixels since the button went down puts the element of
    the dragged node (deltaX, deltaY) pixels from where it was at that
    moment.  Only the coordinates of that one node object are written; the
    map, the selection, the counter and the history are left as they are, so
    that no undo step is recorded for a drag. *)
Theorem drag_follows_pointer (s : MindMapApp) (l : nat) (n : Node.t)
    (startNodeX startNodeY deltaX deltaY : Q) (inner : Q * Q) :
  (0 < vp_scale (viewport s))%Q → objects s !! l = Some n →
  let s' := dragNode l startNodeX startNodeY deltaX deltaY s in
  let start := Node.set_y startNodeY (Node.set_x startNodeX n) in
  (∃ n', objects s' !! l = Some n' ∧ Node.shape n' = Node.shape n
         ∧ ((updateNodePosition n' (viewport s') inner).1
            == (updateNodePosition start (viewport s) inner).1 + deltaX)%Q
         ∧ ((updateNodePosition n' (viewport s') inner).2
            == (updateNodePosition start (viewport s) inner).2 + deltaY)%Q)
  ∧ (∀ l', l' ≠ l → objects s' !! l' = objects s !! l')
  ∧ nodes s' = nodes s ∧ selectedNode s' = selectedNode s
  ∧ nodeCounter s' = nodeCounter s ∧ history s' = history s.
Proof.
  intros Hs Hl s' start. unfold s', dragNode. simpl. split_and!; try done.
  - eexists. split.
    { unfold store. rewrite list_lookup_alter_eq, list_lookup_alter_eq, Hl. reflexivity. }
    split; [done|]. unfold updateNodePosition. simpl. split; field; lra.
  - intros l' Hne. unfold store. by rewrite !list_lookup_alter_ne.
Qed.

Lemma drag_follows_pointer_witness :
  ∃ n', objects (dragNode 0%nat 0 0 50 20 fresh) !! 0%nat = Some n'
        ∧ ((updateNodePosition n' (viewport fresh) (800, 600)%Q).1 == 390)%Q.
Proof.
  destruct (drag_follows_pointer fresh 0%nat (objects fresh !!! 0%nat) 0 0 50 20 (800, 600)%Q)
    as ((n' & Hn' & _ & Hx & _) & _); [reflexivity | reflexivity |].
  exists n'. split; [exact Hn' |]. rewrite Hx. reflexivity.
Defined.

(** X3. Panning by the keyboard: at a positive scale, ArrowUp and ArrowDown
    move every element 50 pixels down and up, ArrowLeft and ArrowRight 50
    pixels right and left, whatever the zoom; Home puts the viewport back to
    the origin at scale 1; every other key leaves the viewport alone; and
    the listener does nothing when it runs while a node is being edited. *)
Theorem keyboard_pan_steps (v : Viewport) (inner : Q * Q) (n : Node.t) :
  (0 < vp_scale v)%Q →
  (∃ v', keyPan "ArrowUp" v = Some v' ∧ vp_scale v' = vp_scale v
         ∧ (updateNodePosition n v' inner).1 = (updateNodePosition n v inner).1
         ∧ ((updateNodePosition n v' inner).2 == (updateNodePosition n v inner).2 + 50)%Q)
  ∧ (∃ v', keyPan "ArrowDown" v = Some v' ∧ vp_scale v' = vp_scale v
         ∧ (updateNodePosition n v' inner).1 = (updateNodePosition n v inner).1
         ∧ ((updateNodePosition n v' inner).2 == (updateNodePosition n v inner).2 - 50)%Q)
  ∧ (∃ v', keyPan "ArrowLeft" v = Some v' ∧ vp_scale v' = vp_scale v
         ∧ ((updateNodePosition n v' inner).1 == (updateNodePosition n v inner).1 + 50)%Q
         ∧ (updateNodePosition n v' inner).2 = (updateNodePosition n v inner).2)
  ∧ (∃ v', keyPan "ArrowRight" v = Some v' ∧ vp_scale v' = vp_scale v
         ∧ ((updateNodePosition n v' inner).1 == (updateNodePosition n v inner).1 - 50)%Q
         ∧ (updateNodePosition n v' inner).2 = (updateNodePosition n v inner).2)
  ∧ keyPan "Home" v = Some {| vp_x := 0; vp_y := 0; vp_scale := 1 |}
  ∧ (∀ k, k ∉ ["ArrowUp"; "ArrowDown"; "ArrowLeft"; "ArrowRight"; "Home"] → keyPan k v = None)
  ∧ (∀ e s, truthy (editingNode s) = true → keydownPan e s = s).
Proof.
  intros Hs. split_and!.
  - eexists. split; [reflexivity|]. unfold updateNodePosition. simpl.
    split_and!; [done | done | field; lra].
  - eexists. split; [reflexivity|]. unfold updateNodePosition. simpl.
    split_and!; [done | done | field; lra].
  - eexists. split; [reflexivity|]. unfold updateNodePosition. simpl.
    split_and!; [done | field; lra | done].
  - eexists. split; [reflexivity|]. unfold updateNodePosition. simpl.
    split_and!; [done | field; lra | done].
  - reflexivity.
  - intros k Hk. unfold keyPan.
    repeat match goal with
           | |- context [String.eqb k ?x] =>
               destruct (String.eqb_spec k x) as [-> | _]; [exfalso; apply Hk; set_solver |]
           end.
    done.
  - intros e s He. unfold keydownPan. by rewrite He.
Qed.

Lemma keyboard_pan_steps_witness :
  ∃ v', keyPan "ArrowUp" {| vp_x := 0; vp_y := 0; vp_scale := 2 |} = Some v'
        ∧ (vp_y v' == 25)%Q.
Proof.
  destruct (keyboard_pan_steps {| vp_x := 0; vp_y := 0; vp_scale := 2 |} (800, 600)%Q Node.dummy)
    as ((v' & Hv' & _) & _); [reflexivity |].
  exists v'. split; [exact Hv' |]. injection Hv' as <-. reflexivity.
Defined.


(** ** Overlap resolution: what one adjustment does to a pair *)

Lemma store_two f g (a b : nat) (h : list Node.t) na nb :
  a ≠ b → h !! a = Some na → h !! b = Some nb →
  store g b (store f a h) !! a = Some (f na)
  ∧ store g b (store f a h) !! b = Some (g nb)
  ∧ ∀ l, l ≠ a → l ≠ b → store g b (store f a h) !! l = h !! l.
Proof.
  intros Hab Ha Hb. unfold store. split_and!.
  - by rewrite list_lookup_alter_ne, list_lookup_alter_eq, Ha.
  - by rewrite list_lookup_alter_eq, list_lookup_alter_ne, Hb.
  - intros l ? ?. by rewrite !list_lookup_alter_ne.
Qed.

Lemma store_one f (a : nat) (h : list Node.t) na :
  h !! a = Some na →
  store f a h !! a = Some (f na) ∧ ∀ l, l ≠ a → store f a h !! l = h !! l.
Proof.
  intros Ha. unfold store. split.
  - by rewrite list_lookup_alter_eq, Ha.
  - intros l ?. by rewrite list_lookup_alter_ne.
Qed.

(** Linear arithmetic over the rationals, with halves written as
    products. *)
Ltac qlra := unfold Qdiv in *; change (/ 2)%Q with (1 # 2)%Q in *; lra.

Lemma Qabs_diff_le (u v d : Q) : (0 <= d)%Q → (u - v == d ∨ v - u == d)%Q → (Qabs (u - v) == d)%Q.
Proof.
  intros Hd [H | H].
  - rewrite H. by apply Qabs_pos.
  - assert (u - v == - d)%Q as -> by lra. rewrite Qabs_opp. by apply Qabs_pos.
Qed.

Lemma getActualNodeDimensions_bounds firstNode :
  let dims := getActualNodeDimensions firstNode in
  (140 <= width dims)%Q ∧ (50 <= height dims)%Q ∧ minGapX dims = 30%Q ∧ minGapY dims = 25%Q.
Proof.
  destruct firstNode as [[w hh]|]; simpl; split_and!; try done; try apply Q.le_max_r.
Qed.

(** X4. The adjustment of two overlapping siblings: the two nodes, at
    different places of the heap, end exactly [requiredDistance] apart,
    around the midpoint they had and in the vertical order they had; no
    x coordinate and no other node is written. *)
Theorem sibling_adjustment_distance (h : list Node.t) (a b : nat) (na nb : Node.t)
    (requiredDistance : Q) :
  a ≠ b → h !! a = Some na → h !! b = Some nb → (0 <= requiredDistance)%Q →
  let h' := adjustSiblingOverlap a b requiredDistance h in
  ∃ ya yb,
    h' !! a = Some (Node.set_y ya na) ∧ h' !! b = Some (Node.set_y yb nb)
    ∧ (Qabs (ya - yb) == requiredDistance)%Q
    ∧ (ya + yb == Node.y na + Node.y nb)%Q
    ∧ ((Node.y na < Node.y nb)%Q → (ya <= yb)%Q)
    ∧ ((Node.y nb <= Node.y na)%Q → (yb <= ya)%Q)
    ∧ ∀ l, l ≠ a → l ≠ b → h' !! l = h !! l.
Proof.
  intros Hab Ha Hb Hr h'. unfold h', adjustSiblingOverlap.
  rewrite (list_lookup_total_correct _ _ _ Ha), (list_lookup_total_correct _ _ _ Hb).
  destruct (Qltb (Node.y na) (Node.y nb)) eqn:E.
  - apply Qltb_lt in E.
    destruct (store_two (Node.set_y ((Node.y na + Node.y nb) / 2 - requiredDistance / 2))
                (Node.set_y ((Node.y na + Node.y nb) / 2 + requiredDistance / 2))
                a b h na nb Hab Ha Hb) as (H1 & H2 & H3).
    eexists _, _. split_and!; [exact H1 | exact H2 | | | | | exact H3].
    + apply Qabs_diff_le; [done | right; field].
    + field.
    + intros _. qlra.
    + intros. qlra.
  - apply Qltb_ge in E.
    destruct (store_two (Node.set_y ((Node.y na + Node.y nb) / 2 + requiredDistance / 2))
                (Node.set_y ((Node.y na + Node.y nb) / 2 - requiredDistance / 2))
                a b h na nb Hab Ha Hb) as (H1 & H2 & H3).
    eexists _, _. split_and!; [exact H1 | exact H2 | | | | | exact H3].
    + apply Qabs_diff_le; [done | left; field].
    + field.
    + intros. qlra.
    + intros _. qlra.
Qed.

Lemma sibling_adjustment_distance_witness :
  ∃ ya yb,
    adjustSiblingOverlap 0 1 85 [Node.dummy; Node.set_y 10 Node.dummy] !! 0%nat
    = Some (Node.set_y ya Node.dummy)
    ∧ adjustSiblingOverlap 0 1 85 [Node.dummy; Node.set_y 10 Node.dummy] !! 1%nat
      = Some (Node.set_y yb (Node.set_y 10 Node.dummy))
    ∧ (Qabs (ya - yb) == 85)%Q.
Proof.
  destruct (sibling_adjustment_distance [Node.dummy; Node.set_y 10 Node.dummy] 0 1
              Node.dummy (Node.set_y 10 Node.dummy) 85)
    as (ya & yb & H1 & H2 & H3 & _); [lia | reflexivity | reflexivity | by vm_compute |].
  exists ya, yb. split_and!; [exact H1 | exact H2 | exact H3].
Defined.

(** X5. The adjustment of a pair that is neither parent and child, nor
    siblings, nor two levels apart: the two nodes are pushed apart
    symmetrically, to exactly [requiredDistance + 10] from each other, in the
    vertical order they had, and their midpoint stays. *)
Theorem general_adjustment_distance (h : list Node.t) (a b : nat) (na nb : Node.t)
    (requiredDistance : Q) :
  a ≠ b → h !! a = Some na → h !! b = Some nb → (0 <= requiredDistance + 10)%Q →
  let h' := adjustGeneralOverlap a b requiredDistance h in
  ∃ ya yb,
    h' !! a = Some (Node.set_y ya na) ∧ h' !! b = Some (Node.set_y yb nb)
    ∧ (Qabs (ya - yb) == requiredDistance + 10)%Q
    ∧ (ya + yb == Node.y na + Node.y nb)%Q
    ∧ ((Node.y na < Node.y nb)%Q → (ya <= yb)%Q)
    ∧ ((Node.y nb <= Node.y na)%Q → (yb <= ya)%Q)
    ∧ ∀ l, l ≠ a → l ≠ b → h' !! l = h !! l.
Proof.
  intros Hab Ha Hb Hr h'. unfold h', adjustGeneralOverlap.
  rewrite (list_lookup_total_correct _ _ _ Ha), (list_lookup_total_correct _ _ _ Hb).
  set (adj := ((requiredDistance - Qabs (Node.y na - Node.y nb)) / 2 + 5)%Q).
  destruct (Qltb (Node.y na) (Node.y nb)) eqn:E.
  - apply Qltb_lt in E.
    assert (Qabs (Node.y na - Node.y nb) == Node.y nb - Node.y na)%Q as Habs.
    { apply Qabs_diff_le; [lra | right; reflexivity]. }
    destruct (store_two (λ n, Node.set_y (Node.y n - adj) n) (λ n, Node.set_y (Node.y n + adj) n)
                a b h na nb Hab Ha Hb) as (H1 & H2 & H3).
    eexists _, _. split_and!; [exact H1 | exact H2 | | | | | exact H3].
    + apply Qabs_diff_le; [done | right]. unfold adj. rewrite Habs. field.
    + field.
    + intros _. unfold adj. rewrite Habs. qlra.
    + intros. qlra.
  - apply Qltb_ge in E.
    assert (Qabs (Node.y na - Node.y nb) == Node.y na - Node.y nb)%Q as Habs.
    { apply Qabs_pos. lra. }
    destruct (store_two (λ n, Node.set_y (Node.y n + adj) n) (λ n, Node.set_y (Node.y n - adj) n)
                a b h na nb Hab Ha Hb) as (H1 & H2 & H3).
    eexists _, _. split_and!; [exact H1 | exact H2 | | | | | exact H3].
    + apply Qabs_diff_le; [done | left]. unfold adj. rewrite Habs. field.
    + field.
    + intros. qlra.
    + intros _. unfold adj. rewrite Habs. qlra.
Qed.

Lemma general_adjustment_distance_witness :
  ∃ ya yb,
    adjustGeneralOverlap 0 1 85 [Node.dummy; Node.set_y 10 Node.dummy] !! 0%nat
    = Some (Node.set_y ya Node.dummy)
    ∧ (Qabs (ya - yb) == 95)%Q.
Proof.
  destruct (general_adjustment_distance [Node.dummy; Node.set_y 10 Node.dummy] 0 1
              Node.dummy (Node.set_y 10 Node.dummy) 85)
    as (ya & yb & H1 & _ & H3 & _); [lia | reflexivity | reflexivity | by vm_compute |].
  exists ya, yb. split; [exact H1 | exact H3].
Defined.

(** X6. The adjustment of a parent and its child: the node of the greater
    level (the first one when the levels are equal) is put one and a half
    times [requiredDistance] below the other when it was strictly below it,
    and above it otherwise; the other node and all other nodes stay. *)
Theorem parent_child_adjustment (h : list Node.t) (a b : nat) (na nb : Node.t)
    (requiredDistance : Q) :
  a ≠ b → h !! a = Some na → h !! b = Some nb →
  let h' := adjustParentChildOverlap a b requiredDistance h in
  (Node.level na < Node.level nb → child_moved h h' a b na nb requiredDistance)
  ∧ (Node.level nb ≤ Node.level na → child_moved h h' b a nb na requiredDistance).
Proof.
  intros Hab Ha Hb h'. unfold h', adjustParentChildOverlap, child_moved.
  rewrite (list_lookup_total_correct _ _ _ Ha), (list_lookup_total_correct _ _ _ Hb).
  destruct (Z.ltb_spec (Node.level na) (Node.level nb)) as [Hlt | Hge];
    (split; intros Hlev; [try lia | try lia]).
  - rewrite (list_lookup_total_correct _ _ _ Ha), (list_lookup_total_correct _ _ _ Hb).
    destruct (store_one (Node.set_y (Node.y na
                + (if Qgtb (Node.y nb) (Node.y na) then 1 else -1) * requiredDistance * (3 # 2)))
                b h nb Hb) as [H1 H2].
    split_and!; [by rewrite H2 | | exact H2].
    eexists. split; [exact H1|]. unfold Qgtb.
    destruct (Qltb (Node.y na) (Node.y nb)) eqn:E;
      [apply Qltb_lt in E | apply Qltb_ge in E]; split; intros; try lra; field.
  - rewrite (list_lookup_total_correct _ _ _ Ha), (list_lookup_total_correct _ _ _ Hb).
    destruct (store_one (Node.set_y (Node.y nb
                + (if Qgtb (Node.y na) (Node.y nb) then 1 else -1) * requiredDistance * (3 # 2)))
                a h na Ha) as [H1 H2].
    split_and!; [by rewrite H2 | | exact H2].
    eexists. split; [exact H1|]. unfold Qgtb.
    destruct (Qltb (Node.y nb) (Node.y na)) eqn:E;
      [apply Qltb_lt in E | apply Qltb_ge in E]; split; intros; try lra; field.
Qed.

Lemma parent_child_adjustment_witness :
  child_moved [Node.dummy; Node.set_y 10 Node.dummy]
    (adjustParentChildOverlap 0 1 80 [Node.dummy; Node.set_y 10 Node.dummy])
    1 0 (Node.set_y 10 Node.dummy) Node.dummy 80.
Proof.
  apply (parent_child_adjustment [Node.dummy; Node.set_y 10 Node.dummy] 0 1
           Node.dummy (Node.set_y 10 Node.dummy) 80); [lia | reflexivity | reflexivity |].
  simpl. lia.
Defined.

(** X7. The adjustment of two nodes more than one level apart: only the
    node of the greater level (the second one when the levels are equal)
    moves, by [requiredDistance] away from the horizontal axis through the
    root: down when it is strictly below the axis, up otherwise, wherever
    the other node is. *)
Theorem distant_level_adjustment (h : list Node.t) (a b : nat) (na nb : Node.t)
    (requiredDistance : Q) :
  h !! a = Some na → h !! b = Some nb →
  let h' := adjustDistantLevelOverlap a b requiredDistance h in
  (Node.level nb < Node.level na → deeper_moved h h' a na requiredDistance)
  ∧ (Node.level na ≤ Node.level nb → deeper_moved h h' b nb requiredDistance).
Proof.
  intros Ha Hb h'. unfold h', adjustDistantLevelOverlap, deeper_moved.
  rewrite (list_lookup_total_correct _ _ _ Ha), (list_lookup_total_correct _ _ _ Hb).
  destruct (Z.gtb_spec (Node.level na) (Node.level nb)) as [Hlt | Hge];
    (split; intros Hlev; [try lia | try lia]).
  - rewrite (list_lookup_total_correct _ _ _ Ha).
    destruct (store_one (λ n, Node.set_y (Node.y n
                + (if Qgtb (Node.y na) 0 then 1 else -1) * requiredDistance) n) a h na Ha)
      as [H1 H2].
    split; [|exact H2]. eexists. split; [exact H1|]. unfold Qgtb.
    destruct (Qltb 0 (Node.y na)) eqn:E;
      [apply Qltb_lt in E | apply Qltb_ge in E]; split; intros; try lra; field.
  - rewrite (list_lookup_total_correct _ _ _ Hb).
    destruct (store_one (λ n, Node.set_y (Node.y n
                + (if Qgtb (Node.y nb) 0 then 1 else -1) * requiredDistance) n) b h nb Hb)
      as [H1 H2].
    split; [|exact H2]. eexists. split; [exact H1|]. unfold Qgtb.
    destruct (Qltb 0 (Node.y nb)) eqn:E;
      [apply Qltb_lt in E | apply Qltb_ge in E]; split; intros; try lra; field.
Qed.

Lemma distant_level_adjustment_witness :
  deeper_moved [Node.dummy; Node.set_y 10 Node.dummy]
    (adjustDistantLevelOverlap 0 1 85 [Node.dummy; Node.set_y 10 Node.dummy])
    1 (Node.set_y 10 Node.dummy) 85.
Proof.
  apply (distant_level_adjustment [Node.dummy; Node.set_y 10 Node.dummy] 0 1
           Node.dummy (Node.set_y 10 Node.dummy) 85); [reflexivity | reflexivity |].
  simpl. lia.
Defined.


(** ** Overlap resolution: pairs, passes and the final validation *)

Lemma Qabs_ge (u d : Q) : (d <= u ∨ u <= - d)%Q → (d <= Qabs u)%Q.
Proof.
  intros [H | H].
  - eapply Qle_trans; [exact H | apply Qle_Qabs].
  - rewrite <- Qabs_opp. eapply Qle_trans; [|apply Qle_Qabs]. lra.
Qed.

Lemma overlaps_far (na nb : Node.t) dims :
  (height dims + minGapY dims <= Qabs (Node.y na - Node.y nb))%Q → overlaps na nb dims = false.
Proof.
  intros H. unfold overlaps. apply andb_false_iff. right. by apply Qltb_ge.
Qed.

(** X8. One step of the resolver on a pair of different node objects,
    with the dimensions that [getActualNodeDimensions] delivers: a pair that
    does not overlap is left alone and reported as such; an overlapping pair
    is reported, only the two nodes are written, and, unless the pair is
    handled as two nodes of distant levels, the two nodes do not overlap
    afterwards. *)
Theorem resolved_pair_is_separated (firstNode : option (Q * Q)) (h : list Node.t)
    (a b : nat) (na nb : Node.t) :
  a ≠ b → h !! a = Some na → h !! b = Some nb →
  let dims := getActualNodeDimensions firstNode in
  let r := resolveNodePairOverlap a b dims h in
  (overlaps na nb dims = false → r = (h, false))
  ∧ (overlaps na nb dims = true →
       r.2 = true
       ∧ (∀ l, l ≠ a → l ≠ b → r.1 !! l = h !! l)
       ∧ (determineAdjustmentStrategy na nb ≠ DistantLevels →
            ∃ na' nb', r.1 !! a = Some na' ∧ r.1 !! b = Some nb'
                       ∧ overlaps na' nb' dims = false)).
Proof.
  intros Hab Ha Hb dims r. unfold r, resolveNodePairOverlap.
  rewrite (list_lookup_total_correct _ _ _ Ha), (list_lookup_total_correct _ _ _ Hb).
  destruct (getActualNodeDimensions_bounds firstNode) as (_ & Hh & _ & Hg). fold dims in Hh, Hg.
  destruct (overlaps na nb dims); (split; [done|]); [|done]. intros _. simpl.
  split; [done|]. split.
  - intros l Hla Hlb. unfold applyOverlapAdjustment, adjustParentChildOverlap,
      adjustSiblingOverlap, adjustDistantLevelOverlap, adjustGeneralOverlap, store.
    repeat case_match; by rewrite ?list_lookup_alter_ne.
  - intros Hst. unfold applyOverlapAdjustment.
    set (rd := (height dims + minGapY dims + 10)%Q).
    assert (0 <= rd)%Q as Hrd by (unfold rd; rewrite Hg; lra).
    assert (height dims + minGapY dims <= rd)%Q as Hfar by (unfold rd; lra).
    destruct (determineAdjustmentStrategy na nb); [| | done |].
    + unfold adjustParentChildOverlap.
      rewrite (list_lookup_total_correct _ _ _ Ha), (list_lookup_total_correct _ _ _ Hb).
      destruct (Node.level na <? Node.level nb);
        rewrite (list_lookup_total_correct _ _ _ Ha), (list_lookup_total_correct _ _ _ Hb).
      * destruct (store_one (Node.set_y (Node.y na
                    + (if Qgtb (Node.y nb) (Node.y na) then 1 else -1) * rd * (3 # 2)))
                    b h nb Hb) as [H1 H2].
        eexists _, _. split_and!; [by rewrite H2 | exact H1 |].
        apply overlaps_far. cbn [Node.y Node.set_y]. apply Qabs_ge.
        destruct (Qgtb (Node.y nb) (Node.y na)); [right | left]; lra.
      * destruct (store_one (Node.set_y (Node.y nb
                    + (if Qgtb (Node.y na) (Node.y nb) then 1 else -1) * rd * (3 # 2)))
                    a h na Ha) as [H1 H2].
        eexists _, _. split_and!; [exact H1 | by rewrite H2 |].
        apply overlaps_far. cbn [Node.y Node.set_y]. apply Qabs_ge.
        destruct (Qgtb (Node.y na) (Node.y nb)); [left | right]; lra.
    + unfold adjustSiblingOverlap.
      rewrite (list_lookup_total_correct _ _ _ Ha), (list_lookup_total_correct _ _ _ Hb).
      destruct (Qltb (Node.y na) (Node.y nb)).
      * destruct (store_two (Node.set_y ((Node.y na + Node.y nb) / 2 - rd / 2))
                    (Node.set_y ((Node.y na + Node.y nb) / 2 + rd / 2))
                    a b h na nb Hab Ha Hb) as (H1 & H2 & _).
        eexists _, _. split_and!; [exact H1 | exact H2 |].
        apply overlaps_far. cbn [Node.y Node.set_y]. apply Qabs_ge. right. qlra.
      * destruct (store_two (Node.set_y ((Node.y na + Node.y nb) / 2 + rd / 2))
                    (Node.set_y ((Node.y na + Node.y nb) / 2 - rd / 2))
                    a b h na nb Hab Ha Hb) as (H1 & H2 & _).
        eexists _, _. split_and!; [exact H1 | exact H2 |].
        apply overlaps_far. cbn [Node.y Node.set_y]. apply Qabs_ge. left. qlra.
    + unfold adjustGeneralOverlap.
      rewrite (list_lookup_total_correct _ _ _ Ha), (list_lookup_total_correct _ _ _ Hb).
      set (adj := ((rd - Qabs (Node.y na - Node.y nb)) / 2 + 5)%Q).
      destruct (Qltb (Node.y na) (Node.y nb)) eqn:E.
      * apply Qltb_lt in E.
        assert (Qabs (Node.y na - Node.y nb) == Node.y nb - Node.y na)%Q as Habs.
        { apply Qabs_diff_le; [lra | right; reflexivity]. }
        destruct (store_two (λ n, Node.set_y (Node.y n - adj) n)
                    (λ n, Node.set_y (Node.y n + adj) n) a b h na nb Hab Ha Hb) as (H1 & H2 & _).
        eexists _, _. split_and!; [exact H1 | exact H2 |].
        apply overlaps_far. cbn [Node.y Node.set_y]. apply Qabs_ge. right. unfold adj. rewrite Habs. qlra.
      * apply Qltb_ge in E.
        assert (Qabs (Node.y na - Node.y nb) == Node.y na - Node.y nb)%Q as Habs.
        { apply Qabs_pos. lra. }
        destruct (store_two (λ n, Node.set_y (Node.y n + adj) n)
                    (λ n, Node.set_y (Node.y n - adj) n) a b h na nb Hab Ha Hb) as (H1 & H2 & _).
        eexists _, _. split_and!; [exact H1 | exact H2 |].
        apply overlaps_far. cbn [Node.y Node.set_y]. apply Qabs_ge. left. unfold adj. rewrite Habs. qlra.
Qed.

Lemma resolved_pair_is_separated_witness :
  let h := [Node.dummy; Node.set_y 10 Node.dummy] in
  ∃ na' nb', (resolveNodePairOverlap 0 1 (getActualNodeDimensions None) h).1 !! 0%nat = Some na'
             ∧ (resolveNodePairOverlap 0 1 (getActualNodeDimensions None) h).1 !! 1%nat = Some nb'
             ∧ overlaps na' nb' (getActualNodeDimensions None) = false.
Proof.
  intros h.
  destruct (resolved_pair_is_separated None h 0 1 Node.dummy (Node.set_y 10 Node.dummy))
    as [_ H]; [lia | reflexivity | reflexivity |].
  destruct H as (_ & _ & H); [reflexivity |]. apply H. vm_compute. discriminate.
Defined.

(** The pairs that the nested loops visit. *)
Lemma count_overlaps_zero (l : list nat) dims (h : list Node.t) :
  count_overlaps l dims h = 0%nat
  ↔ ∀ i j a b, (i < j)%nat → l !! i = Some a → l !! j = Some b →
      overlaps (h !!! a) (h !!! b) dims = false.
Proof.
  induction l as [|a0 rest IH]; simpl.
  - split; [intros _ i j a b _ Hi; by rewrite lookup_nil in Hi | done].
  - rewrite Nat.eq_add_0, IH. split.
    + intros [Hrow Hrest] i j a b Hij Hi Hj. destruct i as [|i].
      * simpl in Hi. injection Hi as <-. destruct j as [|j]; [lia|]. simpl in Hj.
        apply length_zero_iff_nil in Hrow.
        destruct (overlaps (h !!! a0) (h !!! b) dims) eqn:E; [|done].
        assert (b ∈ filter (λ b, overlaps (h !!! a0) (h !!! b) dims = true) rest) as Hin.
        { apply list_elem_of_filter. split; [done | by eapply list_elem_of_lookup_2]. }
        rewrite Hrow in Hin. by apply not_elem_of_nil in Hin.
      * destruct j as [|j]; [lia|]. simpl in Hi, Hj. apply (Hrest i j); [lia | done..].
    + intros H. split.
      * apply length_zero_iff_nil.
        destruct (filter _ rest) as [|b fl] eqn:E; [done|]. exfalso.
        assert (b ∈ filter (λ b, overlaps (h !!! a0) (h !!! b) dims = true) rest) as Hin
          by (rewrite E; left).
        apply list_elem_of_filter in Hin as [Hov [j Hj]%list_elem_of_lookup].
        specialize (H 0%nat (S j) a0 b). simpl in H. rewrite H in Hov; [done | lia | done..].
      * intros i j a b Hij Hi Hj. apply (H (S i) (S j)); [lia | done..].
Qed.

(** X9. The final validation: [validateNoOverlaps] answers true exactly
    when no two nodes of the map, taken in insertion order, are closer than
    the required distances in both directions. *)
Theorem validation_is_exact (nodes : list (string * nat)) (dims : dimensions) (h : list Node.t) :
  validateNoOverlaps nodes dims h = true
  ↔ ∀ i j ka a kb b, (i < j)%nat → nodes !! i = Some (ka, a) → nodes !! j = Some (kb, b) →
      ¬ ((Qabs (Node.x (h !!! a) - Node.x (h !!! b)) < width dims / 2 + minGapX dims)%Q
         ∧ (Qabs (Node.y (h !!! a) - Node.y (h !!! b)) < height dims + minGapY dims)%Q).
Proof.
  unfold validateNoOverlaps. rewrite Nat.eqb_eq, count_overlaps_zero. unfold Map_values.
  assert (∀ na nb, overlaps na nb dims = false
            ↔ ¬ ((Qabs (Node.x na - Node.x nb) < width dims / 2 + minGapX dims)%Q
                 ∧ (Qabs (Node.y na - Node.y nb) < height dims + minGapY dims)%Q)) as Hov.
  { intros na nb. unfold overlaps. rewrite <- not_true_iff_false, andb_true_iff, !Qltb_lt. done. }
  split.
  - intros H i j ka a kb b Hij Hi Hj. apply Hov. apply (H i j); [done | |];
      rewrite list_lookup_fmap; [by rewrite Hi | by rewrite Hj].
  - intros H i j a b Hij Hi Hj. rewrite list_lookup_fmap in Hi, Hj.
    destruct (nodes !! i) as [[ka a']|] eqn:Ei; [|done].
    destruct (nodes !! j) as [[kb b']|] eqn:Ej; [|done]. simpl in Hi, Hj.
    injection Hi as <-. injection Hj as <-. apply Hov. by apply (H i j ka a' kb b').
Qed.

Lemma validation_is_exact_witness :
  validateNoOverlaps (nodes scenario) (getActualNodeDimensions None) (objects scenario) = true
  ∧ ¬ ((Qabs (Node.x (objects scenario !!! 1%nat) - Node.x (objects scenario !!! 3%nat))
        < width (getActualNodeDimensions None) / 2 + minGapX (getActualNodeDimensions None))%Q
       ∧ (Qabs (Node.y (objects scenario !!! 1%nat) - Node.y (objects scenario !!! 3%nat))
          < height (getActualNodeDimensions None) + minGapY (getActualNodeDimensions None))%Q).
Proof.
  assert (validateNoOverlaps (nodes scenario) (getActualNodeDimensions None) (objects scenario)
          = true) as Hv by (vm_compute; reflexivity).
  split; [exact Hv |].
  apply (proj1 (validation_is_exact (nodes scenario) (getActualNodeDimensions None)
                  (objects scenario)) Hv 1%nat 3%nat "node-2" 1%nat "node-4" 3%nat);
    [lia | reflexivity | reflexivity].
Defined.

(** *** Layouts without overlaps *)

Lemma resolve_row_clean a rest dims h f :
  (∀ b, b ∈ rest → overlaps (h !!! a) (h !!! b) dims = false) →
  resolve_row a rest dims (h, f) = (h, f).
Proof.
  unfold resolve_row, forEach. induction rest as [|b rest IH]; intros H; [done|]. simpl.
  unfold resolveNodePairOverlap at 2. rewrite (H b) by left. simpl.
  apply IH. intros b' Hb'. apply H. by right.
Qed.

Lemma resolve_pass_clean l dims h f :
  count_overlaps l dims h = 0%nat → resolve_pass l dims (h, f) = (h, f).
Proof.
  induction l as [|a rest IH]; [done|]. simpl. intros [Hrow Hrest]%Nat.eq_add_0.
  rewrite resolve_row_clean; [by apply IH|].
  intros b Hb. apply length_zero_iff_nil in Hrow.
  destruct (overlaps (h !!! a) (h !!! b) dims) eqn:E; [|done].
  assert (b ∈ filter (λ b, overlaps (h !!! a) (h !!! b) dims = true) rest) as Hin
    by (by apply list_elem_of_filter).
  rewrite Hrow in Hin. by apply not_elem_of_nil in Hin.
Qed.

Lemma resolve_loop_clean n l dims h :
  count_overlaps l dims h = 0%nat → resolve_loop n l dims h = h.
Proof. intros H. destruct n; [done|]. simpl. by rewrite resolve_pass_clean. Qed.

Lemma filter_overlaps_nil (a : nat) (l : list nat) dims (h : list Node.t) :
  length (filter (λ b, overlaps (h !!! a) (h !!! b) dims = true) l) = 0%nat
  ↔ ∀ b, b ∈ l → overlaps (h !!! a) (h !!! b) dims = false.
Proof.
  rewrite length_zero_iff_nil. split.
  - intros Hnil b Hb. destruct (overlaps (h !!! a) (h !!! b) dims) eqn:E; [|done].
    assert (b ∈ filter (λ b, overlaps (h !!! a) (h !!! b) dims = true) l) as Hin
      by (by apply list_elem_of_filter).
    rewrite Hnil in Hin. by apply not_elem_of_nil in Hin.
  - intros H. destruct (filter _ l) as [|b fl] eqn:E; [done|]. exfalso.
    assert (b ∈ filter (λ b, overlaps (h !!! a) (h !!! b) dims = true) l) as Hin
      by (rewrite E; left).
    apply list_elem_of_filter in Hin as [Hov Hb]. by rewrite (H b Hb) in Hov.
Qed.

Lemma count_overlaps_sublist (l l' : list nat) dims (h : list Node.t) :
  sublist l' l → count_overlaps l dims h = 0%nat → count_overlaps l' dims h = 0%nat.
Proof.
  induction 1 as [|x l1 l2 Hsub IH|x l1 l2 Hsub IH]; simpl; [done | |].
  - intros [Hrow Hrest]%Nat.eq_add_0. apply Nat.eq_add_0. split; [|by apply IH].
    apply filter_overlaps_nil. intros b Hb. rewrite filter_overlaps_nil in Hrow.
    apply Hrow. by eapply elem_of_sublist.
  - intros [_ Hrest]%Nat.eq_add_0. by apply IH.
Qed.

Lemma level_push_sublist lv (l : nat) (g : list (Z * list nat)) (pre : list nat) :
  (∀ e, e ∈ g → sublist e.2 pre) → ∀ e, e ∈ level_push lv l g → sublist e.2 (pre ++ [l]).
Proof.
  induction g as [|[lv' ls] g IH]; simpl; intros Hg e He.
  - apply list_elem_of_singleton in He as ->. simpl. by apply sublist_inserts_l.
  - destruct (decide (lv' = lv)) as [-> | Hne].
    + apply elem_of_cons in He as [-> | He]; simpl.
      * apply sublist_app; [|done]. apply (Hg (lv, ls)). left.
      * apply sublist_inserts_r, Hg. by right.
    + apply elem_of_cons in He as [-> | He]; simpl.
      * apply sublist_inserts_r, (Hg (lv', ls)). left.
      * apply IH; [|done]. intros e' He'. apply Hg. by right.
Qed.

Lemma nodesByLevel_sublist (lev : nat → Z) (vals : list nat) :
  ∀ g pre, (∀ e, e ∈ g → sublist e.2 pre) →
    ∀ e, e ∈ forEach (λ l g, level_push (lev l) l g) vals g → sublist e.2 (pre ++ vals).
Proof.
  unfold forEach. induction vals as [|l vals IH]; intros g pre Hg e He; simpl in He.
  - rewrite app_nil_r. by apply Hg.
  - replace (pre ++ l :: vals) with ((pre ++ [l]) ++ vals) by (by rewrite <- app_assoc).
    eapply IH; [|exact He]. by apply level_push_sublist.
Qed.

(** X10. Layouts without overlaps are left alone: when the final
    validation succeeds on a layout, neither the resolution by level nor
    the global resolution writes anything, so that overlap resolution as a
    whole returns the layout it was given. *)
Theorem clean_layout_is_kept (nodes : list (string * nat)) (dims : dimensions)
    (firstNode : option (Q * Q)) (h : list Node.t) :
  (validateNoOverlaps nodes dims h = true →
     resolveOverlapsByLevel nodes dims h = h ∧ resolveGlobalOverlaps nodes dims h = h)
  ∧ (validateNoOverlaps nodes (getActualNodeDimensions firstNode) h = true →
     performComprehensiveOverlapResolution nodes firstNode h = h).
Proof.
  assert (∀ dims, validateNoOverlaps nodes dims h = true →
            resolveOverlapsByLevel nodes dims h = h ∧ resolveGlobalOverlaps nodes dims h = h)
    as Hboth.
  { clear dims. intros dims Hv. unfold validateNoOverlaps in Hv. apply Nat.eqb_eq in Hv. split.
    - unfold resolveOverlapsByLevel.
      pose proof (nodesByLevel_sublist (λ l, Node.level (h !!! l)) (Map_values nodes) [] [])
        as Hsub. simpl in Hsub.
      specialize (Hsub (λ e He, False_ind _ (not_elem_of_nil e He))).
      revert Hsub. generalize (forEach (λ l g, level_push (Node.level (h !!! l)) l g)
                                 (Map_values nodes) []).
      intros g. unfold forEach. induction g as [|[lv ls] g IH]; intros Hsub; [done|]. simpl.
      destruct (1 <? length ls)%nat.
      + unfold resolveOverlapsInLevel. rewrite resolve_loop_clean.
        * apply IH. intros e He. apply Hsub. by right.
        * eapply count_overlaps_sublist; [|exact Hv]. apply (Hsub (lv, ls)). left.
      + apply IH. intros e He. apply Hsub. by right.
    - unfold resolveGlobalOverlaps. by apply resolve_loop_clean. }
  split; [apply Hboth|]. intros Hv. unfold performComprehensiveOverlapResolution.
  destruct (Hboth _ Hv) as [-> ->]. done.
Qed.

Lemma clean_layout_is_kept_witness :
  performComprehensiveOverlapResolution (nodes scenario) (Some sample_rect) (objects scenario)
  = objects scenario.
Proof.
  apply (clean_layout_is_kept (nodes scenario) (getActualNodeDimensions None)
           (Some sample_rect) (objects scenario)).
  vm_compute. reflexivity.
Defined.


(** ** The tree invariant along the commands *)

Lemma wf_tree_ok s : wf s → tree_ok s = true.
Proof.
  intros Hwf. unfold tree_ok.
  rewrite !andb_true_iff, !bool_decide_eq_true, Nat.eqb_eq. split_and!.
  - apply Hwf.
  - apply Hwf.
  - apply forallb_forall. intros [k l] Hin%list_elem_of_In.
    destruct (wf_object s Hwf k l Hin) as (n & Ho & Hid & Hne & Hlev & Hnd).
    assert (node_at s k = Some n) as Hk.
    { apply node_at_Some. exists l. split; [by apply (wf_get s Hwf) | done]. }
    unfold entry_ok. simpl. rewrite Ho.
    rewrite !andb_true_iff, !bool_decide_eq_true, negb_true_iff, String.eqb_neq. split_and!.
    + done.
    + done.
    + lia.
    + done.
    + apply forallb_forall. intros c Hc%list_elem_of_In.
      destruct (wf_children s Hwf k n c Hk Hc) as (nc & Hnc & Hp).
      fold (node_at s c). rewrite Hnc. by apply bool_decide_eq_true.
    + destruct (Node.parent n) as [p|] eqn:Hp.
      * destruct (wf_parent s Hwf k n p Hk Hp) as (np & Hnp & Hin' & Hl).
        fold (node_at s p). rewrite Hnp. rewrite andb_true_iff, bool_decide_eq_true.
        split; [done | lia].
      * pose proof (wf_root s Hwf k n Hk Hp). lia.
  - apply Hwf.
Qed.

Lemma skeleton_eq n n' :
  skeleton n' = skeleton n →
  Node.id n' = Node.id n ∧ Node.level n' = Node.level n
  ∧ Node.parent n' = Node.parent n ∧ Node.children n' = Node.children n.
Proof. unfold skeleton. intros [= ? ? ? ?]. done. Qed.

(** States with the same map and the same tree fields in every object. *)
Lemma wf_ext s s' :
  nodes s' = nodes s → skeleton <$> objects s' = skeleton <$> objects s → wf s → wf s'.
Proof.
  intros Hn Hsk Hwf.
  assert (∀ l n, objects s !! l = Some n →
            ∃ n', objects s' !! l = Some n' ∧ skeleton n' = skeleton n) as Hfw.
  { intros l n Hl. pose proof (f_equal (.!! l) Hsk) as E. simpl in E.
    rewrite !list_lookup_fmap, Hl in E. destruct (objects s' !! l) as [n'|]; [|done].
    exists n'. split; [done|]. simpl in E. congruence. }
  assert (∀ l n', objects s' !! l = Some n' →
            ∃ n, objects s !! l = Some n ∧ skeleton n' = skeleton n) as Hbw.
  { intros l n' Hl. pose proof (f_equal (.!! l) Hsk) as E. simpl in E.
    rewrite !list_lookup_fmap, Hl in E. destruct (objects s !! l) as [n|]; [|done].
    exists n. split; [done|]. simpl in E. congruence. }
  assert (∀ k n, node_at s k = Some n → ∃ n', node_at s' k = Some n' ∧ skeleton n' = skeleton n)
    as Hnf.
  { intros k n (l & Hg & Ho)%node_at_Some. destruct (Hfw l n Ho) as (n' & Ho' & E).
    exists n'. split; [|done]. apply node_at_Some. exists l. by rewrite Hn. }
  assert (∀ k n', node_at s' k = Some n' → ∃ n, node_at s k = Some n ∧ skeleton n' = skeleton n)
    as Hnb.
  { intros k n' (l & Hg & Ho)%node_at_Some. destruct (Hbw l n' Ho) as (n & Ho' & E).
    exists n. split; [|done]. apply node_at_Some. exists l. by rewrite <- Hn. }
  split.
  - rewrite Hn. apply Hwf.
  - rewrite Hn. apply Hwf.
  - intros k l Hin. rewrite Hn in Hin.
    destruct (wf_object s Hwf k l Hin) as (n & Ho & ? & ? & ? & ?).
    destruct (Hfw l n Ho) as (n' & Ho' & (? & ? & ? & ?)%skeleton_eq).
    exists n'. split_and!; [done | congruence | done | congruence | congruence].
  - intros k n' c (n & Hk & (? & ? & ? & Hch)%skeleton_eq)%Hnb Hc. rewrite Hch in Hc.
    destruct (wf_children s Hwf k n c Hk Hc) as (nc & Hnc & Hp).
    destruct (Hnf c nc Hnc) as (nc' & Hnc' & (? & ? & ? & ?)%skeleton_eq).
    exists nc'. split; [done | congruence].
  - intros k n' p (n & Hk & (? & ? & Hpar & ?)%skeleton_eq)%Hnb Hp. rewrite Hpar in Hp.
    destruct (wf_parent s Hwf k n p Hk Hp) as (np & Hnp & Hin & Hl).
    destruct (Hnf p np Hnp) as (np' & Hnp' & (? & ? & ? & ?)%skeleton_eq).
    exists np'. split_and!; [done | congruence | congruence].
  - intros k n' (n & Hk & (? & ? & Hpar & ?)%skeleton_eq)%Hnb Hp. rewrite Hpar in Hp.
    pose proof (wf_root s Hwf k n Hk Hp). congruence.
  - rewrite Hn. rewrite <- (wf_single_root s Hwf). f_equal.
    apply filter_ext_in. intros [k l] Hin. simpl.
    destruct (wf_object s Hwf k l Hin) as (n & Ho & _).
    destruct (Hfw l n Ho) as (n' & Ho' & (? & Hlev & ? & ?)%skeleton_eq).
    rewrite (list_lookup_total_correct _ _ _ Ho), (list_lookup_total_correct _ _ _ Ho').
    by rewrite Hlev.
Qed.

Lemma same_shape_skeleton h h' : same_shape h h' → skeleton <$> h' = skeleton <$> h.
Proof.
  unfold same_shape. intros H.
  assert (∀ l : list Node.t, skeleton <$> l = (λ t : string * string * Z * option string
            * list string * option string, (t.1.1.1.1.1, t.1.1.1.2, t.1.1.2, t.1.2))
            <$> (Node.shape <$> l)) as E.
  { intros l. rewrite <- list_fmap_compose. done. }
  by rewrite !E, H.
Qed.

Lemma skeleton_store f l (h : list Node.t) :
  (∀ n, skeleton (f n) = skeleton n) → skeleton <$> store f l h = skeleton <$> h.
Proof. apply fmap_store. Qed.

(** *** A new leaf *)

Lemma Map_get_app k (m m' : list (string * nat)) :
  Map_get k (m ++ m')
  = match Map_get k m with Some v => Some v | None => Map_get k m' end.
Proof. induction m as [|[k' v] m IH]; simpl; [done|]. by destruct (decide (k' = k)). Qed.

Section AddLeaf.
Context (s s' : MindMapApp) (Hwf : wf s).
Context (c k : string) (lk : nat) (n new : Node.t).
Context (Hc : c ∉ Map_keys (nodes s)) (Hne : c ≠ "").
Context (Hk : Map_get k (nodes s) = Some lk) (Hn : objects s !! lk = Some n).
Context (Hnew : skeleton new = (c, Node.level n + 1, Some k, [])).
Context (Hnodes : nodes s' = nodes s ++ [(c, length (objects s))]).
Context (Hobjs : objects s'
                 = store (λ m, Node.set_children (Node.children m ++ [c]) m) lk
                         (objects s ++ [new])).

Lemma add_leaf_loc_lt k' l : (k', l) ∈ nodes s → (l < length (objects s))%nat.
Proof.
  intros Hin. destruct (wf_object s Hwf k' l Hin) as (m & Ho & _).
  by apply lookup_lt_Some in Ho.
Qed.

Lemma add_leaf_kc : k ≠ c.
Proof. intros ->. apply Hc. apply list_elem_of_fmap. exists (c, lk). split; [done|]. by apply Map_get_Some. Qed.

Lemma add_leaf_old_object k' l m :
  (k', l) ∈ nodes s → objects s !! l = Some m → objects s' !! l = Some (grown k c k' m).
Proof.
  intros Hin Ho. rewrite Hobjs. unfold store, grown.
  destruct (decide (k' = k)) as [-> | Hne'].
  - assert (l = lk) as -> by (apply (wf_get s Hwf) in Hin; congruence).
    rewrite list_lookup_alter_eq, lookup_app_l by (by eapply lookup_lt_Some).
    by rewrite Ho.
  - assert (l ≠ lk) as Hl.
    { intros ->. apply Hne'. eapply (wf_loc_inj s Hwf); [exact Hin | by apply Map_get_Some]. }
    rewrite list_lookup_alter_ne by done. rewrite lookup_app_l by (by eapply lookup_lt_Some).
    done.
Qed.

Lemma add_leaf_new_object : objects s' !! length (objects s) = Some new.
Proof.
  rewrite Hobjs. unfold store. rewrite list_lookup_alter_ne.
  - rewrite lookup_app_r by lia. by rewrite Nat.sub_diag.
  - apply lookup_lt_Some in Hn. lia.
Qed.

Lemma add_leaf_get_old k' : k' ≠ c → Map_get k' (nodes s') = Map_get k' (nodes s).
Proof.
  intros Hne'. rewrite Hnodes, Map_get_app. destruct (Map_get k' (nodes s)); [done|].
  simpl. by destruct (decide (c = k')).
Qed.

Lemma add_leaf_get_new : Map_get c (nodes s') = Some (length (objects s)).
Proof.
  rewrite Hnodes, Map_get_app. apply Map_get_None in Hc as ->. simpl.
  by destruct (decide (c = c)).
Qed.

Lemma add_leaf_node_new : node_at s' c = Some new.
Proof. apply node_at_Some. eexists. split; [apply add_leaf_get_new | apply add_leaf_new_object]. Qed.

Lemma add_leaf_node_old k' m : node_at s k' = Some m → node_at s' k' = Some (grown k c k' m).
Proof.
  intros Hm. pose proof (node_at_elem _ _ _ Hm) as Hin.
  apply node_at_Some in Hm as (l & Hg & Ho). apply node_at_Some. exists l. split.
  - rewrite add_leaf_get_old; [done | by intros ->].
  - apply add_leaf_old_object; [by apply Map_get_Some | done].
Qed.

Lemma add_leaf_node_inv k' m :
  node_at s' k' = Some m →
  (k' = c ∧ m = new) ∨ (k' ≠ c ∧ ∃ m0, node_at s k' = Some m0 ∧ m = grown k c k' m0).
Proof.
  intros Hm. destruct (decide (k' = c)) as [-> | Hne'].
  - left. split; [done|]. rewrite add_leaf_node_new in Hm. congruence.
  - right. split; [done|]. apply node_at_Some in Hm as (l & Hg & Ho).
    rewrite add_leaf_get_old in Hg by done.
    destruct (wf_object s Hwf k' l (Map_get_Some _ _ _ Hg)) as (m0 & Ho0 & _).
    exists m0. split; [apply node_at_Some; eauto|].
    rewrite (add_leaf_old_object k' l m0 (Map_get_Some _ _ _ Hg) Ho0) in Ho. congruence.
Qed.

Lemma grown_fields k' m :
  Node.id (grown k c k' m) = Node.id m ∧ Node.level (grown k c k' m) = Node.level m
  ∧ Node.parent (grown k c k' m) = Node.parent m
  ∧ (∀ x, x ∈ Node.children (grown k c k' m) ↔ x ∈ Node.children m ∨ (k' = k ∧ x = c)).
Proof.
  unfold grown. destruct (decide (k' = k)) as [-> | Hne']; simpl; split_and!; try done.
  - intros x. rewrite elem_of_app, list_elem_of_singleton. naive_solver.
  - naive_solver.
Qed.

Lemma add_leaf_node_k : node_at s k = Some n.
Proof. apply node_at_Some. eauto. Qed.

Lemma add_leaf_wf : wf s'.
Proof.
  pose proof add_leaf_kc as Hkc. pose proof add_leaf_node_k as Hnk.
  assert (Node.id new = c ∧ Node.level new = Node.level n + 1
          ∧ Node.parent new = Some k ∧ Node.children new = []) as (Hnid & Hnlev & Hnpar & Hnch).
  { unfold skeleton in Hnew. by injection Hnew. }
  assert (0 ≤ Node.level n) as Hnl by (by eapply (wf_level_nonneg s Hwf)).
  split.
  - rewrite Hnodes. unfold Map_keys. rewrite fmap_app. simpl. apply NoDup_app. split_and!.
    + apply Hwf.
    + intros x Hx ->%list_elem_of_singleton. by apply Hc.
    + apply NoDup_singleton.
  - rewrite Hnodes. unfold Map_values. rewrite fmap_app. simpl. apply NoDup_app. split_and!.
    + apply Hwf.
    + intros x Hx ->%list_elem_of_singleton.
      apply list_elem_of_fmap in Hx as ([k' l] & E & Hin). simpl in E.
      apply add_leaf_loc_lt in Hin. lia.
    + apply NoDup_singleton.
  - intros k' l Hin. rewrite Hnodes in Hin. apply elem_of_app in Hin as [Hin | Hin].
    + destruct (wf_object s Hwf k' l Hin) as (m & Ho & Hid & Hk' & Hl & Hnd).
      exists (grown k c k' m). destruct (grown_fields k' m) as (Gi & Gl & Gp & Gc).
      split_and!; [by apply add_leaf_old_object | congruence | done | lia |].
      unfold grown. destruct (decide (k' = k)) as [-> | _]; [|done]. simpl.
      apply NoDup_app. split_and!; [done | | apply NoDup_singleton].
      intros x Hx ->%list_elem_of_singleton.
      assert (node_at s k = Some m) as Hm.
      { apply node_at_Some. exists l. split; [by apply (wf_get s Hwf) | done]. }
      destruct (wf_children s Hwf k m c Hm Hx) as (nc & Hnc%node_at_elem & _). by apply Hc.
    + apply list_elem_of_singleton in Hin. injection Hin as -> ->.
      exists new. split_and!; [apply add_leaf_new_object | done | done | lia |].
      rewrite Hnch. apply NoDup_nil_2.
  - intros k' m x Hm Hx. apply add_leaf_node_inv in Hm as [[-> ->] | (Hne' & m0 & Hm0 & ->)].
    + rewrite Hnch in Hx. by apply not_elem_of_nil in Hx.
    + destruct (grown_fields k' m0) as (_ & _ & _ & Gc). apply Gc in Hx as [Hx | [-> ->]].
      * destruct (wf_children s Hwf k' m0 x Hm0 Hx) as (nx & Hnx & Hp).
        exists (grown k c x nx). split; [by apply add_leaf_node_old|].
        destruct (grown_fields x nx) as (_ & _ & -> & _). done.
      * exists new. split; [apply add_leaf_node_new | done].
  - intros k' m p Hm Hp. apply add_leaf_node_inv in Hm as [[-> ->] | (Hne' & m0 & Hm0 & ->)].
    + rewrite Hnpar in Hp. injection Hp as <-.
      exists (grown k c k n). split; [by apply add_leaf_node_old|].
      destruct (grown_fields k n) as (_ & Gl & _ & Gc). split; [apply Gc; by right | lia].
    + destruct (grown_fields k' m0) as (_ & Gl & Gp & _). rewrite Gp in Hp.
      destruct (wf_parent s Hwf k' m0 p Hm0 Hp) as (np & Hnp & Hin & Hl).
      exists (grown k c p np). split; [by apply add_leaf_node_old|].
      destruct (grown_fields p np) as (_ & Gl' & _ & Gc'). split; [apply Gc'; by left | lia].
  - intros k' m Hm Hp. apply add_leaf_node_inv in Hm as [[-> ->] | (Hne' & m0 & Hm0 & ->)].
    + congruence.
    + destruct (grown_fields k' m0) as (_ & Gl & Gp & _). rewrite Gp in Hp.
      pose proof (wf_root s Hwf k' m0 Hm0 Hp). lia.
  - rewrite Hnodes, filter_app, length_app.
    rewrite <- (wf_single_root s Hwf).
    assert (filter (λ e, Node.level (objects s' !!! e.2) = 0) [(c, length (objects s))] = [])
      as ->.
    { rewrite filter_cons. simpl.
      rewrite (list_lookup_total_correct _ _ _ add_leaf_new_object).
      destruct (decide (Node.level new = 0)); [lia | done]. }
    simpl. rewrite Nat.add_0_r. f_equal. apply filter_ext_in. intros [k' l] Hin. simpl.
    destruct (wf_object s Hwf k' l Hin) as (m & Ho & _).
    rewrite (list_lookup_total_correct _ _ _ Ho),
      (list_lookup_total_correct _ _ _ (add_leaf_old_object k' l m Hin Ho)).
    destruct (grown_fields k' m) as (_ & -> & _). done.
Qed.

End AddLeaf.

Lemma id_of_nonempty i : id_of i ≠ "".
Proof. unfold id_of. done. Qed.

Lemma addChildNode_none s :
  Map_get_opt (selectedNode s) (nodes s) = None → addChildNode s = s.
Proof. unfold addChildNode. by intros ->. Qed.

Lemma addChildNode_fields s k lk :
  selectedNode s = Some k → Map_get k (nodes s) = Some lk →
  id_of (nodeCounter s + 1) ∉ Map_keys (nodes s) →
  let c := id_of (nodeCounter s + 1) in
  let p := objects s !!! lk in
  let new := Node.mk c "ノード" (Node.level p + 1) (Some (Node.id p)) []
                     (Node.x p) (Node.y p) (Some "white") in
  let s' := addChildNode s in
  nodes s' = nodes s ++ [(c, length (objects s))]
  ∧ objects s' = store (λ m, Node.set_children (Node.children m ++ [c]) m) lk
                       (objects s ++ [new])
  ∧ selectedNode s' = Some c ∧ nodeCounter s' = nodeCounter s + 1
  ∧ history s' = push_bounded (history s) (snapshot s)
  ∧ elements s' = elements s ++ [c] ∧ viewport s' = viewport s
  ∧ editingNode s' = editingNode s.
Proof.
  intros Hsel Hk Hc c p new s'. unfold s', addChildNode. rewrite Hsel. simpl. rewrite Hk.
  simpl. rewrite Map_set_fresh by done. done.
Qed.

(** X11. Adding a child keeps the tree: in a state satisfying the tree
    invariant in which the next id is not in the map, add-child on a
    selected node of the map appends one new node (text "ノード", colour
    white, one level below the selected node and at its place) to the map
    and to the end of the selected node's children, selects it, takes one
    snapshot, changes no other node, and the tree invariant holds
    afterwards.  Without a selected node of the map nothing happens. *)
Theorem addChildNode_keeps_tree (s : MindMapApp) :
  tree_ok s = true → Map_get (id_of (nodeCounter s + 1)) (nodes s) = None →
  let c := id_of (nodeCounter s + 1) in
  let s' := addChildNode s in
  (Map_get_opt (selectedNode s) (nodes s) = None → s' = s)
  ∧ (∀ k n, selectedNode s = Some k → node_at s k = Some n →
       tree_ok s' = true
       ∧ Map_keys (nodes s') = Map_keys (nodes s) ++ [c]
       ∧ node_at s' c = Some (Node.mk c "ノード" (Node.level n + 1) (Some k) []
                                      (Node.x n) (Node.y n) (Some "white"))
       ∧ node_at s' k = Some (Node.set_children (Node.children n ++ [c]) n)
       ∧ (∀ k', k' ≠ k → k' ≠ c → node_at s' k' = node_at s k')
       ∧ selectedNode s' = Some c ∧ nodeCounter s' = nodeCounter s + 1
       ∧ history s' = push_bounded (history s) (snapshot s)).
Proof.
  intros Hwf%tree_ok_wf Hc%Map_get_None c s'. split; [apply addChildNode_none|].
  intros k n Hsel (lk & Hk & Hn)%node_at_Some.
  destruct (addChildNode_fields s k lk Hsel Hk Hc)
    as (Hnodes & Hobjs & Hsel' & Hcnt & Hhist & _).
  fold s' c in Hnodes, Hobjs, Hsel', Hcnt, Hhist.
  rewrite (list_lookup_total_correct _ _ _ Hn) in Hobjs.
  destruct (wf_object s Hwf k lk (Map_get_Some _ _ _ Hk)) as (n0 & Hn0 & Hid & _).
  rewrite Hn in Hn0. injection Hn0 as <-. rewrite Hid in Hobjs.
  set (new := Node.mk c "ノード" (Node.level n + 1) (Some k) [] (Node.x n) (Node.y n)
                      (Some "white")) in *.
  assert (wf s') as Hwf'.
  { by apply (add_leaf_wf s s' Hwf c k lk n new Hc (id_of_nonempty _) Hk Hn). }
  assert (node_at s k = Some n) as Hnk by (apply node_at_Some; eauto).
  split_and!; try done.
  - by apply wf_tree_ok.
  - rewrite Hnodes. unfold Map_keys. by rewrite fmap_app.
  - by apply (add_leaf_node_new s s' c lk n new).
  - rewrite (add_leaf_node_old s s' Hwf c k lk new Hc Hk Hnodes Hobjs k n Hnk).
    unfold grown. by rewrite decide_True.
  - intros k' Hk' Hkc. destruct (node_at s k') as [m|] eqn:Hm.
    + rewrite (add_leaf_node_old s s' Hwf c k lk new Hc Hk Hnodes Hobjs k' m Hm).
      unfold grown. by rewrite decide_False.
    + destruct (node_at s' k') as [m'|] eqn:Hm'; [|done].
      apply (add_leaf_node_inv s s' Hwf c k lk n new Hc Hk Hn Hnodes Hobjs) in Hm'
        as [[-> _] | (_ & m0 & Hm0 & _)]; congruence.
Qed.

Lemma addChildNode_keeps_tree_witness :
  tree_ok (addChildNode scenario) = true
  ∧ Map_keys (nodes (addChildNode scenario))
    = Map_keys (nodes scenario) ++ [id_of (nodeCounter scenario + 1)].
Proof.
  destruct (addChildNode_keeps_tree scenario) as [_ H];
    [vm_compute; reflexivity | vm_compute; reflexivity |].
  destruct (H "node-4" (objects scenario !!! 3%nat)) as (H1 & H2 & _);
    [vm_compute; reflexivity | vm_compute; reflexivity |].
  split; [exact H1 | exact H2].
Defined.

Lemma addSiblingNode_fields s k lk p lp :
  selectedNode s = Some k → Map_get k (nodes s) = Some lk →
  Node.level (objects s !!! lk) ≠ 0 → Node.parent (objects s !!! lk) = Some p →
  Map_get p (nodes s) = Some lp →
  id_of (nodeCounter s + 1) ∉ Map_keys (nodes s) →
  let c := id_of (nodeCounter s + 1) in
  let cur := objects s !!! lk in
  let new := Node.mk c "ノード" (Node.level cur) (Some (Node.id (objects s !!! lp))) []
                     (Node.x cur) (Node.y cur) (Some "white") in
  let s' := addSiblingNode s in
  nodes s' = nodes s ++ [(c, length (objects s))]
  ∧ objects s' = store (λ m, Node.set_children (Node.children m ++ [c]) m) lp
                       (objects s ++ [new])
  ∧ selectedNode s' = Some c ∧ nodeCounter s' = nodeCounter s + 1
  ∧ history s' = push_bounded (history s) (snapshot s)
  ∧ elements s' = elements s ++ [c] ∧ viewport s' = viewport s
  ∧ editingNode s' = editingNode s.
Proof.
  intros Hsel Hk Hlev Hpar Hp Hc c cur new s'. unfold s', new, cur, c, addSiblingNode.
  rewrite Hsel. simpl. rewrite Hk.
  destruct (Z.eqb_spec (Node.level (objects s !!! lk)) 0) as [|_]; [done|].
  rewrite Hpar. simpl. rewrite Hp.
  simpl. rewrite Map_set_fresh by done. done.
Qed.

(** X12. Adding a sibling keeps the tree: in a state satisfying the tree
    invariant in which the next id is not in the map, add-sibling on a
    selected node other than the root appends one new node (text "ノード",
    colour white, of the level and at the place of the selected node) to
    the map and to the end of the children of the selected node's parent,
    selects it and takes one snapshot; no other node changes and the tree
    invariant holds afterwards.  On the root, or without a selected node of
    the map, nothing happens. *)
Theorem addSiblingNode_keeps_tree (s : MindMapApp) :
  tree_ok s = true → Map_get (id_of (nodeCounter s + 1)) (nodes s) = None →
  let c := id_of (nodeCounter s + 1) in
  let s' := addSiblingNode s in
  (Map_get_opt (selectedNode s) (nodes s) = None → s' = s)
  ∧ (∀ k n, selectedNode s = Some k → node_at s k = Some n → Node.level n = 0 → s' = s)
  ∧ (∀ k n, selectedNode s = Some k → node_at s k = Some n → Node.level n ≠ 0 →
       ∃ p np, Node.parent n = Some p ∧ node_at s p = Some np
         ∧ tree_ok s' = true
         ∧ Map_keys (nodes s') = Map_keys (nodes s) ++ [c]
         ∧ node_at s' c = Some (Node.mk c "ノード" (Node.level n) (Some p) []
                                        (Node.x n) (Node.y n) (Some "white"))
         ∧ node_at s' p = Some (Node.set_children (Node.children np ++ [c]) np)
         ∧ (∀ k', k' ≠ p → k' ≠ c → node_at s' k' = node_at s k')
         ∧ selectedNode s' = Some c ∧ nodeCounter s' = nodeCounter s + 1
         ∧ history s' = push_bounded (history s) (snapshot s)).
Proof.
  intros Hwf%tree_ok_wf Hc%Map_get_None c s'. split_and!.
  - unfold s', addSiblingNode. by intros ->.
  - intros k n Hsel (lk & Hk & Hn)%node_at_Some Hlev. unfold s', addSiblingNode.
    rewrite Hsel. simpl. rewrite Hk, (list_lookup_total_correct _ _ _ Hn), Hlev. done.
  - intros k n Hsel Hnk Hlev. pose proof Hnk as (lk & Hk & Hn)%node_at_Some.
    destruct (Node.parent n) as [p|] eqn:Hpar;
      [|by pose proof (wf_root s Hwf k n Hnk Hpar)].
    destruct (wf_parent s Hwf k n p Hnk Hpar) as (np & Hnp & Hin & Hl).
    pose proof Hnp as (lp & Hp & Hop)%node_at_Some.
    exists p, np. split; [done|]. split; [done|].
    destruct (addSiblingNode_fields s k lk p lp Hsel Hk) as (Hnodes & Hobjs & Hsel' & Hcnt & Hhist & _);
      [by rewrite (list_lookup_total_correct _ _ _ Hn)
      | by rewrite (list_lookup_total_correct _ _ _ Hn) | done | done |].
    fold s' c in Hnodes, Hobjs, Hsel', Hcnt, Hhist.
    rewrite (list_lookup_total_correct _ _ _ Hn), (list_lookup_total_correct _ _ _ Hop) in Hobjs.
    destruct (wf_object s Hwf p lp (Map_get_Some _ _ _ Hp)) as (n0 & Hn0 & Hid & _).
    rewrite Hop in Hn0. injection Hn0 as <-. rewrite Hid in Hobjs.
    set (new := Node.mk c "ノード" (Node.level n) (Some p) [] (Node.x n) (Node.y n)
                        (Some "white")) in *.
    assert (wf s') as Hwf'.
    { apply (add_leaf_wf s s' Hwf c p lp np new Hc (id_of_nonempty _) Hp Hop); [|done..].
      unfold skeleton, new. simpl. by rewrite Hl. }
    split_and!; try done.
    + by apply wf_tree_ok.
    + rewrite Hnodes. unfold Map_keys. by rewrite fmap_app.
    + by apply (add_leaf_node_new s s' c lp np new).
    + rewrite (add_leaf_node_old s s' Hwf c p lp new Hc Hp Hnodes Hobjs p np Hnp).
      unfold grown. by rewrite decide_True.
    + intros k' Hk' Hkc. destruct (node_at s k') as [m|] eqn:Hm.
      * rewrite (add_leaf_node_old s s' Hwf c p lp new Hc Hp Hnodes Hobjs k' m Hm).
        unfold grown. by rewrite decide_False.
      * destruct (node_at s' k') as [m'|] eqn:Hm'; [|done].
        apply (add_leaf_node_inv s s' Hwf c p lp np new Hc Hp Hop Hnodes Hobjs) in Hm'
          as [[-> _] | (_ & m0 & Hm0 & _)]; congruence.
Qed.

Lemma addSiblingNode_keeps_tree_witness :
  ∃ p np, Node.parent (objects scenario !!! 3%nat) = Some p ∧ node_at scenario p = Some np
          ∧ tree_ok (addSiblingNode scenario) = true.
Proof.
  destruct (addSiblingNode_keeps_tree scenario) as (_ & _ & H);
    [vm_compute; reflexivity | vm_compute; reflexivity |].
  destruct (H "node-4" (objects scenario !!! 3%nat)) as (p & np & H1 & H2 & H3 & _);
    [vm_compute; reflexivity | vm_compute; reflexivity | vm_compute; discriminate |].
  exists p, np. split_and!; [exact H1 | exact H2 | exact H3].
Defined.

(** *** Pruned trees *)

Lemma pruned_wf s t (D : gset string) :
  wf s → pruned s t D →
  (∀ k n, k ∈ D → node_at s k = Some n → Node.level n ≠ 0) → wf t.
Proof.
  intros Hwf Hpr Hroot.
  assert (∀ k n', node_at t k = Some n' →
            k ∉ D ∧ ∃ n, node_at s k = Some n
                         ∧ n' = Node.set_children (filter (λ c, c ∉ D) (Node.children n)) n)
    as Hinv.
  { intros k n' Hk. destruct (decide (k ∈ D)) as [HD | HD].
    - by rewrite (pruned_node_at_gone s t D k Hpr HD) in Hk.
    - split; [done|]. rewrite (pruned_node_at s t D k Hwf Hpr HD) in Hk.
      destruct (node_at s k) as [n|]; [|done]. exists n. split; [done|]. simpl in Hk. congruence. }
  assert (∀ k n, node_at s k = Some n → k ∉ D →
            node_at t k = Some (Node.set_children (filter (λ c, c ∉ D) (Node.children n)) n))
    as Hfw.
  { intros k n Hk HD. by rewrite (pruned_node_at s t D k Hwf Hpr HD), Hk. }
  assert (∀ k l, (k, l) ∈ nodes t → (k, l) ∈ nodes s ∧ k ∉ D) as Hin.
  { intros k l H. rewrite (pruned_nodes s t D Hpr) in H.
    by apply list_elem_of_filter in H as [? ?]. }
  split.
  - rewrite (pruned_keys s t D Hpr). apply NoDup_filter, Hwf.
  - rewrite (pruned_nodes s t D Hpr). unfold Map_values.
    eapply sublist_NoDup; [apply (wf_locs s Hwf)|].
    apply fmap_sublist, sublist_filter.
  - intros k l H. destruct (Hin k l H) as [Hs HD].
    destruct (wf_object s Hwf k l Hs) as (n & Ho & Hid & Hne & Hlev & Hnd).
    destruct (pruned_objects s t D Hpr k l H) as (n0 & Ho0 & Hot).
    rewrite Ho in Ho0. injection Ho0 as <-.
    eexists. split; [exact Hot|]. simpl. split_and!; try done. by apply NoDup_filter.
  - intros k n' c (HD & n & Hk & ->)%Hinv Hc. simpl in Hc.
    apply list_elem_of_filter in Hc as [HcD Hc].
    destruct (wf_children s Hwf k n c Hk Hc) as (nc & Hnc & Hp).
    eexists. split; [by apply Hfw | done].
  - intros k n' p (HD & n & Hk & ->)%Hinv Hp. simpl in Hp.
    destruct (wf_parent s Hwf k n p Hk Hp) as (np & Hnp & Hkin & Hl).
    assert (p ∉ D) as HpD.
    { intros HpD. apply HD. apply (pruned_closed s t D Hpr k p); [|done].
      apply (parent_of_Some s). eauto. }
    eexists. split; [by apply Hfw|]. simpl. split; [|done].
    by apply list_elem_of_filter.
  - intros k n' (HD & n & Hk & ->)%Hinv Hp. simpl in *. by eapply (wf_root s Hwf).
  - rewrite <- (wf_single_root s Hwf), (pruned_nodes s t D Hpr).
    rewrite (filter_ext_in (λ e, Node.level (objects t !!! e.2) = 0)
               (λ e, Node.level (objects s !!! e.2) = 0)).
    + rewrite list_filter_filter. f_equal. apply filter_ext_in. intros [k l] Hs. simpl.
      split; [by intros [? ?]|]. intros Hlev. split; [done|]. intros HD.
      destruct (wf_object s Hwf k l Hs) as (n & Ho & _).
      rewrite (list_lookup_total_correct _ _ _ Ho) in Hlev.
      apply (Hroot k n HD); [|done]. apply node_at_Some. exists l.
      split; [by apply (wf_get s Hwf) | done].
    + intros [k l] H. simpl.
      assert ((k, l) ∈ nodes t) as Ht by (by rewrite (pruned_nodes s t D Hpr)).
      destruct (pruned_objects s t D Hpr k l Ht) as (n & Ho & Hot).
      by rewrite (list_lookup_total_correct _ _ _ Ho), (list_lookup_total_correct _ _ _ Hot).
Qed.

Lemma deleteNode_skip s N :
  (node_at s N = None ∨ ∃ n, node_at s N = Some n ∧ Node.level n = 0) → wf s →
  deleteNode N s = Some s.
Proof.
  intros H Hwf. unfold deleteNode. simpl.
  destruct (Map_get N (nodes s)) as [l|] eqn:Hg; [|done].
  destruct (wf_object s Hwf N l (Map_get_Some _ _ _ Hg)) as (n & Ho & _).
  assert (node_at s N = Some n) as Hn by (apply node_at_Some; eauto).
  destruct H as [H | (n' & H & Hlev)]; [congruence|].
  assert (n' = n) as -> by congruence.
  by rewrite (list_lookup_total_correct _ _ _ Ho), Hlev.
Qed.

(** X13. Deleting keeps the tree: in a state satisfying the tree invariant
    [deleteNode] returns for every id, the tree invariant holds afterwards,
    the ids that remain are ids of before in their order, and the id
    counter is not touched.  For an id that is not in the map and for the
    root nothing changes at all (no snapshot is taken either). *)
Theorem deleteNode_keeps_tree (s : MindMapApp) (N : string) :
  tree_ok s = true →
  ∃ s', deleteNode N s = Some s'
        ∧ tree_ok s' = true
        ∧ sublist (Map_keys (nodes s')) (Map_keys (nodes s))
        ∧ nodeCounter s' = nodeCounter s
        ∧ (node_at s N = None → s' = s)
        ∧ (∀ n, node_at s N = Some n → Node.level n = 0 → s' = s).
Proof.
  intros Hok. pose proof (tree_ok_wf s Hok) as Hwf.
  destruct (node_at s N) as [n|] eqn:Hn.
  - destruct (decide (Node.level n = 0)) as [Hlev | Hlev].
    + exists s. rewrite deleteNode_skip by eauto. done.
    + destruct (deleteNode_top s N n Hwf Hn Hlev)
        as (s' & D & es & Hdel & Hpr & HD & _ & _ & Hcnt & _).
      exists s'. split_and!; [done | | | done | done | by intros ? [= <-] ?].
      * apply wf_tree_ok. apply (pruned_wf s s' D Hwf Hpr). intros k nk Hk Hnk.
        apply HD in Hk as [_ Hsub].
        destruct (in_subtree_level s Hwf N k n nk Hsub Hn Hnk) as [Hle _].
        pose proof (wf_level_nonneg s Hwf N n Hn). lia.
      * rewrite (pruned_keys s s' D Hpr). apply sublist_filter.
  - exists s. rewrite deleteNode_skip by eauto. done.
Qed.

Lemma deleteNode_keeps_tree_witness :
  ∃ s', deleteNode "node-2" scenario = Some s' ∧ tree_ok s' = true.
Proof.
  destruct (deleteNode_keeps_tree scenario "node-2") as (s' & H1 & H2 & _);
    [vm_compute; reflexivity |].
  exists s'. split; [exact H1 | exact H2].
Defined.

(** *** The layout *)

Lemma same_shape_content s s' :
  nodes s' = nodes s → same_shape (objects s) (objects s') → content s' = content s.
Proof.
  intros Hn Hs. unfold content. rewrite Hn. apply map_ext. intros [k l]. simpl. f_equal.
  pose proof (f_equal (.!! l) Hs) as E. simpl in E. by rewrite !list_lookup_fmap in E.
Qed.

(** X14. The layout only moves nodes: in a state satisfying the tree
    invariant [updateLayout] returns; it leaves the map, every field of
    every node other than the coordinates, the selection, the node being
    edited, the counter, the history, the viewport and the elements as they
    are, and the tree invariant holds afterwards. *)
Theorem updateLayout_only_moves (s : MindMapApp) (firstRect : Q * Q) :
  tree_ok s = true →
  ∃ s', updateLayout firstRect s = Some s'
        ∧ tree_ok s' = true
        ∧ nodes s' = nodes s ∧ content s' = content s
        ∧ same_shape (objects s) (objects s')
        ∧ selectedNode s' = selectedNode s ∧ editingNode s' = editingNode s
        ∧ nodeCounter s' = nodeCounter s ∧ history s' = history s
        ∧ viewport s' = viewport s ∧ elements s' = elements s.
Proof.
  intros Hwf%tree_ok_wf.
  destruct (updateLayout_x firstRect s Hwf) as (s' & R & nR & Hupd & Hn & Hs & _).
  exists s'. destruct (updateLayout_inv firstRect s s' Hupd) as [h ->].
  split_and!; try done.
  - apply wf_tree_ok. eapply wf_ext; [exact Hn | | exact Hwf]. by apply same_shape_skeleton.
  - by apply same_shape_content.
Qed.

Lemma updateLayout_only_moves_witness :
  ∃ s', updateLayout sample_rect unplaced = Some s' ∧ content s' = content unplaced.
Proof.
  destruct (updateLayout_only_moves unplaced sample_rect) as (s' & H1 & _ & _ & H2 & _);
    [vm_compute; reflexivity |].
  exists s'. split; [exact H1 | exact H2].
Defined.

(** *** Sessions without undo *)

Lemma wf_same_objects s s' : nodes s' = nodes s → objects s' = objects s → wf s → wf s'.
Proof. intros Hn Ho. apply wf_ext; [done | by rewrite Ho]. Qed.

Lemma addChildNode_wf s :
  wf s → id_of (nodeCounter s + 1) ∉ Map_keys (nodes s) → wf (addChildNode s).
Proof.
  intros Hwf Hc. destruct (Map_get_opt (selectedNode s) (nodes s)) as [lk|] eqn:Hg;
    [|by rewrite addChildNode_none].
  destruct (selectedNode s) as [k|] eqn:Hsel; [|done]. simpl in Hg.
  destruct (wf_object s Hwf k lk (Map_get_Some _ _ _ Hg)) as (n & Hn & Hid & _).
  destruct (addChildNode_fields s k lk Hsel Hg Hc) as (Hnodes & Hobjs & _).
  rewrite (list_lookup_total_correct _ _ _ Hn) in Hobjs.
  eapply (add_leaf_wf s _ Hwf _ k lk n _ Hc (id_of_nonempty _) Hg Hn); [|exact Hnodes|exact Hobjs].
  unfold skeleton. simpl. by rewrite Hid.
Qed.

Lemma addSiblingNode_wf s :
  wf s → id_of (nodeCounter s + 1) ∉ Map_keys (nodes s) → wf (addSiblingNode s).
Proof.
  intros Hwf Hc. destruct (Map_get_opt (selectedNode s) (nodes s)) as [lk|] eqn:Hg;
    [|by unfold addSiblingNode; rewrite Hg].
  destruct (selectedNode s) as [k|] eqn:Hsel; [|done]. simpl in Hg.
  destruct (wf_object s Hwf k lk (Map_get_Some _ _ _ Hg)) as (n & Hn & Hid & _).
  assert (node_at s k = Some n) as Hnk by (apply node_at_Some; eauto).
  destruct (decide (Node.level n = 0)) as [Hlev | Hlev].
  { unfold addSiblingNode. rewrite Hsel. simpl.
    by rewrite Hg, (list_lookup_total_correct _ _ _ Hn), Hlev. }
  destruct (Node.parent n) as [p|] eqn:Hpar; [|by pose proof (wf_root s Hwf k n Hnk Hpar)].
  destruct (wf_parent s Hwf k n p Hnk Hpar) as (np & (lp & Hp & Hop)%node_at_Some & Hin & Hl).
  destruct (wf_object s Hwf p lp (Map_get_Some _ _ _ Hp)) as (n0 & Hn0 & Hidp & _).
  rewrite Hop in Hn0. injection Hn0 as <-.
  destruct (addSiblingNode_fields s k lk p lp Hsel Hg) as (Hnodes & Hobjs & _);
    [by rewrite (list_lookup_total_correct _ _ _ Hn)
    | by rewrite (list_lookup_total_correct _ _ _ Hn) | done | done |].
  rewrite (list_lookup_total_correct _ _ _ Hn), (list_lookup_total_correct _ _ _ Hop) in Hobjs.
  eapply (add_leaf_wf s _ Hwf _ p lp np _ Hc (id_of_nonempty _) Hp Hop);
    [|exact Hnodes|exact Hobjs].
  unfold skeleton. simpl. by rewrite Hidp, Hl.
Qed.

Lemma deleteNode_wf s N : wf s → ∃ s', deleteNode N s = Some s' ∧ wf s'.
Proof.
  intros Hwf. destruct (node_at s N) as [n|] eqn:Hn.
  - destruct (decide (Node.level n = 0)) as [Hlev | Hlev].
    + exists s. rewrite deleteNode_skip by eauto. done.
    + destruct (deleteNode_top s N n Hwf Hn Hlev) as (s' & D & es & Hdel & Hpr & HD & _).
      exists s'. split; [done|]. apply (pruned_wf s s' D Hwf Hpr). intros k nk Hk Hnk.
      apply HD in Hk as [_ Hsub].
      destruct (in_subtree_level s Hwf N k n nk Hsub Hn Hnk) as [Hle _].
      pose proof (wf_level_nonneg s Hwf N n Hn). lia.
  - exists s. rewrite deleteNode_skip by eauto. done.
Qed.

Lemma changeNodeColor_wf nodeId color s : wf s → wf (changeNodeColor nodeId color s).
Proof.
  intros Hwf. unfold changeNodeColor. destruct nodeId as [k|]; [|done].
  destruct (negb (truthy (Some k))); [done|]. simpl.
  destruct (Map_get k (nodes s)) as [l|]; [|by apply (wf_same_objects s)].
  destruct (getNodeElement k (saveToHistory s)); [|by apply (wf_same_objects s)].
  eapply wf_ext; [| |exact Hwf]; [done|]. simpl. by apply skeleton_store.
Qed.

Lemma stopEditing_wf value s : wf s → wf (stopEditing value s).
Proof.
  intros Hwf.
  destruct (stopEditing_state value s) as [-> | [-> | (k & l & _ & _ & _ & _ & ->)]];
    [done | by apply (wf_same_objects s) |].
  eapply wf_ext; [| |exact Hwf]; [done|]. simpl. by apply skeleton_store.
Qed.

Lemma startEditing_wf nodeId pending s : wf s → wf (startEditing nodeId pending s).
Proof.
  intros Hwf. pose proof (stopEditing_wf pending s Hwf) as Hwf'.
  destruct (startEditing_state nodeId pending s)
    as (t & Ht & [-> | [-> | (l & _ & _ & ->)]]);
    destruct Ht as [-> | ->]; try done;
    (by apply (wf_same_objects s)) || (by apply (wf_same_objects (stopEditing pending s))).
Qed.

Lemma dragNode_wf l sx sy dx dy s : wf s → wf (dragNode l sx sy dx dy s).
Proof.
  intros Hwf. eapply wf_ext; [| |exact Hwf]; [done|]. unfold dragNode. simpl.
  by rewrite !skeleton_store.
Qed.

Lemma updateLayout_wf firstRect s : wf s → ∃ s', updateLayout firstRect s = Some s' ∧ wf s'.
Proof.
  intros Hwf. destruct (updateLayout_x firstRect s Hwf) as (s' & R & nR & Hupd & Hn & Hs & _).
  exists s'. split; [done|]. eapply wf_ext; [exact Hn | | exact Hwf].
  by apply same_shape_skeleton.
Qed.

Lemma step_wf c s :
  wf s → counter_inv s → (∀ r, c ≠ Undo r) → ∃ s', step c s = Some s' ∧ wf s'.
Proof.
  intros Hwf [Hids _] Hc. pose proof (ids_below_fresh s Hids) as Hfresh. simpl in Hfresh.
  destruct c; simpl; try (eexists; split; [reflexivity|]).
  - by apply addChildNode_wf.
  - by apply addSiblingNode_wf.
  - by apply deleteNode_wf.
  - by apply (wf_same_objects s).
  - by apply changeNodeColor_wf.
  - by apply startEditing_wf.
  - by apply stopEditing_wf.
  - by apply dragNode_wf.
  - by apply (wf_same_objects s).
  - by apply (wf_same_objects s).
  - by apply updateLayout_wf.
  - by destruct (Hc firstRect).
Qed.


(** ** Key presses and sessions *)

Lemma handleKeyDown_undo e r p s :
  is_undo (KeyDown e r p) = true → handleKeyDown e r p s = step (Undo r) s.
Proof. simpl. unfold handleKeyDown. by intros ->. Qed.

Lemma handleKeyDown_command e r p s :
  is_undo (KeyDown e r p) = false →
  handleKeyDown e r p s = Some s
  ∨ ∃ c, (∀ r', c ≠ Undo r') ∧ handleKeyDown e r p s = step c s.
Proof.
  simpl. unfold handleKeyDown. intros ->.
  destruct (negb (truthy (selectedNode s)) || truthy (editingNode s)); [by left|].
  destruct (selectedNode s) as [k|]; [|by left].
  destruct (String.eqb (key e) "Enter"); [right; by exists AddSibling|].
  destruct (String.eqb (key e) "Tab"); [right; by exists AddChild|].
  destruct (String.eqb (key e) "F2"); [right; by exists (StartEditing k p)|].
  destruct (String.eqb (key e) "Delete" || String.eqb (key e) "Backspace");
    [right; by exists (Delete k) | by left].
Qed.

(** The listener of the textarea does nothing or ends the edit. *)
Lemma inputKeyDown_state nodeId nodeData e p s :
  state_of (inputKeyDown nodeId nodeData e p s) = s
  ∨ ∃ v, state_of (inputKeyDown nodeId nodeData e p s) = state_of (stopEditing v s).
Proof.
  unfold inputKeyDown. destruct (String.eqb_spec (key e) "Enter") as [-> | _]; simpl.
  - destruct (negb (shiftKey e)); simpl; [|by left].
    destruct (stopEditing p s) as [s1|s1] eqn:E; simpl.
    + right. exists p. by rewrite E.
    + right. exists p. by rewrite E.
  - destruct (String.eqb (key e) "Escape"); [|by left]. right. by eexists.
Qed.

(** A key press is the key press of the document, after the end of the
    edit when the textarea has the focus and takes the key for it. *)
Lemma keydown_steps e r p s :
  ∃ s0, (s0 = s ∨ ∃ v, step (StopEditing v) s = Some s0)
        ∧ keydown e r p s = (handleKeyDown e r p s0 ≫= λ s1, Some (keydownPan e s1)).
Proof.
  unfold keydown. destruct (target e) as [nodeId|]; [|exists s; split; [by left | done]].
  destruct (nodeInput nodeId s) as [nodeData|]; [|exists s; split; [by left | done]].
  eexists. split; [|reflexivity].
  destruct (inputKeyDown_state nodeId nodeData e p s) as [-> | [v ->]]; [by left|].
  right. by exists v.
Qed.

Lemma with_viewport_same s : with_viewport (viewport s) s = s.
Proof. by destruct s. Qed.

Lemma keydownPan_viewport e s : ∃ v, keydownPan e s = with_viewport v s.
Proof.
  unfold keydownPan. destruct (truthy (editingNode s));
    [exists (viewport s); by rewrite with_viewport_same|].
  destruct (keyPan (key e) (viewport s)) as [v|];
    [by exists v | exists (viewport s); by rewrite with_viewport_same].
Qed.

Lemma handle_wf ev s :
  wf s → counter_inv s → is_undo ev = false →
  ∃ s', handle ev s = Some s' ∧ wf s' ∧ counter_inv s'.
Proof.
  intros Hwf Hinv Hev. destruct ev as [c | e r p].
  - destruct (step_wf c s Hwf Hinv) as (s' & Hs' & Hwf').
    { intros r' ->. done. }
    exists s'. split_and!; [done | done | by eapply step_counter_inv].
  - simpl. destruct (keydown_steps e r p s) as (s0 & Hs0 & ->).
    assert (wf s0 ∧ counter_inv s0) as [Hwf0 Hinv0].
    { destruct Hs0 as [-> | [v Hv]]; [done|].
      destruct (step_wf (StopEditing v) s Hwf Hinv) as (s1 & Hs1 & Hwf1); [done|].
      rewrite Hv in Hs1. injection Hs1 as <-. split; [done | by eapply step_counter_inv]. }
    assert (∃ s1, handleKeyDown e r p s0 = Some s1 ∧ wf s1 ∧ counter_inv s1)
      as (s1 & -> & Hwf1 & Hinv1).
    { destruct (handleKeyDown_command e r p s0 Hev) as [-> | (c & Hc & ->)]; [by exists s0|].
      destruct (step_wf c s0 Hwf0 Hinv0 Hc) as (s1 & Hs1 & Hwf1).
      exists s1. split_and!; [done | done | by eapply step_counter_inv]. }
    simpl. eexists. split; [reflexivity|].
    destruct (keydownPan_viewport e s1) as [v ->].
    split; [by apply (wf_same_objects s1) | by apply (counter_inv_ext s1)].
Qed.

Lemma session_wf evs s :
  wf s → counter_inv s → forallb (λ ev, negb (is_undo ev)) evs = true →
  ∃ s', session evs s = Some s' ∧ wf s' ∧ counter_inv s'.
Proof.
  revert s. induction evs as [|ev evs IH]; intros s Hwf Hinv Hall; [by exists s|].
  simpl in Hall. apply andb_true_iff in Hall as [Hev%negb_true_iff Hall].
  destruct (handle_wf ev s Hwf Hinv Hev) as (s1 & Hs1 & Hwf1 & Hinv1).
  destruct (IH s1 Hwf1 Hinv1 Hall) as (s' & Hs' & ?).
  exists s'. split; [|done]. unfold session in *. simpl. by rewrite Hs1.
Qed.

(** X15. Sessions without undo keep the tree: every sequence of commands
    and key presses that contains no undo, issued from a fresh start,
    returns (every deletion and every layout in it returns), and leaves a
    state that satisfies the tree invariant and whose next id is not in the
    map. *)
Theorem sessions_without_undo_keep_tree (evs : list event) :
  forallb (λ ev, negb (is_undo ev)) evs = true →
  ∃ s', session evs fresh = Some s'
        ∧ tree_ok s' = true
        ∧ Map_get (id_of (nodeCounter s' + 1)) (nodes s') = None.
Proof.
  intros Hall.
  destruct (session_wf evs fresh) as (s' & Hs' & Hwf' & [Hids _]);
    [apply tree_ok_wf; vm_compute; reflexivity | apply fresh_counter_inv | done |].
  exists s'. split_and!; [done | by apply wf_tree_ok |].
  apply Map_get_None. by apply (ids_below_fresh s').
Qed.

Lemma sessions_without_undo_keep_tree_witness :
  ∃ s', session [KeyDown {| metaKey := false; ctrlKey := false; shiftKey := false; key := "Tab";
                           target := None |} sample_rect "";
                 Command (Layout sample_rect);
                 KeyDown {| metaKey := false; ctrlKey := false; shiftKey := false; key := "Enter";
                           target := None |} sample_rect "";
                 KeyDown {| metaKey := false; ctrlKey := false; shiftKey := false; key := "Delete";
                           target := None |} sample_rect ""]
                fresh = Some s'
        ∧ tree_ok s' = true.
Proof.
  destruct (sessions_without_undo_keep_tree
              [KeyDown {| metaKey := false; ctrlKey := false; shiftKey := false; key := "Tab";
                           target := None |} sample_rect "";
               Command (Layout sample_rect);
               KeyDown {| metaKey := false; ctrlKey := false; shiftKey := false; key := "Enter";
                           target := None |} sample_rect "";
               KeyDown {| metaKey := false; ctrlKey := false; shiftKey := false; key := "Delete";
                           target := None |} sample_rect ""])
    as (s' & H1 & H2 & _); [reflexivity |].
  exists s'. split; [exact H1 | exact H2].
Defined.



(** ** What no command changes: ids, levels, parents, the root *)

Lemma grows_refl h : grows h h.
Proof. intros l n H. by exists n. Qed.

Lemma grows_trans h1 h2 h3 : grows h1 h2 → grows h2 h3 → grows h1 h3.
Proof.
  intros H12 H23 l n H. destruct (H12 l n H) as (n2 & Hn2 & ? & ? & ?).
  destruct (H23 l n2 Hn2) as (n3 & Hn3 & ? & ? & ?). exists n3. split_and!; congruence.
Qed.

Lemma grows_store f l (h : list Node.t) :
  (∀ n, Node.id (f n) = Node.id n ∧ Node.level (f n) = Node.level n
        ∧ Node.parent (f n) = Node.parent n) →
  grows h (store f l h).
Proof.
  intros Hf l' n H. unfold store. destruct (decide (l' = l)) as [-> | Hne].
  - exists (f n). rewrite list_lookup_alter_eq, H. split; [done | apply Hf].
  - exists n. by rewrite list_lookup_alter_ne.
Qed.

Lemma grows_app h n : grows h (h ++ [n]).
Proof. intros l m H. exists m. by rewrite lookup_app_l by (by eapply lookup_lt_Some). Qed.

Lemma grows_same_shape h h' : same_shape h h' → grows h h'.
Proof.
  intros Hs l n H. destruct (same_shape_lookup h h' l n Hs H) as (n' & H' & E).
  exists n'. split; [done|]. unfold Node.shape in E. by injection E.
Qed.

(** The layout on arbitrary node objects. *)
Lemma forEach_from_same_shape {A} (f : A → nat → list Node.t → list Node.t) l :
  (∀ a i h, same_shape h (f a i h)) → ∀ i h, same_shape h (forEach_from f l i h).
Proof.
  intros Hf. induction l as [|a l IH]; intros i h; simpl; [apply same_shape_refl|].
  eapply same_shape_trans; [apply Hf | apply IH].
Qed.

Lemma store_xy_same_shape vx vy c h :
  same_shape h (store (Node.set_y vy) c (store (Node.set_x vx) c h)).
Proof.
  eapply same_shape_trans; apply same_shape_store; done.
Qed.

Lemma layoutRootChildren_same_shape cl h : same_shape h (layoutRootChildren cl h).
Proof.
  unfold layoutRootChildren.
  destruct (forEachI _ cl ([], [])) as [rightNodes leftNodes]. unfold forEachI.
  eapply same_shape_trans;
    [|apply forEach_from_same_shape; intros; apply store_xy_same_shape].
  apply forEach_from_same_shape; intros; apply store_xy_same_shape.
Qed.

Lemma layoutBranchChildrenNoIntersection_same_shape nodes P cl h :
  same_shape h (layoutBranchChildrenNoIntersection nodes P cl h).
Proof.
  unfold layoutBranchChildrenNoIntersection.
  eapply same_shape_trans; [|apply avoidIntersections_writes]. unfold forEachI.
  apply forEach_from_same_shape. intros. apply store_xy_same_shape.
Qed.

Lemma layoutChildrenMindMeisterStyle_same_shape nodes fuel :
  ∀ P h h', layoutChildrenMindMeisterStyle nodes fuel P h = Some h' → same_shape h h'.
Proof.
  induction fuel as [|fuel IH]; intros P h h' H; [done|]. simpl in H.
  destruct (length (lookup_all (Node.children (h !!! P)) nodes) =? 0)%nat.
  { injection H as <-. apply same_shape_refl. }
  set (h1 := if Node.level (h !!! P) =? 0 then _ else _) in H.
  assert (same_shape h h1) as H1.
  { unfold h1. destruct (Node.level (h !!! P) =? 0);
      [apply layoutRootChildren_same_shape | apply layoutBranchChildrenNoIntersection_same_shape]. }
  eapply same_shape_trans; [exact H1|].
  eapply (forEachM_inv (λ h2, same_shape h1 h2)); [|exact H|apply same_shape_refl].
  intros a h2 h3 _ Ha H2. eapply same_shape_trans; [exact H2 | by eapply IH].
Qed.

Lemma layout_same_shape nodes firstNode h h' :
  layout nodes firstNode h = Some h' → same_shape h h'.
Proof.
  unfold layout, directional_placement. destruct (find_root nodes h) as [r|];
    [|intros [= <-]; apply same_shape_refl].
  destruct (layoutChildrenMindMeisterStyle _ _ _ _) as [h1|] eqn:E; [|done]. simpl.
  intros [= <-]. apply layoutChildrenMindMeisterStyle_same_shape in E.
  eapply same_shape_trans; [|eapply same_shape_trans; [exact E|]].
  - eapply same_shape_trans; apply same_shape_store; done.
  - apply vertical_same_shape, performComprehensiveOverlapResolution_vertical.
Qed.

Lemma updateLayout_same_shape firstRect s s' :
  updateLayout firstRect s = Some s' → same_shape (objects s) (objects s').
Proof.
  unfold updateLayout. destruct (layout _ _ _) as [h|] eqn:E; [|done]. simpl.
  intros [= <-]. simpl. by eapply layout_same_shape.
Qed.

(** *** Node objects along the commands *)

Lemma addChildNode_grows s : grows (objects s) (objects (addChildNode s)).
Proof.
  unfold addChildNode. destruct (Map_get_opt _ _) as [parentNode|]; [|apply grows_refl].
  simpl. eapply grows_trans; [apply grows_app | by apply grows_store].
Qed.

Lemma addSiblingNode_grows s : grows (objects s) (objects (addSiblingNode s)).
Proof.
  unfold addSiblingNode. destruct (Map_get_opt _ _) as [currentNode|]; [|apply grows_refl].
  destruct (Node.level _ =? 0); [apply grows_refl|].
  destruct (Map_get_opt _ _) as [parentNode|]; [|apply grows_refl].
  simpl. eapply grows_trans; [apply grows_app | by apply grows_store].
Qed.

Lemma deleteNode_rec_grows fuel :
  ∀ N s s', deleteNode_rec fuel N s = Some s' → grows (objects s) (objects s').
Proof.
  induction fuel as [|fuel IH]; intros N s s' H; [done|]. simpl in H.
  destruct (Map_get N (nodes s)) as [l|]; [|injection H as <-; apply grows_refl].
  destruct (Node.level (objects s !!! l) =? 0); [injection H as <-; apply grows_refl|].
  destruct (forEachM _ _ _) as [s2|] eqn:E; [|done]. simpl in H. injection H as <-.
  assert (grows (objects s) (objects s2)) as H2.
  { eapply (forEachM_inv (λ t, grows (objects s) (objects t))); [|exact E|apply grows_refl].
    intros a t t' _ Ha Ht. eapply grows_trans; [exact Ht | by eapply IH]. }
  eapply grows_trans; [exact H2|].
  set (s3 := if truthy _ then _ else s2).
  assert (grows (objects s2) (objects s3)) as H3.
  { unfold s3. destruct (truthy _); [|apply grows_refl].
    destruct (Map_get_opt _ _); [|apply grows_refl]. simpl. by apply grows_store. }
  eapply grows_trans; [exact H3|]. simpl.
  destruct (bool_decide _); apply grows_refl.
Qed.

Lemma changeNodeColor_grows nodeId color s :
  grows (objects s) (objects (changeNodeColor nodeId color s)).
Proof.
  unfold changeNodeColor. destruct nodeId as [k|]; [|apply grows_refl].
  destruct (negb _); [apply grows_refl|]. simpl.
  destruct (Map_get k (nodes s)); [|apply grows_refl].
  destruct (getNodeElement _ _); [|apply grows_refl]. simpl. by apply grows_store.
Qed.

Lemma stopEditing_grows value s : grows (objects s) (objects (stopEditing value s)).
Proof.
  destruct (stopEditing_state value s) as [-> | [-> | (k & l & _ & _ & _ & _ & ->)]];
    [apply grows_refl.. |]. simpl. by apply grows_store.
Qed.

Lemma startEditing_grows nodeId pending s :
  grows (objects s) (objects (startEditing nodeId pending s)).
Proof.
  pose proof (stopEditing_grows pending s) as H.
  destruct (startEditing_state nodeId pending s)
    as (t & [-> | ->] & [-> | [-> | (l & _ & _ & ->)]]); done || apply grows_refl.
Qed.

Lemma dragNode_grows l sx sy dx dy s : grows (objects s) (objects (dragNode l sx sy dx dy s)).
Proof. unfold dragNode. simpl. eapply grows_trans; by apply grows_store. Qed.

Lemma undo_grows firstRect s s' : undo firstRect s = Some s' → grows (objects s) (objects s').
Proof.
  unfold undo. destruct (last (history s)) as [e|]; [|intros [= <-]; apply grows_refl].
  intros H%updateLayout_same_shape%grows_same_shape.
  by destruct (restore_fields e s) as (<- & _).
Qed.

Lemma step_grows c s s' : step c s = Some s' → grows (objects s) (objects s').
Proof.
  destruct c; simpl; intros H; try (injection H as <-).
  - apply addChildNode_grows.
  - apply addSiblingNode_grows.
  - by eapply deleteNode_rec_grows.
  - apply grows_refl.
  - apply changeNodeColor_grows.
  - apply startEditing_grows.
  - apply stopEditing_grows.
  - apply dragNode_grows.
  - apply grows_refl.
  - apply grows_refl.
  - by apply grows_same_shape, (updateLayout_same_shape firstRect).
  - by eapply undo_grows.
Qed.

Lemma handleKeyDown_step e r p s :
  handleKeyDown e r p s = Some s ∨ ∃ c, handleKeyDown e r p s = step c s.
Proof.
  destruct (is_undo (KeyDown e r p)) eqn:E.
  - right. exists (Undo r). by apply handleKeyDown_undo.
  - destruct (handleKeyDown_command e r p s E) as [? | (c & _ & ?)]; eauto.
Qed.

(** Every event is a run of commands, followed by the pan listener when
    the event is a key press. *)
Lemma handle_run ev s s' :
  handle ev s = Some s' →
  ∃ cs s1, run cs s = Some s1 ∧ (s' = s1 ∨ ∃ e, s' = keydownPan e s1).
Proof.
  destruct ev as [c | e r p]; simpl.
  - intros H. exists [c], s'. unfold run. simpl. rewrite H. split; [done | by left].
  - destruct (keydown_steps e r p s) as (s0 & Hs0 & ->).
    destruct (handleKeyDown e r p s0) as [s1|] eqn:E; [|done]. simpl. intros [= <-].
    assert (∃ cs0, run cs0 s = Some s0) as [cs0 H0].
    { destruct Hs0 as [-> | [v0 Hv0]]; [by exists [] |].
      exists [StopEditing v0]. unfold run. simpl in *. by rewrite Hv0. }
    assert (∃ cs1, run cs1 s0 = Some s1) as [cs1 H1].
    { destruct (handleKeyDown_step e r p s0) as [H | [c H]]; rewrite H in E.
      - injection E as <-. by exists [].
      - exists [c]. unfold run. simpl. by rewrite E. }
    exists (cs0 ++ cs1), s1. split; [|right; by exists e].
    unfold run in *. clear -H0 H1. revert s H0.
    induction cs0 as [|c cs0 IH]; intros s H0; simpl in *; [by injection H0 as ->|].
    destruct (step c s) as [t|]; [by apply IH | done].
Qed.

Lemma run_grows cs s s' : run cs s = Some s' → grows (objects s) (objects s').
Proof.
  intros H. eapply (forEachM_inv (λ t, grows (objects s) (objects t))); [|exact H|apply grows_refl].
  intros c t t' _ Hc Ht. eapply grows_trans; [exact Ht | by eapply step_grows].
Qed.

Lemma handle_grows ev s s' : handle ev s = Some s' → grows (objects s) (objects s').
Proof.
  intros (cs & s1 & H & [-> | [e ->]])%handle_run; [by eapply run_grows|].
  destruct (keydownPan_viewport e s1) as [v ->]. simpl. by eapply run_grows.
Qed.

(** X17. Ids, levels and parents are final: whatever the state and
    whatever the commands and key presses, undo included, every node object
    that exists before a session exists after it with the id, the level and
    the parent it had.  No command moves a node to another parent. *)
Theorem node_identity_is_final (evs : list event) (s s' : MindMapApp) :
  session evs s = Some s' → grows (objects s) (objects s').
Proof.
  unfold session. revert s. induction evs as [|ev evs IH]; intros s H; simpl in H.
  - injection H as <-. apply grows_refl.
  - destruct (handle ev s) as [s1|] eqn:E; [|done].
    eapply grows_trans; [by eapply handle_grows | by apply IH].
Qed.

Lemma node_identity_is_final_witness :
  grows (objects scenario)
        (objects (default scenario
                    (session [Command (Delete "node-2"); Command (Undo sample_rect)] scenario))).
Proof.
  apply (node_identity_is_final [Command (Delete "node-2"); Command (Undo sample_rect)]).
  vm_compute. reflexivity.
Defined.


(** ** What holds in every state of a session, undo included *)

Lemma heap_ok_level_nonneg h l : heap_ok h → 0 ≤ Node.level (h !!! l).
Proof.
  intros ((n0 & H0 & _ & Hl0 & _) & Hlev & _).
  destruct (h !! l) as [n|] eqn:E.
  - rewrite (list_lookup_total_correct _ _ _ E). destruct (decide (l = 0%nat)) as [-> | Hne].
    + assert (n = n0) as -> by congruence. lia.
    + pose proof (Hlev l n E Hne). lia.
  - rewrite list_lookup_total_alt, E. done.
Qed.

Lemma heap_ok_store f l h :
  (∀ n, Node.id (f n) = Node.id n ∧ Node.level (f n) = Node.level n
        ∧ Node.parent (f n) = Node.parent n ∧ (Node.text n ≠ "" → Node.text (f n) ≠ "")) →
  heap_ok h → heap_ok (store f l h).
Proof.
  intros Hf ((n0 & H0 & Hid & Hl0 & Hp0) & Hlev & Htxt).
  assert (∀ l' n', store f l h !! l' = Some n' →
            ∃ n, h !! l' = Some n ∧ Node.id n' = Node.id n ∧ Node.level n' = Node.level n
                 ∧ Node.parent n' = Node.parent n ∧ (Node.text n ≠ "" → Node.text n' ≠ ""))
    as Hinv.
  { intros l' n' H. unfold store in H. destruct (decide (l' = l)) as [-> | Hne].
    - rewrite list_lookup_alter_eq in H. destruct (h !! l) as [n|]; [|done].
      injection H as <-. exists n. split; [done | apply Hf].
    - rewrite list_lookup_alter_ne in H by done. by exists n'. }
  split_and!.
  - destruct (grows_store f l h (λ n, let '(conj a (conj b (conj c _))) := Hf n in
                                      conj a (conj b c)) 0%nat n0 H0)
      as (n' & H' & ? & ? & ?).
    exists n'. split_and!; congruence.
  - intros l' n' (n & Hn & _ & Hl & _)%Hinv Hne. rewrite Hl. by eapply Hlev.
  - intros l' n' (n & Hn & _ & _ & _ & Ht)%Hinv. apply Ht. by eapply Htxt.
Qed.

Lemma heap_ok_app h n : heap_ok h → 1 ≤ Node.level n → Node.text n ≠ "" → heap_ok (h ++ [n]).
Proof.
  intros ((n0 & H0 & Hid & Hl0 & Hp0) & Hlev & Htxt) Hl Ht.
  assert (∀ l m, (h ++ [n]) !! l = Some m → h !! l = Some m ∨ (l ≠ 0%nat ∧ m = n)) as Hinv.
  { intros l m H. apply lookup_app_Some in H as [H | [Hge H]]; [by left|]. right.
    apply list_lookup_singleton_Some in H as [_ ->]. split; [|done].
    apply lookup_lt_Some in H0. lia. }
  split_and!.
  - exists n0. by rewrite lookup_app_l by (by eapply lookup_lt_Some).
  - intros l m [Hm | [_ ->]]%Hinv Hne; [by eapply Hlev | done].
  - intros l m [Hm | [_ ->]]%Hinv; [by eapply Htxt | done].
Qed.

Lemma same_shape_sym h h' : same_shape h h' → same_shape h' h.
Proof. unfold same_shape. congruence. Qed.

Lemma heap_ok_same_shape h h' : same_shape h h' → heap_ok h → heap_ok h'.
Proof.
  intros Hs ((n0 & H0 & Hid & Hl0 & Hp0) & Hlev & Htxt).
  assert (∀ l n', h' !! l = Some n' → ∃ n, h !! l = Some n ∧ Node.shape n = Node.shape n')
    as Hinv by (intros l n'; apply same_shape_lookup; by apply same_shape_sym).
  split_and!.
  - destruct (same_shape_lookup h h' 0%nat n0 Hs H0) as (n' & H' & E).
    exists n'. unfold Node.shape in E. split; [done|]. injection E as ? ? ? ? ? ?.
    split_and!; congruence.
  - intros l n' (n & Hn & E)%Hinv Hne. unfold Node.shape in E. injection E as ? ? ? ? ? ?.
    pose proof (Hlev l n Hn Hne). congruence.
  - intros l n' (n & Hn & E)%Hinv. unfold Node.shape in E. injection E as ? ? ? ? ? ?.
    pose proof (Htxt l n Hn). congruence.
Qed.

Lemma map_ok_grows m h h' : grows h h' → map_ok m h → map_ok m h'.
Proof.
  intros Hg [Hroot Hent]. split; [done|]. intros k l Hin.
  destruct (Hent k l Hin) as (n & Hn & Hid). destruct (Hg l n Hn) as (n' & Hn' & Hid' & _).
  exists n'. split; [done | congruence].
Qed.

Lemma Map_get_set_ne k k' v (m : list (string * nat)) :
  k ≠ k' → Map_get k (Map_set k' v m) = Map_get k m.
Proof.
  intros Hne. induction m as [|[k0 v0] m IH]; simpl.
  - by rewrite decide_False.
  - destruct (decide (k0 = k')) as [-> | Hne0]; simpl.
    + by rewrite !decide_False.
    + destruct (decide (k0 = k)); [done | apply IH].
Qed.

Lemma Map_set_elem k l k' v (m : list (string * nat)) :
  (k, l) ∈ Map_set k' v m → (k = k' ∧ l = v) ∨ (k, l) ∈ m.
Proof.
  induction m as [|[k0 v0] m IH]; simpl.
  - intros [= -> ->]%list_elem_of_singleton. by left.
  - destruct (decide (k0 = k')) as [-> | Hne0].
    + intros [[= -> ->] | H]%elem_of_cons; [by left | right; by right].
    + intros [[= -> ->] | H]%elem_of_cons; [right; by left|].
      destruct (IH H) as [? | ?]; [by left | right; by right].
Qed.

Lemma Map_get_delete_ne k k' (m : list (string * nat)) :
  k ≠ k' → Map_get k (Map_delete k' m) = Map_get k m.
Proof.
  intros Hne. unfold Map_delete. induction m as [|[k0 v0] m IH]; [done|].
  rewrite filter_cons. simpl. destruct (decide (k0 ≠ k')) as [H0 | H0]; simpl.
  - destruct (decide (k0 = k)); [done | apply IH].
  - apply dec_stable in H0 as ->. by rewrite decide_False.
Qed.

Lemma id_of_root : id_of 1 = "node-1".
Proof. reflexivity. Qed.

Lemma next_id_not_root c : 1 ≤ c → id_of (c + 1) ≠ "node-1".
Proof. intros Hc E. rewrite <- id_of_root in E. apply id_of_inj in E. lia. Qed.

Lemma session_inv_update s s' :
  session_inv s → nodes s' = nodes s → nodeCounter s' = nodeCounter s →
  history s' = history s → viewport s' = viewport s →
  grows (objects s) (objects s') → heap_ok (objects s') → session_inv s'.
Proof.
  intros (Hh & Hm & Hc & Hhist & Hv) Hn Hcnt Hhi Hvp Hg Hh'. unfold session_inv.
  rewrite Hn, Hcnt, Hhi, Hvp. split; [done|]. split; [by eapply map_ok_grows|].
  split; [done|]. split; [|done].
  intros e He. destruct (Hhist e He) as [? ?]. split; [by eapply map_ok_grows | done].
Qed.

Lemma session_inv_save s : session_inv s → session_inv (saveToHistory s).
Proof.
  intros (Hh & Hm & Hc & Hhist & Hv). unfold session_inv. simpl.
  split; [done|]. split; [done|]. split; [done|]. split; [|done].
  intros e [He | ->]%push_bounded_elem; [by apply Hhist | done].
Qed.

(** The state after a node has been added under the object at
    [parentNode]. *)
Lemma session_inv_add s parentNode new sel ed els inps :
  session_inv s → 1 ≤ Node.level new → Node.text new ≠ "" →
  Node.id new = id_of (nodeCounter s + 1) →
  session_inv
    {| objects := store (λ n, Node.set_children (Node.children n ++ [Node.id new]) n)
                        parentNode (objects s ++ [new]);
       nodes := Map_set (Node.id new) (length (objects s)) (nodes s);
       selectedNode := sel; editingNode := ed; nodeCounter := nodeCounter s + 1;
       history := push_bounded (history s) (snapshot s);
       viewport := viewport s; elements := els; inputs := inps |}.
Proof.
  intros (Hh & Hm & Hc & Hhist & Hv) Hl Ht Hid. unfold session_inv. simpl.
  set (h' := store _ parentNode (objects s ++ [new])).
  assert (grows (objects s ++ [new]) h') as Hg2 by (by apply grows_store).
  assert (grows (objects s) h') as Hg by (eapply grows_trans; [apply grows_app | done]).
  split; [|split; [|split; [|split]]].
  - apply heap_ok_store; [done | by apply heap_ok_app].
  - destruct Hm as [Hroot Hent]. split.
    + rewrite Map_get_set_ne; [done|]. rewrite Hid. intros E. symmetry in E. exact (next_id_not_root _ Hc E).
    + intros k l [[-> ->] | Hin]%Map_set_elem.
      * destruct (Hg2 (length (objects s)) new) as (n' & Hn' & Hid' & _).
        { rewrite lookup_app_r by lia. by rewrite Nat.sub_diag. }
        by exists n'.
      * destruct (Hent k l Hin) as (n & Hn & Hidn).
        destruct (Hg l n Hn) as (n' & Hn' & Hid' & _). exists n'. split; [done | congruence].
  - lia.
  - intros e [He | ->]%push_bounded_elem.
    + destruct (Hhist e He) as [? ?]. split; [by eapply map_ok_grows | done].
    + split; [by eapply map_ok_grows | done].
  - done.
Qed.

Lemma addChildNode_inv s : session_inv s → session_inv (addChildNode s).
Proof.
  intros Hinv. unfold addChildNode. destruct (Map_get_opt _ _) as [parentNode|]; [|done].
  simpl. pose proof Hinv as (Hh & _).
  apply (session_inv_add s parentNode
           (Node.mk (id_of (nodeCounter s + 1)) "ノード"
                    (Node.level (objects s !!! parentNode) + 1)
                    (Some (Node.id (objects s !!! parentNode))) []
                    (Node.x (objects s !!! parentNode)) (Node.y (objects s !!! parentNode))
                    (Some "white"))); try done.
  simpl. pose proof (heap_ok_level_nonneg _ parentNode Hh). lia.
Qed.

Lemma addSiblingNode_inv s : session_inv s → session_inv (addSiblingNode s).
Proof.
  intros Hinv. unfold addSiblingNode. destruct (Map_get_opt _ _) as [currentNode|]; [|done].
  destruct (Z.eqb_spec (Node.level (objects s !!! currentNode)) 0) as [|Hlev]; [done|].
  destruct (Map_get_opt _ _) as [parentNode|]; [|done].
  simpl. pose proof Hinv as (Hh & _).
  apply (session_inv_add s parentNode
           (Node.mk (id_of (nodeCounter s + 1)) "ノード"
                    (Node.level (objects s !!! currentNode))
                    (Some (Node.id (objects s !!! parentNode))) []
                    (Node.x (objects s !!! currentNode)) (Node.y (objects s !!! currentNode))
                    (Some "white"))); try done.
  simpl. pose proof (heap_ok_level_nonneg _ currentNode Hh). lia.
Qed.

Lemma deleteNode_rec_inv fuel :
  ∀ N s s', deleteNode_rec fuel N s = Some s' → session_inv s → session_inv s'.
Proof.
  induction fuel as [|fuel IH]; intros N s s' H Hinv; [done|]. simpl in H.
  destruct (Map_get N (nodes s)) as [l|] eqn:Hg; [|by injection H as <-].
  destruct (Z.eqb_spec (Node.level (objects s !!! l)) 0) as [|Hlev]; [by injection H as <-|].
  assert (N ≠ "node-1") as HN.
  { intros ->. destruct Hinv as (((n0 & H0 & _ & Hl0 & _) & _) & [Hroot _] & _).
    rewrite Hroot in Hg. injection Hg as <-.
    by rewrite (list_lookup_total_correct _ _ _ H0) in Hlev. }
  destruct (forEachM _ _ _) as [s2|] eqn:E; [|done]. simpl in H. injection H as <-.
  assert (session_inv s2) as Hinv2.
  { eapply (forEachM_inv session_inv); [|exact E|by apply session_inv_save].
    intros a t t' _ Ha Ht. by eapply IH. }
  set (s3 := if truthy _ then _ else s2).
  assert (session_inv s3 ∧ nodes s3 = nodes s2) as [Hinv3 Hn3].
  { unfold s3. destruct (truthy _); [|done]. destruct (Map_get_opt _ _); [|done].
    split; [|done]. apply (session_inv_update s2); try done; simpl.
    - by apply grows_store.
    - apply heap_ok_store; [done | apply Hinv2]. }
  clearbody s3.
  assert (session_inv (with_nodes (Map_delete N (nodes s3))
                         (with_inputs (Map_delete N (inputs s3))
                            (with_elements (remove_element N (elements s3)) s3)))) as Hinv4.
  { destruct Hinv3 as (Hh & [Hroot Hent] & Hc & Hhist & Hv). unfold session_inv. simpl.
    split; [done|]. split; [|done]. split.
    - by rewrite Map_get_delete_ne.
    - intros k l' Hin. apply Hent. unfold Map_delete in Hin.
      by apply list_elem_of_filter in Hin as [_ ?]. }
  simpl. destruct (bool_decide _); [|done].
  by apply (session_inv_update _ _ Hinv4); try apply grows_refl; try apply Hinv4.
Qed.

Lemma changeNodeColor_inv nodeId color s :
  session_inv s → session_inv (changeNodeColor nodeId color s).
Proof.
  intros Hinv. unfold changeNodeColor. destruct nodeId as [k|]; [|done].
  destruct (negb _); [done|]. pose proof (session_inv_save s Hinv) as Hs. simpl.
  destruct (Map_get k (nodes s)); [|done]. destruct (getNodeElement _ _); [|done].
  apply (session_inv_update (saveToHistory s)); try done; simpl.
  - by apply grows_store.
  - apply heap_ok_store; [done | apply Hinv].
Qed.

Lemma stopEditing_inv value s : session_inv s → session_inv (stopEditing value s).
Proof.
  intros Hinv.
  destruct (stopEditing_state value s) as [-> | [-> | (k & l & _ & _ & _ & _ & ->)]];
    [done | by apply (session_inv_update s); try apply grows_refl; try apply Hinv |].
  apply (session_inv_update s); try done; simpl.
  - by apply grows_store.
  - apply heap_ok_store; [|apply Hinv]. intros m. simpl. split_and!; try done.
    intros _. by destruct (String.eqb_spec value "").
Qed.

Lemma startEditing_inv nodeId pending s :
  session_inv s → session_inv (startEditing nodeId pending s).
Proof.
  intros Hinv. pose proof (stopEditing_inv pending s Hinv) as Hinv'.
  destruct (startEditing_state nodeId pending s) as (t & Ht & Hs).
  assert (session_inv t) as H by (by destruct Ht as [-> | ->]).
  destruct Hs as [-> | [-> | (l & _ & _ & ->)]]; [done | |];
    by apply (session_inv_update _ _ H); try apply grows_refl; try apply H.
Qed.

Lemma dragNode_inv l sx sy dx dy s : session_inv s → session_inv (dragNode l sx sy dx dy s).
Proof.
  intros Hinv. apply (session_inv_update s); try done.
  - apply dragNode_grows.
  - unfold dragNode. simpl. apply heap_ok_store; [done|]. apply heap_ok_store; [done|].
    apply Hinv.
Qed.

Lemma updateLayout_session_inv firstRect s s' :
  updateLayout firstRect s = Some s' → session_inv s → session_inv s'.
Proof.
  intros H Hinv. pose proof (updateLayout_same_shape _ _ _ H) as Hs.
  destruct (updateLayout_inv _ _ _ H) as [h ->].
  apply (session_inv_update s); try done.
  - by apply grows_same_shape.
  - eapply heap_ok_same_shape; [exact Hs | apply Hinv].
Qed.

Lemma createNodeElements_viewport (ls : list nat) s :
  viewport (forEach (λ l s, createNodeElement (objects s !!! l) s) ls s) = viewport s.
Proof.
  unfold forEach. revert s. induction ls as [|l ls IH]; intros s; [done|]. simpl.
  by rewrite IH.
Qed.

Lemma restore_viewport e s : viewport (restore e s) = viewport s.
Proof.
  unfold restore. destruct (_ && _); simpl; by rewrite createNodeElements_viewport.
Qed.

Lemma undo_inv firstRect s s' : undo firstRect s = Some s' → session_inv s → session_inv s'.
Proof.
  unfold undo. destruct (last (history s)) as [e|] eqn:El; [|by intros [= <-]].
  intros H Hinv. apply (updateLayout_session_inv _ _ _ H).
  destruct (restore_fields e s) as (Ho & Hn & Hc & Hh).
  destruct Hinv as (Hheap & Hm & Hcnt & Hhist & Hv).
  assert (e ∈ history s) as He.
  { apply last_Some in El as [l' ->]. apply elem_of_app. right. by left. }
  destruct (Hhist e He) as [Hme Hce].
  unfold session_inv. rewrite Ho, Hn, Hc, Hh, restore_viewport.
  split; [done|]. split; [done|]. split; [done|]. split; [|done].
  intros e' He'%elem_of_removelast. by apply Hhist.
Qed.

Lemma step_inv c s s' : step c s = Some s' → session_inv s → session_inv s'.
Proof.
  intros H Hinv. destruct c; simpl in H; try (injection H as <-).
  - by apply addChildNode_inv.
  - by apply addSiblingNode_inv.
  - by eapply deleteNode_rec_inv.
  - by apply (session_inv_update s); try apply grows_refl; try apply Hinv.
  - by apply changeNodeColor_inv.
  - by apply startEditing_inv.
  - by apply stopEditing_inv.
  - by apply dragNode_inv.
  - destruct Hinv as (? & ? & ? & ? & ?). unfold session_inv.
    split; [done|]. split; [done|]. split; [done|]. split; [done|].
    apply wheel_scale_range.
  - destruct Hinv as (? & ? & ? & ? & ?). by unfold session_inv.
  - by eapply updateLayout_session_inv.
  - by eapply undo_inv.
Qed.

Lemma keyPan_scale k v v' :
  keyPan k v = Some v' → (1 # 10 <= vp_scale v <= 3)%Q → (1 # 10 <= vp_scale v' <= 3)%Q.
Proof.
  unfold keyPan. intros H Hv. repeat case_match; simplify_eq; simpl; done.
Qed.

Lemma keydownPan_inv e s : session_inv s → session_inv (keydownPan e s).
Proof.
  intros Hinv. unfold keydownPan. destruct (truthy _); [done|].
  destruct (keyPan (key e) (viewport s)) as [v|] eqn:E; [|done].
  destruct Hinv as (? & ? & ? & ? & Hv). unfold session_inv. simpl.
  split; [done|]. split; [done|]. split; [done|]. split; [done|]. by eapply keyPan_scale.
Qed.

Lemma run_inv cs s s' : run cs s = Some s' → session_inv s → session_inv s'.
Proof.
  intros H. eapply (forEachM_inv session_inv); [|exact H].
  intros c t t' _. apply step_inv.
Qed.

Lemma handle_inv ev s s' : handle ev s = Some s' → session_inv s → session_inv s'.
Proof.
  intros (cs & s1 & H & Hs')%handle_run Hinv.
  pose proof (run_inv cs s s1 H Hinv) as H1.
  destruct Hs' as [-> | [e ->]]; [done | by apply keydownPan_inv].
Qed.

Lemma fresh_session_inv : session_inv fresh.
Proof.
  unfold session_inv. split_and!; try (vm_compute; done).
  - split_and!.
    + eexists. split; [reflexivity|]. done.
    + intros [|[|l]] n H Hne; [done | done..].
    + intros [|[|l]] n H; [|done..]. vm_compute in H. by injection H as <-.
  - split; [reflexivity|]. intros k l [= -> ->]%list_elem_of_singleton.
    eexists. split; [reflexivity|]. done.
  - intros e He. vm_compute in He. by apply not_elem_of_nil in He.
Qed.

Lemma session_keeps_inv evs s s' : session evs s = Some s' → session_inv s → session_inv s'.
Proof.
  unfold session. revert s. induction evs as [|ev evs IH]; intros s H Hinv; simpl in H.
  - by injection H as <-.
  - destruct (handle ev s) as [s1|] eqn:E; [|done].
    eapply IH; [exact H | by eapply handle_inv].
Qed.

Lemma find_root_first (m : list (string * nat)) (h : list Node.t) :
  heap_ok h → Map_get "node-1" m = Some 0%nat →
  (∀ k l, (k, l) ∈ m → ∃ n, h !! l = Some n ∧ Node.id n = k) →
  find_root m h = Some 0%nat.
Proof.
  intros ((n0 & H0 & Hid & Hl0 & _) & Hlev & _). unfold find_root, Map_values.
  induction m as [|[k v] m IH]; simpl; [done|]. intros Hg Hent.
  destruct (decide (k = "node-1")) as [-> | Hne].
  - injection Hg as ->. by rewrite (list_lookup_total_correct _ _ _ H0), Hl0.
  - destruct (Hent k v) as (n & Hn & Hidn); [left|].
    assert (v ≠ 0%nat) as Hv by (intros ->; congruence).
    pose proof (Hlev v n Hn Hv). rewrite (list_lookup_total_correct _ _ _ Hn).
    destruct (Z.eqb_spec (Node.level n) 0); [lia|].
    apply IH; [done|]. intros k' l' Hin. apply Hent. by right.
Qed.

(** X18. The root survives every session: in every state reached from a
    fresh start by commands and key presses, undo included, node-1 is in
    the map with level 0 and no parent, every other node of the map has a
    level of at least 1, the layout takes node-1 for the root, and deleting
    node-1 changes nothing. *)
Theorem root_survives_every_session (evs : list event) (s' : MindMapApp) :
  session evs fresh = Some s' →
  (∃ n, node_at s' "node-1" = Some n ∧ Node.id n = "node-1" ∧ Node.level n = 0
        ∧ Node.parent n = None
        ∧ (find_root (nodes s') (objects s') ≫= λ l, objects s' !! l) = Some n)
  ∧ (∀ k m, node_at s' k = Some m → k ≠ "node-1" → 1 ≤ Node.level m)
  ∧ deleteNode "node-1" s' = Some s'
  ∧ 1 ≤ nodeCounter s'.
Proof.
  intros H. pose proof (session_keeps_inv evs fresh s' H fresh_session_inv)
    as (Hh & [Hroot Hent] & Hc & _).
  pose proof Hh as ((n0 & H0 & Hid & Hl0 & Hp0) & Hlev & _).
  split_and!.
  - exists n0. split_and!; try done.
    + apply node_at_Some. by exists 0%nat.
    + by rewrite (find_root_first _ _ Hh Hroot Hent).
  - intros k m (l & Hg%Map_get_Some & Hm)%node_at_Some Hk.
    destruct (Hent k l Hg) as (n & Hn & Hidn).
    apply (Hlev l m Hm). intros ->. congruence.
  - unfold deleteNode. simpl.
    by rewrite Hroot, (list_lookup_total_correct _ _ _ H0), Hl0.
  - done.
Qed.

Lemma root_survives_every_session_witness :
  ∃ n, node_at (default fresh (session [Command AddChild; Command (Delete "node-2");
                                         Command (Undo sample_rect)] fresh)) "node-1" = Some n
       ∧ Node.level n = 0.
Proof.
  destruct (root_survives_every_session
              [Command AddChild; Command (Delete "node-2"); Command (Undo sample_rect)]
              (default fresh (session [Command AddChild; Command (Delete "node-2");
                                       Command (Undo sample_rect)] fresh)))
    as ((n & H1 & _ & H2 & _) & _); [vm_compute; reflexivity |].
  exists n. split; [exact H1 | exact H2].
Defined.

(** X19. No text is ever empty: in every state reached from a fresh start
    by commands and key presses, undo included, every node object, in the
    map or only in a snapshot, has a text that is not empty (an edit that
    ends with an empty text stores "ノード"). *)
Theorem text_is_never_empty (evs : list event) (s' : MindMapApp) :
  session evs fresh = Some s' →
  (∀ l n, objects s' !! l = Some n → Node.text n ≠ "")
  ∧ (∀ k n, node_at s' k = Some n → Node.text n ≠ "").
Proof.
  intros H. pose proof (session_keeps_inv evs fresh s' H fresh_session_inv)
    as ((_ & _ & Htxt) & _).
  split; [done|]. intros k n (l & _ & Hn)%node_at_Some. by eapply Htxt.
Qed.

Lemma text_is_never_empty_witness :
  ∃ s' n, session [Command AddChild; Command (StartEditing "node-2" "");
                   Command (StopEditing "")] fresh = Some s'
          ∧ node_at s' "node-2" = Some n ∧ Node.text n ≠ "".
Proof.
  pose (evs := [Command AddChild; Command (StartEditing "node-2" ""); Command (StopEditing "")]).
  pose (s' := default fresh (session evs fresh)).
  assert (session evs fresh = Some s') as H by (vm_compute; reflexivity).
  assert (node_at s' "node-2" = Some (objects s' !!! 1%nat)) as Hn by (vm_compute; reflexivity).
  exists s', (objects s' !!! 1%nat). split; [exact H |]. split; [exact Hn |].
  exact (proj2 (text_is_never_empty evs s' H) "node-2" _ Hn).
Defined.

(** X20. The zoom stays in range: in every state reached from a fresh
    start by commands and key presses, undo included, the scale of the
    viewport lies between 0.1 and 3; so it is positive wherever the pan, the
    drag and the arrow keys divide by it. *)
Theorem scale_stays_in_range (evs : list event) (s' : MindMapApp) :
  session evs fresh = Some s' →
  (1 # 10 <= vp_scale (viewport s') <= 3)%Q ∧ (0 < vp_scale (viewport s'))%Q.
Proof.
  intros H. pose proof (session_keeps_inv evs fresh s' H fresh_session_inv)
    as (_ & _ & _ & _ & Hv).
  split; [done | lra].
Qed.

Lemma scale_stays_in_range_witness :
  (0 < vp_scale (viewport (default fresh
                             (session [Command (Wheel (0, 0)%Q 1 (800, 600)%Q);
                                       Command (Wheel (0, 0)%Q 1 (800, 600)%Q)] fresh))))%Q.
Proof.
  apply (scale_stays_in_range [Command (Wheel (0, 0)%Q 1 (800, 600)%Q);
                               Command (Wheel (0, 0)%Q 1 (800, 600)%Q)]).
  vm_compute. reflexivity.
Defined.


(** ** Connection lines *)

(** The connection that [updateConnections] draws for the object at [l]. *)
Lemma updateConnections_acc inner s (ls : list nat) (acc : list ((Q * Q) * (Q * Q))) :
  forEach (λ l paths,
             let nodeData := objects s !!! l in
             if truthy (Node.parent nodeData) then
               match Map_get_opt (Node.parent nodeData) (nodes s) with
               | Some parentData =>
                   paths ++ [createConnection (objects s !!! parentData) nodeData
                                              (viewport s) inner]
               | None => paths
               end
             else paths) ls acc
  = acc ++ omap (λ l, let nodeData := objects s !!! l in
                      if truthy (Node.parent nodeData) then
                        (λ parentData, createConnection (objects s !!! parentData) nodeData
                                                        (viewport s) inner)
                        <$> Map_get_opt (Node.parent nodeData) (nodes s)
                      else None) ls.
Proof.
  unfold forEach. revert acc. induction ls as [|l ls IH]; intros acc; simpl;
    [by rewrite app_nil_r|].
  rewrite IH. destruct (truthy _); [|done].
  destruct (Map_get_opt _ _); simpl; [by rewrite <- app_assoc | done].
Qed.

Lemma updateConnections_omap inner s :
  updateConnections inner s
  = omap (λ l, let nodeData := objects s !!! l in
               if truthy (Node.parent nodeData) then
                 (λ parentData, createConnection (objects s !!! parentData) nodeData
                                                 (viewport s) inner)
                 <$> Map_get_opt (Node.parent nodeData) (nodes s)
               else None)
         (Map_values (nodes s)).
Proof. unfold updateConnections. by rewrite updateConnections_acc. Qed.

Lemma omap_length_filter {A B} (G : A → option B) (P : A → Prop) `{!∀ x, Decision (P x)}
    (l : list A) :
  (∀ x, x ∈ l → (G x = None ↔ P x)) →
  (length (omap G l) + length (filter P l) = length l)%nat.
Proof.
  induction l as [|x l IH]; intros HG; [done|]. rewrite filter_cons. simpl.
  specialize (IH (λ y Hy, HG y (list_elem_of_further _ _ _ Hy))).
  pose proof (HG x (list_elem_of_here _ _)) as Hx.
  destruct (G x) as [b|]; destruct (decide (P x)) as [HP | HP]; simpl;
    change (list_omap _ _ G l) with (omap G l).
  - apply Hx in HP. done.
  - lia.
  - lia.
  - exfalso. apply HP. by apply Hx.
Qed.

Lemma omap_fmap_ext {A B C} (f : A → B) (F : B → option C) (G : A → option C) (m : list A) :
  (∀ e, e ∈ m → F (f e) = G e) → omap F (f <$> m) = omap G m.
Proof.
  induction m as [|e m IH]; intros H; [done|]. rewrite fmap_cons.
  change (omap F (f e :: (f <$> m)))
    with (match F (f e) with Some y => y :: omap F (f <$> m) | None => omap F (f <$> m) end).
  change (omap G (e :: m))
    with (match G e with Some y => y :: omap G m | None => omap G m end).
  rewrite (H e) by left. rewrite IH; [done|]. intros e' He'. apply H. by right.
Qed.

Section Connections.
Context (s : MindMapApp) (Hwf : wf s) (inner : Q * Q).

Lemma connection_of_entry k l n :
  (k, l) ∈ nodes s → objects s !! l = Some n →
  (if truthy (Node.parent (objects s !!! l)) then
     (λ parentData, createConnection (objects s !!! parentData) (objects s !!! l)
                                     (viewport s) inner)
     <$> Map_get_opt (Node.parent (objects s !!! l)) (nodes s)
   else None)
  = match Node.parent n with
    | Some p => (λ np, createConnection np n (viewport s) inner) <$> node_at s p
    | None => None
    end.
Proof.
  intros Hin Ho. rewrite (list_lookup_total_correct _ _ _ Ho).
  assert (node_at s k = Some n) as Hk.
  { apply node_at_Some. exists l. split; [by apply (wf_get s Hwf) | done]. }
  destruct (Node.parent n) as [p|] eqn:Hp; [|done].
  destruct (wf_parent s Hwf k n p Hk Hp) as (np & Hnp & _).
  pose proof Hnp as (lp & Hg & Hop)%node_at_Some.
  destruct (wf_object s Hwf p lp (Map_get_Some _ _ _ Hg)) as (_ & _ & _ & Hne & _).
  simpl. destruct (String.eqb_spec p ""); [done|]. simpl.
  rewrite Hg, Hnp. simpl. by rewrite (list_lookup_total_correct _ _ _ Hop).
Qed.

Lemma updateConnections_entries :
  updateConnections inner s
  = omap (λ e, match objects s !! e.2 ≫= Node.parent with
               | Some p => (λ np, createConnection np (objects s !!! e.2) (viewport s) inner)
                           <$> node_at s p
               | None => None
               end) (nodes s).
Proof.
  rewrite updateConnections_omap. unfold Map_values. apply omap_fmap_ext.
  intros [k l] Hin. simpl.
  destruct (wf_object s Hwf k l Hin) as (n & Ho & _).
  rewrite (connection_of_entry k l n Hin Ho).
  rewrite Ho. simpl. by rewrite (list_lookup_total_correct _ _ _ Ho).
Qed.

End Connections.

(** X21. The connection lines follow the tree: in a state satisfying the
    tree invariant [updateConnections] draws one line for every node other
    than the root, so one less than there are nodes, each from the parent of
    the node to the node and no other line; and both ends of a line lie at
    the centres of the 120 by 40 boxes in which [updateNodePosition] places
    the elements of the two nodes. *)
Theorem connections_follow_tree (s : MindMapApp) (inner : Q * Q) :
  tree_ok s = true →
  length (updateConnections inner s) = (length (nodes s) - 1)%nat
  ∧ (∀ k n p np, node_at s k = Some n → Node.parent n = Some p → node_at s p = Some np →
       createConnection np n (viewport s) inner ∈ updateConnections inner s)
  ∧ (∀ c, c ∈ updateConnections inner s →
       ∃ k n p np, node_at s k = Some n ∧ Node.parent n = Some p ∧ node_at s p = Some np
                   ∧ c = createConnection np n (viewport s) inner)
  ∧ (∀ np n v,
       ((createConnection np n v inner).1.1 == (updateNodePosition np v inner).1 + 120 / 2)%Q
       ∧ ((createConnection np n v inner).1.2 == (updateNodePosition np v inner).2 + 40 / 2)%Q
       ∧ ((createConnection np n v inner).2.1 == (updateNodePosition n v inner).1 + 120 / 2)%Q
       ∧ ((createConnection np n v inner).2.2 == (updateNodePosition n v inner).2 + 40 / 2)%Q).
Proof.
  intros Hwf%tree_ok_wf. rewrite (updateConnections_entries s Hwf inner).
  set (G := λ e : string * nat, match objects s !! e.2 ≫= Node.parent with
                                | Some p => _ | None => None end).
  assert (∀ k l n, (k, l) ∈ nodes s → objects s !! l = Some n → node_at s k = Some n) as Hat.
  { intros k l n Hin Ho. apply node_at_Some. exists l.
    split; [by apply (wf_get s Hwf) | done]. }
  split_and!.
  - pose proof (omap_length_filter G (λ e, Node.level (objects s !!! e.2) = 0) (nodes s)) as H.
    rewrite (wf_single_root s Hwf) in H. rewrite <- H; [lia|].
    intros [k l] Hin. unfold G. simpl.
    destruct (wf_object s Hwf k l Hin) as (n & Ho & _ & _ & Hlev & _).
    rewrite Ho, (list_lookup_total_correct _ _ _ Ho). simpl.
    destruct (Node.parent n) as [p|] eqn:Hp.
    + destruct (wf_parent s Hwf k n p (Hat k l n Hin Ho) Hp) as (np & Hnp & _ & Hl).
      pose proof (wf_level_nonneg s Hwf p np Hnp). rewrite Hnp. simpl. split; [done | lia].
    + pose proof (wf_root s Hwf k n (Hat k l n Hin Ho) Hp). done.
  - intros k n p np Hk Hp Hnp. apply list_elem_of_omap.
    pose proof Hk as (l & Hg%Map_get_Some & Ho)%node_at_Some.
    exists (k, l). split; [done|]. unfold G. simpl.
    by rewrite Ho, (list_lookup_total_correct _ _ _ Ho); simpl; rewrite Hp, Hnp.
  - intros c ([k l] & Hin & Hc)%list_elem_of_omap. unfold G in Hc. simpl in Hc.
    destruct (wf_object s Hwf k l Hin) as (n & Ho & _).
    rewrite Ho, (list_lookup_total_correct _ _ _ Ho) in Hc. simpl in Hc.
    destruct (Node.parent n) as [p|] eqn:Hp; [|done].
    destruct (node_at s p) as [np|] eqn:Hnp; [|done]. simpl in Hc. injection Hc as <-.
    exists k, n, p, np. split_and!; try done. by eapply Hat.
  - intros np n v. unfold createConnection, updateNodePosition. simpl. split_and!; field.
Qed.

Lemma connections_follow_tree_witness :
  length (updateConnections (800, 600)%Q scenario) = 3%nat.
Proof.
  destruct (connections_follow_tree scenario (800, 600)%Q) as [H _];
    [vm_compute; reflexivity |].
  exact H.
Defined.


(** ** Saving and loading *)

Lemma imap_keys {A} (es : list (string * A)) (base : nat) :
  (imap (λ i e, (e.1, (base + i)%nat)) es).*1 = es.*1.
Proof.
  revert base. induction es as [|e es IH]; intros base; [done|].
  rewrite imap_cons, !fmap_cons. f_equal.
  rewrite <- (IH (S base)). f_equal. apply imap_ext. intros i x _. simpl. f_equal. lia.
Qed.

Lemma imap_values {A} (es : list (string * A)) (base : nat) :
  (imap (λ i e, (e.1, (base + i)%nat)) es).*2 = seq base (length es).
Proof.
  revert base. induction es as [|e es IH]; intros base; [done|].
  rewrite imap_cons, fmap_cons. simpl. f_equal; [lia|].
  rewrite <- (IH (S base)). f_equal. apply imap_ext. intros i x _. simpl. f_equal. lia.
Qed.

Lemma Map_get_imap {A} (es : list (string * A)) (base j : nat) k x :
  NoDup es.*1 → es !! j = Some (k, x) →
  Map_get k (imap (λ i e, (e.1, (base + i)%nat)) es) = Some (base + j)%nat.
Proof.
  revert base j. induction es as [|[k0 x0] es IH]; intros base j Hnd Hj; [done|].
  apply NoDup_cons in Hnd as [Hk0 Hnd]. rewrite imap_cons. simpl.
  destruct j as [|j]; simpl in Hj.
  - injection Hj as -> ->. by rewrite decide_True.
  - rewrite decide_False.
    + rewrite (imap_ext _ (λ i e, (e.1, (S base + i)%nat))).
      * rewrite (IH (S base) j Hnd Hj). f_equal. lia.
      * intros i y _. simpl. f_equal. lia.
    + intros ->. apply Hk0. apply list_elem_of_fmap. exists (k, x).
      split; [done | by eapply list_elem_of_lookup_2].
Qed.

Lemma with_elements_twice e e' s : with_elements e (with_elements e' s) = with_elements e s.
Proof. done. Qed.

Lemma createNodeElements_eq (ls : list nat) s :
  forEach (λ l s, createNodeElement (objects s !!! l) s) ls s
  = with_elements (elements s ++ map (λ l, Node.id (objects s !!! l)) ls) s.
Proof.
  unfold forEach. revert s. induction ls as [|l ls IH]; intros s; simpl.
  - rewrite app_nil_r. by destruct s.
  - rewrite IH. unfold createNodeElement. simpl. rewrite with_elements_twice.
    by rewrite <- app_assoc.
Qed.

(** States with the same ids in the same order and the same node under
    every id. *)
Lemma root_count_keys s :
  NoDup (Map_keys (nodes s)) → (∀ k l, (k, l) ∈ nodes s → is_Some (objects s !! l)) →
  length (filter (λ e, Node.level (objects s !!! e.2) = 0) (nodes s))
  = length (filter (λ k, Node.level <$> node_at s k = Some 0) (Map_keys (nodes s))).
Proof.
  intros Hnd Hval.
  assert (∀ m : list (string * nat), (∀ e, e ∈ m → e ∈ nodes s) →
            length (filter (λ e, Node.level (objects s !!! e.2) = 0) m)
            = length (filter (λ k, Node.level <$> node_at s k = Some 0) m.*1)) as H.
  { induction m as [|[k l] m IH]; intros Hm; [done|]. rewrite fmap_cons, !filter_cons. simpl.
    assert ((k, l) ∈ nodes s) as Hin by (apply Hm; left).
    destruct (Hval k l Hin) as [n Ho].
    assert (node_at s k = Some n) as Hk.
    { apply node_at_Some. exists l. split; [by apply Map_get_NoDup | done]. }
    rewrite (list_lookup_total_correct _ _ _ Ho), Hk. simpl.
    specialize (IH (λ e He, Hm e (list_elem_of_further _ _ _ He))).
    destruct (decide (Node.level n = 0)) as [Hl | Hl].
    - rewrite decide_True by (by rewrite Hl). simpl. by rewrite IH.
    - rewrite decide_False by (intros [= ?]; done). done. }
  by apply H.
Qed.

Lemma wf_transport s s' :
  wf s → Map_keys (nodes s') = Map_keys (nodes s) → NoDup (Map_values (nodes s')) →
  (∀ k, node_at s' k = node_at s k) → wf s'.
Proof.
  intros Hwf Hkeys Hlocs Hat.
  assert (NoDup (Map_keys (nodes s'))) as Hnd by (rewrite Hkeys; apply Hwf).
  assert (∀ k l, (k, l) ∈ nodes s' →
            ∃ n, objects s' !! l = Some n ∧ node_at s k = Some n) as Hent.
  { intros k l Hin. pose proof (Map_get_NoDup k l _ Hnd Hin) as Hg.
    assert (k ∈ Map_keys (nodes s)) as Hk.
    { rewrite <- Hkeys. apply list_elem_of_fmap. by exists (k, l). }
    apply list_elem_of_fmap in Hk as ([k0 l0] & -> & Hin0). simpl in *.
    destruct (wf_object s Hwf k0 l0 Hin0) as (n & Ho & _).
    assert (node_at s k0 = Some n) as Hn.
    { apply node_at_Some. exists l0. split; [by apply (wf_get s Hwf) | done]. }
    exists n. split; [|done]. rewrite <- Hat in Hn. unfold node_at in Hn.
    by rewrite Hg in Hn. }
  split; try done.
  - intros k l Hin. destruct (Hent k l Hin) as (n & Ho & Hn).
    pose proof Hn as (l0 & Hg0%Map_get_Some & Ho0)%node_at_Some.
    destruct (wf_object s Hwf k l0 Hg0) as (n0 & Ho0' & ? & ? & ? & ?).
    assert (n0 = n) as -> by congruence. by exists n.
  - intros k n c Hk Hc. rewrite Hat in Hk.
    destruct (wf_children s Hwf k n c Hk Hc) as (nc & Hnc & Hp).
    exists nc. by rewrite Hat.
  - intros k n p Hk Hp. rewrite Hat in Hk.
    destruct (wf_parent s Hwf k n p Hk Hp) as (np & Hnp & ? & ?).
    exists np. by rewrite Hat.
  - intros k n Hk Hp. rewrite Hat in Hk. by eapply (wf_root s Hwf).
  - rewrite root_count_keys; [|done|].
    + rewrite Hkeys. rewrite <- (wf_single_root s Hwf), root_count_keys; [|apply Hwf|].
      * f_equal. apply filter_ext_in. intros k _. by rewrite Hat.
      * intros k l Hin. destruct (wf_object s Hwf k l Hin) as (n & -> & _). done.
    + intros k l Hin. destruct (Hent k l Hin) as (n & -> & _). done.
Qed.

Lemma loadFromDatabase_state data s0 :
  let s1 := load_entries (blob_nodes data) s0 in
  let s2 := with_elements
              (elements s0 ++ map (λ l, Node.id (objects s1 !!! l)) (Map_values (nodes s1)))
              (with_viewport (default {| vp_x := 0; vp_y := 0; vp_scale := 1 |}
                                      (blob_viewport data))
                 (with_nodeCounter (default 0 (blob_nodeCounter data)) s1)) in
  init (Parsed data) s0
  = Some match find_root (nodes s1) (objects s1) with
         | Some rootNode => selectNode (Some (Node.id (objects s1 !!! rootNode))) s2
         | None => s2
         end.
Proof.
  intros s1 s2. unfold init, Parsed, loadFromDatabase.
  rewrite load_locs_nodes, Map_from_fmap.
  rewrite mapM_fmap_Some by (by intros [k l]).
  rewrite omap_snd_Some. fold (load_entries (blob_nodes data) s0). fold s1.
  rewrite createNodeElements_eq. done.
Qed.

Section Reload.
Context (s : MindMapApp) (Hwf : wf s).

Local Abbreviation es := (map (λ e : string * nat, (e.1, objects s !!! e.2)) (nodes s)).

Lemma reload_keys : es.*1 = Map_keys (nodes s).
Proof. unfold Map_keys. rewrite <- list_fmap_compose. done. Qed.

Lemma reload_nodes :
  nodes (load_entries es new_app) = imap (λ i e, (e.1, (0 + i)%nat)) es.
Proof.
  change (nodes (load_entries es new_app))
    with (Map_from (imap (λ i e, (e.1, (0 + i)%nat)) es)).
  apply Map_from_NoDup. rewrite (imap_keys es 0), reload_keys. apply Hwf.
Qed.

Lemma reload_objects : objects (load_entries es new_app) = es.*2.
Proof. done. Qed.

Lemma reload_node_at k :
  (Map_get k (nodes (load_entries es new_app)) ≫= λ l, objects (load_entries es new_app) !! l)
  = node_at s k.
Proof.
  rewrite reload_nodes, reload_objects.
  destruct (Map_get k (nodes s)) as [l|] eqn:Hg.
  - pose proof (Map_get_Some _ _ _ Hg) as Hin.
    destruct (wf_object s Hwf k l Hin) as (n & Ho & _).
    apply list_elem_of_lookup in Hin as [j Hj].
    assert (es !! j = Some (k, n)) as Hej.
    { rewrite list_lookup_fmap, Hj. simpl.
      by rewrite (list_lookup_total_correct _ _ _ Ho). }
    rewrite (Map_get_imap es 0 j k n); [|rewrite reload_keys; apply Hwf | done].
    simpl. rewrite list_lookup_fmap, Hej. simpl.
    symmetry. apply node_at_Some. eauto.
  - assert (node_at s k = None) as -> by (unfold node_at; by rewrite Hg).
    apply Map_get_None in Hg. rewrite <- reload_keys, <- (imap_keys es 0) in Hg.
    apply Map_get_None in Hg. by rewrite Hg.
Qed.

End Reload.

(** X22. Saving and loading give the tree back: starting the application
    on the data that [saveToDatabase] builds from a state satisfying the
    tree invariant (a page reload, with the serialization read back as it
    was written) yields the same ids in the same order, the same node (with
    all its fields) under every id, the same id counter and the same
    viewport; the tree invariant holds again; the root is selected, no node
    is being edited, every node has its element, and the history is
    empty. *)
Theorem save_load_round_trip (s : MindMapApp) (R : string) (nR : Node.t) :
  tree_ok s = true → node_at s R = Some nR → Node.level nR = 0 →
  ∃ s', init (Parsed (saveToDatabase s)) new_app = Some s'
  ∧ Map_keys (nodes s') = Map_keys (nodes s)
  ∧ (∀ k, node_at s' k = node_at s k)
  ∧ nodeCounter s' = nodeCounter s ∧ viewport s' = viewport s
  ∧ tree_ok s' = true
  ∧ selectedNode s' = Some R ∧ editingNode s' = None
  ∧ elements s' = Map_keys (nodes s) ∧ history s' = [].
Proof.
  intros Hwf%tree_ok_wf HR HlR.
  pose proof (loadFromDatabase_state (saveToDatabase s) new_app) as Hs'.
  cbv zeta in Hs'. rewrite Hs'. eexists. split; [reflexivity|]. clear Hs'.
  match goal with |- Map_keys (nodes ?t) = _ ∧ _ => set (s' := t); assert (s' = t) as Hs' by done end.
  clearbody s'.
  change (blob_nodes (saveToDatabase s))
    with (map (λ e : string * nat, (e.1, objects s !!! e.2)) (nodes s)) in Hs'.
  change (default _ (blob_viewport (saveToDatabase s))) with (viewport s) in Hs'.
  change (default 0 (blob_nodeCounter (saveToDatabase s))) with (nodeCounter s) in Hs'.
  set (es := map (λ e, (e.1, objects s !!! e.2)) (nodes s)) in *.
  set (s1 := load_entries es new_app) in *.
  pose proof (reload_nodes s Hwf) as Hn1. pose proof (reload_keys s) as Hk.
  pose proof (reload_node_at s Hwf) as Hat. fold es s1 in Hn1, Hk, Hat.
  assert (Map_keys (nodes s1) = Map_keys (nodes s)) as Hkeys.
  { unfold Map_keys. rewrite Hn1. by rewrite (imap_keys es 0). }
  assert (wf s1) as Hwf1.
  { apply (wf_transport s s1 Hwf Hkeys); [|exact Hat].
    unfold Map_values. rewrite Hn1, (imap_values es 0). apply NoDup_seq. }
  destruct (root_exists s1 Hwf1) as (R' & lr & nR' & Hfind & HinR' & HoR' & HlR').
  rewrite Hfind in Hs'.
  assert (R' = R) as ->.
  { assert (node_at s R' = Some nR') as HR'.
    { rewrite <- Hat. fold (node_at s1 R'). apply node_at_Some. exists lr.
      split; [by apply (wf_get s1 Hwf1) | done]. }
    pose proof HR' as (l' & Hg'%Map_get_Some & Ho')%node_at_Some.
    pose proof HR as (l & Hg%Map_get_Some & Ho)%node_at_Some.
    by eapply (root_unique s Hwf R l nR R' l' nR'). }
  destruct (wf_object s1 Hwf1 R lr HinR') as (n0 & Hn0 & Hid & _).
  assert (n0 = nR') as -> by congruence.
  rewrite (list_lookup_total_correct _ _ _ HoR'), Hid in Hs'.
  assert (nodes s' = nodes s1 ∧ objects s' = objects s1) as [Hns Hos] by (by rewrite Hs').
  assert (∀ k, node_at s' k = node_at s k) as Hat'.
  { intros k. rewrite <- Hat. unfold node_at. by rewrite Hns, Hos. }
  split_and!; try (by rewrite Hs').
  - apply wf_tree_ok. apply (wf_same_objects s1); done.
  - assert (elements s' = map (λ l, Node.id (objects s1 !!! l)) (Map_values (nodes s1)))
      as -> by (by rewrite Hs').
    unfold Map_values. rewrite Hn1, (imap_values es 0).
    rewrite <- Hk. change (objects s1) with (es.*2). apply list_eq. intros i.
    rewrite !list_lookup_fmap. destruct (es !! i) as [[k n]|] eqn:Ei.
    + rewrite !lookup_seq_lt by (by eapply lookup_lt_Some). simpl.
      assert (es.*2 !! i = Some n) as E2 by (by rewrite list_lookup_fmap, Ei).
      rewrite (list_lookup_total_correct _ _ _ E2). f_equal.
      assert ((k, i) ∈ nodes s1) as Hin.
      { rewrite Hn1. apply list_elem_of_lookup. exists i. by rewrite list_lookup_imap, Ei. }
      destruct (wf_object s1 Hwf1 k i Hin) as (n1 & Hn1' & Hid1 & _).
      change (objects s1) with (es.*2) in Hn1'. congruence.
    + rewrite lookup_seq_ge; [done|]. by apply lookup_ge_None.
Qed.

Lemma save_load_round_trip_witness :
  ∃ s', init (Parsed (saveToDatabase scenario)) new_app = Some s'
        ∧ Map_keys (nodes s') = Map_keys (nodes scenario).
Proof.
  destruct (save_load_round_trip scenario "node-1" (objects scenario !!! 0%nat))
    as (s' & H1 & H2 & _);
    [vm_compute; reflexivity | vm_compute; reflexivity | vm_compute; reflexivity |].
  exists s'. split; [exact H1 | exact H2].
Defined.


(** ** Undo after one command *)

Lemma removelast_push_bounded h e :
  (length h ≤ maxHistorySize)%nat →
  removelast (push_bounded h e)
  = if (length h <? maxHistorySize)%nat then h else tail h.
Proof.
  intros Hb. unfold push_bounded. rewrite length_app. simpl.
  destruct (Nat.ltb_spec (length h) maxHistorySize) as [Hlt | Hge].
  - destruct (Nat.ltb_spec maxHistorySize (length h + 1)) as [? | _]; [lia|].
    by rewrite removelast_last.
  - destruct (Nat.ltb_spec maxHistorySize (length h + 1)) as [_ | ?]; [|lia].
    destruct h as [|e0 h]; [unfold maxHistorySize in Hge; simpl in Hge; lia|].
    simpl. by rewrite removelast_last.
Qed.

Lemma restore_selectedNode e s :
  selectedNode (restore e s)
  = if truthy (saved_selectedNode e)
       && bool_decide (is_Some (Map_get_opt (saved_selectedNode e) (saved_nodes e)))
    then saved_selectedNode e else None.
Proof.
  unfold restore.
  pose proof (createNodeElements_fields (Map_values (saved_nodes e))
                (with_selectedNode None
                   (with_nodeCounter (saved_nodeCounter e)
                      (with_nodes (saved_nodes e)
                         (with_inputs []
                            (with_elements [] (with_history (removelast (history s)) s)))))))
    as (_ & Hn & _ & _ & Hsel).
  simpl in Hn, Hsel. cbv zeta. simpl. rewrite Hn.
  destruct (_ && _); simpl; [done | by rewrite Hsel].
Qed.

(** X23. What undo gives back after one command: when add-child,
    add-sibling or a colour change has taken its snapshot, the undo that
    follows (if its layout returns) puts back the map the state had before
    the command, with the same ids in the same order leading to the same
    node objects, the id counter, the selection when it was a node of the
    map (no selection otherwise), and the history of before, without its
    oldest entry when it was full.  The fields of the node objects are not
    part of what is put back. *)
Theorem undo_gives_back_the_map (s t t' : MindMapApp) (firstRect : Q * Q) :
  (length (history s) ≤ maxHistorySize)%nat →
  (t = addChildNode s ∨ t = addSiblingNode s ∨ ∃ nodeId color, t = changeNodeColor nodeId color s) →
  history t ≠ history s →
  undo firstRect t = Some t' →
  nodes t' = nodes s
  ∧ nodeCounter t' = nodeCounter s
  ∧ selectedNode t'
    = (if truthy (selectedNode s) && bool_decide (is_Some (Map_get_opt (selectedNode s) (nodes s)))
       then selectedNode s else None)
  ∧ history t' = (if (length (history s) <? maxHistorySize)%nat then history s
                  else tail (history s))
  ∧ same_shape (objects t) (objects t').
Proof.
  intros Hb Ht Hne Hundo.
  assert (history t = push_bounded (history s) (snapshot s)) as Hh.
  { destruct Ht as [-> | [-> | (nodeId & color & ->)]].
    - by destruct (addChildNode_history s).
    - by destruct (addSiblingNode_history s).
    - by destruct (changeNodeColor_history nodeId color s). }
  unfold undo in Hundo. rewrite Hh, push_bounded_last in Hundo.
  pose proof (updateLayout_same_shape _ _ _ Hundo) as Hshape.
  destruct (updateLayout_inv _ _ _ Hundo) as [h ->]. simpl in *.
  destruct (restore_fields (snapshot s) t) as (Ho & Hn & Hc & Hhist).
  rewrite Hn, Hc, Hhist, restore_selectedNode, Hh, removelast_push_bounded by done.
  by rewrite Ho in Hshape.
Qed.

Lemma undo_gives_back_the_map_witness :
  nodes (default fresh (undo sample_rect (addChildNode scenario))) = nodes scenario.
Proof.
  destruct (undo_gives_back_the_map scenario (addChildNode scenario)
              (default fresh (undo sample_rect (addChildNode scenario))) sample_rect)
    as [H _]; [vm_compute; lia | by left | vm_compute; discriminate | vm_compute; reflexivity |].
  exact H.
Defined.

(** ** Zooming in and out *)

(** X24. Zooming in and out again: one wheel step in and one wheel step
    out, in either order and with the pointer at the same place, give back
    the scale and the offsets of the viewport, provided that the scale in
    between stays within the limits 0.1 and 3. *)
Theorem wheel_in_and_out (v : Viewport) (pointer inner : Q * Q) (up down : Q) :
  (up < 0)%Q → (0 <= down)%Q → (1 # 10 <= vp_scale v <= 3)%Q →
  ((vp_scale v * (105 # 100) <= 3)%Q →
     let v' := wheel pointer down inner (wheel pointer up inner v) in
     (vp_scale v' == vp_scale v)%Q ∧ (vp_x v' == vp_x v)%Q ∧ (vp_y v' == vp_y v)%Q)
  ∧ ((1 # 10 <= vp_scale v / (105 # 100))%Q →
     let v' := wheel pointer up inner (wheel pointer down inner v) in
     (vp_scale v' == vp_scale v)%Q ∧ (vp_x v' == vp_x v)%Q ∧ (vp_y v' == vp_y v)%Q).
Proof.
  intros Hup Hdown [Hlo Hhi].
  assert (Qltb up 0 = true) as Eup by (by apply Qltb_lt).
  assert (Qltb down 0 = false) as Edown by (by apply Qltb_ge).
  assert (∀ q : Q, (1 # 10 <= q)%Q → (q <= 3)%Q → (Qmax (1 # 10) (Qmin 3 q) == q)%Q) as Hclamp.
  { intros q H1 H2. rewrite (Q.min_r 3 q) by done. by apply Q.max_r. }
  split.
  - intros Hin v'. unfold v', wheel. simpl. rewrite Eup, Edown.
    set (s1 := Qmax (1 # 10) (Qmin 3 (vp_scale v * (105 # 100)))).
    assert (s1 == vp_scale v * (105 # 100))%Q as E1 by (apply Hclamp; lra).
    set (s2 := Qmax (1 # 10) (Qmin 3 (s1 / (105 # 100)))).
    assert (s2 == vp_scale v)%Q as E2.
    { unfold s2. rewrite E1. rewrite Hclamp; [field | |];
        (assert (vp_scale v * (105 # 100) / (105 # 100) == vp_scale v)%Q as -> by field; lra). }
    split; [done|]. rewrite E2, E1. split; field; lra.
  - intros Hout v'. unfold v', wheel. simpl. rewrite Eup, Edown.
    set (s1 := Qmax (1 # 10) (Qmin 3 (vp_scale v / (105 # 100)))).
    assert (s1 == vp_scale v / (105 # 100))%Q as E1.
    { apply Hclamp; [done|]. assert (vp_scale v / (105 # 100) == vp_scale v * (100 # 105))%Q
        as -> by field. lra. }
    set (s2 := Qmax (1 # 10) (Qmin 3 (s1 * (105 # 100)))).
    assert (s2 == vp_scale v)%Q as E2.
    { unfold s2. rewrite E1. rewrite Hclamp; [field | |];
        (assert (vp_scale v / (105 # 100) * (105 # 100) == vp_scale v)%Q as -> by field; lra). }
    split; [done|]. rewrite E2, E1. split; field; lra.
Qed.

Lemma wheel_in_and_out_witness :
  let v := {| vp_x := 5; vp_y := 7; vp_scale := 1 |} in
  (vp_x (wheel (100, 50)%Q 1 (800, 600)%Q (wheel (100, 50)%Q (-1) (800, 600)%Q v)) == 5)%Q.
Proof.
  intros v.
  destruct (wheel_in_and_out v (100, 50)%Q (800, 600)%Q (-1) 1) as [H _];
    [reflexivity | by vm_compute | by vm_compute |].
  destruct H as (_ & H & _); [by vm_compute | exact H].
Defined.


(** ** The children of a branch node *)

Lemma forEach_store_each (f : Node.t → Node.t) (cl : list nat) (h : list Node.t) :
  NoDup cl →
  (∀ c, c ∈ cl → forEach (λ c h, store f c h) cl h !! c = f <$> h !! c)
  ∧ (∀ l, l ∉ cl → forEach (λ c h, store f c h) cl h !! l = h !! l).
Proof.
  unfold forEach. revert h. induction cl as [|a cl IH]; intros h Hnd; simpl.
  - split; [by intros c Hc%not_elem_of_nil | done].
  - apply NoDup_cons in Hnd as [Ha Hnd]. destruct (IH (store f a h) Hnd) as [IH1 IH2].
    unfold store in *. split.
    + intros c [-> | Hc]%elem_of_cons.
      * by rewrite IH2, list_lookup_alter_eq.
      * rewrite IH1 by done. rewrite list_lookup_alter_ne; [done|]. by intros ->.
    + intros l Hl. apply not_elem_of_cons in Hl as [Hla Hl].
      rewrite IH2 by done. by rewrite list_lookup_alter_ne.
Qed.

(** Every child is moved by the same distance. *)
Lemma shift_loop (d : Q) (cl : list nat) (h : list Node.t) :
  NoDup cl →
  ∀ c n, c ∈ cl → h !! c = Some n →
    ∃ n', forEach (λ child h, store (λ m, Node.set_y (Node.y m + d) m) child h) cl h !! c
          = Some n'
          ∧ (Node.y n' == Node.y n + d)%Q.
Proof.
  intros Hnd c n Hc Hn.
  destruct (forEach_store_each (λ m, Node.set_y (Node.y m + d) m) cl h Hnd) as [H _].
  rewrite (H c Hc), Hn. eexists. split; [reflexivity|]. simpl. reflexivity.
Qed.

Lemma adjustForSiblingConflicts_shift P (cl : list nat) sib sc h :
  NoDup cl →
  ∃ d : Q, ∀ c n, c ∈ cl → h !! c = Some n →
    ∃ n', adjustForSiblingConflicts P cl sib sc h !! c = Some n'
          ∧ (Node.y n' == Node.y n + d)%Q.
Proof.
  intros Hnd. unfold adjustForSiblingConflicts.
  assert (∃ d : Q, ∀ c n, c ∈ cl → h !! c = Some n →
            ∃ n', h !! c = Some n' ∧ (Node.y n' == Node.y n + d)%Q) as Hid.
  { exists 0%Q. intros c n _ Hn. exists n. split; [done | ring]. }
  destruct (Qltb (Node.y (h !!! P)) (Node.y (h !!! sib))).
  - destruct (Qgtb _ _); [|done].
    match goal with |- context [forEach (λ child h, store (λ n, Node.set_y (Node.y n - ?a) n)
                                                          child h) cl h] =>
      exists (- a)%Q; intros c n Hc Hn;
      destruct (shift_loop (- a) cl h Hnd c n Hc Hn) as (n' & Hn' & Hy) end.
    exists n'. split; [|done]. rewrite <- Hn'. f_equal.
  - destruct (Qltb _ _); [|done].
    match goal with |- context [forEach (λ child h, store (λ n, Node.set_y (Node.y n + ?a) n)
                                                          child h) cl h] =>
      exists a; intros c n Hc Hn; by apply shift_loop end.
Qed.

Lemma avoidIntersections_shift nodes P (cl : list nat) h :
  NoDup cl →
  ∃ d : Q, ∀ c n, c ∈ cl → h !! c = Some n →
    ∃ n', avoidIntersections nodes P cl h !! c = Some n' ∧ (Node.y n' == Node.y n + d)%Q.
Proof.
  intros Hnd.
  assert (∃ d : Q, ∀ c n, c ∈ cl → h !! c = Some n →
            ∃ n', h !! c = Some n' ∧ (Node.y n' == Node.y n + d)%Q) as Hid.
  { exists 0%Q. intros c n _ Hn. exists n. split; [done | ring]. }
  unfold avoidIntersections. destruct (_ || _); [done|].
  destruct (Map_get_opt _ _) as [grandParent|]; [|done].
  match goal with |- context [forEach ?ff ?ll h] =>
    apply (forEach_inv (λ h', ∃ d : Q, ∀ c n, c ∈ cl → h !! c = Some n →
                                ∃ n', h' !! c = Some n' ∧ (Node.y n' == Node.y n + d)%Q)
                       ff ll h) end; [|done].
  intros sib h1 _ [d1 H1]. destruct (_ =? _)%nat; [by exists d1|].
  match goal with |- context [adjustForSiblingConflicts ?a ?b ?c ?d ?e] =>
    destruct (adjustForSiblingConflicts_shift a b c d e Hnd) as [d2 H2] end.
  exists (d1 + d2)%Q. intros c n Hc Hn.
  destruct (H1 c n Hc Hn) as (n1 & Hn1 & Hy1).
  destruct (H2 c n1 Hc Hn1) as (n2 & Hn2 & Hy2).
  exists n2. split; [done|]. rewrite Hy2, Hy1. ring.
Qed.

(** X25. The children of a branch node are evenly spaced: on distinct
    node objects other than the parent, [layoutBranchChildrenNoIntersection]
    puts all children at the parent's x plus or minus 280 and, in the order
    of the children array, at equal vertical distances of at least 120 (the
    larger of 120 and the required space divided by the number of gaps);
    when the parent has no parent in the map the column is centred on the
    parent's y; and no other node object is written. *)
Theorem branch_children_evenly_spaced (nodes : list (string * nat)) (P : nat)
    (cl : list nat) (h : list Node.t) :
  NoDup cl → P ∉ cl → (∀ c, c ∈ cl → is_Some (h !! c)) →
  let h' := layoutBranchChildrenNoIntersection nodes P cl h in
  let spacing := Qmax 120 (calculateRequiredSpace nodes P (length cl) h
                           / ofnat (Nat.max (length cl - 1) 1)) in
  (120 <= spacing)%Q
  ∧ (∃ y0 : Q, ∀ i c, cl !! i = Some c →
       ∃ n', h' !! c = Some n'
             ∧ (Node.y n' == y0 + ofnat i * spacing)%Q
             ∧ Node.x n' = (Node.x (h !!! P) + 280 * branch_direction nodes P h)%Q)
  ∧ (Map_get_opt (Node.parent (h !!! P)) nodes = None →
       ∀ i c, cl !! i = Some c →
         ∃ n', h' !! c = Some n'
               ∧ (Node.y n' == Node.y (h !!! P) - (ofnat (length cl) - 1) * spacing / 2
                               + ofnat i * spacing)%Q)
  ∧ (∀ l, l ∉ cl → h' !! l = h !! l).
Proof.
  intros Hnd HP Hval h' spacing.
  destruct (layoutBranchChildrenNoIntersection_spec nodes P cl h Hnd HP) as [[_ Hfr] Hx].
  fold h' in Hfr, Hx.
  assert (∀ i c, cl !! i = Some c →
            ∃ n1, (forEachI (λ child index h0,
                     let h1 := store (Node.set_x (Node.x (h0 !!! P)
                                        + 280 * branch_direction nodes P h)) child h0 in
                     store (Node.set_y (Node.y (h !!! P)
                                        - (ofnat (length cl) - 1) * spacing / 2
                                        + ofnat index * spacing)) child h1) cl h) !! c = Some n1
                  ∧ Node.y n1 = (Node.y (h !!! P) - (ofnat (length cl) - 1) * spacing / 2
                                 + ofnat i * spacing)%Q) as Hloop.
  { intros i c Hi. unfold forEachI.
    match goal with |- context [forEach_from ?b cl 0%nat h] => set (body := b) end.
    set (g := λ (idx : nat) n,
           Node.set_y (Node.y (h !!! P) - (ofnat (length cl) - 1) * spacing / 2
                       + ofnat idx * spacing)%Q
             (Node.set_x (Node.x (h !!! P) + 280 * branch_direction nodes P h)%Q n)).
    assert (∀ c idx (h0 : list Node.t), c ∈ cl → h0 !! P = h !! P →
              body c idx h0 = store (g idx) c h0 ∧ store (g idx) c h0 !! P = h !! P) as Hbody.
    { intros c0 idx h0 Hc HP0. split.
      - unfold body, g. rewrite store_store. rewrite !list_lookup_total_alt, HP0. done.
      - unfold store. rewrite list_lookup_alter_ne; [done|]. by intros ->. }
    destruct (forEach_from_store body g (λ h0, h0 !! P = h !! P) cl Hbody Hnd 0%nat h eq_refl)
      as (_ & _ & Hpl).
    rewrite (Hpl i c Hi). destruct (Hval c (list_elem_of_lookup_2 _ _ _ Hi)) as [n Hn].
    rewrite Hn. simpl. eexists. split; [reflexivity|]. done. }
  assert (∀ i c, cl !! i = Some c → ∃ n', h' !! c = Some n'
            ∧ Node.x n' = (Node.x (h !!! P) + 280 * branch_direction nodes P h)%Q) as Hxs.
  { intros i c Hi. pose proof (Hx c (list_elem_of_lookup_2 _ _ _ Hi)) as E.
    destruct (Hval c (list_elem_of_lookup_2 _ _ _ Hi)) as [n Hn]. rewrite Hn in E.
    destruct (h' !! c) as [n'|]; [|done]. exists n'. split; [done|]. simpl in E. congruence. }
  split_and!.
  - apply Q.le_max_l.
  - unfold h', layoutBranchChildrenNoIntersection. cbv zeta. fold spacing.
    match goal with |- context [avoidIntersections nodes P cl ?h1] =>
      destruct (avoidIntersections_shift nodes P cl h1 Hnd) as [d Hd] end.
    exists (Node.y (h !!! P) - (ofnat (length cl) - 1) * spacing / 2 + d)%Q.
    intros i c Hi. destruct (Hloop i c Hi) as (n1 & Hn1 & Hy1).
    destruct (Hd c n1 (list_elem_of_lookup_2 _ _ _ Hi) Hn1) as (n' & Hn' & Hy').
    exists n'. split; [done|]. split; [rewrite Hy', Hy1; ring|].
    destruct (Hxs i c Hi) as (n'' & Hn'' & Hx'').
    unfold h', layoutBranchChildrenNoIntersection in Hn''. cbv zeta in Hn''.
    fold spacing in Hn''. congruence.
  - intros Hgp i c Hi. destruct (Hloop i c Hi) as (n1 & Hn1 & Hy1).
    exists n1. split; [|by rewrite Hy1].
    unfold h', layoutBranchChildrenNoIntersection. cbv zeta. fold spacing.
    unfold avoidIntersections.
    match goal with |- context [forEachI ?b cl h] => set (h1 := forEachI b cl h) in * end.
    assert (Node.parent (h1 !!! P) = Node.parent (h !!! P)) as ->.
    { assert (h1 !! P = h !! P) as E.
      { unfold h1, forEachI.
        match goal with |- context [forEach_from ?b cl 0%nat h] => set (body := b) end.
        set (g := λ (idx : nat) n,
               Node.set_y (Node.y (h !!! P) - (ofnat (length cl) - 1) * spacing / 2
                           + ofnat idx * spacing)%Q
                 (Node.set_x (Node.x (h !!! P) + 280 * branch_direction nodes P h)%Q n)).
        assert (∀ c idx (h0 : list Node.t), c ∈ cl → h0 !! P = h !! P →
                  body c idx h0 = store (g idx) c h0 ∧ store (g idx) c h0 !! P = h !! P)
          as Hbody.
        { intros c0 idx h0 Hc HP0. split.
          - unfold body, g. rewrite store_store. rewrite !list_lookup_total_alt, HP0. done.
          - unfold store. rewrite list_lookup_alter_ne; [done|]. by intros ->. }
        by destruct (forEach_from_store body g (λ h0, h0 !! P = h !! P) cl Hbody Hnd
                       0%nat h eq_refl) as (? & _ & _). }
      by rewrite !list_lookup_total_alt, E. }
    rewrite Hgp. by destruct (_ || _).
  - intros l Hl. by apply Hfr.
Qed.

Lemma branch_children_evenly_spaced_witness :
  ∃ y0 : Q, ∀ i c, [1%nat; 2%nat] !! i = Some c →
    ∃ n', layoutBranchChildrenNoIntersection [] 0 [1%nat; 2%nat]
            [Node.dummy; Node.dummy; Node.dummy] !! c = Some n'
          ∧ (Node.y n' == y0 + ofnat i * Qmax 120 (200 / 1))%Q.
Proof.
  destruct (branch_children_evenly_spaced [] 0 [1%nat; 2%nat]
              [Node.dummy; Node.dummy; Node.dummy]) as (_ & [y0 H] & _).
  - by apply NoDup_cons_2; [set_solver | apply NoDup_singleton].
  - set_solver.
  - intros c [-> | ->%list_elem_of_singleton]%elem_of_cons; by eexists.
  - exists y0. intros i c Hi. destruct (H i c Hi) as (n' & H1 & H2 & _).
    exists n'. split; [exact H1 | exact H2].
Defined.

(** ** Editing a text *)

Lemma Map_get_set_eq k v (m : list (string * nat)) : Map_get k (Map_set k v m) = Some v.
Proof.
  induction m as [|[k0 v0] m IH]; simpl; [by rewrite decide_True|].
  destruct (decide (k0 = k)) as [-> | Hne]; simpl; [by rewrite decide_True|].
  by rewrite decide_False.
Qed.

Lemma Map_get_delete_eq k (m : list (string * nat)) : Map_get k (Map_delete k m) = None.
Proof.
  apply Map_get_None. unfold Map_keys, Map_delete. intros Hin.
  apply list_elem_of_fmap in Hin as (e & -> & He). by apply list_elem_of_filter in He as [? _].
Qed.

(** X26. An edit commits its text: on a node of the map that has its
    element, while no node is being edited, start-editing returns with a
    textarea in the element, and the stop-editing that follows, with the
    trimmed input [value], returns and stores [value] as the text of that
    node, or "ノード" when [value] is empty, takes the textarea away, and
    leaves every other node object, the map, the selection, the counter and
    the history as they are (no snapshot is taken); opening the editor on
    another node instead commits the pending input in the same way; and
    stop-editing does nothing when no node is being edited. *)
Theorem edit_commits_text (s : MindMapApp) (k : string) (l : nat) (n : Node.t)
    (pending value : string) :
  Map_get k (nodes s) = Some l → objects s !! l = Some n →
  getNodeElement k s = true → k ≠ "" → truthy (editingNode s) = false →
  ∃ s1 s2,
    startEditing k pending s = Normal s1 ∧ stopEditing value s1 = Normal s2
    ∧ editingNode s1 = Some k ∧ objects s1 = objects s ∧ nodeInput k s1 = Some l
    ∧ objects s2 !! l = Some (Node.set_text (if String.eqb value "" then "ノード" else value) n)
    ∧ (∀ l', l' ≠ l → objects s2 !! l' = objects s !! l')
    ∧ editingNode s2 = None ∧ nodeInput k s2 = None
    ∧ nodes s2 = nodes s ∧ selectedNode s2 = selectedNode s
    ∧ nodeCounter s2 = nodeCounter s ∧ history s2 = history s
    ∧ (∀ k', objects (startEditing k' value s1) = objects s2
             ∧ editingNode (startEditing k' value s1) = Some k')
    ∧ stopEditing value s2 = Normal s2.
Proof.
  intros Hk Hn Hel Hne Hed.
  assert (truthy (Some k) = true) as Htk.
  { simpl. by destruct (String.eqb_spec k ""). }
  set (s1 := with_inputs (Map_set k l (inputs s)) (with_editingNode (Some k) s)).
  set (s2 := with_editingNode None
               (with_inputs (Map_delete k (inputs s1))
                  (with_objects (store (Node.set_text (if String.eqb value "" then "ノード"
                                                       else value)) l (objects s1)) s1))).
  assert (startEditing k pending s = Normal s1) as H1.
  { unfold startEditing. rewrite Hed.
    change (getNodeElement k (with_editingNode (Some k) s)) with (getNodeElement k s).
    rewrite Hel. simpl. by rewrite Hk. }
  assert (nodeInput k s1 = Some l) as Hi1.
  { unfold nodeInput. change (getNodeElement k s1) with (getNodeElement k s).
    rewrite Hel. simpl. apply Map_get_set_eq. }
  assert (stopEditing value s1 = Normal s2) as H2.
  { unfold stopEditing. change (editingNode s1) with (Some k). cbv iota beta.
    rewrite Htk, Hi1. change (getNodeElement k s1) with (getNodeElement k s). rewrite Hel.
    change (nodes s1) with (nodes s). by rewrite Hk. }
  exists s1, s2. split_and!; try done.
  - simpl. unfold store. by rewrite list_lookup_alter_eq, Hn.
  - intros l' Hl'. simpl. unfold store. by rewrite list_lookup_alter_ne.
  - unfold nodeInput. change (getNodeElement k s2) with (getNodeElement k s).
    rewrite Hel. apply Map_get_delete_eq.
  - intros k'. unfold startEditing. change (editingNode s1) with (Some k).
    rewrite Htk, H2.
    change (getNodeElement k' (with_editingNode (Some k') s2)) with (getNodeElement k' s2).
    destruct (getNodeElement k' s2); [|done].
    by destruct (Map_get k' (nodes (with_editingNode (Some k') s2))).
Qed.

Lemma edit_commits_text_witness :
  ∃ s1 s2, startEditing "node-2" "" scenario = Normal s1 ∧ stopEditing "" s1 = Normal s2
           ∧ objects s2 !! 1%nat = Some (Node.set_text "ノード" (objects scenario !!! 1%nat)).
Proof.
  destruct (edit_commits_text scenario "node-2" 1 (objects scenario !!! 1%nat) "" "")
    as (s1 & s2 & H1 & H2 & _ & _ & _ & H & _);
    [vm_compute; reflexivity | vm_compute; reflexivity | vm_compute; reflexivity
    | discriminate | vm_compute; reflexivity |].
  exists s1, s2. exact (conj H1 (conj H2 H)).
Defined.

(** ** Keys typed into the editor *)

(** X16. Keys in the editor: let the node [k] be the one being edited, with
    its textarea open, and let a key that is no undo be typed into that
    textarea.  Enter without Shift ends the edit (when [k] is in the map,
    the trimmed input is stored and the textarea goes) and, the edit being
    over when the event reaches the listeners of the document, acts there
    as Enter does outside an editor: with a selected node, add-sibling runs
    on the committed state, so that for a selected, edited node below the
    root the one key press stores the text and appends a new sibling to the
    map.  Escape ends the edit with the text of the node object the editor
    was opened on.  Shift+Enter and every other key leave the state as it
    is. *)
Theorem enter_in_editor_adds_sibling (s : MindMapApp) (k : string) (nodeData : nat)
    (e : KeyEvent) (firstRect : Q * Q) (pending : string) :
  editingNode s = Some k → k ≠ "" → nodeInput k s = Some nodeData → target e = Some k →
  is_undo (KeyDown e firstRect pending) = false →
  let text := if String.eqb pending "" then "ノード" else pending in
  (key e = "Enter" → shiftKey e = false →
     ∃ sc, stopEditing pending s = Normal sc
           ∧ editingNode sc = None
           ∧ (∀ l, Map_get k (nodes s) = Some l →
                objects sc = store (Node.set_text text) l (objects s)
                ∧ nodeInput k sc = None)
           ∧ keydown e firstRect pending s
             = Some (if truthy (selectedNode s) then addSiblingNode sc else sc)
           ∧ (∀ l n p lp,
                selectedNode s = Some k → Map_get k (nodes s) = Some l → objects s !! l = Some n →
                Node.level n ≠ 0 → Node.parent n = Some p → Map_get p (nodes s) = Some lp →
                id_of (nodeCounter s + 1) ∉ Map_keys (nodes s) →
                ∃ s', keydown e firstRect pending s = Some s'
                      ∧ nodes s' = nodes s ++ [(id_of (nodeCounter s + 1), length (objects s))]
                      ∧ Node.text <$> node_at s' k = Some text
                      ∧ selectedNode s' = Some (id_of (nodeCounter s + 1))
                      ∧ editingNode s' = None
                      ∧ history s' = push_bounded (history s) (snapshot sc)))
  ∧ (key e = "Escape" →
       keydown e firstRect pending s
       = Some (state_of (stopEditing (trim (Node.text (objects s !!! nodeData))) s)))
  ∧ (key e ≠ "Escape" → key e ≠ "Enter" ∨ shiftKey e = true →
       keydown e firstRect pending s = Some s).
Proof.
  intros Hed Hk Hin Ht Hz text.
  assert (truthy (Some k) = true) as Htk.
  { simpl. by destruct (String.eqb_spec k ""). }
  assert (getNodeElement k s = true) as Hel.
  { unfold nodeInput in Hin. by destruct (getNodeElement k s). }
  assert (∀ v, ∃ sc, stopEditing v s = Normal sc ∧ editingNode sc = None
                     ∧ selectedNode sc = selectedNode s
                     ∧ nodes sc = nodes s ∧ nodeCounter sc = nodeCounter s
                     ∧ history sc = history s
                     ∧ (∀ l, Map_get k (nodes s) = Some l →
                          objects sc = store (Node.set_text (if String.eqb v "" then "ノード"
                                                             else v)) l (objects s)
                          ∧ nodeInput k sc = None)) as Hstop.
  { intros v. unfold stopEditing. rewrite Hed. cbv iota beta. rewrite Htk, Hel, Hin. simpl.
    destruct (Map_get k (nodes s)) as [l|] eqn:Hl.
    - eexists. split; [reflexivity|]. split_and!; try done.
      intros l' [= <-]. split; [done|]. unfold nodeInput. simpl.
      change (getNodeElement k _) with (getNodeElement k s). rewrite Hel.
      apply Map_get_delete_eq.
    - eexists. split; [reflexivity|]. split_and!; done. }
  assert (∀ t, keyPan (key e) (viewport t) = None → keydownPan e t = t) as Hpan.
  { intros t Hp. unfold keydownPan. destruct (truthy (editingNode t)); [done | by rewrite Hp]. }
  split_and!.
  - intros Hkey Hshift.
    destruct (Hstop pending) as (sc & Hsc & Hedc & Hselc & Hnc & Hcc & Hhc & Hobj).
    assert (keydown e firstRect pending s
            = Some (if truthy (selectedNode s) then addSiblingNode sc else sc)) as Hkd.
    { unfold keydown. rewrite Ht, Hin. unfold inputKeyDown. rewrite Hkey, Hshift, Hsc.
      cbn [String.eqb Ascii.eqb Bool.eqb andb negb state_of].
      unfold handleKeyDown. rewrite Hkey, Hselc, Hedc.
      cbn [String.eqb Ascii.eqb Bool.eqb andb]. rewrite andb_false_r.
      cbn [truthy orb]. rewrite orb_false_r.
      destruct (truthy (selectedNode s)) eqn:Hts; cbn [negb].
      - destruct (selectedNode s) as [sel|]; [|done]. cbn [mbind option_bind].
        by rewrite Hpan by (by rewrite Hkey).
      - cbn [mbind option_bind]. by rewrite Hpan by (by rewrite Hkey). }
    exists sc. split_and!; try done.
    intros l n p lp Hsel Hl Hn Hlev Hpar Hp Hfresh.
    destruct (Hobj l Hl) as [Hob _].
    assert (objects sc !! l = Some (Node.set_text text n)) as Hnl.
    { rewrite Hob. unfold store. by rewrite list_lookup_alter_eq, Hn. }
    assert (length (objects sc) = length (objects s)) as Hlen.
    { rewrite Hob. unfold store. apply length_alter. }
    destruct (addSiblingNode_fields sc k l p lp)
      as (Hnodes & Hobjs & Hsel' & Hcnt & Hhist & _ & _ & Hed');
      [congruence | congruence
      | by rewrite (list_lookup_total_correct _ _ _ Hnl)
      | by rewrite (list_lookup_total_correct _ _ _ Hnl)
      | congruence | by rewrite Hnc, Hcc |].
    rewrite Hkd, Hsel, Htk. eexists. split; [reflexivity|].
    rewrite Hnodes, Hsel', Hhist, Hed', Hnc, Hcc, Hlen, Hhc. split_and!; try done.
    unfold node_at. rewrite Hnodes, Hnc, Map_get_app, Hl. simpl. rewrite Hobjs.
    assert (l < length (objects sc))%nat as Hlt by (by eapply lookup_lt_Some).
    unfold store. destruct (decide (l = lp)) as [<- | Hne].
    + rewrite list_lookup_alter_eq, lookup_app_l, Hnl by done. done.
    + rewrite list_lookup_alter_ne, lookup_app_l, Hnl by done. done.
  - intros Hkey. set (v := trim (Node.text (objects s !!! nodeData))).
    destruct (Hstop v) as (sc & Hsc & Hedc & Hselc & _).
    unfold keydown. rewrite Ht, Hin. unfold inputKeyDown. rewrite Hkey.
    cbn [String.eqb Ascii.eqb Bool.eqb andb].
    rewrite (bool_decide_eq_true_2 _ Hed). fold v. rewrite Hsc. cbn [state_of].
    unfold handleKeyDown. rewrite Hkey, Hselc, Hedc.
    cbn [String.eqb Ascii.eqb Bool.eqb andb]. rewrite andb_false_r.
    cbn [truthy orb]. rewrite orb_false_r.
    destruct (truthy (selectedNode s)) eqn:Hts; cbn [negb].
    + destruct (selectedNode s) as [sel|]; [|done]. cbn [mbind option_bind orb].
      by rewrite Hpan by (by rewrite Hkey).
    + cbn [mbind option_bind]. by rewrite Hpan by (by rewrite Hkey).
  - intros Hesc Hor. unfold keydown. rewrite Ht, Hin. unfold inputKeyDown.
    assert (String.eqb (key e) "Enter" && negb (shiftKey e) = false) as ->.
    { destruct Hor as [Hne | ->]; [|by rewrite andb_false_r].
      by destruct (String.eqb_spec (key e) "Enter"). }
    assert (String.eqb (key e) "Escape" = false) as ->
      by (by destruct (String.eqb_spec (key e) "Escape")).
    cbn [state_of]. unfold handleKeyDown. simpl in Hz. rewrite Hz, Hed, Htk, orb_true_r.
    cbn [mbind option_bind]. unfold keydownPan. by rewrite Hed, Htk.
Qed.

Lemma enter_in_editor_adds_sibling_witness :
  ∃ s', keydown {| metaKey := false; ctrlKey := false; shiftKey := false; key := "Enter";
                   target := Some "node-4" |} sample_rect "idea"
                (startEditing "node-4" "" scenario) = Some s'
        ∧ Map_keys (nodes s') = ["node-1"; "node-2"; "node-3"; "node-4"; "node-5"]
        ∧ Node.text <$> node_at s' "node-4" = Some "idea".
Proof.
  destruct (enter_in_editor_adds_sibling (startEditing "node-4" "" scenario) "node-4" 3%nat
              {| metaKey := false; ctrlKey := false; shiftKey := false; key := "Enter";
                 target := Some "node-4" |} sample_rect "idea") as [H _];
    [reflexivity | discriminate | vm_compute; reflexivity | reflexivity | reflexivity |].
  destruct (H eq_refl eq_refl) as (sc & _ & _ & _ & _ & H').
  destruct (H' 3%nat (objects scenario !!! 3%nat) "node-2" 1%nat) as (s' & H1 & H2 & H3 & _);
    [vm_compute; reflexivity | vm_compute; reflexivity | vm_compute; reflexivity
    | vm_compute; discriminate | vm_compute; reflexivity | vm_compute; reflexivity
    | vm_compute; intros Hin; repeat (apply elem_of_cons in Hin as [Hin | Hin]; [discriminate|]);
      by apply elem_of_nil in Hin |].
  exists s'. split; [exact H1|]. split; [|exact H3].
  unfold Map_keys. rewrite H2. vm_compute. reflexivity.
Defined.


(** ** The elements of the page *)

Lemma remove_element_filter N (l : list string) :
  NoDup l → remove_element N l = filter (λ k, k ≠ N) l.
Proof.
  induction l as [|k l IH]; intros Hnd; [done|]. apply NoDup_cons in Hnd as [Hk Hnd].
  simpl. rewrite filter_cons. destruct (decide (k = N)) as [-> | Hne].
  - rewrite decide_False by (by intros ?). symmetry. apply filter_all.
    intros x Hx ->. done.
  - rewrite decide_True by done. by rewrite IH.
Qed.

Lemma Map_delete_keys_filter N (m : list (string * nat)) :
  Map_keys (Map_delete N m) = filter (λ k, k ≠ N) (Map_keys m).
Proof. unfold Map_delete. by apply Map_keys_filter. Qed.

Lemma elements_ok_ext s s' :
  elements s' = elements s → nodes s' = nodes s → history s' = history s →
  elements_ok s → elements_ok s'.
Proof. unfold elements_ok. by intros -> -> ->. Qed.

Lemma elements_ok_save s : elements_ok s → elements_ok (saveToHistory s).
Proof.
  intros (He & Hnd & Hh). unfold elements_ok. simpl. split_and!; try done.
  intros e [? | ->]%push_bounded_elem; [by apply Hh | done].
Qed.

Lemma elements_ok_add s s' c l :
  elements_ok s → c ∉ Map_keys (nodes s) →
  nodes s' = nodes s ++ [(c, l)] → elements s' = elements s ++ [c] →
  history s' = push_bounded (history s) (snapshot s) → elements_ok s'.
Proof.
  intros (He & Hnd & Hh) Hc Hn Hel Hhi. unfold elements_ok. rewrite Hn, Hel, Hhi, He.
  unfold Map_keys. rewrite fmap_app. simpl. split_and!; [done | |].
  - apply NoDup_app. split_and!; [done | | apply NoDup_singleton].
    intros x Hx ->%list_elem_of_singleton. done.
  - intros e [? | ->]%push_bounded_elem; [by apply Hh | done].
Qed.

Lemma addChildNode_elements_ok s :
  counter_inv s → elements_ok s → elements_ok (addChildNode s).
Proof.
  intros [Hids _] Hok. pose proof (ids_below_fresh s Hids) as Hfresh. simpl in Hfresh.
  destruct (Map_get_opt (selectedNode s) (nodes s)) as [lk|] eqn:Hg;
    [|by rewrite addChildNode_none].
  destruct (selectedNode s) as [k|] eqn:Hsel; [|done]. simpl in Hg.
  destruct (addChildNode_fields s k lk Hsel Hg Hfresh) as (Hn & _ & _ & _ & Hh & He & _).
  by eapply elements_ok_add.
Qed.

Lemma addSiblingNode_elements_ok s :
  counter_inv s → elements_ok s → elements_ok (addSiblingNode s).
Proof.
  intros [Hids _] Hok. pose proof (ids_below_fresh s Hids) as Hfresh. simpl in Hfresh.
  destruct (Map_get_opt (selectedNode s) (nodes s)) as [lk|] eqn:Hg;
    [|by unfold addSiblingNode; rewrite Hg].
  destruct (selectedNode s) as [k|] eqn:Hsel; [|done]. simpl in Hg.
  destruct (Z.eqb_spec (Node.level (objects s !!! lk)) 0) as [Hlev | Hlev].
  { unfold addSiblingNode. rewrite Hsel. simpl. by rewrite Hg, Hlev. }
  destruct (Map_get_opt (Node.parent (objects s !!! lk)) (nodes s)) as [lp|] eqn:Hp.
  - destruct (Node.parent (objects s !!! lk)) as [p|] eqn:Hpar; [|done]. simpl in Hp.
    destruct (addSiblingNode_fields s k lk p lp Hsel Hg Hlev Hpar Hp Hfresh)
      as (Hn & _ & _ & _ & Hh & He & _).
    by eapply elements_ok_add.
  - unfold addSiblingNode. rewrite Hsel. simpl. rewrite Hg.
    destruct (Z.eqb_spec (Node.level (objects s !!! lk)) 0); [done|]. by rewrite Hp.
Qed.

Lemma deleteNode_rec_elements_ok fuel :
  ∀ N s s', deleteNode_rec fuel N s = Some s' → elements_ok s → elements_ok s'.
Proof.
  induction fuel as [|fuel IH]; intros N s s' H Hok; [done|]. simpl in H.
  destruct (Map_get N (nodes s)) as [l|]; [|by injection H as <-].
  destruct (Node.level (objects s !!! l) =? 0); [by injection H as <-|].
  destruct (forEachM _ _ _) as [s2|] eqn:E; [|done]. simpl in H. injection H as <-.
  assert (elements_ok s2) as Hok2.
  { eapply (forEachM_inv elements_ok); [|exact E|by apply elements_ok_save].
    intros a t t' _ Ha Ht. by eapply IH. }
  set (s3 := if truthy _ then _ else s2).
  assert (elements_ok s3) as (He & Hnd & Hh).
  { unfold s3. destruct (truthy _); [|done]. destruct (Map_get_opt _ _); [|done].
    by apply (elements_ok_ext s2). }
  clearbody s3.
  assert (elements_ok (with_nodes (Map_delete N (nodes s3))
                         (with_inputs (Map_delete N (inputs s3))
                            (with_elements (remove_element N (elements s3)) s3)))) as Hok4.
  { unfold elements_ok. simpl. rewrite Map_delete_keys_filter, He.
    split_and!; [by apply remove_element_filter | by apply NoDup_filter | done]. }
  simpl. destruct (bool_decide _); [|done]. by apply (elements_ok_ext _ _ eq_refl eq_refl eq_refl).
Qed.

Lemma restore_elements e s :
  elements (restore e s)
  = map (λ l, Node.id (objects s !!! l)) (Map_values (saved_nodes e)).
Proof.
  unfold restore. cbv zeta. rewrite createNodeElements_eq.
  destruct (_ && _); done.
Qed.

Lemma undo_elements_ok firstRect s s' :
  undo firstRect s = Some s' → session_inv s → elements_ok s → elements_ok s'.
Proof.
  unfold undo. destruct (last (history s)) as [e|] eqn:El; [|by intros [= <-]].
  intros H (_ & _ & _ & Hhist & _) (He & Hnd & Hh).
  destruct (updateLayout_inv _ _ _ H) as [h ->].
  assert (e ∈ history s) as Hin.
  { apply last_Some in El as [l' ->]. apply elem_of_app. right. by left. }
  destruct (Hhist e Hin) as [[_ Hent] _].
  destruct (restore_fields e s) as (_ & Hn & _ & Hhi).
  unfold elements_ok. simpl. rewrite Hn, Hhi, restore_elements. split_and!.
  - unfold Map_values, Map_keys. apply list_eq. intros i. rewrite !list_lookup_fmap.
    destruct (saved_nodes e !! i) as [[k l]|] eqn:Ei; [|done]. simpl. f_equal.
    destruct (Hent k l (list_elem_of_lookup_2 _ _ _ Ei)) as (n & Ho & Hid).
    by rewrite (list_lookup_total_correct _ _ _ Ho).
  - by apply Hh.
  - intros e' He'%elem_of_removelast. by apply Hh.
Qed.

Lemma changeNodeColor_elements_ok nodeId color s :
  elements_ok s → elements_ok (changeNodeColor nodeId color s).
Proof.
  intros Hok. unfold changeNodeColor. destruct nodeId as [k|]; [|done].
  destruct (negb _); [done|]. pose proof (elements_ok_save s Hok) as Hs. simpl.
  destruct (Map_get k (nodes s)); [|done]. destruct (getNodeElement _ _); [|done].
  by apply (elements_ok_ext (saveToHistory s)).
Qed.

Lemma stopEditing_elements_ok value s : elements_ok s → elements_ok (stopEditing value s).
Proof.
  intros Hok.
  destruct (stopEditing_state value s) as [-> | [-> | (k & l & _ & _ & _ & _ & ->)]];
    [done | by apply (elements_ok_ext s)..].
Qed.

Lemma startEditing_elements_ok nodeId pending s :
  elements_ok s → elements_ok (startEditing nodeId pending s).
Proof.
  intros Hok. pose proof (stopEditing_elements_ok pending s Hok) as Hok'.
  destruct (startEditing_state nodeId pending s) as (t & Ht & Hs).
  assert (elements_ok t) as H by (by destruct Ht as [-> | ->]).
  destruct Hs as [-> | [-> | (l & _ & _ & ->)]]; [done | by apply (elements_ok_ext t)..].
Qed.

Lemma step_elements_ok c s s' :
  step c s = Some s' → session_inv s → counter_inv s → elements_ok s → elements_ok s'.
Proof.
  intros H Hinv Hcnt Hok. destruct c; simpl in H; try (injection H as <-).
  - by apply addChildNode_elements_ok.
  - by apply addSiblingNode_elements_ok.
  - by eapply deleteNode_rec_elements_ok.
  - by apply (elements_ok_ext s).
  - by apply changeNodeColor_elements_ok.
  - by apply startEditing_elements_ok.
  - by apply stopEditing_elements_ok.
  - by apply (elements_ok_ext s).
  - by apply (elements_ok_ext s).
  - by apply (elements_ok_ext s).
  - destruct (updateLayout_inv _ _ _ H) as [h ->]. by apply (elements_ok_ext s).
  - by eapply undo_elements_ok.
Qed.

Lemma handle_all ev s s' :
  handle ev s = Some s' → session_inv s ∧ counter_inv s ∧ elements_ok s →
  session_inv s' ∧ counter_inv s' ∧ elements_ok s'.
Proof.
  intros H (Hinv & Hcnt & Hok). split; [by eapply handle_inv|].
  apply handle_run in H as (cs & s1 & H & Hs').
  assert (session_inv s1 ∧ counter_inv s1 ∧ elements_ok s1) as (_ & ? & ?).
  { eapply (forEachM_inv (λ t, session_inv t ∧ counter_inv t ∧ elements_ok t)); [|exact H|done].
    intros c t t' _ Hc (? & ? & ?).
    split_and!; [by eapply step_inv | by eapply step_counter_inv | by eapply step_elements_ok]. }
  destruct Hs' as [-> | [e ->]]; [done|]. destruct (keydownPan_viewport e s1) as [v ->].
  split; [by apply (counter_inv_ext s1) | by apply (elements_ok_ext s1)].
Qed.

(** X27. The page shows the map: in every state reached from a fresh
    start by commands and key presses, undo included, the node elements of
    the page are exactly the ids of the map, each once and in the order of
    the map; so [getNodeElement] finds an element exactly for the ids of the
    map. *)
Theorem elements_mirror_the_map (evs : list event) (s' : MindMapApp) :
  session evs fresh = Some s' →
  elements s' = Map_keys (nodes s') ∧ NoDup (elements s')
  ∧ ∀ k, getNodeElement k s' = true ↔ is_Some (Map_get k (nodes s')).
Proof.
  intros H.
  assert (session_inv s' ∧ counter_inv s' ∧ elements_ok s') as (_ & _ & He & Hnd & _).
  { revert H. unfold session. generalize fresh_session_inv fresh_counter_inv.
    assert (elements_ok fresh) as Hok.
    { unfold elements_ok. split_and!; [done | vm_compute; apply NoDup_singleton |].
      intros e He. vm_compute in He. by apply not_elem_of_nil in He. }
    revert Hok. generalize fresh. induction evs as [|ev evs IH]; intros s Hok Hinv Hcnt H;
      simpl in H.
    - by injection H as <-.
    - destruct (handle ev s) as [s1|] eqn:E; [|done].
      destruct (handle_all ev s s1 E) as (? & ? & ?); [done|]. by eapply IH. }
  split_and!; [done | by rewrite He |].
  intros k. unfold getNodeElement. rewrite bool_decide_eq_true, He.
  rewrite <- not_eq_None_Some, Map_get_None. split; [by intros ? ? | apply dec_stable].
Qed.

Lemma elements_mirror_the_map_witness :
  let s' := default fresh (session [Command AddChild; Command (Delete "node-2");
                                    Command (Undo sample_rect)] fresh) in
  elements s' = Map_keys (nodes s').
Proof.
  intros s'.
  destruct (elements_mirror_the_map
              [Command AddChild; Command (Delete "node-2"); Command (Undo sample_rect)] s')
    as [H _]; [vm_compute; reflexivity | exact H].
Defined.
